(** * A shallow embedding of the bitcask storage engine

    The record codec, the segment writer and reader with its replay, the
    ordered index, the engine (open, put, get, delete, range scan, hint, merge,
    close) and the batch, followed by the properties proved about them. *)

From Stdlib Require Import ZArith List Lia Bool.
From Stdlib Require Import Strings.Byte.
From stdpp Require Import base option list gmap.
Import ListNotations.
Local Open Scope Z_scope.

(** * Bytes and fixed-width integers *)

Abbreviation bytes := (list byte).

#[global] Instance byte_eq_dec : EqDecision byte := Byte.byte_eq_dec.

#[global] Instance byte_countable : Countable byte :=
  inj_countable Byte.to_N Byte.of_N Byte.of_to_N.

(** [len] is Go's [len], an [int] large enough for every slice. *)
Definition len {A : Type} (l : list A) : Z := Z.of_nat (length l).

(** Conversion to [uint32]. *)
Definition wrap32 (z : Z) : Z := z mod 2 ^ 32.

Definition Z_of_byte (b : byte) : Z := Z.of_N (Byte.to_N b).

(** Conversion to [byte] (truncation to the low eight bits). *)
Definition byte_of_Z (z : Z) : byte :=
  default x00 (Byte.of_N (Z.to_N (z mod 256))).

(** encoding/binary, BigEndian: PutUint32 and Uint32. *)
Definition put_u32be (v : Z) : bytes :=
  [ byte_of_Z (Z.shiftr v 24); byte_of_Z (Z.shiftr v 16);
    byte_of_Z (Z.shiftr v 8); byte_of_Z v ].

Definition get_u32be (b : bytes) : Z :=
  match b with
  | b0 :: b1 :: b2 :: b3 :: _ =>
      Z_of_byte b0 * 2 ^ 24 + Z_of_byte b1 * 2 ^ 16 + Z_of_byte b2 * 2 ^ 8 + Z_of_byte b3
  | _ => 0
  end.

(** hash/crc32, ChecksumIEEE: the reflected CRC-32 with polynomial
    0xEDB88320, initial value and final xor 0xFFFFFFFF. *)
Definition crc_shift (c : Z) : Z :=
  if Z.testbit c 0 then Z.lxor (Z.shiftr c 1) 0xEDB88320 else Z.shiftr c 1.

Definition crc_update (c : Z) (b : byte) : Z :=
  Nat.iter 8 crc_shift (Z.lxor c (Z_of_byte b)).

Definition ChecksumIEEE (data : bytes) : Z :=
  Z.lxor (fold_left crc_update data 0xFFFFFFFF) 0xFFFFFFFF.

(** * Outcomes of fallible code

    A Go function either returns normally, returns a non-nil [error], or
    panics (a slice expression out of range, a write to a nil map). *)

Inductive error : Type :=
  | ErrKeyNotFound            (* bitcask.ErrKeyNotFound *)
  | ErrKeyHasDeleted          (* bitcask.ErrKeyHasDeleted *)
  | ErrReachLimit             (* bitcask.ErrReachLimit *)
  | ErrExceedEndRange         (* bitcask.ErrExceedEndRange *)
  | ErrKeyNil                 (* "key cannot be nil" *)
  | ErrFileNotFound (fid : Z) (* "file not found: fileId=%d" *)
  | ErrPosNil                 (* "position is nil" *)
  | ErrOutOfFileRange         (* "read position out of file range" *)
  | ErrTooShort               (* "record data too short" *)
  | ErrTooLarge               (* "key or value length too large" *)
  | ErrIncomplete             (* "record data incomplete" *)
  | ErrReadCrc                (* "failed to read crc" *)
  | ErrCrcMismatch            (* "crc mismatch" *)
  | ErrIO                     (* an error of the file system *)
  | ErrTxnMismatch            (* "事务ID不匹配" *)
  | ErrBatchTooLarge          (* "批处理大小超过限制" *)
  | ErrHintCorrupt            (* a failed read of the hint file *)
  | ErrWrapped (e : error)    (* fmt.Errorf("...: %v", err) *)
  | ErrFuel.                  (* the replay loop of the model ran out of fuel *)

Inductive outcome (A : Type) : Type :=
  | Ok (a : A)
  | Err (e : error)
  | Panic.
Arguments Ok {A} a.
Arguments Err {A} e.
Arguments Panic {A}.

Definition bind {A B : Type} (f : A -> outcome B) (m : outcome A) : outcome B :=
  match m with
  | Ok a => f a
  | Err e => Err e
  | Panic => Panic
  end.

#[global] Instance outcome_bind : MBind outcome := @bind.

#[global] Instance error_eq_dec : EqDecision error.
Proof. solve_decision. Defined.

(** A slice expression [b[lo:hi]] on a slice whose capacity is its length. *)
Definition slice (b : bytes) (lo hi : Z) : outcome bytes :=
  if (0 <=? lo) && (lo <=? hi) && (hi <=? len b)
  then Ok (take (Z.to_nat (hi - lo)) (drop (Z.to_nat lo) b))
  else Panic.

(** * utils: the key comparator and the transaction-id prefix *)

(** bytes.Compare: lexicographic order on unsigned bytes. *)
Fixpoint bytes_Compare (a b : bytes) : Z :=
  match a, b with
  | [], [] => 0
  | [], _ :: _ => -1
  | _ :: _, [] => 1
  | x :: a', y :: b' =>
      if Z_of_byte x <? Z_of_byte y then -1
      else if Z_of_byte y <? Z_of_byte x then 1
      else bytes_Compare a' b'
  end.

Module KeyComparator.

Definition Compare (a b : bytes) : Z :=
  if negb (len a =? len b) then
    if len a <? len b then -1 else 1
  else bytes_Compare a b.

Definition Equal (a b : bytes) : bool :=
  (len a =? len b) && (bytes_Compare a b =? 0).

Definition Less (a b : bytes) : bool :=
  if negb (len a =? len b) then len a <? len b
  else bytes_Compare a b <? 0.

Definition Greater (a b : bytes) : bool :=
  if negb (len a =? len b) then len a >? len b
  else bytes_Compare a b >? 0.

Definition LessOrEqual (a b : bytes) : bool := Less a b || Equal a b.

Definition GreaterOrEqual (a b : bytes) : bool := Greater a b || Equal a b.

Definition InRange (key start end_ : bytes) : bool :=
  GreaterOrEqual key start && LessOrEqual key end_.

End KeyComparator.

Definition EncodeTxnId (txnId : Z) (key : bytes) : bytes :=
  put_u32be txnId ++ key.

(** [data[:4]] then [data[4:]]: with fewer than four bytes the second
    slice expression panics (if the first did not). *)
Definition DecodeTxnId (data : bytes) : outcome (Z * bytes) :=
  if len data <? 4 then Panic
  else Ok (get_u32be (take 4 data), drop 4 data).

(** * record: types, constructors and the codec *)

(** [type RecordType uint8]: every byte value is a RecordType. *)
Abbreviation RecordType := byte.

Definition RecordTypePut : RecordType := x00.
Definition RecordTypeDelete : RecordType := x01.
Definition RecordTypeBegin : RecordType := x02.
Definition RecordTypeTxnPut : RecordType := x03.
Definition RecordTypeTxnDelete : RecordType := x04.
Definition RecordTypeTxnCommit : RecordType := x05.

(** A nil [Value] and an empty one are the same byte string; only the
    constructors below look at nil-ness, so a record stores the bytes. *)
Record Record_ : Type := mkRecord {
  RecordType_ : RecordType;
  Key : bytes;
  Value : bytes
}.

Record Pos : Type := mkPos {
  FileId : Z;
  Offset : Z;
  Length : Z
}.

#[global] Instance Record_eq_dec : EqDecision Record_.
Proof. solve_decision. Defined.
#[global] Instance Pos_eq_dec : EqDecision Pos.
Proof. solve_decision. Defined.

(** A [[]byte] argument: [None] is nil, [Some b] a non-nil slice. *)
Definition of_slice (o : option bytes) : bytes := default [] o.

Definition newRecord (key : bytes) (value : option bytes) (t : RecordType) : Record_ :=
  mkRecord t key (of_slice value).

Definition NewRecord (key : bytes) (value : option bytes) : Record_ :=
  match value with
  | None => newRecord key None RecordTypeDelete
  | Some _ => newRecord key value RecordTypePut
  end.

Definition NewTxnRecord (key : bytes) (value : option bytes) : Record_ :=
  match value with
  | None => newRecord key None RecordTypeTxnDelete
  | Some _ => newRecord key value RecordTypeTxnPut
  end.

Definition NewTxnCommit (key : bytes) : Record_ := newRecord key None RecordTypeTxnCommit.
Definition NewTxnBegin (key : bytes) : Record_ := newRecord key None RecordTypeBegin.

Definition MaxKeyLength : Z := 10 * 1024 * 1024.
Definition MaxValueLength : Z := 100 * 1024 * 1024.

(** The bytes before the CRC trailer. *)
Definition encode_body (r : Record_) : bytes :=
  RecordType_ r :: put_u32be (wrap32 (len (Key r)))
    ++ put_u32be (wrap32 (len (Value r))) ++ Key r ++ Value r.

Definition Encode (r : Record_) : bytes :=
  encode_body r ++ put_u32be (ChecksumIEEE (encode_body r)).

Definition DecodeRecord (data : bytes) : outcome Record_ :=
  if len data <? 9 then Err ErrTooShort else
  let recordType := nth 0 data x00 in
  kl ← slice data 1 5;
  let keyLength := get_u32be kl in
  vl ← slice data 5 9;
  let valueLength := get_u32be vl in
  if (keyLength >? MaxKeyLength) || (valueLength >? MaxValueLength) then Err ErrTooLarge else
  let expectedLength := wrap32 (9 + keyLength + valueLength + 4) in
  if wrap32 (len data) <? expectedLength then Err ErrIncomplete else
  key ← slice data 9 (wrap32 (9 + keyLength));
  value ← slice data (wrap32 (9 + keyLength)) (wrap32 (9 + keyLength + valueLength));
  crcData ← slice data (wrap32 (9 + keyLength + valueLength)) (len data);
  (* binary.Read of a uint32 from crcData *)
  if len crcData <? 4 then Err ErrReadCrc else
  let storedCrc := get_u32be crcData in
  body ← slice data 0 (wrap32 (9 + keyLength + valueLength));
  let actualCrc := ChecksumIEEE body in
  if negb (storedCrc =? actualCrc) then Err ErrCrcMismatch else
  key ←
    (if bool_decide (recordType = RecordTypeTxnPut) || bool_decide (recordType = RecordTypeTxnDelete)
     then p ← DecodeTxnId key; Ok (snd p)
     else Ok key);
  Ok (mkRecord recordType key value).

(** * index: the ordered in-memory index

    The B-tree of github.com/google/btree is an ordered set of items under
    [item.Less]; it is modelled by the strictly ascending list of its items,
    which is what [Ascend] visits. Two items are the same entry of the tree
    when neither is less than the other. *)

Module BTreeIndex.

(** [item.Less] *)
Definition Less (a b : bytes) : bool :=
  if negb (len a =? len b) then len a <? len b
  else bytes_Compare a b <? 0.

Definition t : Type := list (bytes * Pos).

(** [tree.ReplaceOrInsert] *)
Fixpoint Put (key : bytes) (pos : Pos) (tr : t) : t :=
  match tr with
  | [] => [(key, pos)]
  | (k, p) :: tr' =>
      if Less key k then (key, pos) :: tr
      else if Less k key then (k, p) :: Put key pos tr'
      else (key, pos) :: tr'
  end.

(** [tree.Get]; [None] is the nil position. *)
Fixpoint Get (key : bytes) (tr : t) : option Pos :=
  match tr with
  | [] => None
  | (k, p) :: tr' =>
      if Less key k then None
      else if Less k key then Get key tr'
      else Some p
  end.

(** [tree.Delete] *)
Fixpoint Delete (key : bytes) (tr : t) : t :=
  match tr with
  | [] => []
  | (k, p) :: tr' =>
      if Less key k then tr
      else if Less k key then (k, p) :: Delete key tr'
      else tr'
  end.

(** [Foreach] and [ForeachUnSafe]: ascending traversal; the callback
    updates the variables it captured (the state [S]) and the first
    non-nil error, or a panic, stops the traversal and is returned. *)
Fixpoint Foreach {S : Type} (fn : S -> bytes -> Pos -> S * outcome unit)
    (st : S) (tr : t) : S * outcome unit :=
  match tr with
  | [] => (st, Ok tt)
  | (k, p) :: tr' =>
      match fn st k p with
      | (st', Ok _) => Foreach fn st' tr'
      | r => r
      end
  end.

End BTreeIndex.

(** * config *)

Record Config : Type := mkConfig {
  AutoSync : bool;
  MaxFileSize : Z;   (* uint32 *)
  LoadHint : bool;
  BatchSize : Z      (* int *)
}.

(** * The data directory

    [wal_files] maps the id [N] of each [wal-N.log] to its content,
    [hint_file] is the content of [keys.hint] when it exists, and
    [lock_held] tells whether some process holds the advisory lock on
    [bitcask.lock]. *)

Record Disk : Type := mkDisk {
  wal_files : gmap Z bytes;
  hint_file : option bytes;
  lock_held : bool
}.

Definition set_wal_files (f : gmap Z bytes) (d : Disk) : Disk :=
  mkDisk f (hint_file d) (lock_held d).

Definition set_hint_file (h : option bytes) (d : Disk) : Disk :=
  mkDisk (wal_files d) h (lock_held d).

(** * wal: one segment file *)

Record Wal : Type := mkWal {
  w_fileId : Z;   (* uint32 *)
  w_offset : Z    (* uint32 *)
}.

(** os.OpenFile with O_CREATE|O_RDWR|O_APPEND: an absent file is created
    empty, an existing one keeps its content; the offset starts at 0. *)
Definition NewWal (fileId : Z) (d : Disk) : Wal * Disk :=
  (mkWal fileId 0,
   match wal_files d !! fileId with
   | Some _ => d
   | None => set_wal_files (<[fileId := []]> (wal_files d)) d
   end).

Definition file_of (w : Wal) (d : Disk) : outcome bytes :=
  match wal_files d !! w_fileId w with
  | Some b => Ok b
  | None => Err ErrIO
  end.

(** [Wal.write]: the file is opened with O_APPEND, so the bytes go to the
    end of the file; the position returned carries the writer's own offset. *)
Definition write (w : Wal) (d : Disk) (rec : Record_) : outcome (Wal * Disk * Pos) :=
  let preOffset := w_offset w in
  let encoded := Encode rec in
  file ← file_of w d;
  let d' := set_wal_files (<[w_fileId w := file ++ encoded]> (wal_files d)) d in
  let length := len encoded in
  Ok (mkWal (w_fileId w) (wrap32 (w_offset w + wrap32 length)), d',
      mkPos (w_fileId w) preOffset (wrap32 length)).

Definition Write (w : Wal) (d : Disk) (key : bytes) (value : option bytes) :=
  write w d (NewRecord key value).
Definition WriteTxn (w : Wal) (d : Disk) (key : bytes) (value : option bytes) :=
  write w d (NewTxnRecord key value).
Definition WriteTxnCommit (w : Wal) (d : Disk) (key : bytes) :=
  write w d (NewTxnCommit key).
Definition WriteTxnBegin (w : Wal) (d : Disk) (key : bytes) :=
  write w d (NewTxnBegin key).

Definition ReadPos (w : Wal) (d : Disk) (pos : Pos) : outcome Record_ :=
  file ← file_of w d;
  let fileSize := len file in
  let endOffset := Offset pos + Length pos in
  if (Offset pos >=? fileSize) || (endOffset >? fileSize) then Err ErrOutOfFileRange
  else
    buf ← slice file (Offset pos) endOffset;
    match DecodeRecord buf with
    | Ok rec => Ok rec
    | Err e => Err (ErrWrapped e)
    | Panic => Panic
    end.

Definition Size (w : Wal) : Z := w_offset w.

Definition UpdateOffset (w : Wal) (d : Disk) : Wal :=
  match wal_files d !! w_fileId w with
  | Some b => mkWal (w_fileId w) (wrap32 (len b))
  | None => w
  end.

(** ** Replay of a segment *)

Record txnData : Type := mkTxnData {
  td_rec : Record_;
  td_pos : Pos
}.

(** The variables that [updatedFunc] captures in [Wal.ReadAll]. *)
Record replay : Type := mkReplay {
  batchData : gmap Z (list txnData);
  txnFlag : bool;
  curTxnId : Z;
  r_memTable : BTreeIndex.t;
  dbTxnId : Z
}.

Definition replay_init (memTable : BTreeIndex.t) (txnId : Z) : replay :=
  mkReplay ∅ false 0 memTable txnId.

Definition apply_txnData (memTable : BTreeIndex.t) (x : txnData) : BTreeIndex.t :=
  if bool_decide (RecordType_ (td_rec x) = RecordTypeTxnPut)
  then BTreeIndex.Put (Key (td_rec x)) (td_pos x) memTable
  else if bool_decide (RecordType_ (td_rec x) = RecordTypeTxnDelete)
  then BTreeIndex.Delete (Key (td_rec x)) memTable
  else memTable.

Definition buffer_txn (st : replay) (rec : Record_) (pos : Pos) : outcome replay :=
  '(txnId, decKey) ← DecodeTxnId (Key rec);
  if negb (txnId =? curTxnId st) then Err ErrTxnMismatch
  else
    let rec' := mkRecord (RecordType_ rec) decKey (Value rec) in
    Ok (mkReplay
          (<[txnId := default [] (batchData st !! txnId) ++ [mkTxnData rec' pos]]> (batchData st))
          (txnFlag st) (curTxnId st) (r_memTable st) (dbTxnId st)).

Definition updatedFunc (st : replay) (rec : Record_) (pos : Pos) : outcome replay :=
  if bool_decide (RecordType_ rec = RecordTypeBegin) then
    '(txnId, _) ← DecodeTxnId (Key rec);
    Ok (mkReplay (batchData st) true txnId (r_memTable st) (dbTxnId st))
  else if txnFlag st then
    if bool_decide (RecordType_ rec = RecordTypeTxnPut) then buffer_txn st rec pos
    else if bool_decide (RecordType_ rec = RecordTypeTxnDelete) then buffer_txn st rec pos
    else if bool_decide (RecordType_ rec = RecordTypeTxnCommit) then
      '(txnId, _) ← DecodeTxnId (Key rec);
      if negb (txnId =? curTxnId st) then Err ErrTxnMismatch
      else
        Ok (mkReplay (delete txnId (batchData st)) false 0
              (fold_left apply_txnData (default [] (batchData st !! txnId)) (r_memTable st))
              (curTxnId st))
    else Ok st
  else
    if bool_decide (RecordType_ rec = RecordTypeDelete) then
      Ok (mkReplay (batchData st) (txnFlag st) (curTxnId st)
            (BTreeIndex.Delete (Key rec) (r_memTable st)) (dbTxnId st))
    else if bool_decide (RecordType_ rec = RecordTypePut) then
      Ok (mkReplay (batchData st) (txnFlag st) (curTxnId st)
            (BTreeIndex.Put (Key rec) pos (r_memTable st)) (dbTxnId st))
    else Ok st.

(** The parsing loop of [Wal.ReadAll] over the whole file [buffer]; every
    offset is a [uint32].  [fuel] bounds the number of iterations. *)
Fixpoint ReadAll_loop (fuel : nat) (fileId : Z) (buffer : bytes) (offset : Z)
    (st : replay) : outcome (Z * replay) :=
  let n := wrap32 (len buffer) in
  if negb (offset <? n) then Ok (offset, st) else
  match fuel with
  | O => Err ErrFuel
  | S fuel' =>
    if wrap32 (offset + 9) >? n then Ok (offset, st) else
    let recordStartOffset := offset in
    let recordType := nth (Z.to_nat offset) buffer x00 in
    kl ← slice buffer (wrap32 (offset + 1)) (wrap32 (offset + 5));
    let keyLength := get_u32be kl in
    vl ← slice buffer (wrap32 (offset + 5)) (wrap32 (offset + 9));
    let valueLength := get_u32be vl in
    if (keyLength >? MaxKeyLength) || (valueLength >? MaxValueLength) then Ok (offset, st) else
    let recordLength := wrap32 (9 + keyLength + valueLength + 4) in
    if wrap32 (offset + recordLength) >? n then Ok (offset, st) else
    key ← slice buffer (wrap32 (offset + 9)) (wrap32 (offset + 9 + keyLength));
    value ← slice buffer (wrap32 (offset + 9 + keyLength))
                         (wrap32 (offset + 9 + keyLength + valueLength));
    crcb ← slice buffer (wrap32 (offset + 9 + keyLength + valueLength))
                        (wrap32 (offset + recordLength));
    let crc := get_u32be crcb in
    body ← slice buffer offset (wrap32 (offset + 9 + keyLength + valueLength));
    let computedCrc := ChecksumIEEE body in
    (* a CRC mismatch is only printed *)
    let rec := mkRecord recordType key value in
    let pos := mkPos fileId recordStartOffset recordLength in
    st' ← updatedFunc st rec pos;
    ReadAll_loop fuel' fileId buffer (wrap32 (offset + recordLength)) st'
  end.

(** [Wal.ReadAll]: the whole file is read, then parsed from offset 0; the
    writer's offset becomes the offset where parsing stopped. *)
Definition ReadAll (w : Wal) (d : Disk) (memTable : BTreeIndex.t) (txnId : Z)
    : outcome (Wal * BTreeIndex.t * Z) :=
  buffer ← file_of w d;
  '(offset, st) ← ReadAll_loop (length buffer) (w_fileId w) buffer 0
                    (replay_init memTable txnId);
  Ok (mkWal (w_fileId w) offset, r_memTable st, dbTxnId st).

(** sort.Slice with the comparison [less]; insertion sort stands for the
    library's algorithm, which returns the same slice whenever no two
    elements are equivalent under [less]. *)
Fixpoint sort_insert {A : Type} (less : A -> A -> bool) (x : A) (l : list A) : list A :=
  match l with
  | [] => [x]
  | y :: l' => if less y x then y :: sort_insert less x l' else x :: l
  end.

Definition sort_Slice {A : Type} (less : A -> A -> bool) (l : list A) : list A :=
  foldr (sort_insert less) [] l.

(** * bitcask: the engine *)

(** [flock.Flock]: a handle on the lock file; [fl_locked] tells whether this
    handle holds the lock. [flock.New] only builds the handle. *)
Record Flock : Type := mkFlock { fl_locked : bool }.

Definition flock_New : Flock := mkFlock false.

(** [Flock.Unlock]: releases the lock if this handle holds it. *)
Definition flock_Unlock (f : Flock) (d : Disk) : Flock * Disk :=
  if fl_locked f then (mkFlock false, mkDisk (wal_files d) (hint_file d) false)
  else (f, d).

Record Bitcask : Type := mkBitcask {
  conf : Config;
  activeWal : option Wal;
  oldWal : gmap Z Wal;
  memTable : BTreeIndex.t;
  fileId : Z;           (* uint32 *)
  fileIds : list Z;
  txnId : Z;            (* atomic.Uint32 *)
  flock : Flock
}.

Definition set_activeWal (w : Wal) (bc : Bitcask) : Bitcask :=
  mkBitcask (conf bc) (Some w) (oldWal bc) (memTable bc) (fileId bc) (fileIds bc)
    (txnId bc) (flock bc).

Definition set_memTable (m : BTreeIndex.t) (bc : Bitcask) : Bitcask :=
  mkBitcask (conf bc) (activeWal bc) (oldWal bc) m (fileId bc) (fileIds bc)
    (txnId bc) (flock bc).

Definition set_txnId (t : Z) (bc : Bitcask) : Bitcask :=
  mkBitcask (conf bc) (activeWal bc) (oldWal bc) (memTable bc) (fileId bc) (fileIds bc)
    t (flock bc).

(** Dereference of a pointer that may be nil. *)
Definition deref {A : Type} (p : option A) : outcome A :=
  match p with
  | Some a => Ok a
  | None => Panic
  end.

Definition mustRotate (bc : Bitcask) (d : Disk) : outcome (Bitcask * Disk) :=
  aw ← deref (activeWal bc);
  let oldFileId := fileId bc in
  let oldWal' := <[oldFileId := aw]> (oldWal bc) in
  let fileIds' := fileIds bc ++ [fileId bc] in
  let fileId' := wrap32 (fileId bc + 1) in
  let '(w, d') := NewWal fileId' d in
  Ok (mkBitcask (conf bc) (Some w) oldWal' (memTable bc) fileId' fileIds'
        (txnId bc) (flock bc), d').

Definition tryRotate (bc : Bitcask) (d : Disk) : outcome (Bitcask * Disk) :=
  aw ← deref (activeWal bc);
  if Size aw <? MaxFileSize (conf bc) then Ok (bc, d)
  else mustRotate bc d.

Definition Put (bc : Bitcask) (d : Disk) (key value : option bytes)
    : outcome (Bitcask * Disk) :=
  match key with
  | None => Err ErrKeyNil
  | Some k =>
      '(bc, d) ← tryRotate bc d;
      aw ← deref (activeWal bc);
      '(aw, d, pos) ← Write aw d k value;
      Ok (set_memTable (BTreeIndex.Put k pos (memTable bc)) (set_activeWal aw bc), d)
  end.

(** The segment that holds [pos]: the active one, or a sealed one. *)
Definition targetWal (bc : Bitcask) (pos : Pos) : outcome Wal :=
  if FileId pos =? fileId bc then deref (activeWal bc)
  else match oldWal bc !! FileId pos with
       | Some w => Ok w
       | None => Err (ErrFileNotFound (FileId pos))
       end.

(** [Bitcask.get]; the value returned is a sub-slice of the bytes read,
    never nil. *)
Definition get (bc : Bitcask) (d : Disk) (key : option bytes)
    : outcome (option bytes * bool) :=
  match key with
  | None => Err ErrKeyNil
  | Some k =>
      match BTreeIndex.Get k (memTable bc) with
      | None => Err ErrKeyNotFound
      | Some pos =>
          w ← targetWal bc pos;
          match ReadPos w d pos with
          | Ok rec =>
              if bool_decide (RecordType_ rec = RecordTypeDelete) then Err ErrKeyHasDeleted
              else Ok (Some (Value rec), true)
          | Err e => Err (ErrWrapped e)
          | Panic => Panic
          end
      end
  end.

Definition Get (bc : Bitcask) (d : Disk) (key : option bytes)
    : outcome (option bytes * bool) :=
  match get bc d key with
  | Err e =>
      if bool_decide (e = ErrKeyNotFound) || bool_decide (e = ErrKeyHasDeleted)
      then Ok (None, false)
      else Ok (None, false)
  | Ok (value, ok) => Ok (value, ok)
  | Panic => Panic
  end.

Definition Delete (bc : Bitcask) (d : Disk) (key : option bytes)
    : outcome (Bitcask * Disk) :=
  match BTreeIndex.Get (of_slice key) (memTable bc) with
  | None => Ok (bc, d)
  | Some _ =>
      '(bc, d) ← tryRotate bc d;
      aw ← deref (activeWal bc);
      '(aw, d, _) ← Write aw d (of_slice key) None;
      Ok (set_memTable (BTreeIndex.Delete (of_slice key) (memTable bc))
            (set_activeWal aw bc), d)
  end.

(** The closure that [Bitcask.Scan] hands to the index: it reads the record
    at [pos] and calls [fn] on its key and value. *)
Definition scan_fn {S : Type} (bc : Bitcask) (d : Disk)
    (fn : S -> bytes -> bytes -> S * outcome unit) (st : S) (key : bytes) (pos : Pos)
    : S * outcome unit :=
  match targetWal bc pos with
  | Ok w =>
      match ReadPos w d pos with
      | Ok rec => fn st (Key rec) (Value rec)
      | Err e => (st, Err (ErrWrapped e))
      | Panic => (st, Panic)
      end
  | Err e => (st, Err e)
  | Panic => (st, Panic)
  end.

(** [Bitcask.Scan] *)
Definition Scan {S : Type} (bc : Bitcask) (d : Disk)
    (fn : S -> bytes -> bytes -> S * outcome unit) (st : S) : S * outcome unit :=
  BTreeIndex.Foreach (scan_fn bc d fn) st (memTable bc).

Record ScanRangeResult : Type := mkScanRangeResult {
  sr_Key : bytes;
  sr_Value : bytes
}.

(** The loop that builds [results] from the sorted keys. *)
Fixpoint collect_results (limit count : Z) (values : gmap bytes bytes)
    (keys : list bytes) : list ScanRangeResult :=
  match keys with
  | [] => []
  | key :: keys' =>
      if (limit >? 0) && (count >=? limit) then []
      else mkScanRangeResult key (default [] (values !! key))
             :: collect_results limit (count + 1) values keys'
  end.

(** The closure of [ScanRangeOptimized]; it appends to [keys] and writes
    into [values], the variables it captures. *)
Definition range_fn (start end_ : bytes)
    (st : list bytes * gmap bytes bytes) (key value : bytes)
    : (list bytes * gmap bytes bytes) * outcome unit :=
  let '(keys, values) := st in
  if KeyComparator.InRange key start end_
  then ((keys ++ [key], <[key := value]> values), Ok tt)
  else if KeyComparator.Greater key end_
  then ((keys, values), Err ErrExceedEndRange)
  else ((keys, values), Ok tt).

(** [make([]*T, 0, n)] for a slice of pointers: the runtime panics when
    the capacity [n] is negative and when the [8 * n] bytes of the slice
    exceed [maxAlloc], the allocator's limit of [2 ^ 48] bytes on a 64-bit
    platform. A capacity that is no [int] is refused like one that is too
    large; running out of memory below that limit is not modelled. *)
Definition maxAlloc : Z := 2 ^ 48.

Definition make_cap_ok (n : Z) : bool := (0 <=? n) && (8 * n <=? maxAlloc).

Definition ScanRangeOptimized (bc : Bitcask) (d : Disk) (start end_ : bytes) (limit : Z)
    : outcome (list ScanRangeResult) :=
  (* make([]*ScanRangeResult, 0, limit) *)
  if negb (make_cap_ok limit) then Panic else
  let '(keys, values, err) := Scan bc d (range_fn start end_) ([], ∅) in
  match err with
  | Panic => Panic
  | Err e =>
      if negb (bool_decide (e = ErrReachLimit)) && negb (bool_decide (e = ErrExceedEndRange))
      then Err e
      else Ok (collect_results limit 0 values (sort_Slice BTreeIndex.Less keys))
  | Ok _ => Ok (collect_results limit 0 values (sort_Slice BTreeIndex.Less keys))
  end.

Definition ScanRange (bc : Bitcask) (d : Disk) (start end_ : bytes) :=
  ScanRangeOptimized bc d start end_ 0.

Definition ScanRangeLimit (bc : Bitcask) (d : Disk) (start end_ : bytes) (limit : Z) :=
  ScanRangeOptimized bc d start end_ limit.

(** ** The hint snapshot *)

Definition hint_entry (e : bytes * Pos) : bytes :=
  put_u32be (wrap32 (len (fst e))) ++ put_u32be (FileId (snd e))
    ++ put_u32be (Offset (snd e)) ++ put_u32be (Length (snd e)) ++ fst e.

Definition Hint (bc : Bitcask) (d : Disk) : Disk :=
  set_hint_file (Some (put_u32be (txnId bc) ++ concat (map hint_entry (memTable bc)))) d.

(** The loop of [LoadHint] over the unread bytes of the hint file. *)
Fixpoint LoadHint_loop (fuel : nat) (rest : bytes) (m : BTreeIndex.t) (fid : Z)
    : outcome (BTreeIndex.t * Z) :=
  match rest with
  | [] => Ok (m, fid)             (* io.EOF on the key length *)
  | _ =>
    match fuel with
    | O => Err ErrFuel
    | S fuel' =>
      if len rest <? 16 then Err ErrHintCorrupt else
      let keyLength := get_u32be (take 4 rest) in
      let fileId := get_u32be (take 4 (drop 4 rest)) in
      let offset := get_u32be (take 4 (drop 8 rest)) in
      let length := get_u32be (take 4 (drop 12 rest)) in
      let rest := drop 16 rest in
      if len rest <? keyLength then Err ErrHintCorrupt else
      let key := take (Z.to_nat keyLength) rest in
      let pos := mkPos fileId offset length in
      let m := BTreeIndex.Put key pos m in
      let fid := if fileId >=? fid then wrap32 (fileId + 1) else fid in
      LoadHint_loop fuel' (drop (Z.to_nat keyLength) rest) m fid
    end
  end.

Definition LoadHint_ (bc : Bitcask) (d : Disk) : outcome Bitcask :=
  match hint_file d with
  | None => Ok bc
  | Some h =>
      if len h <? 4 then Err ErrHintCorrupt else
      let txnId := get_u32be (take 4 h) in
      '(m, fid) ← LoadHint_loop (length h) (drop 4 h) (memTable bc) (fileId bc);
      Ok (mkBitcask (conf bc) (activeWal bc) (oldWal bc) m fid (fileIds bc) txnId (flock bc))
  end.

(** ** Open and close *)

(** The loop of [loadWalFiles] over the sorted ids that remain. *)
Fixpoint loadWalFiles_loop (ids : list Z) (bc : Bitcask) (d : Disk)
    : outcome (Bitcask * Disk) :=
  match ids with
  | [] => Ok (bc, d)
  | fid :: rest =>
      let '(curWal, d) := NewWal fid d in
      '(curWal, m, t) ←
        (if LoadHint (conf bc) then
           '(w, m, t) ← ReadAll curWal d (memTable bc) (txnId bc);
           Ok (UpdateOffset w d, m, t)
         else Ok (curWal, memTable bc, txnId bc));
      let bc :=
        match rest with
        | [] => mkBitcask (conf bc) (Some curWal) (oldWal bc) m fid (fileIds bc) t (flock bc)
        | _ => mkBitcask (conf bc) (activeWal bc) (<[fid := curWal]> (oldWal bc)) m
                 (fileId bc) (fileIds bc) t (flock bc)
        end in
      loadWalFiles_loop rest bc d
  end.

(** os.ReadDir on the WAL directory, as the ids of the [wal-N.log] files. *)
Definition ReadDir (d : Disk) : list Z := (map_to_list (wal_files d)).*1.

Definition loadWalFiles (bc : Bitcask) (d : Disk) : outcome (Bitcask * Disk) :=
  let files := ReadDir d in
  match files with
  | [] => Ok (bc, d)
  | _ =>
      let ids := sort_Slice Z.ltb (fileIds bc ++ files) in
      let bc := mkBitcask (conf bc) (activeWal bc) (oldWal bc) (memTable bc) (fileId bc)
                  ids (txnId bc) (flock bc) in
      loadWalFiles_loop ids bc d
  end.

Definition NewBitcask (c : Config) (d : Disk) : outcome (Bitcask * Disk) :=
  let bc := mkBitcask c None ∅ [] 0 [] 0 flock_New in
  bc ← match LoadHint_ bc d with
       | Ok bc => Ok bc
       | Err e => Err (ErrWrapped e)
       | Panic => Panic
       end;
  '(bc, d) ← loadWalFiles bc d;
  let '(bc, d) :=
    match activeWal bc with
    | None => let '(w, d) := NewWal (fileId bc) d in (set_activeWal w bc, d)
    | Some _ => (bc, d)
    end in
  let bc := if negb (txnId bc =? 0) then set_txnId (wrap32 (txnId bc + 1)) bc else bc in
  Ok (bc, d).

Definition Close (bc : Bitcask) (d : Disk) : outcome Disk :=
  let d := Hint bc d in
  _ ← deref (activeWal bc);
  let '(_, d) := flock_Unlock (flock bc) d in
  Ok d.

(** * batch *)

Record Batch : Type := mkBatch {
  mp : option (gmap bytes (option bytes));   (* None is the nil map *)
  keys : list (option bytes);
  b_txnId : Z
}.

Definition NewBatch (db : Bitcask) : Batch := mkBatch (Some ∅) [] (txnId db).

Definition map_len (m : option (gmap bytes (option bytes))) : Z :=
  match m with
  | Some m => Z.of_nat (size m)
  | None => 0
  end.

Definition Batch_Put (b : Batch) (key value : option bytes) : outcome Batch :=
  match mp b with
  | None => Panic                      (* assignment to an entry of a nil map *)
  | Some m => Ok (mkBatch (Some (<[of_slice key := value]> m)) (keys b ++ [key]) (b_txnId b))
  end.

Definition Batch_Delete (b : Batch) (db : Bitcask) (d : Disk) (key : option bytes)
    : outcome Batch :=
  '(_, ok) ← Get db d key;
  if negb ok then
    match mp b with
    | Some m =>
        match m !! of_slice key with
        | Some _ => Ok (mkBatch (Some (delete (of_slice key) m)) (keys b) (b_txnId b))
        | None => Ok b
        end
    | None => Ok b
    end
  else
    match mp b with
    | None => Panic
    | Some m => Ok (mkBatch (Some (<[of_slice key := None]> m)) (keys b ++ [key]) (b_txnId b))
    end.

Definition putTxn (bc : Bitcask) (d : Disk) (key : option bytes) (value : option bytes)
    (txnId : Z) : outcome (Bitcask * Disk) :=
  match key with
  | None => Err ErrKeyNil
  | Some k =>
      '(bc, d) ← tryRotate bc d;
      let encKey := EncodeTxnId txnId k in
      aw ← deref (activeWal bc);
      '(aw, d, pos) ← WriteTxn aw d encKey value;
      Ok (set_memTable (BTreeIndex.Put k pos (memTable bc)) (set_activeWal aw bc), d)
  end.

Definition putTxnBegin (bc : Bitcask) (d : Disk) (key : option bytes) (txnId : Z)
    : outcome (Bitcask * Disk) :=
  match key with
  | None => Err ErrKeyNil
  | Some k =>
      '(bc, d) ← tryRotate bc d;
      let encKey := EncodeTxnId txnId k in
      aw ← deref (activeWal bc);
      '(aw, d, _) ← WriteTxnBegin aw d encKey;
      Ok (set_activeWal aw bc, d)
  end.

Definition putTxnCommit (bc : Bitcask) (d : Disk) (key : option bytes) (txnId : Z)
    : outcome (Bitcask * Disk) :=
  match key with
  | None => Err ErrKeyNil
  | Some k =>
      '(bc, d) ← tryRotate bc d;
      let encKey := EncodeTxnId txnId k in
      aw ← deref (activeWal bc);
      '(aw, d, _) ← WriteTxnCommit aw d encKey;
      Ok (set_activeWal aw bc, d)
  end.

Definition deleteTxn (bc : Bitcask) (d : Disk) (key : option bytes) (txnId : Z)
    : outcome (Bitcask * Disk) :=
  match BTreeIndex.Get (of_slice key) (memTable bc) with
  | None => Ok (bc, d)
  | Some _ =>
      '(bc, d) ← tryRotate bc d;
      let encKey := EncodeTxnId txnId (of_slice key) in
      aw ← deref (activeWal bc);
      '(aw, d, _) ← WriteTxn aw d encKey None;
      Ok (set_memTable (BTreeIndex.Delete (of_slice key) (memTable bc))
            (set_activeWal aw bc), d)
  end.

(** The loop of [Batch.Commit] over [b.keys]. *)
Fixpoint Commit_loop (m : gmap bytes (option bytes)) (txnId : Z) (ks : list (option bytes))
    (bc : Bitcask) (d : Disk) : outcome (Bitcask * Disk) :=
  match ks with
  | [] => Ok (bc, d)
  | key :: ks' =>
      '(bc, d) ←
        match m !! of_slice key with
        | Some None => deleteTxn bc d key txnId
        | Some (Some value) => putTxn bc d key (Some value) txnId
        | None => Ok (bc, d)
        end;
      Commit_loop m txnId ks' bc d
  end.

Definition txn_begin_key : bytes :=
  ["t"; "x"; "n"; "_"; "b"; "e"; "g"; "i"; "n"]%byte.
Definition txn_commit_key : bytes :=
  ["t"; "x"; "n"; "_"; "c"; "o"; "m"; "m"; "i"; "t"]%byte.

Definition Commit (b : Batch) (bc : Bitcask) (d : Disk)
    : outcome (Batch * Bitcask * Disk) :=
  if map_len (mp b) >=? BatchSize (conf bc) then Err ErrBatchTooLarge else
  if map_len (mp b) =? 0 then Ok (b, bc, d) else
  '(bc, d) ← putTxnBegin bc d (Some txn_begin_key) (b_txnId b);
  '(bc, d) ← Commit_loop (default ∅ (mp b)) (b_txnId b) (keys b) bc d;
  '(bc, d) ← putTxnCommit bc d (Some txn_commit_key) (b_txnId b);
  Ok (mkBatch None [] (b_txnId b), set_txnId (wrap32 (txnId bc + 1)) bc, d).

Definition within_caps (r : Record_) : Prop :=
  len (Key r) <= MaxKeyLength /\ len (Value r) <= MaxValueLength.

(** A record as it lies in a segment, with an arbitrary CRC trailer. *)
Definition frame (r : Record_) (crc : Z) : bytes :=
  encode_body r ++ put_u32be crc.

(** Removal of the transaction id by the decoder. *)
Definition is_txn_op (t : RecordType) : bool :=
  bool_decide (t = RecordTypeTxnPut) || bool_decide (t = RecordTypeTxnDelete).

Definition strip_txn (r : Record_) : outcome Record_ :=
  if is_txn_op (RecordType_ r)
  then p ← DecodeTxnId (Key r); Ok (mkRecord (RecordType_ r) (snd p) (Value r))
  else Ok r.

Abbreviation klt a b := (BTreeIndex.Less a b = true).

Fixpoint sorted (tr : BTreeIndex.t) : Prop :=
  match tr with
  | [] => True
  | e :: tr' => Forall (fun e' => klt e.1 e'.1) tr' /\ sorted tr'
  end.

Inductive op : Type :=
  | OpPut (key value : option bytes)
  | OpDelete (key : option bytes).

Definition exec (o : op) (bc : Bitcask) (d : Disk) : outcome (Bitcask * Disk) :=
  match o with
  | OpPut key value => Put bc d key value
  | OpDelete key => Delete bc d key
  end.

(** The operations in order; the run stops at the first one that fails. *)
Fixpoint run (ops : list op) (bc : Bitcask) (d : Disk) : outcome (Bitcask * Disk) :=
  match ops with
  | [] => Ok (bc, d)
  | o :: ops' => '(bc, d) ← exec o bc d; run ops' bc d
  end.

(** An empty data directory. *)
Definition empty_dir : Disk := mkDisk ∅ None false.

(** The record that the engine reads at an index position. *)
Definition reads (bc : Bitcask) (d : Disk) (pos : Pos) (rec : Record_) : Prop :=
  exists w, targetWal bc pos = Ok w /\ ReadPos w d pos = Ok rec.

Record wf (bc : Bitcask) (d : Disk) (n : Z) : Prop := mk_wf {
  wf_active : exists aw f,
      activeWal bc = Some aw /\ w_fileId aw = fileId bc /\
      wal_files d !! fileId bc = Some f /\ w_offset aw = len f;
  wf_fileId : 0 <= fileId bc <= n;
  wf_files : forall id, is_Some (wal_files d !! id) -> 0 <= id <= fileId bc;
  wf_old : forall id w, oldWal bc !! id = Some w ->
      w_fileId w = id /\ id < fileId bc /\ is_Some (wal_files d !! id);
  wf_sorted : sorted (memTable bc)
}.

Definition MaxRecordLength : Z := 13 + MaxKeyLength + MaxValueLength.

(** The configuration keeps every offset of a segment below [2 ^ 32]. *)
Definition conf_ok (c : Config) : Prop :=
  0 <= MaxFileSize c /\ MaxFileSize c + MaxRecordLength <= 2 ^ 32.

(** [ReadPos] in terms of the file content. *)
Definition read_in (f : bytes) (pos : Pos) : outcome Record_ :=
  if (Offset pos >=? len f) || (Offset pos + Length pos >? len f) then Err ErrOutOfFileRange
  else
    buf ← slice f (Offset pos) (Offset pos + Length pos);
    match DecodeRecord buf with
    | Ok rec => Ok rec
    | Err e => Err (ErrWrapped e)
    | Panic => Panic
    end.

(** A segment as a sequence of records, each with the CRC trailer that the
    file holds for it. *)
Definition frames (rcs : list (Record_ * Z)) : bytes :=
  concat (map (fun rc => frame rc.1 rc.2) rcs).

(** [updatedFunc] on the records in order, each at its position in the
    file; the CRC trailers play no part. *)
Fixpoint apply_records (fileId offset : Z) (rs : list Record_) (st : replay)
    : outcome (Z * replay) :=
  match rs with
  | [] => Ok (offset, st)
  | r :: rs' =>
      let length := 13 + len (Key r) + len (Value r) in
      st' ← updatedFunc st r (mkPos fileId offset length);
      apply_records fileId (offset + length) rs' st'
  end.

(** Bytes at which the parsing loop stops: fewer than a header, a header
    with an implausible length, or a record cut short. *)
Definition tail_stops (tail : bytes) : Prop :=
  len tail < 9 \/
  get_u32be (take 4 (drop 1 tail)) > MaxKeyLength \/
  get_u32be (take 4 (drop 5 tail)) > MaxValueLength \/
  len tail < 13 + get_u32be (take 4 (drop 1 tail)) + get_u32be (take 4 (drop 5 tail)).

(** [L !! k = Some v] when the index has an entry for [k] that was written
    by [Put k v]; [v] is [None] when the value was nil. *)
Definition models (bc : Bitcask) (d : Disk) (L : gmap bytes (option bytes)) : Prop :=
  forall k,
    match L !! k with
    | None => BTreeIndex.Get k (memTable bc) = None
    | Some ov =>
        len k <= MaxKeyLength /\ len (of_slice ov) <= MaxValueLength /\
        exists pos, BTreeIndex.Get k (memTable bc) = Some pos /\
                    reads bc d pos (NewRecord k ov)
    end.

Definition model_step (L : gmap bytes (option bytes)) (o : op) : gmap bytes (option bytes) :=
  match o with
  | OpPut key value => <[of_slice key := value]> L
  | OpDelete key => delete (of_slice key) L
  end.

(** Operations that the engine accepts and the codec can read back. *)
Definition valid_op (o : op) : Prop :=
  match o with
  | OpPut key value =>
      key <> None /\ len (of_slice key) <= MaxKeyLength /\
      len (of_slice value) <= MaxValueLength
  | OpDelete _ => True
  end.

Definition fresh_engine (c : Config) : Bitcask :=
  mkBitcask c (Some (mkWal 0 0)) ∅ [] 0 [] 0 flock_New.

Definition fresh_dir : Disk := mkDisk (<[0 := []]> ∅) None false.

(** The last write to [k] in a sequence, starting from [cur]: [Some v]
    after a put of [v] (nil or not), [None] after a delete. *)
Fixpoint last_write (ops : list op) (k : bytes) (cur : option (option bytes))
    : option (option bytes) :=
  match ops with
  | [] => cur
  | OpPut key value :: ops' =>
      last_write ops' k (if bool_decide (of_slice key = k) then Some value else cur)
  | OpDelete key :: ops' =>
      last_write ops' k (if bool_decide (of_slice key = k) then None else cur)
  end.

(** What [get] returns after [ops] according to the specification: the
    value of the latest put with [true], or nil with [false]. *)
Definition spec_get (ops : list op) (k : bytes) : option bytes * bool :=
  match last_write ops k None with
  | Some v => (v, true)
  | None => (None, false)
  end.

(** The same with a put of nil read as a delete. *)
Definition nil_deletes_get (ops : list op) (k : bytes) : option bytes * bool :=
  match last_write ops k None with
  | Some (Some v) => (Some v, true)
  | _ => (None, false)
  end.

(** The index invariant of the data model at one entry. *)
Definition entry_ok (bc : Bitcask) (d : Disk) (k : bytes) (pos : Pos) : Prop :=
  exists w f rec,
    targetWal bc pos = Ok w /\ wal_files d !! w_fileId w = Some f /\
    0 <= Offset pos /\ Offset pos + Length pos <= len f /\
    ReadPos w d pos = Ok rec /\
    RecordType_ rec <> RecordTypeDelete /\ Key rec = k.

Definition index_invariant (bc : Bitcask) (d : Disk) : Prop :=
  forall k pos, (k, pos) ∈ memTable bc -> entry_ok bc d k pos.

Definition key_k : bytes := ["k"]%byte.

Definition conf_1024 : Config := mkConfig true 1024 true 200.

(** Keys in strictly ascending order of the comparator. *)
Fixpoint ascending (l : list bytes) : Prop :=
  match l with
  | [] => True
  | k :: l' => Forall (fun k' => klt k k') l' /\ ascending l'
  end.

(** The first [limit] elements, all of them when [limit] is 0. *)
Definition take_limit {A : Type} (limit : Z) (l : list A) : list A :=
  if limit >? 0 then take (Z.to_nat limit) l else l.

Definition in_range (start end_ : bytes) (e : bytes * Pos) : bool :=
  KeyComparator.InRange e.1 start end_.

Definition insert_all (val : bytes -> bytes) (es : list (bytes * Pos))
    (m : gmap bytes bytes) : gmap bytes bytes :=
  fold_left (fun m e => <[e.1 := val e.1]> m) es m.

Definition scan_ops : list op :=
  [ OpPut (Some ["a"]%byte) (Some ["1"]%byte);
    OpPut (Some ["c"]%byte) (Some ["3"]%byte);
    OpPut (Some ["b"]%byte) (Some ["2"]%byte);
    OpPut (Some ["d"]%byte) (Some ["4"]%byte);
    OpDelete (Some ["c"]%byte) ].

(** The store after [a := 1], [b := 2] and then a put of [b] with a nil
    value. *)
Definition tomb_ops : list op :=
  [ OpPut (Some ["a"]%byte) (Some ["1"]%byte);
    OpPut (Some ["b"]%byte) (Some ["2"]%byte);
    OpPut (Some ["b"]%byte) None ].

Definition seg_bad_crc : bytes :=
  frame (NewRecord ["a"]%byte (Some ["1"]%byte)) 0
    ++ Encode (NewRecord ["b"]%byte (Some ["2"]%byte)).

Definition dir_bad_crc : Disk := mkDisk {[ 0 := seg_bad_crc ]} None false.

Definition put_a1 : Record_ := NewRecord ["a"]%byte (Some ["1"]%byte).

Definition txn_put_k : Record_ :=
  NewTxnRecord (EncodeTxnId 1 ["k"]%byte) (Some ["v"]%byte).


Definition batch_ab (bc : Bitcask) : Batch :=
  mkBatch (Some (<[ ["b"]%byte := Some ["2"]%byte ]> (<[ ["a"]%byte := Some ["1"]%byte ]> ∅)))
          [Some ["a"]%byte; Some ["b"]%byte] (txnId bc).

Definition conf_no_hint : Config := mkConfig true 1024 false 200.

Definition conf_30 : Config := mkConfig true 30 true 200.

Inductive bop : Type :=
  | BPut (key value : option bytes)
  | BDelete (key : option bytes).

Inductive cmd : Type :=
  | Single (o : op)
  | Batched (acts : list bop).

Definition batch_step (db : Bitcask) (d : Disk) (b : Batch) (a : bop) : outcome Batch :=
  match a with
  | BPut key value => Batch_Put b key value
  | BDelete key => Batch_Delete b db d key
  end.

Fixpoint build_batch (db : Bitcask) (d : Disk) (b : Batch) (acts : list bop)
    : outcome Batch :=
  match acts with
  | [] => Ok b
  | a :: acts' => b ← batch_step db d b a; build_batch db d b acts'
  end.

(** A batch is created, filled and committed. *)
Definition exec_cmd (c : cmd) (bc : Bitcask) (d : Disk) : outcome (Bitcask * Disk) :=
  match c with
  | Single o => exec o bc d
  | Batched acts =>
      b ← build_batch bc d (NewBatch bc) acts;
      '(_, bc, d) ← Commit b bc d;
      Ok (bc, d)
  end.

Fixpoint run_cmds (cs : list cmd) (bc : Bitcask) (d : Disk) : outcome (Bitcask * Disk) :=
  match cs with
  | [] => Ok (bc, d)
  | c :: cs' => '(bc, d) ← exec_cmd c bc d; run_cmds cs' bc d
  end.

(** The number of records a command can append. *)
Definition cmd_writes (c : cmd) : Z :=
  match c with
  | Single _ => 1
  | Batched acts => 2 + len acts
  end.

Definition writes (cs : list cmd) : Z := fold_right (fun c n => cmd_writes c + n) 0 cs.

(** In a batch the stored key carries four more bytes. *)
Definition valid_bop (a : bop) : Prop :=
  match a with
  | BPut key value =>
      key <> None /\ len (of_slice key) + 4 <= MaxKeyLength /\
      len (of_slice value) <= MaxValueLength
  | BDelete _ => True
  end.

Definition valid_cmd (c : Config) (x : cmd) : Prop :=
  match x with
  | Single o => valid_op o
  | Batched acts => Forall valid_bop acts /\ len acts < BatchSize c
  end.

(** Every index entry can be read and holds its key; [Q] tells for which
    keys the record may be a tombstone. *)
Definition entries_inv (Q : bytes -> Prop) (bc : Bitcask) (d : Disk) : Prop :=
  forall k pos, BTreeIndex.Get k (memTable bc) = Some pos ->
    len k <= MaxKeyLength /\
    exists rec, reads bc d pos rec /\ Key rec = k /\
                (RecordType_ rec = RecordTypeDelete -> Q k).

Definition put_nil (cs : list cmd) (k : bytes) : Prop :=
  In (Single (OpPut (Some k) None)) cs.

Definition good (Q : bytes -> Prop) (c : Config) (bc : Bitcask) (d : Disk) (n : Z) : Prop :=
  wf bc d n /\ entries_inv Q bc d /\ conf bc = c.

(** The buffer of a batch: a map that is not nil, values that the codec can
    read back, and no nil key in the list of keys. *)
Definition batch_ok (b : Batch) : Prop :=
  exists m, mp b = Some m /\
    (forall k v, m !! k = Some (Some v) ->
       len k + 4 <= MaxKeyLength /\ len v <= MaxValueLength) /\
    Forall (fun key => key <> None) (keys b).

Definition cmds_example : list cmd :=
  [ Single (OpPut (Some ["a"]%byte) (Some ["1"]%byte));
    Batched [ BPut (Some ["b"]%byte) (Some ["2"]%byte); BDelete (Some ["a"]%byte) ];
    Single (OpDelete (Some ["z"]%byte)) ].

(** A record that a batch writes for one of its operations: TxnPut or
    TxnDelete, the key prefixed with the transaction id. *)
Definition txn_op (t : Z) (r : Record_) : Prop :=
  is_txn_op (RecordType_ r) = true /\ exists k, Key r = EncodeTxnId t k.

(** What replay buffers for such records: the record with the id removed
    from its key, and its position in the segment. *)
Fixpoint buffer_of (fileId offset : Z) (rs : list Record_) : list txnData :=
  match rs with
  | [] => []
  | r :: rs' =>
      let length := 13 + len (Key r) + len (Value r) in
      mkTxnData (mkRecord (RecordType_ r) (drop 4 (Key r)) (Value r))
                (mkPos fileId offset length)
        :: buffer_of fileId (offset + length) rs'
  end.

(** The segment that [Commit] of the batch [a := 1, b := 2] writes into an
    empty store, and the same segment cut before the commit record. *)
Definition seg_batch_ab : bytes :=
  Encode (NewTxnBegin (EncodeTxnId 0 txn_begin_key))
    ++ Encode (NewTxnRecord (EncodeTxnId 0 ["a"]%byte) (Some ["1"]%byte))
    ++ Encode (NewTxnRecord (EncodeTxnId 0 ["b"]%byte) (Some ["2"]%byte))
    ++ Encode (NewTxnCommit (EncodeTxnId 0 txn_commit_key)).

Definition seg_batch_ab_cut : bytes := take 64 seg_batch_ab.

(** The records of that batch with their CRCs. *)
Definition with_crc (r : Record_) : Record_ * Z := (r, ChecksumIEEE (encode_body r)).

Definition txn_ab_ops : list Record_ :=
  [ NewTxnRecord (EncodeTxnId 0 ["a"]%byte) (Some ["1"]%byte);
    NewTxnRecord (EncodeTxnId 0 ["b"]%byte) (Some ["2"]%byte) ].

(** The segment torn five bytes into the commit record. *)
Definition seg_batch_ab_torn : bytes := take 69 seg_batch_ab.




Inductive iop : Type :=
  | IPut (key : bytes) (pos : Pos)
  | IDelete (key : bytes).

Definition index_step (tr : BTreeIndex.t) (o : iop) : BTreeIndex.t :=
  match o with
  | IPut key pos => BTreeIndex.Put key pos tr
  | IDelete key => BTreeIndex.Delete key tr
  end.

(** The index that [NewBTreeIndex] returns, after the operations in order. *)
Definition index_run (ops : list iop) : BTreeIndex.t := fold_left index_step ops [].

(** The position that the last operation on [k] leaves, starting from
    [cur]. *)
Fixpoint index_last (ops : list iop) (k : bytes) (cur : option Pos) : option Pos :=
  match ops with
  | [] => cur
  | IPut key pos :: ops' =>
      index_last ops' k (if bool_decide (key = k) then Some pos else cur)
  | IDelete key :: ops' =>
      index_last ops' k (if bool_decide (key = k) then None else cur)
  end.

(** [index.Data]; the key is the string of the key bytes. *)
Record Data : Type := mkData {
  d_Key : bytes;
  d_Pos : Pos
}.

(** [BTreeIndex.Scan]: the ascending traversal collects the entries in
    range and stops after the first key greater than [endKey]. *)
Fixpoint BTreeIndex_Scan (startKey endKey : bytes) (tr : BTreeIndex.t) : list Data :=
  match tr with
  | [] => []
  | (k, p) :: tr' =>
      let results :=
        if KeyComparator.InRange k startKey endKey then [mkData k p] else [] in
      if KeyComparator.Greater k endKey then results
      else results ++ BTreeIndex_Scan startKey endKey tr'
  end.

(** An index entry whose key length and position fit the [uint32] fields of
    the hint file. *)
Definition entry_u32 (e : bytes * Pos) : Prop :=
  len e.1 < 2 ^ 32 /\ 0 <= FileId e.2 < 2 ^ 32 /\
  0 <= Offset e.2 < 2 ^ 32 /\ 0 <= Length e.2 < 2 ^ 32.

(** The file id that [LoadHint] leaves after the entries [es]. *)
Definition hint_fileId (es : list (bytes * Pos)) (fid : Z) : Z :=
  fold_left (fun fid e => if FileId e.2 >=? fid then wrap32 (FileId e.2 + 1) else fid) es fid.

(** An engine whose index holds two entries. *)
Definition engine_two_entries : Bitcask :=
  mkBitcask conf_1024 (Some (mkWal 1 15)) (<[0 := mkWal 0 1030]> ∅)
    [ (["a"]%byte, mkPos 0 0 15); (["b"; "c"]%byte, mkPos 1 0 15) ] 1 [0] 7 flock_New.

(** A record that [Put] or [Delete] writes, within the size limits. *)
Definition plain (r : Record_) : Prop :=
  within_caps r /\
  (RecordType_ r = RecordTypePut \/ RecordType_ r = RecordTypeDelete).

(** What replay does to the index on a Put or Delete record at [off]. *)
Definition plain_step (fid off : Z) (r : Record_) (m : BTreeIndex.t) : BTreeIndex.t :=
  if bool_decide (RecordType_ r = RecordTypeDelete) then BTreeIndex.Delete (Key r) m
  else BTreeIndex.Put (Key r) (mkPos fid off (13 + len (Key r) + len (Value r))) m.

Fixpoint replay_seg (fid off : Z) (rs : list Record_) (m : BTreeIndex.t) : BTreeIndex.t :=
  match rs with
  | [] => m
  | r :: rs' =>
      replay_seg fid (off + (13 + len (Key r) + len (Value r))) rs' (plain_step fid off r m)
  end.

(** The segments [fid], [fid + 1], ... in order. *)
Fixpoint replay_segs (fid : Z) (segs : list (list Record_)) (m : BTreeIndex.t)
    : BTreeIndex.t :=
  match segs with
  | [] => m
  | rs :: segs' => replay_segs (fid + 1) segs' (replay_seg fid 0 rs m)
  end.

(** The content of a segment that holds the records [rs]. *)
Definition seg_bytes (rs : list Record_) : bytes := concat (map Encode rs).

(** A list of file ids in ascending order. *)
Fixpoint ids_ascending (l : list Z) : Prop :=
  match l with
  | [] => True
  | x :: l' => Forall (Z.le x) l' /\ ids_ascending l'
  end.

(** The files [base], [base + 1], ... hold the segments [segs]. *)
Definition segs_at (d : Disk) (base : Z) (segs : list (list Record_)) : Prop :=
  forall (i : nat) rs, segs !! i = Some rs ->
    wal_files d !! (base + Z.of_nat i) = Some (seg_bytes rs).

Definition seg_fits (rs : list Record_) : Prop :=
  len (seg_bytes rs) + MaxRecordLength <= 2 ^ 32.

(** What [Get] finds for [k] according to the logical content [L]: the
    entry of the index when the last write of [k] put a value that is not
    nil, nothing otherwise. *)
Definition live (L : gmap bytes (option bytes)) (M : BTreeIndex.t) (k : bytes)
    : option Pos :=
  match L !! k with
  | Some (Some _) => BTreeIndex.Get k M
  | _ => None
  end.

(** [R] is the replay of the segments as a function of the index it starts
    from, [T] tells which keys have a record in the segments, [M] is the
    index of the running engine. *)
Record replays (R : BTreeIndex.t -> BTreeIndex.t) (T : bytes -> Prop)
    (M : BTreeIndex.t) (L : gmap bytes (option bytes)) : Prop := mk_replays {
  rp_sorted : forall m0, sorted m0 -> sorted (R m0);
  rp_touched : forall m0 k, sorted m0 -> T k -> BTreeIndex.Get k (R m0) = live L M k;
  rp_other : forall m0 k, sorted m0 -> ~ T k -> BTreeIndex.Get k (R m0) = BTreeIndex.Get k m0;
  rp_keys : forall k, L !! k <> None -> T k
}.

(** The directory holds the sealed segments [old] and the active segment
    [cur], all made of Put and Delete records; there is no hint file. *)
Record stored (c : Config) (old : list (list Record_)) (cur : list Record_)
    (bc : Bitcask) (d : Disk) : Prop := mk_stored {
  sd_len : Z.of_nat (length old) = fileId bc;
  sd_files : segs_at d 0 (old ++ [cur]);
  sd_plain : Forall (Forall plain) (old ++ [cur]);
  sd_size : Forall (fun rs => len (seg_bytes rs) <= MaxFileSize c + MaxRecordLength)
              (old ++ [cur]);
  sd_txn : txnId bc = 0;
  sd_hint : hint_file d = None
}.

Definition touched (segs : list (list Record_)) (k : bytes) : Prop :=
  k ∈ map Key (concat segs).

(** The segments replay to the index of the running engine, up to the keys
    whose last write put nil. *)
Definition durable (c : Config) (bc : Bitcask) (d : Disk)
    (L : gmap bytes (option bytes)) : Prop :=
  exists old cur,
    stored c old cur bc d /\
    replays (replay_segs 0 (old ++ [cur])) (touched (old ++ [cur])) (memTable bc) L.

(** Segments of at most [MaxFileSize] plus one record can be replayed with
    offsets below [2 ^ 32]. *)
Definition conf_replay_ok (c : Config) : Prop :=
  0 <= MaxFileSize c /\ MaxFileSize c + 2 * MaxRecordLength <= 2 ^ 32.

(** What [Get] returns for [k] after the loop of [Commit] over the keys
    [ks] with the map [m], when it returned [g] before: the value that the
    map holds for a key of the list, not found when the map holds nil. *)
Definition loop_view (m : gmap bytes (option bytes)) (ks : list (option bytes))
    (g : outcome (option bytes * bool)) (k : bytes) : outcome (option bytes * bool) :=
  if bool_decide (Some k ∈ ks) then
    match m !! k with
    | Some (Some v) => Ok (Some v, true)
    | Some None => Ok (None, false)
    | None => g
    end
  else g.

(** What [Get] returns after [Commit] of the batch [b], when it returned
    [g] before. *)
Definition batch_view (b : Batch) (g : outcome (option bytes * bool)) (k : bytes)
    : outcome (option bytes * bool) :=
  loop_view (default ∅ (mp b)) (keys b) g k.

Definition acts_example : list bop :=
  [ BPut (Some ["b"]%byte) (Some ["2"]%byte); BDelete (Some ["a"]%byte);
    BPut (Some ["c"]%byte) (Some ["3"]%byte) ].

Definition conf_64 : Config := mkConfig true 64 true 200.

Definition ctl_of (st : replay) : option Z :=
  if txnFlag st then Some (curTxnId st) else None.

Definition is_txn_rec (t : RecordType) : bool :=
  bool_decide (t = RecordTypeTxnPut) || bool_decide (t = RecordTypeTxnDelete)
  || bool_decide (t = RecordTypeTxnCommit).

Definition ctl_step (s : option Z) (r : Record_) : option (option Z) :=
  if bool_decide (RecordType_ r = RecordTypeBegin) then
    if len (Key r) <? 4 then None else Some (Some (get_u32be (take 4 (Key r))))
  else
    match s with
    | None => Some None
    | Some t =>
        if is_txn_rec (RecordType_ r) then
          if len (Key r) <? 4 then None
          else if negb (get_u32be (take 4 (Key r)) =? t) then None
          else if bool_decide (RecordType_ r = RecordTypeTxnCommit) then Some None
          else Some (Some t)
        else Some (Some t)
    end.

Fixpoint ctl_run (s : option Z) (rs : list Record_) : option (option Z) :=
  match rs with
  | [] => Some s
  | r :: rs' =>
      match ctl_step s r with
      | Some s' => ctl_run s' rs'
      | None => None
      end
  end.

(** The entry [(k, pos)] references bytes of an existing segment that decode
    to a record with the key [k]; the record is a tombstone only if [Q k]. *)
Definition points (d : Disk) (Q : bytes -> Prop) (e : bytes * Pos) : Prop :=
  len e.1 <= MaxKeyLength /\ 0 <= FileId e.2 /\
  exists f rec,
    wal_files d !! FileId e.2 = Some f /\ read_in f e.2 = Ok rec /\
    Key rec = e.1 /\ (RecordType_ rec = RecordTypeDelete -> Q e.1).

(** A buffered operation of a transaction: a TxnPut references its record. *)
Definition item_ok (d : Disk) (x : txnData) : Prop :=
  RecordType_ (td_rec x) = RecordTypeTxnPut ->
  points d (fun _ => False) (Key (td_rec x), td_pos x).

(** The invariant of the variables of [ReadAll]. *)
Record rinv (d : Disk) (Q : bytes -> Prop) (st : replay) : Prop := mk_rinv {
  ri_sorted : sorted (r_memTable st);
  ri_points : Forall (points d Q) (r_memTable st);
  ri_items : forall t l, batchData st !! t = Some l -> Forall (item_ok d) l;
  ri_db : 0 <= dbTxnId st < 2 ^ 32;
  ri_cur : 0 <= curTxnId st < 2 ^ 32
}.

(** The hint file, when there is one, holds a transaction id and an
    ascending list of entries that point into the directory. *)
Definition hint_ok (d : Disk) (Q : bytes -> Prop) : Prop :=
  match hint_file d with
  | None => True
  | Some h =>
      exists t es,
        h = put_u32be t ++ concat (map hint_entry es) /\ 0 <= t < 2 ^ 32 /\
        sorted es /\ Forall entry_u32 es /\ Forall (points d Q) es
  end.

(** The directory holds the segments [segs] as the files [0], [1], ...:
    whole records within the size limits that replay accepts. *)
Record dir_ok (c : Config) (Q : bytes -> Prop) (d : Disk) (segs : list (list Record_))
    : Prop := mk_dir_ok {
  do_ne : segs <> [];
  do_dom : forall id, is_Some (wal_files d !! id) <-> 0 <= id < Z.of_nat (length segs);
  do_files : segs_at d 0 segs;
  do_caps : Forall (Forall within_caps) segs;
  do_size : Forall (fun rs => len (seg_bytes rs) <= MaxFileSize c + MaxRecordLength) segs;
  do_ctl : Forall (fun rs => is_Some (ctl_run None rs)) segs;
  do_hint : hint_ok d Q
}.

(** Every sealed segment has its reader. *)
Definition covers (bc : Bitcask) : Prop :=
  forall j, 0 <= j < fileId bc -> exists w, oldWal bc !! j = Some w /\ w_fileId w = j.

(** The directory holds the sealed segments [old] and the active segment
    [cur]; replay accepts them, and [s] is the control state in which replay
    of the active segment ends. *)
Record laid (c : Config) (Q : bytes -> Prop) (bc : Bitcask) (d : Disk)
    (old : list (list Record_)) (cur : list Record_) (s : option Z) : Prop := mk_laid {
  ld_len : Z.of_nat (length old) = fileId bc;
  ld_files : segs_at d 0 (old ++ [cur]);
  ld_caps : Forall (Forall within_caps) (old ++ [cur]);
  ld_size : Forall (fun rs => len (seg_bytes rs) <= MaxFileSize c + MaxRecordLength)
              (old ++ [cur]);
  ld_ctl : Forall (fun rs => is_Some (ctl_run None rs)) old;
  ld_cur : ctl_run None cur = Some s;
  ld_cover : covers bc;
  ld_hint : hint_ok d Q;
  ld_txn : 0 <= txnId bc < 2 ^ 32
}.

(** Inside the transaction [t], or in a segment opened after its begin
    record. *)
Definition in_txn (t : Z) (s : option Z) : Prop := s = None \/ s = Some (wrap32 t).

(** [Wal.Delete]: the file is synced, closed and removed from the
    directory. *)
Definition Wal_Delete (w : Wal) (d : Disk) : outcome Disk :=
  match wal_files d !! w_fileId w with
  | Some _ => Ok (set_wal_files (delete (w_fileId w) (wal_files d)) d)
  | None => Err ErrIO
  end.

Definition set_oldWal (o : gmap Z Wal) (bc : Bitcask) : Bitcask :=
  mkBitcask (conf bc) (activeWal bc) o (memTable bc) (fileId bc) (fileIds bc)
    (txnId bc) (flock bc).

Definition set_fileIds (ids : list Z) (bc : Bitcask) : Bitcask :=
  mkBitcask (conf bc) (activeWal bc) (oldWal bc) (memTable bc) (fileId bc) ids
    (txnId bc) (flock bc).

(** The closure that [Merge] hands to [ForeachUnSafe]: it reads the record
    of the entry and puts the key again with the value read, which is a
    sub-slice of the bytes read and never nil. The engine and the directory
    are the variables it captures. *)
Definition merge_fn (st : Bitcask * Disk) (key : bytes) (pos : Pos)
    : (Bitcask * Disk) * outcome unit :=
  match targetWal st.1 pos with
  | Ok w =>
      match ReadPos w st.2 pos with
      | Ok rec =>
          match Put st.1 st.2 (Some key) (Some (Value rec)) with
          | Ok st' => (st', Ok tt)
          | Err e => (st, Err (ErrWrapped e))
          | Panic => (st, Panic)
          end
      | Err e => (st, Err (ErrWrapped e))
      | Panic => (st, Panic)
      end
  | Err e => (st, Err e)
  | Panic => (st, Panic)
  end.

(** The loop of [Merge] over [oldFileIds]; [bc.oldWal[fileId]] is nil for
    an id that the map does not hold, and [Delete] on it panics. *)
Fixpoint Merge_delete (ids : list Z) (bc : Bitcask) (d : Disk)
    : outcome (Bitcask * Disk) :=
  match ids with
  | [] => Ok (bc, d)
  | fid :: ids' =>
      w ← deref (oldWal bc !! fid);
      match Wal_Delete w d with
      | Ok d => Merge_delete ids' (set_oldWal (delete fid (oldWal bc)) bc) d
      | Err e => Err (ErrWrapped e)
      | Panic => Panic
      end
  end.

(** [Bitcask.Merge]. The callback replaces, in the index that is being
    traversed, the entry that the traversal is visiting; the traversal is
    taken to go on with the entries that the index held when it began. *)
Definition Merge (bc : Bitcask) (d : Disk) : outcome (Bitcask * Disk) :=
  let oldFileIds := fileIds bc in
  '(bc, d) ← mustRotate (set_fileIds [] bc) d;
  match BTreeIndex.Foreach merge_fn (bc, d) (memTable bc) with
  | ((bc, d), Ok _) => Merge_delete oldFileIds bc d
  | (_, Err e) => Err (ErrWrapped e)
  | (_, Panic) => Panic
  end.

(** The engine is used, then closed or abandoned, and the directory is
    opened again. [Reopen true] closes the engine first; [Reopen false]
    leaves it without [Close], as when the process ends. *)
Inductive act : Type :=
  | Do (x : cmd)
  | Compact
  | Reopen (close : bool).

Definition exec_act (a : act) (bc : Bitcask) (d : Disk) : outcome (Bitcask * Disk) :=
  match a with
  | Do x => exec_cmd x bc d
  | Compact => Merge bc d
  | Reopen true => d ← Close bc d; NewBitcask (conf bc) d
  | Reopen false => NewBitcask (conf bc) d
  end.

Fixpoint run_acts (l : list act) (bc : Bitcask) (d : Disk) : outcome (Bitcask * Disk) :=
  match l with
  | [] => Ok (bc, d)
  | a :: l' => '(bc, d) ← exec_act a bc d; run_acts l' bc d
  end.

(** A key that still fits the key limit with the four bytes of a
    transaction id in front of it. *)
Definition short_key (key : option bytes) : Prop :=
  len (of_slice key) + 4 <= MaxKeyLength.

Definition short_bop (a : bop) : Prop :=
  match a with
  | BPut _ _ => True
  | BDelete key => short_key key
  end.

(** The sequences that the invariant is proved for: puts within the size
    limits of the codec, deletes, batches below the configured size whose
    keys are short, and opening the directory again; no merge. *)
Definition valid_act (c : Config) (a : act) : Prop :=
  match a with
  | Do (Single o) => valid_op o
  | Do (Batched l) => Forall valid_bop l /\ Forall short_bop l /\ len l < BatchSize c
  | Compact => False
  | Reopen _ => True
  end.

Definition act_writes (a : act) : Z :=
  match a with
  | Do x => cmd_writes x
  | Compact => 0
  | Reopen _ => 0
  end.

Definition acts_writes (l : list act) : Z := fold_right (fun a n => act_writes a + n) 0 l.

(** Some command of the sequence puts [k] with a nil value. *)
Definition puts_nil (l : list act) (k : bytes) : Prop :=
  In (Do (Single (OpPut (Some k) None))) l.

(** The engine and the directory agree: the index entries can be read, and
    the segments are whole records that replay accepts. *)
Definition sess (c : Config) (Q : bytes -> Prop) (bc : Bitcask) (d : Disk) (n : Z) : Prop :=
  good Q c bc d n /\ exists old cur, laid c Q bc d old cur None.

(** Puts, one of them of a nil value, a batch, and the directory opened
    again without [Close] and after [Close]. *)
Definition session_example : list act :=
  [ Do (Single (OpPut (Some ["a"]%byte) (Some ["1"]%byte)));
    Do (Single (OpPut (Some ["b"]%byte) None));
    Do (Batched [ BPut (Some ["c"]%byte) (Some ["3"]%byte); BDelete (Some ["a"]%byte) ]);
    Reopen false;
    Do (Single (OpPut (Some ["d"]%byte) (Some ["4"]%byte)));
    Reopen true;
    Do (Single (OpDelete (Some ["c"]%byte))) ].

(** The option [LoadHint] unset. *)
Definition conf_no_replay : Config := mkConfig true 1024 false 200.

(** [a] is put, the engine is closed and opened again, [a] is deleted, the
    segments are merged, and the directory is opened again without
    [Close]. *)
Definition acts_merge : list act :=
  [ Do (Single (OpPut (Some ["a"]%byte) (Some ["1"]%byte)));
    Reopen true;
    Do (Single (OpDelete (Some ["a"]%byte)));
    Compact;
    Reopen false ].

(** [a] is put, the directory is opened again, and [b] is put. *)
Definition acts_put_reopen_put : list act :=
  [ Do (Single (OpPut (Some ["a"]%byte) (Some ["1"]%byte)));
    Reopen false;
    Do (Single (OpPut (Some ["b"]%byte) (Some ["2"]%byte))) ].

(** * Properties *)

(** * Bytes and integers *)

Lemma len_nonneg {A} (l : list A) : 0 <= len l.
Proof. unfold len. lia. Qed.

Lemma len_app {A} (l1 l2 : list A) : len (l1 ++ l2) = len l1 + len l2.
Proof. unfold len. rewrite length_app. lia. Qed.

Lemma len_cons {A} (x : A) (l : list A) : len (x :: l) = 1 + len l.
Proof. unfold len. simpl length. lia. Qed.

Lemma len_nil {A} : len (@nil A) = 0.
Proof. reflexivity. Qed.

Lemma wrap32_small z : 0 <= z < 2 ^ 32 -> wrap32 z = z.
Proof. intros H. unfold wrap32. apply Z.mod_small. exact H. Qed.

Lemma wrap32_range z : 0 <= wrap32 z < 2 ^ 32.
Proof. unfold wrap32. apply Z.mod_pos_bound. reflexivity. Qed.

Lemma Z_of_byte_range b : 0 <= Z_of_byte b < 256.
Proof.
  unfold Z_of_byte. pose proof (Byte.to_N_bounded b) as H. lia.
Qed.

Lemma byte_of_Z_of_byte b : byte_of_Z (Z_of_byte b) = b.
Proof.
  unfold byte_of_Z, Z_of_byte.
  pose proof (Byte.to_N_bounded b) as H.
  rewrite Z.mod_small by lia.
  rewrite N2Z.id, Byte.of_to_N. reflexivity.
Qed.

Lemma Z_of_byte_of_Z z : Z_of_byte (byte_of_Z z) = z mod 256.
Proof.
  unfold byte_of_Z, Z_of_byte.
  pose proof (Z.mod_pos_bound z 256 eq_refl) as H.
  destruct (Byte.of_N (Z.to_N (z mod 256))) as [b|] eqn:E.
  - apply Byte.to_of_N in E. simpl. rewrite E. lia.
  - apply Byte.of_N_None_iff in E. lia.
Qed.

Lemma Z_of_byte_inj a b : Z_of_byte a = Z_of_byte b -> a = b.
Proof.
  intros H. rewrite <- (byte_of_Z_of_byte a), <- (byte_of_Z_of_byte b), H. reflexivity.
Qed.

Lemma length_put_u32be v : length (put_u32be v) = 4%nat.
Proof. reflexivity. Qed.

Lemma len_put_u32be v : len (put_u32be v) = 4.
Proof. reflexivity. Qed.

Lemma get_put_u32be v rest : get_u32be (put_u32be v ++ rest) = wrap32 v.
Proof.
  unfold put_u32be, get_u32be, wrap32. cbn [app].
  rewrite !Z_of_byte_of_Z, !Z.shiftr_div_pow2 by lia.
  change (2 ^ 24) with 16777216. change (2 ^ 16) with 65536.
  change (2 ^ 8) with 256. change (2 ^ 32) with 4294967296.
  Z.to_euclidean_division_equations. lia.
Qed.

Lemma get_put_u32be_small v rest :
  0 <= v < 2 ^ 32 -> get_u32be (put_u32be v ++ rest) = v.
Proof. intros H. rewrite get_put_u32be. apply wrap32_small, H. Qed.

Lemma get_u32be_range b : 0 <= get_u32be b < 2 ^ 32.
Proof.
  unfold get_u32be.
  destruct b as [|b0 [|b1 [|b2 [|b3 ?]]]]; try (split; [lia | reflexivity]).
  pose proof (Z_of_byte_range b0). pose proof (Z_of_byte_range b1).
  pose proof (Z_of_byte_range b2). pose proof (Z_of_byte_range b3).
  change (2 ^ 24) with 16777216. change (2 ^ 16) with 65536.
  change (2 ^ 8) with 256. change (2 ^ 32) with 4294967296. lia.
Qed.

(** ** The checksum is a [uint32] *)

Lemma lxor_range a b n :
  0 <= n -> 0 <= a < 2 ^ n -> 0 <= b < 2 ^ n -> 0 <= Z.lxor a b < 2 ^ n.
Proof.
  intros Hn Ha Hb.
  assert (H0 : 0 <= Z.lxor a b) by (apply Z.lxor_nonneg; lia).
  split; [exact H0|].
  destruct (Z.eq_dec (Z.lxor a b) 0) as [E|E].
  - rewrite E. apply Z.pow_pos_nonneg; lia.
  - assert (Hpos : 0 < n).
    { destruct (Z.eq_dec n 0) as [->|]; [|lia]. exfalso. apply E.
      change (2 ^ 0) with 1 in *.
      replace a with 0 by lia. replace b with 0 by lia. reflexivity. }
    apply Z.log2_lt_pow2; [lia|].
    eapply Z.le_lt_trans; [apply Z.log2_lxor; lia|].
    apply Z.max_lub_lt.
    + destruct (Z.eq_dec a 0) as [->|]; [simpl; lia|]. apply Z.log2_lt_pow2; lia.
    + destruct (Z.eq_dec b 0) as [->|]; [simpl; lia|]. apply Z.log2_lt_pow2; lia.
Qed.

Lemma shiftr1_range c : 0 <= c < 2 ^ 32 -> 0 <= Z.shiftr c 1 < 2 ^ 32.
Proof.
  intros H. rewrite Z.shiftr_div_pow2 by lia. change (2 ^ 1) with 2.
  change (2 ^ 32) with 4294967296 in *. Z.to_euclidean_division_equations. lia.
Qed.

Lemma crc_shift_range c : 0 <= c < 2 ^ 32 -> 0 <= crc_shift c < 2 ^ 32.
Proof.
  intros H. unfold crc_shift. pose proof (shiftr1_range c H).
  destruct (Z.testbit c 0); [|assumption].
  apply lxor_range; [lia | assumption | split; [lia | reflexivity]].
Qed.

Lemma crc_update_range c b : 0 <= c < 2 ^ 32 -> 0 <= crc_update c b < 2 ^ 32.
Proof.
  intros H. unfold crc_update.
  assert (H1 : 0 <= Z.lxor c (Z_of_byte b) < 2 ^ 32).
  { apply lxor_range; [lia | assumption |].
    pose proof (Z_of_byte_range b). change (2 ^ 32) with 4294967296. lia. }
  simpl Nat.iter. auto 10 using crc_shift_range.
Qed.

Lemma crc_fold_range data c :
  0 <= c < 2 ^ 32 -> 0 <= fold_left crc_update data c < 2 ^ 32.
Proof.
  revert c. induction data as [|b data IH]; intros c H; simpl; [assumption|].
  apply IH, crc_update_range, H.
Qed.

Lemma ChecksumIEEE_range data : 0 <= ChecksumIEEE data < 2 ^ 32.
Proof.
  unfold ChecksumIEEE. apply lxor_range; [lia | | split; [lia | reflexivity]].
  apply crc_fold_range. split; [lia | reflexivity].
Qed.

(** ** Slices *)

Lemma slice_app_mid (a b c : bytes) :
  slice (a ++ b ++ c) (len a) (len a + len b) = Ok b.
Proof.
  unfold slice.
  pose proof (len_nonneg a). pose proof (len_nonneg b). pose proof (len_nonneg c).
  rewrite !len_app.
  replace ((0 <=? len a) && (len a <=? len a + len b)
           && (len a + len b <=? len a + (len b + len c))) with true
    by (symmetry; rewrite !andb_true_iff, !Z.leb_le; lia).
  f_equal. unfold len.
  replace (Z.of_nat (length a) + Z.of_nat (length b) - Z.of_nat (length a))
    with (Z.of_nat (length b)) by lia.
  rewrite !Nat2Z.id, drop_app_length, take_app_length. reflexivity.
Qed.

Lemma slice_app_mid' (a b c : bytes) lo hi :
  lo = len a -> hi = len a + len b -> slice (a ++ b ++ c) lo hi = Ok b.
Proof. intros -> ->. apply slice_app_mid. Qed.

Lemma slice_full (b : bytes) : slice b 0 (len b) = Ok b.
Proof.
  pose proof (slice_app_mid [] b []) as H. rewrite app_nil_r in H.
  simpl in H. exact H.
Qed.

Lemma slice_prefix (b c : bytes) : slice (b ++ c) 0 (len b) = Ok b.
Proof. apply (slice_app_mid [] b c). Qed.

Lemma slice_suffix (a b : bytes) : slice (a ++ b) (len a) (len a + len b) = Ok b.
Proof.
  pose proof (slice_app_mid a b []) as H. rewrite app_nil_r in H. exact H.
Qed.

Lemma slice_Ok_inv (b : bytes) lo hi x :
  slice b lo hi = Ok x ->
  0 <= lo /\ lo <= hi /\ hi <= len b /\
  b = take (Z.to_nat lo) b ++ x ++ drop (Z.to_nat hi) b /\ len x = hi - lo.
Proof.
  unfold slice. intros H.
  destruct ((0 <=? lo) && (lo <=? hi) && (hi <=? len b)) eqn:E; [|discriminate].
  rewrite !andb_true_iff, !Z.leb_le in E. destruct E as [[H0 H1] H2].
  injection H as <-. repeat split; try lia.
  - rewrite <- (take_drop (Z.to_nat lo) b) at 1. f_equal.
    rewrite <- (take_drop (Z.to_nat (hi - lo)) (drop (Z.to_nat lo) b)) at 1.
    f_equal. rewrite drop_drop. f_equal. lia.
  - unfold len in *. rewrite length_take, length_drop. lia.
Qed.

(** A slice of the old content is not changed by an append. *)
Lemma slice_app_l (b c : bytes) lo hi x :
  slice b lo hi = Ok x -> slice (b ++ c) lo hi = Ok x.
Proof.
  intros H. destruct (slice_Ok_inv _ _ _ _ H) as (H0 & H1 & H2 & Hb & Hx).
  rewrite Hb, <- !app_assoc.
  apply slice_app_mid'.
  - unfold len in *. rewrite length_take. lia.
  - unfold len in *. rewrite length_take. lia.
Qed.

(** * The record codec *)

Lemma Encode_frame r : Encode r = frame r (ChecksumIEEE (encode_body r)).
Proof. reflexivity. Qed.

Lemma len_encode_body r : len (encode_body r) = 9 + len (Key r) + len (Value r).
Proof.
  unfold encode_body. rewrite len_cons, !len_app, !len_put_u32be. lia.
Qed.

Lemma len_frame r c : len (frame r c) = 13 + len (Key r) + len (Value r).
Proof. unfold frame. rewrite len_app, len_encode_body, len_put_u32be. lia. Qed.

Lemma len_Encode r : len (Encode r) = 13 + len (Key r) + len (Value r).
Proof. apply len_frame. Qed.

Lemma caps_values :
  MaxKeyLength = 10485760 /\ MaxValueLength = 104857600 /\ 2 ^ 32 = 4294967296.
Proof. repeat split. Qed.

Ltac caps :=
  unfold within_caps in *;
  destruct caps_values as (? & ? & ?);
  repeat match goal with
         | |- context [len ?l] => lazymatch goal with
                                  | _ : 0 <= len l |- _ => fail
                                  | _ => pose proof (len_nonneg l)
                                  end
         | _ : context [len ?l] |- _ => lazymatch goal with
                                  | _ : 0 <= len l |- _ => fail
                                  | _ => pose proof (len_nonneg l)
                                  end
         end.

Lemma wrap32_small' z : 0 <= z < 4294967296 -> wrap32 z = z.
Proof. intros. apply wrap32_small. change (2 ^ 32) with 4294967296. lia. Qed.

(** The fields of a frame, as the decoder and the replay loop slice them
    out of a buffer [pre ++ frame r c ++ post]. *)
Section FrameSlices.

Variables (pre post : bytes) (r : Record_) (c : Z).

Let buf := pre ++ frame r c ++ post.

Let o := len pre.

Let k := len (Key r).

Let v := len (Value r).

Lemma frame_nth : nth (Z.to_nat o) buf x00 = RecordType_ r.
Proof.
  unfold buf, o, len. rewrite Nat2Z.id, app_nth2 by lia.
  rewrite Nat.sub_diag. reflexivity.
Qed.

Lemma frame_split :
  buf = pre ++ [RecordType_ r] ++ put_u32be (wrap32 k) ++ put_u32be (wrap32 v)
            ++ Key r ++ Value r ++ put_u32be c ++ post.
Proof.
  unfold buf, frame, encode_body, k, v. simpl. rewrite <- !app_assoc. reflexivity.
Qed.

Lemma frame_slice_klen : slice buf (o + 1) (o + 5) = Ok (put_u32be (wrap32 k)).
Proof.
  rewrite frame_split, (app_assoc pre).
  apply slice_app_mid'; rewrite ?len_app, ?len_put_u32be; unfold o, len; simpl; lia.
Qed.

Lemma frame_slice_vlen : slice buf (o + 5) (o + 9) = Ok (put_u32be (wrap32 v)).
Proof.
  rewrite frame_split, (app_assoc pre), (app_assoc (pre ++ _)).
  apply slice_app_mid'; rewrite ?len_app, ?len_put_u32be; unfold o, len; simpl; lia.
Qed.

Lemma frame_slice_key : slice buf (o + 9) (o + 9 + k) = Ok (Key r).
Proof.
  rewrite frame_split, (app_assoc pre), (app_assoc (pre ++ _)),
    (app_assoc ((pre ++ _) ++ _)).
  apply slice_app_mid'; rewrite ?len_app, ?len_put_u32be; unfold o, k, len; simpl; lia.
Qed.

Lemma frame_slice_value : slice buf (o + 9 + k) (o + 9 + k + v) = Ok (Value r).
Proof.
  rewrite frame_split, (app_assoc pre), (app_assoc (pre ++ _)),
    (app_assoc ((pre ++ _) ++ _)), (app_assoc (((pre ++ _) ++ _) ++ _)).
  apply slice_app_mid'; rewrite ?len_app, ?len_put_u32be; unfold o, k, v, len; simpl; lia.
Qed.

Lemma frame_slice_crc : slice buf (o + 9 + k + v) (o + 13 + k + v) = Ok (put_u32be c).
Proof.
  rewrite frame_split, (app_assoc pre), (app_assoc (pre ++ _)),
    (app_assoc ((pre ++ _) ++ _)), (app_assoc (((pre ++ _) ++ _) ++ _)),
    (app_assoc ((((pre ++ _) ++ _) ++ _) ++ _)).
  apply slice_app_mid'; rewrite ?len_app, ?len_put_u32be; unfold o, k, v, len; simpl; lia.
Qed.

Lemma frame_slice_body : slice buf o (o + 9 + k + v) = Ok (encode_body r).
Proof.
  unfold buf, frame. rewrite <- app_assoc.
  apply slice_app_mid'; [reflexivity|]. rewrite len_encode_body. unfold o, k, v. lia.
Qed.

Lemma frame_slice_tail : slice buf (o + 9 + k + v) (len buf) = Ok (put_u32be c ++ post).
Proof.
  assert (E : buf = (pre ++ encode_body r) ++ put_u32be c ++ post).
  { unfold buf, frame. rewrite <- !app_assoc. reflexivity. }
  rewrite E.
  replace (o + 9 + k + v) with (len (pre ++ encode_body r))
    by (rewrite len_app, len_encode_body; unfold o, k, v; lia).
  rewrite (len_app (pre ++ encode_body r)). apply slice_suffix.
Qed.

End FrameSlices.

Lemma get_put_u32be_nil v : get_u32be (put_u32be v) = wrap32 v.
Proof. rewrite <- (app_nil_r (put_u32be v)). apply get_put_u32be. Qed.

(** What [DecodeRecord] returns on a frame followed by any bytes. *)
Lemma DecodeRecord_frame r c post :
  within_caps r ->
  len (frame r c ++ post) < 2 ^ 32 ->
  DecodeRecord (frame r c ++ post) =
    if c mod 2 ^ 32 =? ChecksumIEEE (encode_body r) then strip_txn r
    else Err ErrCrcMismatch.
Proof.
  intros Hc Hlen.
  set (data := frame r c ++ post) in *.
  set (k := len (Key r)). set (v := len (Value r)).
  assert (Hn : nth 0 data x00 = RecordType_ r) by exact (frame_nth [] post r c).
  assert (Hk : slice data 1 5 = Ok (put_u32be (wrap32 k)))
    by exact (frame_slice_klen [] post r c).
  assert (Hv : slice data 5 9 = Ok (put_u32be (wrap32 v)))
    by exact (frame_slice_vlen [] post r c).
  assert (Hkey : slice data 9 (9 + k) = Ok (Key r))
    by exact (frame_slice_key [] post r c).
  assert (Hval : slice data (9 + k) (9 + k + v) = Ok (Value r))
    by exact (frame_slice_value [] post r c).
  assert (Htl : slice data (9 + k + v) (len data) = Ok (put_u32be c ++ post))
    by exact (frame_slice_tail [] post r c).
  assert (Hbody : slice data 0 (9 + k + v) = Ok (encode_body r))
    by exact (frame_slice_body [] post r c).
  unfold k, v in *. clear k v.
  assert (Hdl : len data = 13 + len (Key r) + len (Value r) + len post).
  { unfold data. rewrite len_app, len_frame. lia. }
  caps.
  rewrite (wrap32_small' (len (Key r))) in * by lia.
  rewrite (wrap32_small' (len (Value r))) in * by lia.
  unfold DecodeRecord.
  rewrite (proj2 (Z.ltb_ge (len data) 9)) by lia.
  rewrite Hn, Hk, Hv. cbn [mbind outcome_bind bind].
  rewrite !get_put_u32be_nil, !wrap32_small' by lia.
  replace ((len (Key r) >? MaxKeyLength) || (len (Value r) >? MaxValueLength)) with false
    by (symmetry; rewrite orb_false_iff, !Z.gtb_ltb, !Z.ltb_ge; lia).
  rewrite (proj2 (Z.ltb_ge (len data) _)) by lia.
  rewrite Hkey, Hval, Htl, Hbody. cbn [mbind outcome_bind bind].
  rewrite (proj2 (Z.ltb_ge (len (put_u32be c ++ post)) 4))
    by (rewrite len_app, len_put_u32be; lia).
  rewrite get_put_u32be. unfold wrap32 at 1.
  destruct (c mod 2 ^ 32 =? ChecksumIEEE (encode_body r)); cbn [negb]; [|reflexivity].
  unfold strip_txn, is_txn_op.
  destruct (bool_decide (RecordType_ r = RecordTypeTxnPut)
            || bool_decide (RecordType_ r = RecordTypeTxnDelete)).
  - destruct (DecodeTxnId (Key r)); reflexivity.
  - cbn [mbind outcome_bind bind]. destruct r; reflexivity.
Qed.

Lemma DecodeRecord_Encode r :
  within_caps r -> DecodeRecord (Encode r) = strip_txn r.
Proof.
  intros Hc. rewrite Encode_frame, <- (app_nil_r (frame _ _)).
  rewrite DecodeRecord_frame; [| assumption |].
  - pose proof (ChecksumIEEE_range (encode_body r)) as Hr.
    rewrite Z.mod_small, Z.eqb_refl by exact Hr. reflexivity.
  - rewrite app_nil_r, len_frame. caps. lia.
Qed.

(** * The key order *)

Lemma bytes_Compare_values a b :
  bytes_Compare a b = -1 \/ bytes_Compare a b = 0 \/ bytes_Compare a b = 1.
Proof.
  revert b. induction a as [|x a IH]; intros [|y b]; simpl; auto.
  destruct (Z_of_byte x <? Z_of_byte y); auto.
  destruct (Z_of_byte y <? Z_of_byte x); auto.
Qed.

Lemma bytes_Compare_refl a : bytes_Compare a a = 0.
Proof.
  induction a as [|x a IH]; simpl; [reflexivity|].
  rewrite Z.ltb_irrefl. exact IH.
Qed.

Lemma bytes_Compare_eq a b : bytes_Compare a b = 0 -> a = b.
Proof.
  revert b. induction a as [|x a IH]; intros [|y b]; simpl; try discriminate; auto.
  destruct (Z_of_byte x <? Z_of_byte y) eqn:E1; [discriminate|].
  destruct (Z_of_byte y <? Z_of_byte x) eqn:E2; [discriminate|].
  intros H. apply Z.ltb_ge in E1, E2.
  f_equal; [apply Z_of_byte_inj; lia | apply IH, H].
Qed.

Lemma bytes_Compare_antisym a b : bytes_Compare b a = - bytes_Compare a b.
Proof.
  revert b. induction a as [|x a IH]; intros [|y b]; simpl; try reflexivity.
  destruct (Z_of_byte x <? Z_of_byte y) eqn:E1;
    destruct (Z_of_byte y <? Z_of_byte x) eqn:E2;
    rewrite ?Z.ltb_lt, ?Z.ltb_ge in *; try reflexivity; try lia.
  apply IH.
Qed.

Lemma bytes_Compare_trans a b c :
  bytes_Compare a b < 0 -> bytes_Compare b c < 0 -> bytes_Compare a c < 0.
Proof.
  revert b c. induction a as [|x a IH]; intros [|y b] [|z c]; simpl; try lia.
  destruct (Z_of_byte x <? Z_of_byte y) eqn:E1;
    destruct (Z_of_byte y <? Z_of_byte z) eqn:E2;
    destruct (Z_of_byte x <? Z_of_byte z) eqn:E3;
    destruct (Z_of_byte y <? Z_of_byte x) eqn:E4;
    destruct (Z_of_byte z <? Z_of_byte y) eqn:E5;
    destruct (Z_of_byte z <? Z_of_byte x) eqn:E6;
    rewrite ?Z.ltb_lt, ?Z.ltb_ge in *; try lia.
  apply IH.
Qed.

Lemma Less_spec a b :
  klt a b <-> len a < len b \/ (len a = len b /\ bytes_Compare a b < 0).
Proof.
  unfold BTreeIndex.Less.
  destruct (len a =? len b) eqn:E; simpl.
  - apply Z.eqb_eq in E. rewrite Z.ltb_lt. lia.
  - apply Z.eqb_neq in E. rewrite Z.ltb_lt. lia.
Qed.

Lemma Less_irrefl a : BTreeIndex.Less a a = false.
Proof.
  apply not_true_iff_false. rewrite Less_spec, bytes_Compare_refl. lia.
Qed.

Lemma Less_trans a b c : klt a b -> klt b c -> klt a c.
Proof.
  rewrite !Less_spec. intros [H1|[H1 H2]] [H3|[H3 H4]]; try lia.
  right. split; [lia|]. eapply bytes_Compare_trans; eassumption.
Qed.

Lemma Less_asym a b : klt a b -> BTreeIndex.Less b a = false.
Proof.
  intros H. apply not_true_iff_false. intros H'.
  pose proof (Less_trans _ _ _ H H') as Ha. rewrite Less_irrefl in Ha. discriminate.
Qed.

Lemma Less_total a b :
  BTreeIndex.Less a b = false -> BTreeIndex.Less b a = false -> a = b.
Proof.
  intros H1 H2. apply not_true_iff_false in H1, H2. rewrite Less_spec in H1, H2.
  pose proof (bytes_Compare_antisym a b) as Ha.
  apply bytes_Compare_eq.
  destruct (bytes_Compare_values a b) as [E|[E|E]]; [| exact E |]; lia.
Qed.

Lemma Less_cases a b : {klt a b} + {a = b} + {klt b a}.
Proof.
  destruct (BTreeIndex.Less a b) eqn:E1; [left; left; reflexivity|].
  destruct (BTreeIndex.Less b a) eqn:E2; [right; reflexivity|].
  left; right. apply Less_total; assumption.
Qed.

Lemma KC_Less a b : KeyComparator.Less a b = BTreeIndex.Less a b.
Proof. reflexivity. Qed.

Lemma KC_Greater a b : KeyComparator.Greater a b = BTreeIndex.Less b a.
Proof.
  unfold KeyComparator.Greater, BTreeIndex.Less.
  rewrite (Z.eqb_sym (len b) (len a)), !Z.gtb_ltb.
  destruct (len a =? len b); simpl; [|reflexivity].
  rewrite (bytes_Compare_antisym a b).
  destruct (0 <? bytes_Compare a b) eqn:E1; destruct (- bytes_Compare a b <? 0) eqn:E2;
    rewrite ?Z.ltb_lt, ?Z.ltb_ge in *; try reflexivity; lia.
Qed.

Lemma KC_Equal a b : KeyComparator.Equal a b = bool_decide (a = b).
Proof.
  unfold KeyComparator.Equal. destruct (bool_decide_reflect (a = b)) as [->|Hne].
  - rewrite Z.eqb_refl, bytes_Compare_refl. reflexivity.
  - apply andb_false_iff. destruct (bytes_Compare a b =? 0) eqn:E; [|auto].
    apply Z.eqb_eq, bytes_Compare_eq in E. contradiction.
Qed.

(** [InRange key start end] is [start <= key <= end] in the key order. *)
Lemma KC_InRange key start end_ :
  KeyComparator.InRange key start end_ = true <->
  BTreeIndex.Less key start = false /\ BTreeIndex.Less end_ key = false.
Proof.
  unfold KeyComparator.InRange, KeyComparator.GreaterOrEqual, KeyComparator.LessOrEqual.
  change (KeyComparator.Less key end_) with (BTreeIndex.Less key end_).
  rewrite KC_Greater, !KC_Equal, andb_true_iff, !orb_true_iff, !bool_decide_eq_true.
  split.
  - intros [[H1| ->] [H2| ->]]; rewrite ?Less_irrefl; auto using Less_asym.
  - intros [H1 H2]. split.
    + destruct (Less_cases key start) as [[H| ->]|H]; auto. congruence.
    + destruct (Less_cases key end_) as [[H| ->]|H]; auto. congruence.
Qed.

(** * The index as an ascending list *)

Lemma Forall_Less_Put k0 k p tr :
  klt k0 k -> Forall (fun e' => klt k0 e'.1) tr ->
  Forall (fun e' => klt k0 e'.1) (BTreeIndex.Put k p tr).
Proof.
  intros Hk. induction tr as [|[k1 p1] tr IH]; simpl; intros HF.
  - constructor; [exact Hk | constructor].
  - inversion_clear HF as [|? ? H1 H2].
    destruct (BTreeIndex.Less k k1); [|destruct (BTreeIndex.Less k1 k)].
    + constructor; [exact Hk|]. constructor; assumption.
    + constructor; [exact H1 | apply IH, H2].
    + constructor; [exact Hk | exact H2].
Qed.

Lemma Forall_Less_Delete k0 k tr :
  Forall (fun e' => klt k0 e'.1) tr ->
  Forall (fun e' => klt k0 e'.1) (BTreeIndex.Delete k tr).
Proof.
  induction tr as [|[k1 p1] tr IH]; simpl; intros HF; [constructor|].
  inversion_clear HF as [|? ? H1 H2].
  destruct (BTreeIndex.Less k k1); [|destruct (BTreeIndex.Less k1 k)].
  - constructor; assumption.
  - constructor; [exact H1 | apply IH, H2].
  - exact H2.
Qed.

Lemma sorted_Put k p tr : sorted tr -> sorted (BTreeIndex.Put k p tr).
Proof.
  induction tr as [|[k1 p1] tr IH]; simpl; intros Hs.
  - split; [constructor | exact I].
  - destruct Hs as [HF Hs].
    destruct (BTreeIndex.Less k k1) eqn:E1; [|destruct (BTreeIndex.Less k1 k) eqn:E2].
    + simpl. split; [|split; assumption].
      constructor; [exact E1|].
      eapply Forall_impl; [exact HF|]. intros e He. simpl in *.
      eapply Less_trans; eassumption.
    + simpl. split; [|apply IH, Hs]. apply Forall_Less_Put; assumption.
    + pose proof (Less_total _ _ E1 E2) as ->. simpl. split; assumption.
Qed.

Lemma sorted_Delete k tr : sorted tr -> sorted (BTreeIndex.Delete k tr).
Proof.
  induction tr as [|[k1 p1] tr IH]; simpl; intros Hs; [exact I|].
  destruct Hs as [HF Hs].
  destruct (BTreeIndex.Less k k1); [|destruct (BTreeIndex.Less k1 k)].
  - simpl. split; assumption.
  - simpl. split; [apply Forall_Less_Delete, HF | apply IH, Hs].
  - exact Hs.
Qed.

Lemma Get_Forall_Less k tr :
  Forall (fun e' => klt k e'.1) tr -> BTreeIndex.Get k tr = None.
Proof.
  destruct tr as [|[k1 p1] tr]; simpl; [reflexivity|].
  intros HF. inversion_clear HF as [|? ? H1 H2]. simpl in H1. rewrite H1. reflexivity.
Qed.

Lemma Get_Put_eq k p tr : BTreeIndex.Get k (BTreeIndex.Put k p tr) = Some p.
Proof.
  induction tr as [|[k1 p1] tr IH]; simpl.
  - rewrite Less_irrefl. reflexivity.
  - destruct (BTreeIndex.Less k k1) eqn:E1; [|destruct (BTreeIndex.Less k1 k) eqn:E2]; simpl.
    + rewrite Less_irrefl. reflexivity.
    + rewrite E1, E2. exact IH.
    + rewrite Less_irrefl. reflexivity.
Qed.

Lemma Get_Put_ne k k' p tr :
  sorted tr -> k <> k' ->
  BTreeIndex.Get k' (BTreeIndex.Put k p tr) = BTreeIndex.Get k' tr.
Proof.
  intros Hs Hne. induction tr as [|[k1 p1] tr IH]; simpl.
  - destruct (Less_cases k' k) as [[H| ->]|H]; [| contradiction |].
    + rewrite H. reflexivity.
    + rewrite (Less_asym _ _ H), H. reflexivity.
  - destruct Hs as [HF Hs]. specialize (IH Hs).
    destruct (BTreeIndex.Less k k1) eqn:E1; [|destruct (BTreeIndex.Less k1 k) eqn:E2]; simpl.
    + destruct (Less_cases k' k) as [[H| ->]|H]; [| contradiction |].
      * rewrite H, (Less_trans _ _ _ H E1). reflexivity.
      * rewrite (Less_asym _ _ H), H. reflexivity.
    + rewrite IH. reflexivity.
    + pose proof (Less_total _ _ E1 E2) as ->.
      destruct (Less_cases k' k1) as [[H| ->]|H]; [| contradiction |].
      * rewrite H. reflexivity.
      * rewrite (Less_asym _ _ H), H. reflexivity.
Qed.

Lemma Get_Delete_eq k tr :
  sorted tr -> BTreeIndex.Get k (BTreeIndex.Delete k tr) = None.
Proof.
  induction tr as [|[k1 p1] tr IH]; simpl; intros Hs; [reflexivity|].
  destruct Hs as [HF Hs].
  destruct (BTreeIndex.Less k k1) eqn:E1; [|destruct (BTreeIndex.Less k1 k) eqn:E2]; simpl.
  - rewrite E1. reflexivity.
  - rewrite E1, E2. apply IH, Hs.
  - pose proof (Less_total _ _ E1 E2) as ->. apply Get_Forall_Less, HF.
Qed.

Lemma Get_Delete_ne k k' tr :
  sorted tr -> k <> k' ->
  BTreeIndex.Get k' (BTreeIndex.Delete k tr) = BTreeIndex.Get k' tr.
Proof.
  intros Hs Hne. induction tr as [|[k1 p1] tr IH]; simpl; [reflexivity|].
  destruct Hs as [HF Hs]. specialize (IH Hs).
  destruct (BTreeIndex.Less k k1) eqn:E1; [|destruct (BTreeIndex.Less k1 k) eqn:E2]; simpl.
  - reflexivity.
  - rewrite IH. reflexivity.
  - pose proof (Less_total _ _ E1 E2) as ->.
    destruct (Less_cases k' k1) as [[H| ->]|H]; [| contradiction |].
    + rewrite H. apply Get_Forall_Less.
      eapply Forall_impl; [exact HF|]. intros e He. simpl in *.
      eapply Less_trans; eassumption.
    + rewrite (Less_asym _ _ H), H. reflexivity.
Qed.

Lemma Get_Some_elem k p tr :
  sorted tr -> (BTreeIndex.Get k tr = Some p <-> (k, p) ∈ tr).
Proof.
  induction tr as [|[k1 p1] tr IH]; simpl; intros Hs.
  - split; [discriminate | intros H; inversion H].
  - destruct Hs as [HF Hs]. specialize (IH Hs). rewrite elem_of_cons.
    destruct (BTreeIndex.Less k k1) eqn:E1; [|destruct (BTreeIndex.Less k1 k) eqn:E2].
    + split; [discriminate|]. intros [H|H].
      * injection H as -> ->. rewrite Less_irrefl in E1. discriminate.
      * rewrite Forall_forall in HF. apply HF in H. simpl in H.
        rewrite (Less_asym _ _ H) in E1. discriminate.
    + rewrite IH. split; [auto|]. intros [H|H]; [|exact H].
      injection H as -> ->. rewrite Less_irrefl in E2. discriminate.
    + pose proof (Less_total _ _ E1 E2) as ->. split.
      * intros H. injection H as ->. left. reflexivity.
      * intros [H|H]; [injection H as ->; reflexivity|].
        rewrite Forall_forall in HF. apply HF in H. simpl in H.
        rewrite Less_irrefl in H. discriminate.
Qed.

(** * The state invariant of the engine *)

Lemma ReadPos_fileId w w' d pos :
  w_fileId w = w_fileId w' -> ReadPos w d pos = ReadPos w' d pos.
Proof. intros H. unfold ReadPos, file_of. rewrite H. reflexivity. Qed.

Lemma ReadPos_read_in w d pos f :
  wal_files d !! w_fileId w = Some f -> ReadPos w d pos = read_in f pos.
Proof. intros H. unfold ReadPos, file_of, read_in. rewrite H. reflexivity. Qed.

Lemma ReadPos_Ok_file w d pos rec :
  ReadPos w d pos = Ok rec ->
  exists f, wal_files d !! w_fileId w = Some f /\ read_in f pos = Ok rec.
Proof.
  unfold ReadPos, file_of. destruct (wal_files d !! w_fileId w) as [f|] eqn:E;
    [|discriminate].
  intros H. exists f. split; [reflexivity | exact H].
Qed.

Lemma read_in_app f enc pos rec :
  read_in f pos = Ok rec -> read_in (f ++ enc) pos = Ok rec.
Proof.
  unfold read_in.
  destruct ((Offset pos >=? len f) || (Offset pos + Length pos >? len f)) eqn:E;
    [discriminate|].
  apply orb_false_iff in E. destruct E as [E1 E2].
  rewrite Z.geb_leb, Z.leb_gt in E1. rewrite Z.gtb_ltb, Z.ltb_ge in E2.
  pose proof (len_nonneg enc).
  replace ((Offset pos >=? len (f ++ enc)) || (Offset pos + Length pos >? len (f ++ enc)))
    with false
    by (symmetry; rewrite len_app, orb_false_iff, Z.geb_leb, Z.leb_gt, Z.gtb_ltb, Z.ltb_ge;
        lia).
  destruct (slice f (Offset pos) (Offset pos + Length pos)) as [buf| |] eqn:Es;
    try discriminate.
  rewrite (slice_app_l _ enc _ _ _ Es). auto.
Qed.

Lemma read_in_new f r :
  within_caps r ->
  read_in (f ++ Encode r) (mkPos 0 (len f) (len (Encode r))) =
    match strip_txn r with
    | Ok rec => Ok rec
    | Err e => Err (ErrWrapped e)
    | Panic => Panic
    end.
Proof.
  intros Hc. unfold read_in. cbn [Offset Length].
  pose proof (len_nonneg f). pose proof (len_Encode r) as Hl. caps.
  replace ((len f >=? len (f ++ Encode r))
           || (len f + len (Encode r) >? len (f ++ Encode r))) with false
    by (symmetry; rewrite len_app, orb_false_iff, Z.geb_leb, Z.leb_gt, Z.gtb_ltb, Z.ltb_ge;
        lia).
  rewrite slice_suffix. cbn [mbind outcome_bind bind].
  rewrite DecodeRecord_Encode by exact Hc. reflexivity.
Qed.

Lemma targetWal_set_memTable m bc pos :
  targetWal (set_memTable m bc) pos = targetWal bc pos.
Proof. reflexivity. Qed.

(** ** Rotation *)

Lemma mustRotate_wf bc d n :
  wf bc d n -> n + 1 < 2 ^ 32 ->
  exists bc' d',
    mustRotate bc d = Ok (bc', d') /\ wf bc' d' (n + 1) /\
    (forall pos rec, reads bc d pos rec -> reads bc' d' pos rec) /\
    memTable bc' = memTable bc /\ conf bc' = conf bc /\
    wal_files d' !! fileId bc' = Some [].
Proof.
  intros [(aw & f & Ha & Hid & Hf & Hoff) Hfid Hfiles Hold Hsorted] Hn.
  unfold mustRotate. rewrite Ha. cbn [deref mbind outcome_bind bind].
  assert (Hw : wrap32 (fileId bc + 1) = fileId bc + 1) by (apply wrap32_small; lia).
  rewrite Hw.
  assert (Hnone : wal_files d !! (fileId bc + 1) = None).
  { destruct (wal_files d !! (fileId bc + 1)) eqn:E; [|reflexivity].
    assert (Hs : is_Some (wal_files d !! (fileId bc + 1))) by (rewrite E; eauto).
    apply Hfiles in Hs. lia. }
  unfold NewWal. rewrite Hnone.
  eexists _, _. split; [reflexivity|].
  split; [|split; [|split; [|split]]]; cbn [memTable conf fileId].
  - constructor; cbn [activeWal fileId oldWal memTable wal_files set_wal_files].
    + exists (mkWal (fileId bc + 1) 0), []. rewrite lookup_insert_eq. auto.
    + lia.
    + intros id [x Hx]. destruct (decide (id = fileId bc + 1)) as [->|Hne]; [lia|].
      rewrite lookup_insert_ne in Hx by congruence.
      assert (Hs : is_Some (wal_files d !! id)) by eauto. apply Hfiles in Hs. lia.
    + intros id w Hl. destruct (decide (id = fileId bc)) as [->|Hne].
      * rewrite lookup_insert_eq in Hl. injection Hl as <-.
        split; [exact Hid|]. split; [lia|].
        rewrite lookup_insert_ne by lia. rewrite Hf. eauto.
      * rewrite lookup_insert_ne in Hl by congruence.
        destruct (Hold _ _ Hl) as (H1 & H2 & H3). split; [exact H1|]. split; [lia|].
        rewrite lookup_insert_ne by lia. exact H3.
    + exact Hsorted.
  - intros pos rec (w & Ht & Hr). unfold reads, targetWal in *.
    cbn [fileId activeWal oldWal].
    destruct (FileId pos =? fileId bc) eqn:E.
    + apply Z.eqb_eq in E. rewrite Ha in Ht. injection Ht as <-.
      replace (FileId pos =? fileId bc + 1) with false by (symmetry; apply Z.eqb_neq; lia).
      rewrite E, lookup_insert_eq. exists aw. split; [reflexivity|].
      destruct (ReadPos_Ok_file _ _ _ _ Hr) as (f' & Hf' & Hr').
      rewrite (ReadPos_read_in _ _ _ f'); [exact Hr'|].
      cbn [wal_files set_wal_files]. rewrite lookup_insert_ne by lia. exact Hf'.
    + apply Z.eqb_neq in E.
      destruct (oldWal bc !! FileId pos) as [w'|] eqn:El; [|discriminate].
      injection Ht as <-. destruct (Hold _ _ El) as (H1 & H2 & H3).
      replace (FileId pos =? fileId bc + 1) with false by (symmetry; apply Z.eqb_neq; lia).
      rewrite lookup_insert_ne by congruence. rewrite El.
      exists w'. split; [reflexivity|].
      destruct (ReadPos_Ok_file _ _ _ _ Hr) as (f' & Hf' & Hr').
      rewrite (ReadPos_read_in _ _ _ f'); [exact Hr'|].
      cbn [wal_files set_wal_files]. rewrite lookup_insert_ne by lia. exact Hf'.
  - reflexivity.
  - reflexivity.
  - cbn [wal_files set_wal_files]. apply lookup_insert_eq.
Qed.

Lemma wf_mono bc d n m : wf bc d n -> n <= m -> wf bc d m.
Proof. intros [H1 H2 H3 H4 H5] Hle. constructor; auto. lia. Qed.

(** After [tryRotate] the active segment is shorter than [MaxFileSize], or
    empty. *)
Lemma tryRotate_wf bc d n :
  wf bc d n -> n + 1 < 2 ^ 32 ->
  exists bc' d' aw f,
    tryRotate bc d = Ok (bc', d') /\ wf bc' d' (n + 1) /\
    (forall pos rec, reads bc d pos rec -> reads bc' d' pos rec) /\
    memTable bc' = memTable bc /\ conf bc' = conf bc /\
    activeWal bc' = Some aw /\ w_fileId aw = fileId bc' /\
    wal_files d' !! fileId bc' = Some f /\ w_offset aw = len f /\
    (len f < MaxFileSize (conf bc) \/ len f = 0).
Proof.
  intros Hwf Hn. pose proof Hwf as [(aw & f & Ha & Hid & Hf & Hoff) _ _ _ _].
  unfold tryRotate. rewrite Ha. cbn [deref mbind outcome_bind bind]. unfold Size.
  destruct (w_offset aw <? MaxFileSize (conf bc)) eqn:E.
  - apply Z.ltb_lt in E. exists bc, d, aw, f.
    split; [reflexivity|]. split; [eapply wf_mono; [eassumption | lia]|].
    repeat split; auto. left. lia.
  - destruct (mustRotate_wf _ _ _ Hwf Hn) as (bc' & d' & Hm & Hwf' & Hr & Hmt & Hc & Hnew).
    pose proof Hwf' as [(aw' & f' & Ha' & Hid' & Hf' & Hoff') _ _ _ _].
    exists bc', d', aw', f'. rewrite Hf' in Hnew. injection Hnew as ->.
    split; [exact Hm|]. split; [exact Hwf'|]. repeat split; auto.
Qed.

(** ** Appending a record to the active segment *)

Lemma write_wf bc d n aw f rec :
  wf bc d n ->
  activeWal bc = Some aw -> w_fileId aw = fileId bc ->
  wal_files d !! fileId bc = Some f -> w_offset aw = len f ->
  len f + len (Encode rec) < 2 ^ 32 ->
  exists aw' d',
    let pos := mkPos (fileId bc) (len f) (len (Encode rec)) in
    write aw d rec = Ok (aw', d', pos) /\
    wf (set_activeWal aw' bc) d' n /\
    (forall p r, reads bc d p r -> reads (set_activeWal aw' bc) d' p r) /\
    (forall r, within_caps rec -> strip_txn rec = Ok r ->
               reads (set_activeWal aw' bc) d' pos r).
Proof.
  intros [_ Hfid Hfiles Hold Hsorted] Ha Hid Hf Hoff Hlen.
  pose proof (len_nonneg f). pose proof (len_Encode rec) as Hl. caps.
  unfold write, file_of. rewrite Hid, Hf. cbn [mbind outcome_bind bind].
  rewrite Hoff, (wrap32_small' (len (Encode rec))) by lia.
  rewrite (wrap32_small' (len f + len (Encode rec))) by lia.
  eexists _, _. split; [reflexivity|].
  split; [|split].
  - constructor; cbn [activeWal fileId oldWal memTable wal_files set_wal_files set_activeWal].
    + eexists _, _. rewrite lookup_insert_eq. repeat split. cbn [w_offset].
      rewrite len_app. reflexivity.
    + exact Hfid.
    + intros id [x Hx]. destruct (decide (id = fileId bc)) as [->|Hne]; [lia|].
      rewrite lookup_insert_ne in Hx by congruence. apply Hfiles. eauto.
    + intros id w Hw. destruct (Hold _ _ Hw) as (Ho1 & Ho2 & Ho3).
      repeat split; auto. rewrite lookup_insert_ne by lia. exact Ho3.
    + exact Hsorted.
  - intros p r (w & Ht & Hr). unfold reads, targetWal in *.
    cbn [fileId activeWal oldWal set_activeWal].
    destruct (ReadPos_Ok_file _ _ _ _ Hr) as (f' & Hf' & Hr').
    destruct (FileId p =? fileId bc) eqn:E.
    + rewrite Ha in Ht. injection Ht as <-. rewrite Hid, Hf in Hf'. injection Hf' as <-.
      eexists. split; [reflexivity|].
      erewrite ReadPos_read_in;
        [| cbn [w_fileId wal_files set_wal_files]; apply lookup_insert_eq].
      apply read_in_app, Hr'.
    + apply Z.eqb_neq in E.
      destruct (oldWal bc !! FileId p) as [w'|] eqn:El; [|discriminate].
      injection Ht as <-. destruct (Hold _ _ El) as (Ho1 & Ho2 & Ho3).
      exists w'. split; [reflexivity|].
      rewrite (ReadPos_read_in _ _ _ f'); [exact Hr'|].
      cbn [wal_files set_wal_files]. rewrite lookup_insert_ne by lia. exact Hf'.
  - intros r Hc Hr. unfold reads, targetWal.
    cbn [FileId fileId activeWal set_activeWal]. rewrite Z.eqb_refl.
    eexists. split; [reflexivity|].
    erewrite ReadPos_read_in;
      [| cbn [w_fileId wal_files set_wal_files]; apply lookup_insert_eq].
    pose proof (read_in_new f rec Hc) as Hnew. rewrite Hr in Hnew.
    unfold read_in in *. exact Hnew.
Qed.

(** * Replay of a segment *)

Lemma MaxRecordLength_value : MaxRecordLength = 115343373.
Proof. reflexivity. Qed.

Lemma slice_take_drop (b : bytes) lo hi :
  0 <= lo -> lo <= hi -> hi <= len b ->
  slice b lo hi = Ok (take (Z.to_nat (hi - lo)) (drop (Z.to_nat lo) b)).
Proof.
  intros H0 H1 H2. unfold slice.
  replace ((0 <=? lo) && (lo <=? hi) && (hi <=? len b)) with true
    by (symmetry; rewrite !andb_true_iff, !Z.leb_le; lia).
  reflexivity.
Qed.

Lemma drop_app_len (a b : bytes) n :
  0 <= n -> drop (Z.to_nat (len a + n)) (a ++ b) = drop (Z.to_nat n) b.
Proof.
  intros Hn.
  replace (Z.to_nat (len a + n)) with (length a + Z.to_nat n)%nat by (unfold len; lia).
  apply drop_app_add.
Qed.

(** The loop stops at a stopping tail and returns the state unchanged. *)
Lemma ReadAll_loop_tail fuel fid pre tail st :
  len (pre ++ tail) + MaxRecordLength <= 2 ^ 32 -> tail_stops tail ->
  (tail = [] \/ (0 < fuel)%nat) ->
  ReadAll_loop fuel fid (pre ++ tail) (len pre) st = Ok (len pre, st).
Proof.
  intros Hlen Hstop Hfuel.
  pose proof (len_nonneg pre). pose proof (len_nonneg tail).
  rewrite len_app in Hlen. destruct caps_values as (HK & HV & H32).
  rewrite H32, MaxRecordLength_value in Hlen.
  assert (Hn : wrap32 (len (pre ++ tail)) = len pre + len tail)
    by (rewrite len_app; apply wrap32_small'; lia).
  destruct (Z.eq_dec (len tail) 0) as [Hz|Hnz].
  - destruct fuel; cbn [ReadAll_loop]; rewrite Hn;
      rewrite (proj2 (Z.ltb_ge (len pre) (len pre + len tail))) by lia; reflexivity.
  - destruct Hfuel as [->|Hfuel]; [rewrite len_nil in Hnz; lia|].
    destruct fuel as [|fuel]; [lia|]. cbn [ReadAll_loop]. rewrite Hn.
    rewrite (proj2 (Z.ltb_lt (len pre) (len pre + len tail))) by lia. cbn [negb].
    destruct (Z.lt_ge_cases (len tail) 9) as [H9|H9].
    { rewrite (wrap32_small' (len pre + 9)) by lia.
      rewrite (proj2 (Z.gtb_lt (len pre + 9) (len pre + len tail))) by lia. reflexivity. }
    rewrite (wrap32_small' (len pre + 9)) by lia.
    replace (len pre + 9 >? len pre + len tail) with false
      by (symmetry; rewrite Z.gtb_ltb; apply Z.ltb_ge; lia).
    rewrite !(wrap32_small' (len pre + 1)), !(wrap32_small' (len pre + 5)) by lia.
    rewrite (slice_take_drop _ (len pre + 1) (len pre + 5)) by (rewrite ?len_app; lia).
    rewrite (slice_take_drop _ (len pre + 5) (len pre + 9)) by (rewrite ?len_app; lia).
    cbn [mbind outcome_bind bind].
    rewrite !drop_app_len by lia.
    replace (Z.to_nat (len pre + 5 - (len pre + 1))) with 4%nat by lia.
    replace (Z.to_nat (len pre + 9 - (len pre + 5))) with 4%nat by lia.
    change (Z.to_nat 1) with 1%nat. change (Z.to_nat 5) with 5%nat.
    set (kl := get_u32be (take 4 (drop 1 tail))) in *.
    set (vl := get_u32be (take 4 (drop 5 tail))) in *.
    destruct ((kl >? MaxKeyLength) || (vl >? MaxValueLength)) eqn:Ecap; [reflexivity|].
    apply orb_false_iff in Ecap. destruct Ecap as [E1 E2].
    rewrite Z.gtb_ltb, Z.ltb_ge in E1, E2.
    pose proof (get_u32be_range (take 4 (drop 1 tail))) as Hkr.
    pose proof (get_u32be_range (take 4 (drop 5 tail))) as Hvr.
    fold kl in Hkr. fold vl in Hvr.
    destruct Hstop as [Hs|[Hs|[Hs|Hs]]]; try lia.
    rewrite (wrap32_small' (9 + kl + vl + 4)) by lia.
    rewrite (wrap32_small' (len pre + (9 + kl + vl + 4))) by lia.
    rewrite (proj2 (Z.gtb_lt (len pre + (9 + kl + vl + 4)) (len pre + len tail))) by lia.
    reflexivity.
Qed.

(** One iteration of the loop on a frame. *)
Lemma ReadAll_loop_frame fuel fid pre r c post st :
  within_caps r -> len (pre ++ frame r c ++ post) + MaxRecordLength <= 2 ^ 32 ->
  ReadAll_loop (S fuel) fid (pre ++ frame r c ++ post) (len pre) st =
    st' ← updatedFunc st r (mkPos fid (len pre) (13 + len (Key r) + len (Value r)));
    ReadAll_loop fuel fid (pre ++ frame r c ++ post)
      (len pre + (13 + len (Key r) + len (Value r))) st'.
Proof.
  intros Hc Hlen.
  pose proof (frame_nth pre post r c) as Hn.
  pose proof (frame_slice_klen pre post r c) as Hk.
  pose proof (frame_slice_vlen pre post r c) as Hv.
  pose proof (frame_slice_key pre post r c) as Hkey.
  pose proof (frame_slice_value pre post r c) as Hval.
  pose proof (frame_slice_crc pre post r c) as Hcrc.
  pose proof (frame_slice_body pre post r c) as Hbody.
  set (buf := pre ++ frame r c ++ post) in *.
  assert (Hbl : len buf = len pre + (13 + len (Key r) + len (Value r)) + len post).
  { unfold buf. rewrite !len_app, len_frame. lia. }
  pose proof (len_nonneg pre). pose proof (len_nonneg post). caps.
  match goal with Hx : 2 ^ 32 = _ |- _ => rewrite Hx, MaxRecordLength_value in Hlen end.
  rewrite (wrap32_small' (len (Key r))) in Hk by lia.
  rewrite (wrap32_small' (len (Value r))) in Hv by lia.
  cbn [ReadAll_loop].
  rewrite (wrap32_small' (len buf)) by lia.
  rewrite (proj2 (Z.ltb_lt (len pre) (len buf))) by lia. cbn [negb].
  rewrite (wrap32_small' (len pre + 9)) by lia.
  replace (len pre + 9 >? len buf) with false
    by (symmetry; rewrite Z.gtb_ltb; apply Z.ltb_ge; lia).
  rewrite !(wrap32_small' (len pre + 1)), !(wrap32_small' (len pre + 5)) by lia.
  rewrite Hn, Hk, Hv. cbn [mbind outcome_bind bind].
  rewrite !get_put_u32be_nil, !(wrap32_small' (len (Key r))),
    !(wrap32_small' (len (Value r))) by lia.
  replace ((len (Key r) >? MaxKeyLength) || (len (Value r) >? MaxValueLength)) with false
    by (symmetry; rewrite orb_false_iff, !Z.gtb_ltb, !Z.ltb_ge; lia).
  rewrite (wrap32_small' (9 + len (Key r) + len (Value r) + 4)) by lia.
  rewrite (wrap32_small' (len pre + (9 + len (Key r) + len (Value r) + 4))) by lia.
  replace (len pre + (9 + len (Key r) + len (Value r) + 4) >? len buf) with false
    by (symmetry; rewrite Z.gtb_ltb; apply Z.ltb_ge; lia).
  rewrite (wrap32_small' (len pre + 9 + len (Key r))) by lia.
  rewrite (wrap32_small' (len pre + 9 + len (Key r) + len (Value r))) by lia.
  rewrite Hkey, Hval. cbn [mbind outcome_bind bind].
  replace (len pre + (9 + len (Key r) + len (Value r) + 4))
    with (len pre + 13 + len (Key r) + len (Value r)) by lia.
  rewrite Hcrc, Hbody. cbn [mbind outcome_bind bind].
  replace (mkRecord (RecordType_ r) (Key r) (Value r)) with r by (destruct r; reflexivity).
  replace (9 + len (Key r) + len (Value r) + 4) with (13 + len (Key r) + len (Value r))
    by lia.
  replace (len pre + 13 + len (Key r) + len (Value r))
    with (len pre + (13 + len (Key r) + len (Value r))) by lia.
  reflexivity.
Qed.

Lemma len_frames_cons rc rcs :
  len (frames (rc :: rcs)) = 13 + len (Key rc.1) + len (Value rc.1) + len (frames rcs).
Proof.
  unfold frames. cbn [map concat]. rewrite len_app, len_frame. reflexivity.
Qed.

(** The loop on a run of frames followed by a stopping tail. *)
Lemma ReadAll_loop_frames fid tail rcs : forall fuel pre st,
  Forall (fun rc => within_caps rc.1) rcs ->
  len (pre ++ frames rcs ++ tail) + MaxRecordLength <= 2 ^ 32 -> tail_stops tail ->
  (length rcs < fuel)%nat \/ (tail = [] /\ (length rcs <= fuel)%nat) ->
  ReadAll_loop fuel fid (pre ++ frames rcs ++ tail) (len pre) st =
    apply_records fid (len pre) (map fst rcs) st.
Proof.
  induction rcs as [|[r c] rcs IH]; intros fuel pre st Hc Hlen Hstop Hfuel.
  - unfold frames. cbn [map concat app apply_records].
    apply ReadAll_loop_tail; [exact Hlen | exact Hstop |].
    simpl in Hfuel. destruct Hfuel as [Hf|[Hf _]]; [right; lia | left; exact Hf].
  - inversion_clear Hc as [|? ? Hc1 Hc2]. cbn [fst] in Hc1.
    destruct fuel as [|fuel]; [simpl in Hfuel; lia|].
    assert (Hsplit : pre ++ frames ((r, c) :: rcs) ++ tail =
                     pre ++ frame r c ++ (frames rcs ++ tail)).
    { unfold frames. cbn [map concat fst snd]. rewrite <- !app_assoc. reflexivity. }
    rewrite Hsplit in *.
    rewrite ReadAll_loop_frame by assumption.
    cbn [map fst apply_records].
    destruct (updatedFunc st r _) as [st'| |]; cbn [mbind outcome_bind bind];
      [|reflexivity|reflexivity].
    assert (Hre : pre ++ frame r c ++ frames rcs ++ tail =
                  (pre ++ frame r c) ++ frames rcs ++ tail)
      by (rewrite <- !app_assoc; reflexivity).
    rewrite Hre in *.
    replace (len pre + (13 + len (Key r) + len (Value r))) with (len (pre ++ frame r c))
      by (rewrite len_app, len_frame; lia).
    apply IH; [exact Hc2 | exact Hlen | exact Hstop |].
    simpl in Hfuel. destruct Hfuel as [Hf|[Hf1 Hf2]]; [left; lia | right; split; [exact Hf1 | lia]].
Qed.

(** * The fuel of the model's loops is enough *)

Lemma buffer_txn_no_fuel st r p : buffer_txn st r p <> Err ErrFuel.
Proof.
  unfold buffer_txn, DecodeTxnId.
  destruct (len (Key r) <? 4); cbn [mbind outcome_bind bind]; [discriminate|].
  destruct (negb _); discriminate.
Qed.

Lemma updatedFunc_no_fuel st r p : updatedFunc st r p <> Err ErrFuel.
Proof.
  unfold updatedFunc, DecodeTxnId.
  repeat match goal with
         | |- context [if ?c then _ else _] => destruct c
         | |- mbind _ _ <> _ => cbn [mbind outcome_bind bind]
         end;
    try discriminate; apply buffer_txn_no_fuel.
Qed.

Lemma wrap32_le z : 0 <= z -> wrap32 z <= z.
Proof. intros H. unfold wrap32. apply Z.mod_le; lia. Qed.

Lemma slice_no_err b lo hi e : slice b lo hi <> Err e.
Proof. unfold slice. destruct (_ && _); discriminate. Qed.

Lemma ReadAll_loop_no_fuel fid buf : forall fuel o st,
  0 <= o -> len buf <= Z.of_nat fuel + o ->
  ReadAll_loop fuel fid buf o st <> Err ErrFuel.
Proof.
  pose proof (len_nonneg buf) as Hb.
  pose proof (wrap32_le (len buf) Hb) as Hn.
  induction fuel as [|fuel IH]; intros o st Ho Hf.
  - cbn [ReadAll_loop]. rewrite (proj2 (Z.ltb_ge o (wrap32 (len buf)))) by lia.
    discriminate.
  - cbn [ReadAll_loop].
    destruct (o <? wrap32 (len buf)) eqn:Elt; cbn [negb]; [|discriminate].
    apply Z.ltb_lt in Elt.
    destruct (wrap32 (o + 9) >? wrap32 (len buf)); [discriminate|].
    destruct (slice buf (wrap32 (o + 1)) (wrap32 (o + 5))) as [kl|e|] eqn:Ekl;
      cbn [mbind outcome_bind bind];
      [| exfalso; exact (slice_no_err _ _ _ _ Ekl) | discriminate].
    destruct (slice buf (wrap32 (o + 5)) (wrap32 (o + 9))) as [vl|e|] eqn:Evl;
      cbn [mbind outcome_bind bind];
      [| exfalso; exact (slice_no_err _ _ _ _ Evl) | discriminate].
    pose proof (get_u32be_range kl) as Hk. pose proof (get_u32be_range vl) as Hv.
    set (k := get_u32be kl) in *. set (v := get_u32be vl) in *.
    destruct ((k >? MaxKeyLength) || (v >? MaxValueLength)) eqn:Ecap; [discriminate|].
    apply orb_false_iff in Ecap. destruct Ecap as [E1 E2].
    rewrite Z.gtb_ltb, Z.ltb_ge in E1, E2.
    destruct (wrap32 (o + wrap32 (9 + k + v + 4)) >? wrap32 (len buf)); [discriminate|].
    destruct (slice buf (wrap32 (o + 9)) (wrap32 (o + 9 + k))) as [key|e|] eqn:Ekey;
      cbn [mbind outcome_bind bind];
      [| exfalso; exact (slice_no_err _ _ _ _ Ekey) | discriminate].
    destruct (slice buf (wrap32 (o + 9 + k)) (wrap32 (o + 9 + k + v))) as [value|e|] eqn:Eval;
      cbn [mbind outcome_bind bind];
      [| exfalso; exact (slice_no_err _ _ _ _ Eval) | discriminate].
    destruct (slice buf (wrap32 (o + 9 + k + v)) (wrap32 (o + wrap32 (9 + k + v + 4))))
      as [crcb|e|] eqn:Ecrc; cbn [mbind outcome_bind bind];
      [| exfalso; exact (slice_no_err _ _ _ _ Ecrc) | discriminate].
    destruct (slice buf o (wrap32 (o + 9 + k + v))) as [body|e|] eqn:Ebody;
      cbn [mbind outcome_bind bind];
      [| exfalso; exact (slice_no_err _ _ _ _ Ebody) | discriminate].
    destruct (updatedFunc st _ _) as [st'|e|] eqn:Eu; cbn [mbind outcome_bind bind];
      [| intros H; injection H as ->; exact (updatedFunc_no_fuel _ _ _ Eu) | discriminate].
    apply slice_Ok_inv in Ecrc, Ebody.
    destruct Ecrc as (_ & Hc1 & _). destruct Ebody as (_ & Hb1 & _).
    pose proof (wrap32_range (len buf)) as Hnr.
    assert (Hne : wrap32 (o + 9 + k + v) <> o).
    { destruct caps_values as (HK & HV & H32). unfold wrap32 in *. rewrite H32 in *.
      rewrite HK in E1. rewrite HV in E2.
      Z.to_euclidean_division_equations. lia. }
    apply IH; [apply wrap32_range | lia].
Qed.

(** [ReadAll] never reports the exhaustion of the model's fuel. *)
Lemma ReadAll_no_fuel w d memTable txnId : ReadAll w d memTable txnId <> Err ErrFuel.
Proof.
  unfold ReadAll, file_of. destruct (wal_files d !! w_fileId w) as [buf|];
    cbn [mbind outcome_bind bind]; [|discriminate].
  destruct (ReadAll_loop _ _ _ _ _) as [[o st]|e|] eqn:E; cbn [mbind outcome_bind bind];
    try discriminate.
  intros H. injection H as ->.
  apply (ReadAll_loop_no_fuel (w_fileId w) buf (length buf) 0 (replay_init memTable txnId));
    [lia | unfold len; lia | exact E].
Qed.

Lemma LoadHint_loop_no_fuel : forall fuel rest m fid,
  (length rest <= fuel)%nat -> LoadHint_loop fuel rest m fid <> Err ErrFuel.
Proof.
  induction fuel as [|fuel IH]; intros rest m fid Hf.
  - destruct rest; [discriminate | simpl in Hf; lia].
  - destruct rest as [|b rest]; [discriminate|].
    cbn [LoadHint_loop].
    destruct (len (b :: rest) <? 16) eqn:E16; [discriminate|].
    apply Z.ltb_ge in E16.
    destruct (len (drop 16 (b :: rest)) <? _); [discriminate|].
    apply IH. rewrite !length_drop. unfold len in E16. simpl in *. lia.
Qed.

(** * The logical content of the store *)

Lemma strip_txn_NewRecord k ov : strip_txn (NewRecord k ov) = Ok (NewRecord k ov).
Proof. destruct ov; reflexivity. Qed.

Lemma within_caps_NewRecord k ov :
  len k <= MaxKeyLength -> len (of_slice ov) <= MaxValueLength ->
  within_caps (NewRecord k ov).
Proof. intros H1 H2. destruct ov; split; simpl; assumption. Qed.

Lemma Put_step bc d n L k v :
  wf bc d n -> models bc d L -> conf_ok (conf bc) -> n + 1 < 2 ^ 32 ->
  len k <= MaxKeyLength -> len (of_slice v) <= MaxValueLength ->
  exists bc' d',
    Put bc d (Some k) v = Ok (bc', d') /\ wf bc' d' (n + 1) /\
    models bc' d' (<[k := v]> L) /\ conf bc' = conf bc.
Proof.
  intros Hwf Hm [Hc0 Hc1] Hn Hk Hv.
  destruct (tryRotate_wf _ _ _ Hwf Hn)
    as (bc1 & d1 & aw & f & Ht & Hwf1 & Hr1 & Hmt1 & Hcf1 & Ha & Hid & Hf & Hoff & Hsz).
  pose proof (within_caps_NewRecord k v Hk Hv) as Hcaps.
  assert (Hlen : len f + len (Encode (NewRecord k v)) < 2 ^ 32).
  { rewrite len_Encode. pose proof MaxRecordLength_value as HM.
    unfold MaxRecordLength in *. pose proof (len_nonneg f). caps. lia. }
  destruct (write_wf _ _ _ _ _ _ Hwf1 Ha Hid Hf Hoff Hlen)
    as (aw' & d2 & Hw & Hwf2 & Hr2 & Hnew).
  unfold Put. rewrite Ht. cbn [mbind outcome_bind bind]. rewrite Ha.
  cbn [deref mbind outcome_bind bind]. unfold Write. cbv zeta in Hw. rewrite Hw.
  cbn [mbind outcome_bind bind].
  eexists _, _. split; [reflexivity|].
  split; [|split].
  - destruct Hwf2 as [H1 H2 H3 H4 H5]. constructor; auto.
    cbn [memTable set_memTable set_activeWal]. apply sorted_Put. rewrite Hmt1.
    apply (wf_sorted _ _ _ Hwf).
  - intros k'. cbn [memTable set_memTable set_activeWal]. rewrite Hmt1.
    destruct (decide (k = k')) as [<-|Hne].
    + rewrite lookup_insert_eq. split; [exact Hk|]. split; [exact Hv|].
      eexists. split; [apply Get_Put_eq|].
      apply Hnew; [exact Hcaps | apply strip_txn_NewRecord].
    + rewrite lookup_insert_ne by exact Hne.
      rewrite Get_Put_ne by (auto; apply (wf_sorted _ _ _ Hwf)).
      specialize (Hm k'). destruct (L !! k') as [ov|]; [|exact Hm].
      destruct Hm as (H1 & H2 & pos & H3 & H4). split; [exact H1|]. split; [exact H2|].
      exists pos. split; [exact H3|]. apply Hr2, Hr1, H4.
  - cbn [conf set_memTable set_activeWal]. exact Hcf1.
Qed.

Lemma Delete_step bc d n L key :
  wf bc d n -> models bc d L -> conf_ok (conf bc) -> n + 1 < 2 ^ 32 ->
  exists bc' d',
    Delete bc d key = Ok (bc', d') /\ wf bc' d' (n + 1) /\
    models bc' d' (delete (of_slice key) L) /\ conf bc' = conf bc.
Proof.
  intros Hwf Hm [Hc0 Hc1] Hn. set (k := of_slice key).
  unfold Delete. fold k. pose proof (Hm k) as Hmk.
  destruct (BTreeIndex.Get k (memTable bc)) as [pos0|] eqn:EG.
  - destruct (L !! k) as [ov|] eqn:EL; [|discriminate].
    destruct Hmk as (Hk & _ & _).
    destruct (tryRotate_wf _ _ _ Hwf Hn)
      as (bc1 & d1 & aw & f & Ht & Hwf1 & Hr1 & Hmt1 & Hcf1 & Ha & Hid & Hf & Hoff & Hsz).
    assert (Hcaps : within_caps (NewRecord k None)).
    { apply within_caps_NewRecord; [exact Hk|]. cbv. discriminate. }
    assert (Hlen : len f + len (Encode (NewRecord k None)) < 2 ^ 32).
    { rewrite len_Encode. pose proof MaxRecordLength_value as HM.
      unfold MaxRecordLength in *. pose proof (len_nonneg f). caps. lia. }
    destruct (write_wf _ _ _ _ _ _ Hwf1 Ha Hid Hf Hoff Hlen)
      as (aw' & d2 & Hw & Hwf2 & Hr2 & Hnew).
    rewrite Ht. cbn [mbind outcome_bind bind]. rewrite Ha.
    cbn [deref mbind outcome_bind bind]. unfold Write. cbv zeta in Hw. rewrite Hw.
    cbn [mbind outcome_bind bind].
    eexists _, _. split; [reflexivity|].
    split; [|split].
    + destruct Hwf2 as [H1 H2 H3 H4 H5]. constructor; auto.
      cbn [memTable set_memTable set_activeWal]. apply sorted_Delete. rewrite Hmt1.
      apply (wf_sorted _ _ _ Hwf).
    + intros k'. cbn [memTable set_memTable set_activeWal]. rewrite Hmt1.
      destruct (decide (k = k')) as [<-|Hne].
      * rewrite lookup_delete_eq. apply Get_Delete_eq, (wf_sorted _ _ _ Hwf).
      * rewrite lookup_delete_ne by exact Hne.
        rewrite Get_Delete_ne by (auto; apply (wf_sorted _ _ _ Hwf)).
        specialize (Hm k'). destruct (L !! k') as [ov'|]; [|exact Hm].
        destruct Hm as (H1 & H2 & pos & H3 & H4). split; [exact H1|]. split; [exact H2|].
        exists pos. split; [exact H3|]. apply Hr2, Hr1, H4.
    + cbn [conf set_memTable set_activeWal]. exact Hcf1.
  - exists bc, d. split; [reflexivity|]. split; [eapply wf_mono; [eassumption|lia]|].
    split; [|reflexivity].
    intros k'. destruct (decide (k = k')) as [<-|Hne].
    + rewrite lookup_delete_eq. exact EG.
    + rewrite lookup_delete_ne by exact Hne. apply Hm.
Qed.

Lemma exec_step bc d n L o :
  wf bc d n -> models bc d L -> conf_ok (conf bc) -> n + 1 < 2 ^ 32 -> valid_op o ->
  exists bc' d',
    exec o bc d = Ok (bc', d') /\ wf bc' d' (n + 1) /\
    models bc' d' (model_step L o) /\ conf bc' = conf bc.
Proof.
  intros Hwf Hm Hc Hn Hv. destruct o as [key value|key]; simpl.
  - destruct Hv as (Hk & Hkl & Hvl). destruct key as [k|]; [|contradiction].
    apply Put_step; assumption.
  - apply Delete_step; assumption.
Qed.

Lemma run_steps ops : forall bc d n L,
  wf bc d n -> models bc d L -> conf_ok (conf bc) -> n + len ops < 2 ^ 32 ->
  Forall valid_op ops ->
  exists bc' d',
    run ops bc d = Ok (bc', d') /\ wf bc' d' (n + len ops) /\
    models bc' d' (fold_left model_step ops L) /\ conf bc' = conf bc.
Proof.
  induction ops as [|o ops IH]; intros bc d n L Hwf Hm Hc Hn Hv.
  - exists bc, d. rewrite len_nil, Z.add_0_r. simpl. auto.
  - rewrite len_cons in *. pose proof (len_nonneg ops).
    inversion_clear Hv as [|? ? Hv1 Hv2].
    destruct (exec_step bc d n L o Hwf Hm Hc ltac:(lia) Hv1)
      as (bc1 & d1 & He & Hwf1 & Hm1 & Hc1).
    rewrite <- Hc1 in Hc.
    destruct (IH bc1 d1 (n + 1) (model_step L o) Hwf1 Hm1 Hc ltac:(lia) Hv2)
      as (bc2 & d2 & Hr & Hwf2 & Hm2 & Hc2).
    exists bc2, d2. simpl. rewrite He. cbn [mbind outcome_bind bind].
    split; [exact Hr|]. split; [|split; [exact Hm2 | congruence]].
    replace (n + (1 + len ops)) with (n + 1 + len ops) by lia. exact Hwf2.
Qed.

(** ** The fresh store *)

Lemma NewBitcask_empty_dir c : NewBitcask c empty_dir = Ok (fresh_engine c, fresh_dir).
Proof. reflexivity. Qed.

Lemma fresh_wf c : wf (fresh_engine c) fresh_dir 0.
Proof.
  constructor; cbn [fresh_engine fresh_dir activeWal fileId oldWal memTable wal_files].
  - exists (mkWal 0 0), []. rewrite lookup_insert_eq. auto.
  - lia.
  - intros id [x Hx]. destruct (decide (id = 0)) as [->|Hne]; [lia|].
    rewrite lookup_insert_ne in Hx by congruence. rewrite lookup_empty in Hx.
    discriminate.
  - intros id w Hw. rewrite lookup_empty in Hw. discriminate.
  - exact I.
Qed.

Lemma fresh_models c : models (fresh_engine c) fresh_dir ∅.
Proof. intros k. rewrite lookup_empty. reflexivity. Qed.

(** ** What [Get] returns *)

Lemma Get_models bc d L k :
  models bc d L ->
  Get bc d (Some k) =
    match L !! k with
    | Some (Some v) => Ok (Some v, true)
    | _ => Ok (None, false)
    end.
Proof.
  intros Hm. specialize (Hm k). unfold Get, get.
  destruct (L !! k) as [ov|].
  - destruct Hm as (_ & _ & pos & HG & w & Ht & Hr). rewrite HG, Ht.
    cbn [mbind outcome_bind bind]. rewrite Hr. destruct ov as [v|]; reflexivity.
  - rewrite Hm. reflexivity.
Qed.

Lemma fold_model_step ops : forall L k,
  fold_left model_step ops L !! k = last_write ops k (L !! k).
Proof.
  induction ops as [|o ops IH]; intros L k; simpl; [reflexivity|].
  rewrite IH. destruct o as [key value|key]; simpl; f_equal.
  - destruct (bool_decide_reflect (of_slice key = k)) as [->|Hne].
    + apply lookup_insert_eq.
    + apply lookup_insert_ne, Hne.
  - destruct (bool_decide_reflect (of_slice key = k)) as [->|Hne].
    + apply lookup_delete_eq.
    + apply lookup_delete_ne, Hne.
Qed.

Lemma run_from_fresh c ops :
  conf_ok c -> Forall valid_op ops -> len ops < 2 ^ 32 ->
  exists bc d,
    run ops (fresh_engine c) fresh_dir = Ok (bc, d) /\ wf bc d (len ops) /\
    models bc d (fold_left model_step ops ∅).
Proof.
  intros Hc Hv Hn.
  destruct (run_steps ops (fresh_engine c) fresh_dir 0 ∅ (fresh_wf c) (fresh_models c)
              Hc ltac:(lia) Hv) as (bc & d & Hr & Hwf & Hm & _).
  exists bc, d. auto.
Qed.

(** C1 (as amended): starting from an empty store, after any sequence of
    puts (non-nil key, key and value within the codec's size limits) and
    deletes that keeps file ids below 2^32, [Get k] returns the value of
    the latest put of [k] with [true] when that value is not nil and no
    delete of [k] follows it, and [(nil, false)] otherwise: for a key never
    put, deleted after its last put, or last put with a nil value. *)
Theorem C1_get_latest_put c ops k :
  conf_ok c -> Forall valid_op ops -> len ops < 2 ^ 32 ->
  exists bc0 d0 bc d,
    NewBitcask c empty_dir = Ok (bc0, d0) /\
    run ops bc0 d0 = Ok (bc, d) /\
    Get bc d (Some k) = Ok (nil_deletes_get ops k).
Proof.
  intros Hc Hv Hn.
  destruct (run_from_fresh c ops Hc Hv Hn) as (bc & d & Hr & _ & Hm).
  exists (fresh_engine c), fresh_dir, bc, d.
  split; [apply NewBitcask_empty_dir|]. split; [exact Hr|].
  rewrite (Get_models _ _ _ _ Hm), fold_model_step, lookup_empty.
  unfold nil_deletes_get. destruct (last_write ops k None) as [[v|]|]; reflexivity.
Qed.

Lemma conf_1024_ok : conf_ok conf_1024.
Proof. split; [discriminate|]. intros H. discriminate H. Qed.

Lemma C1_get_latest_put_witness :
  exists bc0 d0 bc d,
    NewBitcask conf_1024 empty_dir = Ok (bc0, d0) /\
    run [OpPut (Some key_k) (Some ["a"]%byte); OpPut (Some key_k) (Some ["b"]%byte)] bc0 d0
      = Ok (bc, d) /\
    Get bc d (Some key_k) = Ok (Some ["b"]%byte, true).
Proof.
  apply (C1_get_latest_put conf_1024
           [OpPut (Some key_k) (Some ["a"]%byte); OpPut (Some key_k) (Some ["b"]%byte)]
           key_k).
  - exact conf_1024_ok.
  - repeat constructor; try discriminate; intros H; discriminate H.
  - reflexivity.
Defined.

(** C1 as stated fails for a put of a nil value: [Get] answers
    [(nil, false)] where the claim gives [(nil, true)]. *)
Lemma C1_put_nil_counterexample :
  exists bc d,
    run [OpPut (Some key_k) None] (fresh_engine conf_1024) fresh_dir = Ok (bc, d) /\
    Get bc d (Some key_k) = Ok (None, false) /\
    spec_get [OpPut (Some key_k) None] key_k = (None, true).
Proof.
  eexists _, _. split; [vm_compute; reflexivity|]. split; vm_compute; reflexivity.
Qed.

Lemma ReadPos_Ok_bounds w d pos rec :
  ReadPos w d pos = Ok rec ->
  exists f, wal_files d !! w_fileId w = Some f /\
            0 <= Offset pos /\ Offset pos + Length pos <= len f.
Proof.
  intros H. destruct (ReadPos_Ok_file _ _ _ _ H) as (f & Hf & Hr).
  exists f. split; [exact Hf|]. unfold read_in in Hr.
  destruct ((Offset pos >=? len f) || (Offset pos + Length pos >? len f)) eqn:E;
    [discriminate|].
  apply orb_false_iff in E. destruct E as [_ E2]. rewrite Z.gtb_ltb, Z.ltb_ge in E2.
  destruct (slice f (Offset pos) (Offset pos + Length pos)) as [buf| |] eqn:Es;
    try discriminate.
  apply slice_Ok_inv in Es. lia.
Qed.

(** * Range scans *)

Lemma sort_Slice_ascending l : ascending l -> sort_Slice BTreeIndex.Less l = l.
Proof.
  induction l as [|k l IH]; simpl; intros Ha; [reflexivity|].
  destruct Ha as [HF Ha]. unfold sort_Slice in *. simpl. rewrite (IH Ha).
  destruct l as [|y l']; simpl; [reflexivity|].
  inversion_clear HF as [|? ? H1 H2]. rewrite (Less_asym _ _ H1). reflexivity.
Qed.

Lemma ascending_filter (P : bytes * Pos -> bool) tr :
  sorted tr -> ascending (map fst (List.filter P tr)).
Proof.
  induction tr as [|e tr IH]; intros Hs; [exact I|].
  destruct Hs as [HF Hs]. cbn [List.filter].
  assert (HF' : Forall (fun k' => klt e.1 k') (map fst (List.filter P tr))).
  { rewrite Forall_forall in HF. rewrite Forall_forall. intros k' Hk'.
    apply list_elem_of_In, in_map_iff in Hk'. destruct Hk' as (e' & <- & He').
    apply filter_In in He'. apply HF, list_elem_of_In, He'. }
  destruct (P e); cbn [map ascending]; auto.
Qed.

Lemma ascending_NoDup l : ascending l -> NoDup l.
Proof.
  induction l as [|k l IH]; simpl; intros Ha; [constructor|].
  destruct Ha as [HF Ha]. constructor; [|apply IH, Ha].
  intros Hin. rewrite Forall_forall in HF. apply HF in Hin.
  rewrite Less_irrefl in Hin. discriminate.
Qed.

Lemma collect_results_spec limit values ks : forall count,
  collect_results limit count values ks =
    map (fun k => mkScanRangeResult k (default [] (values !! k)))
        (if limit >? 0 then take (Z.to_nat (limit - count)) ks else ks).
Proof.
  induction ks as [|k ks IH]; intros count; simpl.
  - destruct (limit >? 0); rewrite ?take_nil; reflexivity.
  - rewrite IH. destruct (limit >? 0) eqn:E; simpl; [|reflexivity].
    destruct (count >=? limit) eqn:E2.
    + rewrite Z.geb_leb, Z.leb_le in E2.
      replace (Z.to_nat (limit - count)) with 0%nat by lia. reflexivity.
    + rewrite Z.geb_leb, Z.leb_gt in E2.
      replace (Z.to_nat (limit - count)) with (S (Z.to_nat (limit - (count + 1)))) by lia.
      reflexivity.
Qed.

(** The traversal collects the entries in range, in order, and ends with
    no error or with the range-exceeded signal. *)
Lemma Foreach_range bc d start end_ (val : bytes -> bytes) tr :
  sorted tr ->
  (forall k pos, (k, pos) ∈ tr ->
     exists rec, reads bc d pos rec /\ Key rec = k /\ Value rec = val k) ->
  forall ks vs,
  exists err,
    BTreeIndex.Foreach (scan_fn bc d (range_fn start end_)) (ks, vs) tr =
      ((ks ++ map fst (List.filter (in_range start end_) tr),
        insert_all val (List.filter (in_range start end_) tr) vs), err) /\
    (err = Ok tt \/ err = Err ErrExceedEndRange).
Proof.
  induction tr as [|[k pos] tr IH]; intros Hs Hrd ks vs.
  - exists (Ok tt). simpl. rewrite app_nil_r. auto.
  - destruct Hs as [HF Hs].
    destruct (Hrd k pos) as (rec & (w & Ht & Hr) & Hk & Hv); [left|].
    assert (Hrd' : forall k' pos', (k', pos') ∈ tr ->
              exists rec, reads bc d pos' rec /\ Key rec = k' /\ Value rec = val k').
    { intros k' pos' Hin. apply Hrd. right. exact Hin. }
    specialize (IH Hs Hrd').
    cbn [BTreeIndex.Foreach List.filter]. unfold scan_fn at 1. rewrite Ht, Hr, Hk, Hv.
    unfold range_fn at 1.
    change (in_range start end_ (k, pos)) with (KeyComparator.InRange k start end_).
    destruct (KeyComparator.InRange k start end_) eqn:Ein.
    + destruct (IH (ks ++ [k]) (<[k := val k]> vs)) as (err & HFe & Herr).
      exists err. rewrite HFe. split; [|exact Herr].
      cbn [map fst insert_all fold_left]. rewrite <- app_assoc. reflexivity.
    + destruct (KeyComparator.Greater k end_) eqn:Eg.
      * exists (Err ErrExceedEndRange). split; [|auto].
        rewrite KC_Greater in Eg.
        assert (Hnil : List.filter (in_range start end_) tr = []).
        { destruct (List.filter (in_range start end_) tr) as [|e l] eqn:El; [reflexivity|].
          assert (He : In e (List.filter (in_range start end_) tr))
            by (rewrite El; left; reflexivity).
          apply filter_In in He. destruct He as [He Hr'].
          rewrite Forall_forall in HF. apply list_elem_of_In, HF in He. cbn [fst] in He.
          unfold in_range in Hr'. apply KC_InRange in Hr'. destruct Hr' as [_ Hr'].
          rewrite (Less_trans _ _ _ Eg He) in Hr'. discriminate. }
        rewrite Hnil. simpl. rewrite app_nil_r. reflexivity.
      * apply IH.
Qed.

Lemma insert_all_lookup val es : forall m k,
  insert_all val es m !! k =
    if bool_decide (k ∈ map fst es) then Some (val k) else m !! k.
Proof.
  induction es as [|e es IH]; intros m k.
  - cbn [insert_all fold_left map]. rewrite bool_decide_eq_false_2 by (apply not_elem_of_nil).
    reflexivity.
  - cbn [insert_all fold_left]. fold (insert_all val es (<[e.1 := val e.1]> m)).
    rewrite IH. cbn [map].
    destruct (bool_decide_reflect (k ∈ map fst es)) as [Hin|Hnin].
    + rewrite bool_decide_eq_true_2 by (right; exact Hin). reflexivity.
    + destruct (decide (e.1 = k)) as [<-|Hne].
      * rewrite bool_decide_eq_true_2 by left. apply lookup_insert_eq.
      * rewrite bool_decide_eq_false_2; [apply lookup_insert_ne, Hne|].
        rewrite elem_of_cons. intros [H|H]; [congruence | contradiction].
Qed.

(** [ScanRangeOptimized] as a function of the index: the entries in range,
    in index order, cut at [limit]. *)
Lemma ScanRangeOptimized_spec bc d start end_ limit (val : bytes -> bytes) :
  sorted (memTable bc) ->
  (forall k pos, (k, pos) ∈ memTable bc ->
     exists rec, reads bc d pos rec /\ Key rec = k /\ Value rec = val k) ->
  make_cap_ok limit = true ->
  ScanRangeOptimized bc d start end_ limit =
    Ok (take_limit limit
          (map (fun e => mkScanRangeResult e.1 (val e.1))
               (List.filter (in_range start end_) (memTable bc)))).
Proof.
  intros Hs Hrd Hl. unfold ScanRangeOptimized, Scan.
  rewrite Hl. cbn [negb].
  destruct (Foreach_range bc d start end_ val _ Hs Hrd [] ∅) as (err & HF & Herr).
  rewrite HF. cbn [app].
  set (F := List.filter (in_range start end_) (memTable bc)).
  assert (Hres : collect_results limit 0 (insert_all val F ∅)
                   (sort_Slice BTreeIndex.Less (map fst F)) =
                 take_limit limit (map (fun e => mkScanRangeResult e.1 (val e.1)) F)).
  { rewrite sort_Slice_ascending by (apply ascending_filter, Hs).
    rewrite collect_results_spec, Z.sub_0_r. unfold take_limit.
    assert (Hmap : forall l, (forall k, k ∈ l -> k ∈ map fst F) ->
              map (fun k => mkScanRangeResult k (default [] (insert_all val F ∅ !! k))) l =
              map (fun k => mkScanRangeResult k (val k)) l).
    { intros l Hin. apply map_ext_in. intros k Hk. apply list_elem_of_In in Hk.
      rewrite insert_all_lookup, bool_decide_eq_true_2 by auto. reflexivity. }
    destruct (limit >? 0).
    - rewrite Hmap.
      + rewrite <- (map_map fst (fun k => mkScanRangeResult k (val k))).
        rewrite <- !fmap_take. reflexivity.
      + intros k Hk. rewrite <- (take_drop (Z.to_nat limit) (map fst F)).
        apply elem_of_app. left. exact Hk.
    - rewrite Hmap by auto. rewrite map_map. reflexivity. }
  destruct Herr as [-> | ->]; cbn [negb bool_decide andb]; rewrite Hres; reflexivity.
Qed.

Lemma ascending_map_keys (val : bytes -> bytes) (F : list (bytes * Pos)) :
  ascending (map fst F) ->
  ascending (map sr_Key (map (fun e => mkScanRangeResult e.1 (val e.1)) F)).
Proof.
  rewrite map_map. cbn [sr_Key]. intros H.
  erewrite map_ext; [exact H|]. reflexivity.
Qed.

Lemma scan_ops_valid : Forall valid_op scan_ops.
Proof. repeat constructor; try discriminate; intros H; discriminate H. Qed.

Example scan_example :
  ('(bc, d) ← run scan_ops (fresh_engine conf_1024) fresh_dir;
   ScanRangeOptimized bc d ["a"]%byte ["c"]%byte 0) = Ok [mkScanRangeResult ["a"]%byte ["1"]%byte; mkScanRangeResult ["b"]%byte ["2"]%byte].
Proof. vm_compute. reflexivity. Qed.

(** C9 (the code at the failing input): after [a := 1], [b := 2] and a put
    of [b] with a nil value, [Get b] reports that there is no [b], yet
    [ScanRangeOptimized a c 0] returns [b], with an empty value, next to
    [a]; and with a limit above [2 ^ 45] the call panics where it allocates
    its result. *)
Theorem C9_scan_returns_a_key_that_Get_does_not_find :
  ('(bc0, d0) ← NewBitcask conf_1024 empty_dir;
   '(bc, d) ← run tomb_ops bc0 d0;
   Ok (Get bc d (Some ["b"]%byte),
       ScanRangeOptimized bc d ["a"]%byte ["c"]%byte 0,
       ScanRangeOptimized bc d ["a"]%byte ["c"]%byte (2 ^ 45 + 1)))
  = Ok (Ok (None, false),
        Ok [mkScanRangeResult ["a"]%byte ["1"]%byte; mkScanRangeResult ["b"]%byte []],
        Panic).
Proof. vm_compute. reflexivity. Qed.

Lemma length_frames_ge (rcs : list (Record_ * Z)) :
  (length rcs <= length (frames rcs))%nat.
Proof.
  induction rcs as [|[r c] rcs IH]; [simpl; lia|].
  unfold frames in *. cbn [map concat length]. rewrite length_app.
  unfold frame at 1. rewrite length_app, length_put_u32be. simpl. lia.
Qed.

(** C7 (as amended): when a segment consists of records within the size
    limits, each followed by any CRC trailer, right or wrong, and then of
    nothing more or of bytes that cannot be a record (a truncated record or a
    header with an implausible length), replay applies every one of the
    records in order, whatever the trailers, and keeps what it applied when
    it stops at the tail: a CRC mismatch does not end the replay, the record
    with the wrong CRC and those after it are applied too. *)
Theorem C7_replay_applies_records_whatever_the_crc w d memTable txnId rcs tail :
  wal_files d !! w_fileId w = Some (frames rcs ++ tail) ->
  Forall (fun rc => within_caps rc.1) rcs ->
  len (frames rcs ++ tail) + MaxRecordLength <= 2 ^ 32 ->
  tail_stops tail ->
  ReadAll w d memTable txnId =
    '(offset, st) ← apply_records (w_fileId w) 0 (map fst rcs) (replay_init memTable txnId);
    Ok (mkWal (w_fileId w) offset, r_memTable st, dbTxnId st).
Proof.
  intros Hf Hc Hlen Hstop. unfold ReadAll, file_of. rewrite Hf.
  cbn [mbind outcome_bind bind].
  pose proof (ReadAll_loop_frames (w_fileId w) tail rcs
                (length (frames rcs ++ tail)) [] (replay_init memTable txnId)
                Hc Hlen Hstop) as Hloop.
  cbn [app] in Hloop. rewrite len_nil in Hloop. rewrite Hloop; [reflexivity|].
  pose proof (length_frames_ge rcs). rewrite length_app.
  destruct tail as [|b tail]; [right; split; [reflexivity | simpl; lia]|].
  left. simpl. lia.
Qed.

Lemma tail_stops_nil : tail_stops [].
Proof. left. reflexivity. Qed.

Lemma C7_replay_applies_records_witness :
  ReadAll (mkWal 0 0) dir_bad_crc [] 0 =
    Ok (mkWal 0 30,
        [ (["a"]%byte, mkPos 0 0 15); (["b"]%byte, mkPos 0 15 15) ], 0).
Proof.
  apply (C7_replay_applies_records_whatever_the_crc (mkWal 0 0) dir_bad_crc [] 0
           [ (NewRecord ["a"]%byte (Some ["1"]%byte), 0);
             (NewRecord ["b"]%byte (Some ["2"]%byte),
              ChecksumIEEE (encode_body (NewRecord ["b"]%byte (Some ["2"]%byte)))) ]
           []).
  - vm_compute. reflexivity.
  - repeat constructor; simpl; intros H; discriminate H.
  - vm_compute. intros H; discriminate H.
  - exact tail_stops_nil.
Defined.

(** C7 as stated fails: the first record of this segment has a wrong CRC
    (decoding it reports the mismatch), yet replay applies it and the record
    after it. *)
Lemma C7_bad_crc_counterexample :
  DecodeRecord (take 15 seg_bad_crc) = Err ErrCrcMismatch /\
  ReadAll (mkWal 0 0) dir_bad_crc [] 0 =
    Ok (mkWal 0 30,
        [ (["a"]%byte, mkPos 0 0 15); (["b"]%byte, mkPos 0 15 15) ], 0).
Proof. split; vm_compute; reflexivity. Qed.

(** * The codec and the segment writer *)

Lemma strip_txn_plain r : is_txn_op (RecordType_ r) = false -> strip_txn r = Ok r.
Proof. intros H. unfold strip_txn. rewrite H. reflexivity. Qed.

Lemma strip_txn_txn r :
  is_txn_op (RecordType_ r) = true -> 4 <= len (Key r) ->
  strip_txn r = Ok (mkRecord (RecordType_ r) (drop 4 (Key r)) (Value r)).
Proof.
  intros H Hk. unfold strip_txn, DecodeTxnId. rewrite H.
  rewrite (proj2 (Z.ltb_ge (len (Key r)) 4)) by lia. reflexivity.
Qed.

(** C8 (as amended): for a record within the size limits, decoding its
    encoding gives the record back when its type is Put, Delete, TxnBegin
    or TxnCommit (or any byte other than TxnPut and TxnDelete); for a TxnPut
    or TxnDelete record whose key has at least the four bytes of a
    transaction id, it gives the record with those four bytes removed from
    the key. When the writer's offset is the size of its file, the location
    returned by an append reads back as what decoding the encoding gives. *)
Theorem C8_encode_decode r :
  within_caps r ->
  (is_txn_op (RecordType_ r) = false -> DecodeRecord (Encode r) = Ok r) /\
  (is_txn_op (RecordType_ r) = true -> 4 <= len (Key r) ->
   DecodeRecord (Encode r) = Ok (mkRecord (RecordType_ r) (drop 4 (Key r)) (Value r))) /\
  (forall w d f,
     wal_files d !! w_fileId w = Some f -> w_offset w = len f ->
     len f + len (Encode r) < 2 ^ 32 ->
     exists w' d' pos,
       write w d r = Ok (w', d', pos) /\
       pos = mkPos (w_fileId w) (len f) (len (Encode r)) /\
       forall rec, DecodeRecord (Encode r) = Ok rec -> ReadPos w' d' pos = Ok rec).
Proof.
  intros Hc. rewrite (DecodeRecord_Encode r Hc).
  split; [apply strip_txn_plain|]. split; [apply strip_txn_txn|].
  intros w d f Hf Hoff Hlen.
  pose proof (len_nonneg f). pose proof (len_Encode r) as Hl. caps.
  unfold write, file_of. rewrite Hf. cbn [mbind outcome_bind bind].
  rewrite (wrap32_small' (len (Encode r))) by lia.
  eexists _, _, _. split; [reflexivity|]. split; [rewrite Hoff; reflexivity|].
  intros rec Hrec.
  erewrite ReadPos_read_in;
    [| cbn [w_fileId wal_files set_wal_files]; apply lookup_insert_eq].
  pose proof (read_in_new f r Hc) as Hnew. rewrite Hrec in Hnew.
  rewrite Hoff. unfold read_in in *. exact Hnew.
Qed.

Lemma C8_encode_decode_witness :
  DecodeRecord (Encode put_a1) = Ok put_a1.
Proof.
  apply (C8_encode_decode put_a1).
  - split; simpl; intros H; discriminate H.
  - reflexivity.
Defined.

(** C8 as stated fails for a TxnPut record: the decoded key has lost the
    transaction id. *)
Lemma C8_txn_record_counterexample :
  DecodeRecord (Encode txn_put_k) = Ok (mkRecord RecordTypeTxnPut ["k"]%byte ["v"]%byte) /\
  DecodeRecord (Encode txn_put_k) <> Ok txn_put_k.
Proof.
  split; [vm_compute; reflexivity|]. vm_compute. intros H. discriminate H.
Qed.

(** * Errors in [get] *)




(** * Batches *)

Lemma mustRotate_conf bc d bc' d' :
  mustRotate bc d = Ok (bc', d') -> conf bc' = conf bc.
Proof.
  unfold mustRotate. destruct (activeWal bc); cbn [deref mbind outcome_bind bind];
    [|discriminate].
  destruct (NewWal _ d). intros H. injection H as <- <-. reflexivity.
Qed.

Lemma tryRotate_conf bc d bc' d' :
  tryRotate bc d = Ok (bc', d') -> conf bc' = conf bc.
Proof.
  unfold tryRotate. destruct (activeWal bc) eqn:E; cbn [deref mbind outcome_bind bind];
    [|discriminate].
  destruct (Size w <? MaxFileSize (conf bc)).
  - intros H. injection H as <- <-. reflexivity.
  - apply mustRotate_conf.
Qed.

Lemma after_rotate_conf bc d (k : Bitcask -> Disk -> outcome (Bitcask * Disk)) bc' d' :
  (forall b1 d1 b2 d2, k b1 d1 = Ok (b2, d2) -> conf b2 = conf b1) ->
  ('(bc1, d1) ← tryRotate bc d; k bc1 d1) = Ok (bc', d') -> conf bc' = conf bc.
Proof.
  intros Hk H. destruct (tryRotate bc d) as [[bc1 d1]| |] eqn:E;
    cbn [mbind outcome_bind bind] in H; try discriminate.
  rewrite (Hk _ _ _ _ H). eapply tryRotate_conf, E.
Qed.

Lemma putTxn_conf bc d key value t bc' d' :
  putTxn bc d key value t = Ok (bc', d') -> conf bc' = conf bc.
Proof.
  unfold putTxn. destruct key as [k|]; [|discriminate].
  apply after_rotate_conf. intros b1 d1 b2 d2 H.
  destruct (activeWal b1); cbn [deref mbind outcome_bind bind] in H; [|discriminate].
  destruct (WriteTxn _ _ _ _) as [[[? ?] ?]| |]; cbn [mbind outcome_bind bind] in H;
    try discriminate.
  injection H as <- <-. reflexivity.
Qed.

Lemma deleteTxn_conf bc d key t bc' d' :
  deleteTxn bc d key t = Ok (bc', d') -> conf bc' = conf bc.
Proof.
  unfold deleteTxn. destruct (BTreeIndex.Get _ _).
  - apply after_rotate_conf. intros b1 d1 b2 d2 H.
    destruct (activeWal b1); cbn [deref mbind outcome_bind bind] in H; [|discriminate].
    destruct (WriteTxn _ _ _ _) as [[[? ?] ?]| |]; cbn [mbind outcome_bind bind] in H;
      try discriminate.
    injection H as <- <-. reflexivity.
  - intros H. injection H as <- <-. reflexivity.
Qed.

Lemma putTxnBegin_conf bc d key t bc' d' :
  putTxnBegin bc d key t = Ok (bc', d') -> conf bc' = conf bc.
Proof.
  unfold putTxnBegin. destruct key as [k|]; [|discriminate].
  apply after_rotate_conf. intros b1 d1 b2 d2 H.
  destruct (activeWal b1); cbn [deref mbind outcome_bind bind] in H; [|discriminate].
  destruct (WriteTxnBegin _ _ _) as [[[? ?] ?]| |]; cbn [mbind outcome_bind bind] in H;
    try discriminate.
  injection H as <- <-. reflexivity.
Qed.

Lemma putTxnCommit_conf bc d key t bc' d' :
  putTxnCommit bc d key t = Ok (bc', d') -> conf bc' = conf bc.
Proof.
  unfold putTxnCommit. destruct key as [k|]; [|discriminate].
  apply after_rotate_conf. intros b1 d1 b2 d2 H.
  destruct (activeWal b1); cbn [deref mbind outcome_bind bind] in H; [|discriminate].
  destruct (WriteTxnCommit _ _ _) as [[[? ?] ?]| |]; cbn [mbind outcome_bind bind] in H;
    try discriminate.
  injection H as <- <-. reflexivity.
Qed.

Lemma Commit_loop_conf m t ks : forall bc d bc' d',
  Commit_loop m t ks bc d = Ok (bc', d') -> conf bc' = conf bc.
Proof.
  induction ks as [|key ks IH]; intros bc d bc' d' H; cbn [Commit_loop] in H.
  - injection H as <- <-. reflexivity.
  - destruct (match m !! of_slice key with
              | Some None => deleteTxn bc d key t
              | Some (Some value) => putTxn bc d key (Some value) t
              | None => Ok (bc, d)
              end) as [[bc1 d1]| |] eqn:E; cbn [mbind outcome_bind bind] in H;
      try discriminate.
    rewrite (IH _ _ _ _ H).
    destruct (m !! of_slice key) as [[v|]|].
    + eapply putTxn_conf, E.
    + eapply deleteTxn_conf, E.
    + injection E as <- <-. reflexivity.
Qed.

(** C10: when [Commit] has succeeded on a batch, a second [Commit] on it
    succeeds and changes nothing: the engine (its index, its transaction id,
    its segments) and the directory are the same, so no record is appended.
    A first [Commit] that wrote records leaves the batch with no buffer. *)
Theorem C10_second_commit_is_a_no_op b bc d b' bc' d' :
  Commit b bc d = Ok (b', bc', d') ->
  Commit b' bc' d' = Ok (b', bc', d') /\
  (map_len (mp b) <> 0 -> mp b' = None /\ keys b' = []).
Proof.
  unfold Commit at 1.
  destruct (map_len (mp b) >=? BatchSize (conf bc)) eqn:E1; [discriminate|].
  destruct (map_len (mp b) =? 0) eqn:E2.
  - intros H. injection H as <- <- <-. split.
    + unfold Commit. rewrite E1, E2. reflexivity.
    + apply Z.eqb_eq in E2. contradiction.
  - intros H.
    destruct (putTxnBegin bc d (Some txn_begin_key) (b_txnId b)) as [[bc1 d1]| |] eqn:Eb;
      cbn [mbind outcome_bind bind] in H; try discriminate.
    destruct (Commit_loop (default ∅ (mp b)) (b_txnId b) (keys b) bc1 d1)
      as [[bc2 d2]| |] eqn:El; cbn [mbind outcome_bind bind] in H; try discriminate.
    destruct (putTxnCommit bc2 d2 (Some txn_commit_key) (b_txnId b)) as [[bc3 d3]| |] eqn:Ec;
      cbn [mbind outcome_bind bind] in H; try discriminate.
    injection H as <- <- <-.
    assert (Hconf : conf bc3 = conf bc).
    { rewrite (putTxnCommit_conf _ _ _ _ _ _ Ec), (Commit_loop_conf _ _ _ _ _ _ _ El).
      eapply putTxnBegin_conf, Eb. }
    split; [|auto].
    unfold Commit. cbn [mp map_len conf set_txnId]. rewrite Hconf.
    apply Z.eqb_neq in E2. rewrite Z.geb_leb, Z.leb_gt in E1.
    assert (0 <= map_len (mp b)) by (unfold map_len; destruct (mp b); lia).
    rewrite Z.geb_leb, (proj2 (Z.leb_gt (BatchSize (conf bc)) 0)) by lia.
    reflexivity.
Qed.

Lemma batch_ab_built bc :
  (b ← Batch_Put (NewBatch bc) (Some ["a"]%byte) (Some ["1"]%byte);
   Batch_Put b (Some ["b"]%byte) (Some ["2"]%byte)) = Ok (batch_ab bc).
Proof. reflexivity. Qed.

Lemma C10_second_commit_witness :
  exists b' bc' d',
    Commit (batch_ab (fresh_engine conf_1024)) (fresh_engine conf_1024) fresh_dir
      = Ok (b', bc', d') /\
    Commit b' bc' d' = Ok (b', bc', d').
Proof.
  eexists _, _, _. split.
  - vm_compute. reflexivity.
  - eapply (C10_second_commit_is_a_no_op
              (batch_ab (fresh_engine conf_1024)) (fresh_engine conf_1024) fresh_dir).
    vm_compute. reflexivity.
Defined.

(** * Open *)

(** C6 (the code at the failing input): [NewBitcask] builds the lock
    handle and never takes the lock, so after a first open of an empty
    directory the lock is free and a second open of the same directory
    succeeds while the first engine is live. *)
Theorem C6_second_open_succeeds c :
  NewBitcask c empty_dir = Ok (fresh_engine c, fresh_dir) /\
  fl_locked (flock (fresh_engine c)) = false /\
  lock_held fresh_dir = false /\
  NewBitcask c fresh_dir =
    Ok (mkBitcask c (Some (mkWal 0 0)) ∅ [] 0 [0] 0 flock_New, fresh_dir).
Proof.
  repeat split. destruct c as [a m [|] b]; reflexivity.
Qed.

(** C3 (the code at the failing input): a store holds one put and is
    reopened. With [LoadHint = true] the segment is replayed; with
    [LoadHint = false] it is not, the index stays empty and the writer's
    offset stays 0, so the next put is indexed at offset 0 and reads back
    the older record. The hint snapshot is loaded whatever [LoadHint] is. *)
Theorem C3_load_hint_gates_the_replay :
  exists bc d,
    run [OpPut (Some ["a"]%byte) (Some ["1"]%byte)] (fresh_engine conf_1024) fresh_dir
      = Ok (bc, d) /\
    (exists bc1, NewBitcask conf_1024 d = Ok (bc1, d) /\
                 Get bc1 d (Some ["a"]%byte) = Ok (Some ["1"]%byte, true)) /\
    (exists bc2, NewBitcask conf_no_hint d = Ok (bc2, d) /\
                 memTable bc2 = [] /\ activeWal bc2 = Some (mkWal 0 0) /\
                 Get bc2 d (Some ["a"]%byte) = Ok (None, false) /\
                 exists bc3 d3,
                   Put bc2 d (Some ["b"]%byte) (Some ["2"]%byte) = Ok (bc3, d3) /\
                   Get bc3 d3 (Some ["b"]%byte) = Ok (Some ["1"]%byte, true)) /\
    (exists d' bc4, Close bc d = Ok d' /\ NewBitcask conf_no_hint d' = Ok (bc4, d') /\
                    memTable bc4 = [(["a"]%byte, mkPos 0 0 15)]).
Proof.
  eexists _, _. split; [vm_compute; reflexivity|].
  split; [|split].
  - eexists. split; [vm_compute; reflexivity|]. vm_compute. reflexivity.
  - eexists. split; [vm_compute; reflexivity|].
    split; [reflexivity|]. split; [reflexivity|]. split; [vm_compute; reflexivity|].
    eexists _, _. split; [vm_compute; reflexivity|]. vm_compute. reflexivity.
  - eexists _, _. split; [vm_compute; reflexivity|].
    split; [vm_compute; reflexivity|]. reflexivity.
Qed.

(** C2 (the code at the failing input): with a segment limit of 30 bytes
    the records of one transaction fall into two segments. [Commit]
    succeeds and both keys can be read; after a reopen that replays the
    segments, neither key is in the index. *)
Theorem C2_committed_batch_lost_across_rotation :
  exists b' bc d,
    Commit (batch_ab (fresh_engine conf_30)) (fresh_engine conf_30) fresh_dir
      = Ok (b', bc, d) /\
    fileId bc = 1 /\
    Get bc d (Some ["a"]%byte) = Ok (Some ["1"]%byte, true) /\
    Get bc d (Some ["b"]%byte) = Ok (Some ["2"]%byte, true) /\
    exists bc', NewBitcask conf_30 d = Ok (bc', d) /\
                memTable bc' = [] /\
                Get bc' d (Some ["a"]%byte) = Ok (None, false) /\
                Get bc' d (Some ["b"]%byte) = Ok (None, false).
Proof.
  eexists _, _, _. split; [vm_compute; reflexivity|].
  split; [reflexivity|]. split; [vm_compute; reflexivity|].
  split; [vm_compute; reflexivity|].
  eexists. split; [vm_compute; reflexivity|].
  split; [reflexivity|]. split; [vm_compute; reflexivity|]. vm_compute. reflexivity.
Qed.

(** * Commands: single operations and batches *)

(** ** One append, with rotation *)

Lemma append_core bc d n rec :
  wf bc d n -> conf_ok (conf bc) -> n + 1 < 2 ^ 32 ->
  len (Encode rec) <= MaxRecordLength ->
  exists bc1 d1 aw aw' d2 pos,
    tryRotate bc d = Ok (bc1, d1) /\ activeWal bc1 = Some aw /\
    write aw d1 rec = Ok (aw', d2, pos) /\
    wf (set_activeWal aw' bc1) d2 (n + 1) /\
    memTable bc1 = memTable bc /\ conf bc1 = conf bc /\
    (forall p r, reads bc d p r -> reads (set_activeWal aw' bc1) d2 p r) /\
    (forall r, within_caps rec -> strip_txn rec = Ok r ->
               reads (set_activeWal aw' bc1) d2 pos r).
Proof.
  intros Hwf [Hc0 Hc1] Hn Hrl.
  destruct (tryRotate_wf _ _ _ Hwf Hn)
    as (bc1 & d1 & aw & f & Ht & Hwf1 & Hr1 & Hmt1 & Hcf1 & Ha & Hid & Hf & Hoff & Hsz).
  assert (Hlen : len f + len (Encode rec) < 2 ^ 32).
  { pose proof (len_nonneg f). pose proof MaxRecordLength_value.
    change (2 ^ 32) with 4294967296 in *. lia. }
  destruct (write_wf _ _ _ _ _ _ Hwf1 Ha Hid Hf Hoff Hlen)
    as (aw' & d2 & Hw & Hwf2 & Hr2 & Hnew).
  cbv zeta in Hw, Hnew.
  exists bc1, d1, aw, aw', d2, (mkPos (fileId bc1) (len f) (len (Encode rec))).
  split; [exact Ht|]. split; [exact Ha|]. split; [exact Hw|]. split; [exact Hwf2|].
  split; [exact Hmt1|]. split; [exact Hcf1|]. split; [|exact Hnew].
  intros p r Hp. apply Hr2, Hr1, Hp.
Qed.

Lemma wf_set_memTable m bc d n : wf bc d n -> sorted m -> wf (set_memTable m bc) d n.
Proof. intros [H1 H2 H3 H4 H5] Hs. constructor; auto. Qed.

(** An append followed by [memTable.Put]. *)
Lemma append_put bc d n (Q Q' : bytes -> Prop) k rec r' :
  wf bc d n -> entries_inv Q bc d -> conf_ok (conf bc) -> n + 1 < 2 ^ 32 ->
  len k <= MaxKeyLength -> within_caps rec -> strip_txn rec = Ok r' -> Key r' = k ->
  (RecordType_ r' = RecordTypeDelete -> Q' k) -> (forall x, Q x -> Q' x) ->
  exists bc1 d1 aw aw' d2 pos,
    tryRotate bc d = Ok (bc1, d1) /\ activeWal bc1 = Some aw /\
    write aw d1 rec = Ok (aw', d2, pos) /\
    wf (set_memTable (BTreeIndex.Put k pos (memTable bc1)) (set_activeWal aw' bc1)) d2 (n + 1) /\
    entries_inv Q' (set_memTable (BTreeIndex.Put k pos (memTable bc1)) (set_activeWal aw' bc1)) d2 /\
    conf bc1 = conf bc.
Proof.
  intros Hwf Hinv Hc Hn Hk Hcaps Hs Hkey HQ' HQ.
  assert (Hrl : len (Encode rec) <= MaxRecordLength).
  { rewrite len_Encode. unfold MaxRecordLength. destruct Hcaps. lia. }
  destruct (append_core bc d n rec Hwf Hc Hn Hrl)
    as (bc1 & d1 & aw & aw' & d2 & pos & Ht & Ha & Hw & Hwf2 & Hmt & Hcf & Hr & Hnew).
  exists bc1, d1, aw, aw', d2, pos.
  split; [exact Ht|]. split; [exact Ha|]. split; [exact Hw|].
  split; [|split; [|exact Hcf]].
  - apply wf_set_memTable; [exact Hwf2|]. apply sorted_Put. rewrite Hmt.
    apply (wf_sorted _ _ _ Hwf).
  - intros k0 p0 H. cbn [memTable set_memTable] in H. rewrite Hmt in H.
    destruct (decide (k = k0)) as [<-|Hne].
    + rewrite Get_Put_eq in H. injection H as <-. split; [exact Hk|].
      exists r'. split; [apply Hnew; assumption|]. split; assumption.
    + rewrite Get_Put_ne in H by (auto; apply (wf_sorted _ _ _ Hwf)).
      destruct (Hinv _ _ H) as (Hk0 & r & Hrd & Hkr & Hq). split; [exact Hk0|].
      exists r. split; [apply Hr, Hrd|]. split; [exact Hkr | auto].
Qed.

(** An append followed by [memTable.Delete]. *)
Lemma append_delete bc d n (Q : bytes -> Prop) k rec :
  wf bc d n -> entries_inv Q bc d -> conf_ok (conf bc) -> n + 1 < 2 ^ 32 ->
  len (Encode rec) <= MaxRecordLength ->
  exists bc1 d1 aw aw' d2 pos,
    tryRotate bc d = Ok (bc1, d1) /\ activeWal bc1 = Some aw /\
    write aw d1 rec = Ok (aw', d2, pos) /\
    wf (set_memTable (BTreeIndex.Delete k (memTable bc1)) (set_activeWal aw' bc1)) d2 (n + 1) /\
    entries_inv Q (set_memTable (BTreeIndex.Delete k (memTable bc1)) (set_activeWal aw' bc1)) d2 /\
    conf bc1 = conf bc.
Proof.
  intros Hwf Hinv Hc Hn Hrl.
  destruct (append_core bc d n rec Hwf Hc Hn Hrl)
    as (bc1 & d1 & aw & aw' & d2 & pos & Ht & Ha & Hw & Hwf2 & Hmt & Hcf & Hr & Hnew).
  exists bc1, d1, aw, aw', d2, pos.
  split; [exact Ht|]. split; [exact Ha|]. split; [exact Hw|].
  split; [|split; [|exact Hcf]].
  - apply wf_set_memTable; [exact Hwf2|]. apply sorted_Delete. rewrite Hmt.
    apply (wf_sorted _ _ _ Hwf).
  - intros k0 p0 H. cbn [memTable set_memTable] in H. rewrite Hmt in H.
    destruct (decide (k = k0)) as [<-|Hne].
    + rewrite Get_Delete_eq in H by apply (wf_sorted _ _ _ Hwf). discriminate.
    + rewrite Get_Delete_ne in H by (auto; apply (wf_sorted _ _ _ Hwf)).
      destruct (Hinv _ _ H) as (Hk0 & r & Hrd & Hkr & Hq). split; [exact Hk0|].
      exists r. split; [apply Hr, Hrd|]. split; [exact Hkr | auto].
Qed.

(** An append that leaves the index alone. *)
Lemma append_only bc d n (Q : bytes -> Prop) rec :
  wf bc d n -> entries_inv Q bc d -> conf_ok (conf bc) -> n + 1 < 2 ^ 32 ->
  len (Encode rec) <= MaxRecordLength ->
  exists bc1 d1 aw aw' d2 pos,
    tryRotate bc d = Ok (bc1, d1) /\ activeWal bc1 = Some aw /\
    write aw d1 rec = Ok (aw', d2, pos) /\
    wf (set_activeWal aw' bc1) d2 (n + 1) /\
    entries_inv Q (set_activeWal aw' bc1) d2 /\
    conf bc1 = conf bc.
Proof.
  intros Hwf Hinv Hc Hn Hrl.
  destruct (append_core bc d n rec Hwf Hc Hn Hrl)
    as (bc1 & d1 & aw & aw' & d2 & pos & Ht & Ha & Hw & Hwf2 & Hmt & Hcf & Hr & Hnew).
  exists bc1, d1, aw, aw', d2, pos.
  split; [exact Ht|]. split; [exact Ha|]. split; [exact Hw|].
  split; [exact Hwf2|]. split; [|exact Hcf].
  intros k0 p0 H. cbn [memTable set_activeWal] in H. rewrite Hmt in H.
  destruct (Hinv _ _ H) as (Hk0 & r & Hrd & Hkr & Hq). split; [exact Hk0|].
  exists r. split; [apply Hr, Hrd|]. split; [exact Hkr | auto].
Qed.

(** ** The invariant through the operations of the engine *)

Lemma good_mono Q c bc d n m : good Q c bc d n -> n <= m -> good Q c bc d m.
Proof. intros (H1 & H2 & H3) Hle. split; [eapply wf_mono; eassumption | auto]. Qed.

Lemma Put_good Q c bc d n k v :
  good Q c bc d n -> conf_ok c -> n + 1 < 2 ^ 32 ->
  len k <= MaxKeyLength -> len (of_slice v) <= MaxValueLength ->
  (v = None -> Q k) ->
  exists bc' d', Put bc d (Some k) v = Ok (bc', d') /\ good Q c bc' d' (n + 1).
Proof.
  intros (Hwf & Hinv & Hcf) Hc Hn Hk Hv HQ. rewrite <- Hcf in Hc.
  destruct (append_put bc d n Q Q k (NewRecord k v) (NewRecord k v) Hwf Hinv Hc Hn Hk)
    as (bc1 & d1 & aw & aw' & d2 & pos & Ht & Ha & Hw & Hwf2 & Hinv2 & Hcf2).
  - apply within_caps_NewRecord; assumption.
  - apply strip_txn_NewRecord.
  - destruct v; reflexivity.
  - destruct v; [discriminate | auto].
  - auto.
  - unfold Put. rewrite Ht. cbn [mbind outcome_bind bind]. rewrite Ha.
    cbn [deref mbind outcome_bind bind]. unfold Write. rewrite Hw.
    cbn [mbind outcome_bind bind]. eexists _, _. split; [reflexivity|].
    split; [exact Hwf2|]. split; [exact Hinv2|]. cbn [conf set_memTable set_activeWal].
    congruence.
Qed.

Lemma len_Encode_tombstone t k :
  len k <= MaxKeyLength ->
  len (Encode (mkRecord t (put_u32be 0 ++ k) [])) <= MaxRecordLength.
Proof.
  intros Hk. rewrite len_Encode. cbn [Key Value]. rewrite len_app, len_put_u32be, len_nil.
  unfold MaxRecordLength, MaxValueLength. lia.
Qed.

Lemma Delete_good Q c bc d n key :
  good Q c bc d n -> conf_ok c -> n + 1 < 2 ^ 32 ->
  exists bc' d', Delete bc d key = Ok (bc', d') /\ good Q c bc' d' (n + 1).
Proof.
  intros (Hwf & Hinv & Hcf) Hc Hn. rewrite <- Hcf in Hc. unfold Delete.
  destruct (BTreeIndex.Get (of_slice key) (memTable bc)) as [pos0|] eqn:EG.
  - destruct (Hinv _ _ EG) as (Hk & _).
    destruct (append_delete bc d n Q (of_slice key) (NewRecord (of_slice key) None)
                Hwf Hinv Hc Hn)
      as (bc1 & d1 & aw & aw' & d2 & pos & Ht & Ha & Hw & Hwf2 & Hinv2 & Hcf2).
    { rewrite len_Encode. cbn [NewRecord newRecord Key Value of_slice default].
      rewrite len_nil. unfold MaxRecordLength, MaxValueLength. lia. }
    rewrite Ht. cbn [mbind outcome_bind bind]. rewrite Ha.
    cbn [deref mbind outcome_bind bind]. unfold Write. rewrite Hw.
    cbn [mbind outcome_bind bind]. eexists _, _. split; [reflexivity|].
    split; [exact Hwf2|]. split; [exact Hinv2|]. cbn [conf set_memTable set_activeWal].
    congruence.
  - exists bc, d. split; [reflexivity|]. apply (good_mono Q c bc d n); [|lia].
    split; [exact Hwf|]. split; [exact Hinv | exact Hcf].
Qed.

Lemma strip_txn_TxnPut t k v :
  strip_txn (NewTxnRecord (EncodeTxnId t k) (Some v)) = Ok (mkRecord RecordTypeTxnPut k v).
Proof.
  unfold strip_txn, DecodeTxnId. cbn [NewTxnRecord newRecord RecordType_ Key Value of_slice].
  unfold EncodeTxnId. rewrite len_app, len_put_u32be.
  pose proof (len_nonneg k).
  rewrite (proj2 (Z.ltb_ge (4 + len k) 4)) by lia. reflexivity.
Qed.

Lemma putTxn_good Q c bc d n k v t :
  good Q c bc d n -> conf_ok c -> n + 1 < 2 ^ 32 ->
  len k + 4 <= MaxKeyLength -> len v <= MaxValueLength ->
  exists bc' d', putTxn bc d (Some k) (Some v) t = Ok (bc', d') /\ good Q c bc' d' (n + 1).
Proof.
  intros (Hwf & Hinv & Hcf) Hc Hn Hk Hv. rewrite <- Hcf in Hc.
  destruct (append_put bc d n Q Q k (NewTxnRecord (EncodeTxnId t k) (Some v))
              (mkRecord RecordTypeTxnPut k v) Hwf Hinv Hc Hn)
    as (bc1 & d1 & aw & aw' & d2 & pos & Ht & Ha & Hw & Hwf2 & Hinv2 & Hcf2).
  - lia.
  - split; cbn [NewTxnRecord newRecord Key Value of_slice default]; [|exact Hv].
    unfold EncodeTxnId. rewrite len_app, len_put_u32be. lia.
  - apply strip_txn_TxnPut.
  - reflexivity.
  - discriminate.
  - auto.
  - unfold putTxn. rewrite Ht. cbn [mbind outcome_bind bind]. rewrite Ha.
    cbn [deref mbind outcome_bind bind]. unfold WriteTxn. rewrite Hw.
    cbn [mbind outcome_bind bind]. eexists _, _. split; [reflexivity|].
    split; [exact Hwf2|]. split; [exact Hinv2|]. cbn [conf set_memTable set_activeWal].
    congruence.
Qed.

Lemma deleteTxn_good Q c bc d n key t :
  good Q c bc d n -> conf_ok c -> n + 1 < 2 ^ 32 ->
  exists bc' d', deleteTxn bc d key t = Ok (bc', d') /\ good Q c bc' d' (n + 1).
Proof.
  intros (Hwf & Hinv & Hcf) Hc Hn. rewrite <- Hcf in Hc. unfold deleteTxn.
  destruct (BTreeIndex.Get (of_slice key) (memTable bc)) as [pos0|] eqn:EG.
  - destruct (Hinv _ _ EG) as (Hk & _).
    destruct (append_delete bc d n Q (of_slice key)
                (NewTxnRecord (EncodeTxnId t (of_slice key)) None) Hwf Hinv Hc Hn)
      as (bc1 & d1 & aw & aw' & d2 & pos & Ht & Ha & Hw & Hwf2 & Hinv2 & Hcf2).
    { rewrite len_Encode. cbn [NewTxnRecord newRecord Key Value of_slice default].
      unfold EncodeTxnId. rewrite len_app, len_put_u32be, len_nil.
      unfold MaxRecordLength, MaxValueLength. lia. }
    rewrite Ht. cbn [mbind outcome_bind bind]. rewrite Ha.
    cbn [deref mbind outcome_bind bind]. unfold WriteTxn. rewrite Hw.
    cbn [mbind outcome_bind bind]. eexists _, _. split; [reflexivity|].
    split; [exact Hwf2|]. split; [exact Hinv2|]. cbn [conf set_memTable set_activeWal].
    congruence.
  - exists bc, d. split; [reflexivity|]. apply (good_mono Q c bc d n); [|lia].
    split; [exact Hwf|]. split; [exact Hinv | exact Hcf].
Qed.

Lemma marker_length t (key : bytes) ty :
  len key <= 16 ->
  len (Encode (mkRecord ty (EncodeTxnId t key) [])) <= MaxRecordLength.
Proof.
  intros Hk. rewrite len_Encode. cbn [Key Value]. unfold EncodeTxnId.
  rewrite len_app, len_put_u32be, len_nil. unfold MaxRecordLength, MaxKeyLength,
    MaxValueLength. lia.
Qed.

Lemma putTxnBegin_good Q c bc d n t :
  good Q c bc d n -> conf_ok c -> n + 1 < 2 ^ 32 ->
  exists bc' d',
    putTxnBegin bc d (Some txn_begin_key) t = Ok (bc', d') /\ good Q c bc' d' (n + 1).
Proof.
  intros (Hwf & Hinv & Hcf) Hc Hn. rewrite <- Hcf in Hc.
  destruct (append_only bc d n Q (NewTxnBegin (EncodeTxnId t txn_begin_key)) Hwf Hinv Hc Hn)
    as (bc1 & d1 & aw & aw' & d2 & pos & Ht & Ha & Hw & Hwf2 & Hinv2 & Hcf2).
  { apply marker_length. discriminate. }
  unfold putTxnBegin. rewrite Ht. cbn [mbind outcome_bind bind]. rewrite Ha.
  cbn [deref mbind outcome_bind bind]. unfold WriteTxnBegin. rewrite Hw.
  cbn [mbind outcome_bind bind]. eexists _, _. split; [reflexivity|].
  split; [exact Hwf2|]. split; [exact Hinv2|]. cbn [conf set_activeWal]. congruence.
Qed.

Lemma putTxnCommit_good Q c bc d n t :
  good Q c bc d n -> conf_ok c -> n + 1 < 2 ^ 32 ->
  exists bc' d',
    putTxnCommit bc d (Some txn_commit_key) t = Ok (bc', d') /\ good Q c bc' d' (n + 1).
Proof.
  intros (Hwf & Hinv & Hcf) Hc Hn. rewrite <- Hcf in Hc.
  destruct (append_only bc d n Q (NewTxnCommit (EncodeTxnId t txn_commit_key)) Hwf Hinv Hc Hn)
    as (bc1 & d1 & aw & aw' & d2 & pos & Ht & Ha & Hw & Hwf2 & Hinv2 & Hcf2).
  { apply marker_length. discriminate. }
  unfold putTxnCommit. rewrite Ht. cbn [mbind outcome_bind bind]. rewrite Ha.
  cbn [deref mbind outcome_bind bind]. unfold WriteTxnCommit. rewrite Hw.
  cbn [mbind outcome_bind bind]. eexists _, _. split; [reflexivity|].
  split; [exact Hwf2|]. split; [exact Hinv2|]. cbn [conf set_activeWal]. congruence.
Qed.

(** ** Batches *)

Lemma Commit_loop_good Q c m t ks : forall bc d n,
  good Q c bc d n -> conf_ok c -> n + len ks < 2 ^ 32 ->
  (forall k v, m !! k = Some (Some v) ->
     len k + 4 <= MaxKeyLength /\ len v <= MaxValueLength) ->
  Forall (fun key => key <> None) ks ->
  exists bc' d',
    Commit_loop m t ks bc d = Ok (bc', d') /\ good Q c bc' d' (n + len ks).
Proof.
  induction ks as [|key ks IH]; intros bc d n Hg Hc Hn Hm Hks.
  - exists bc, d. rewrite len_nil, Z.add_0_r. split; [reflexivity | exact Hg].
  - rewrite len_cons in *. pose proof (len_nonneg ks).
    inversion_clear Hks as [|? ? Hk1 Hk2].
    destruct key as [k|]; [|contradiction]. cbn [Commit_loop].
    change (of_slice (Some k)) with k.
    assert (Hstep : exists bc1 d1,
              match m !! k with
              | Some None => deleteTxn bc d (Some k) t
              | Some (Some value) => putTxn bc d (Some k) (Some value) t
              | None => Ok (bc, d)
              end = Ok (bc1, d1) /\ good Q c bc1 d1 (n + 1)).
    { destruct (m !! k) as [[v|]|] eqn:Em.
      - destruct (Hm _ _ Em). apply putTxn_good; auto; lia.
      - apply deleteTxn_good; auto; lia.
      - exists bc, d. split; [reflexivity|]. apply (good_mono Q c bc d n); [exact Hg | lia]. }
    destruct Hstep as (bc1 & d1 & Hs & Hg1).
    rewrite Hs. cbn [mbind outcome_bind bind].
    destruct (IH bc1 d1 (n + 1) Hg1 Hc ltac:(lia) Hm Hk2) as (bc2 & d2 & Hl & Hg2).
    exists bc2, d2. split; [exact Hl|].
    replace (n + (1 + len ks)) with (n + 1 + len ks) by lia. exact Hg2.
Qed.

Lemma good_set_txnId Q c bc d n t : good Q c bc d n -> good Q c (set_txnId t bc) d n.
Proof.
  intros ([H1 H2 H3 H4 H5] & Hinv & Hcf). split; [constructor; auto|]. split; [|exact Hcf].
  exact Hinv.
Qed.

Lemma Commit_good Q c b bc d n :
  good Q c bc d n -> conf_ok c -> n + 2 + len (keys b) < 2 ^ 32 ->
  batch_ok b -> map_len (mp b) < BatchSize c ->
  exists b' bc' d',
    Commit b bc d = Ok (b', bc', d') /\ good Q c bc' d' (n + 2 + len (keys b)).
Proof.
  intros Hg Hc Hn (m & Hmp & Hm & Hks) Hsz.
  pose proof Hg as (_ & _ & Hcf). pose proof (len_nonneg (keys b)).
  unfold Commit. rewrite Hcf, Z.geb_leb.
  rewrite (proj2 (Z.leb_gt (BatchSize c) (map_len (mp b)))) by lia.
  destruct (map_len (mp b) =? 0).
  - exists b, bc, d. split; [reflexivity|]. apply (good_mono Q c bc d n); [exact Hg | lia].
  - destruct (putTxnBegin_good Q c bc d n (b_txnId b) Hg Hc ltac:(lia))
      as (bc1 & d1 & Hb & Hg1).
    rewrite Hb. cbn [mbind outcome_bind bind]. rewrite Hmp.
    change (default ∅ (Some m)) with m.
    destruct (Commit_loop_good Q c m (b_txnId b) (keys b) bc1 d1 (n + 1) Hg1 Hc
                ltac:(lia) Hm Hks) as (bc2 & d2 & Hl & Hg2).
    rewrite Hl. cbn [mbind outcome_bind bind].
    destruct (putTxnCommit_good Q c bc2 d2 (n + 1 + len (keys b)) (b_txnId b) Hg2 Hc
                ltac:(lia)) as (bc3 & d3 & Hcm & Hg3).
    rewrite Hcm. cbn [mbind outcome_bind bind].
    eexists _, _, _. split; [reflexivity|]. apply good_set_txnId.
    replace (n + 2 + len (keys b)) with (n + 1 + len (keys b) + 1) by lia. exact Hg3.
Qed.

(** ** The index entries after a run of commands *)

Lemma Get_total Q bc d key :
  entries_inv Q bc d -> exists r, Get bc d key = Ok r.
Proof.
  intros Hinv. unfold Get, get. destruct key as [k|]; [|eexists; reflexivity].
  destruct (BTreeIndex.Get k (memTable bc)) as [pos|] eqn:EG; [|eexists; reflexivity].
  destruct (Hinv _ _ EG) as (_ & rec & (w & Ht & Hr) & _).
  rewrite Ht. cbn [mbind outcome_bind bind]. rewrite Hr.
  destruct (bool_decide (RecordType_ rec = RecordTypeDelete)); eexists; reflexivity.
Qed.

Lemma Get_nil bc d : Get bc d None = Ok (None, false).
Proof. reflexivity. Qed.

Lemma map_len_insert (m : gmap bytes (option bytes)) k v :
  map_len (Some (<[k := v]> m)) <= map_len (Some m) + 1.
Proof.
  unfold map_len. rewrite map_size_insert. destruct (m !! k); unfold id; lia.
Qed.

Lemma map_len_delete (m : gmap bytes (option bytes)) k :
  map_len (Some (delete k m)) <= map_len (Some m).
Proof.
  unfold map_len. rewrite map_size_delete. destruct (m !! k); unfold id; lia.
Qed.

Lemma batch_step_good Q db d b a :
  entries_inv Q db d -> valid_bop a -> batch_ok b ->
  exists b',
    batch_step db d b a = Ok b' /\ batch_ok b' /\
    map_len (mp b') <= map_len (mp b) + 1 /\ len (keys b') <= len (keys b) + 1.
Proof.
  intros Hinv Hv (m & Hmp & Hm & Hks). destruct a as [key value|key]; cbn [batch_step].
  - destruct Hv as (Hk & Hkl & Hvl). unfold Batch_Put. rewrite Hmp.
    eexists. split; [reflexivity|]. cbn [mp keys]. split; [|split].
    + eexists. split; [reflexivity|]. split.
      * intros k v Hl. destruct (decide (of_slice key = k)) as [<-|Hne].
        -- rewrite lookup_insert_eq in Hl. injection Hl as ->. auto.
        -- rewrite lookup_insert_ne in Hl by exact Hne. eauto.
      * apply Forall_app. split; [exact Hks|]. constructor; [exact Hk | constructor].
    + rewrite ?Hmp. apply map_len_insert.
    + rewrite len_app, len_cons, len_nil. lia.
  - unfold Batch_Delete. destruct (Get_total Q db d key Hinv) as ([gv ok] & HG).
    rewrite HG. cbn [mbind outcome_bind bind]. destruct ok; cbn [negb].
    + rewrite Hmp. eexists. split; [reflexivity|]. cbn [mp keys]. split; [|split].
      * eexists. split; [reflexivity|]. split.
        -- intros k v Hl. destruct (decide (of_slice key = k)) as [<-|Hne].
           ++ rewrite lookup_insert_eq in Hl. discriminate.
           ++ rewrite lookup_insert_ne in Hl by exact Hne. eauto.
        -- apply Forall_app. split; [exact Hks|]. constructor; [|constructor].
           intros ->. rewrite Get_nil in HG. discriminate.
      * rewrite ?Hmp. apply map_len_insert.
      * rewrite len_app, len_cons, len_nil. lia.
    + rewrite Hmp. destruct (m !! of_slice key) eqn:El.
      * eexists. split; [reflexivity|]. cbn [mp keys]. split; [|split].
        -- eexists. split; [reflexivity|]. split; [|exact Hks].
           intros k v Hl. apply lookup_delete_Some in Hl. destruct Hl as [_ Hl]. eauto.
        -- rewrite ?Hmp. pose proof (map_len_delete m (of_slice key)). lia.
        -- cbn [keys]. lia.
      * exists b. split; [reflexivity|]. split; [exists m; rewrite <- Hmp; auto|].
        split; rewrite ?Hmp; lia.
Qed.

Lemma build_batch_good Q db d acts : forall b,
  entries_inv Q db d -> Forall valid_bop acts -> batch_ok b ->
  exists b',
    build_batch db d b acts = Ok b' /\ batch_ok b' /\
    map_len (mp b') <= map_len (mp b) + len acts /\
    len (keys b') <= len (keys b) + len acts.
Proof.
  induction acts as [|a acts IH]; intros b Hinv Hv Hb.
  - exists b. rewrite len_nil. split; [reflexivity|]. split; [exact Hb | lia].
  - inversion_clear Hv as [|? ? Hv1 Hv2]. rewrite len_cons.
    destruct (batch_step_good Q db d b a Hinv Hv1 Hb) as (b1 & Hs & Hb1 & Hm1 & Hk1).
    destruct (IH b1 Hinv Hv2 Hb1) as (b2 & Hbb & Hb2 & Hm2 & Hk2).
    exists b2. cbn [build_batch]. rewrite Hs. cbn [mbind outcome_bind bind].
    split; [exact Hbb|]. split; [exact Hb2 | lia].
Qed.

Lemma NewBatch_ok bc : batch_ok (NewBatch bc).
Proof.
  exists ∅. split; [reflexivity|]. split; [|constructor].
  intros k v H. rewrite lookup_empty in H. discriminate.
Qed.

Lemma exec_cmd_good Q c x bc d n :
  good Q c bc d n -> conf_ok c -> n + cmd_writes x < 2 ^ 32 -> valid_cmd c x ->
  (forall k, x = Single (OpPut (Some k) None) -> Q k) ->
  exists bc' d', exec_cmd x bc d = Ok (bc', d') /\ good Q c bc' d' (n + cmd_writes x).
Proof.
  intros Hg Hc Hn Hv HQ. destruct x as [o|acts]; cbn [exec_cmd cmd_writes] in *.
  - destruct o as [key value|key]; cbn [exec].
    + destruct Hv as (Hk & Hkl & Hvl). destruct key as [k|]; [|contradiction].
      apply Put_good; auto. intros ->. apply HQ. reflexivity.
    + apply Delete_good; auto.
  - destruct Hv as (Hv & Hsz). pose proof Hg as (_ & Hinv & _).
    destruct (build_batch_good Q bc d acts (NewBatch bc) Hinv Hv (NewBatch_ok bc))
      as (b & Hb & Hok & Hm & Hk).
    cbn [NewBatch mp keys map_len] in Hm, Hk. rewrite map_size_empty in Hm.
    rewrite len_nil in Hk. pose proof (len_nonneg (keys b)).
    destruct (Commit_good Q c b bc d n Hg Hc ltac:(lia) Hok ltac:(lia))
      as (b' & bc' & d' & HC & Hg').
    rewrite Hb. cbn [mbind outcome_bind bind]. rewrite HC. cbn [mbind outcome_bind bind].
    exists bc', d'. split; [reflexivity|].
    apply (good_mono Q c bc' d' (n + 2 + len (keys b))); [exact Hg' | lia].
Qed.

Lemma cmd_writes_pos x : 0 < cmd_writes x.
Proof. destruct x; cbn [cmd_writes]; [lia|]. pose proof (len_nonneg acts). lia. Qed.

Lemma run_cmds_good Q c cs : forall bc d n,
  good Q c bc d n -> conf_ok c -> n + writes cs < 2 ^ 32 -> Forall (valid_cmd c) cs ->
  (forall k, In (Single (OpPut (Some k) None)) cs -> Q k) ->
  exists bc' d', run_cmds cs bc d = Ok (bc', d') /\ good Q c bc' d' (n + writes cs).
Proof.
  induction cs as [|x cs IH]; intros bc d n Hg Hc Hn Hv HQ.
  - exists bc, d. cbn [writes fold_right]. rewrite Z.add_0_r. split; [reflexivity | exact Hg].
  - cbn [writes fold_right] in *. fold (writes cs) in *.
    inversion_clear Hv as [|? ? Hv1 Hv2].
    assert (Hw : 0 <= writes cs).
    { clear. induction cs as [|y cs IH]; cbn [writes fold_right]; [lia|].
      fold (writes cs). pose proof (cmd_writes_pos y). lia. }
    destruct (exec_cmd_good Q c x bc d n Hg Hc ltac:(lia) Hv1) as (bc1 & d1 & He & Hg1).
    { intros k ->. apply HQ. left. reflexivity. }
    destruct (IH bc1 d1 (n + cmd_writes x) Hg1 Hc ltac:(lia) Hv2) as (bc2 & d2 & Hr & Hg2).
    { intros k Hin. apply HQ. right. exact Hin. }
    exists bc2, d2. cbn [run_cmds]. rewrite He. cbn [mbind outcome_bind bind].
    split; [exact Hr|].
    replace (n + (cmd_writes x + writes cs)) with (n + cmd_writes x + writes cs) by lia.
    exact Hg2.
Qed.

Lemma fresh_good Q c : good Q c (fresh_engine c) fresh_dir 0.
Proof.
  split; [apply fresh_wf|]. split; [|reflexivity]. intros k pos H. discriminate H.
Qed.

(** X13: starting from an empty store, after any sequence of puts (non-nil
    key, sizes within the codec's limits), deletes and batch commits (batches
    below the configured size, their keys four bytes shorter than the limit),
    every index entry references a location that lies within an existing
    segment and decodes to a record whose key is the index key; the record is
    not a tombstone unless the key was put with a nil value. *)
Theorem X13_index_entries_decode_after_commands c cmds :
  conf_ok c -> Forall (valid_cmd c) cmds -> writes cmds < 2 ^ 32 ->
  exists bc0 d0 bc d,
    NewBitcask c empty_dir = Ok (bc0, d0) /\
    run_cmds cmds bc0 d0 = Ok (bc, d) /\
    forall k pos, (k, pos) ∈ memTable bc ->
      exists w f rec,
        targetWal bc pos = Ok w /\ wal_files d !! w_fileId w = Some f /\
        0 <= Offset pos /\ Offset pos + Length pos <= len f /\
        ReadPos w d pos = Ok rec /\ Key rec = k /\
        (RecordType_ rec = RecordTypeDelete -> put_nil cmds k).
Proof.
  intros Hc Hv Hn.
  destruct (run_cmds_good (put_nil cmds) c cmds (fresh_engine c) fresh_dir 0
              (fresh_good _ c) Hc ltac:(lia) Hv) as (bc & d & Hr & Hwf & Hinv & _).
  { auto. }
  exists (fresh_engine c), fresh_dir, bc, d.
  split; [apply NewBitcask_empty_dir|]. split; [exact Hr|].
  intros k pos Hin.
  apply (Get_Some_elem _ _ _ (wf_sorted _ _ _ Hwf)) in Hin.
  destruct (Hinv _ _ Hin) as (_ & rec & (w & Ht & HR) & Hk & Hq).
  destruct (ReadPos_Ok_bounds _ _ _ _ HR) as (f & Hf & Hb1 & Hb2).
  exists w, f, rec. repeat split; assumption.
Qed.

Lemma X13_index_entries_decode_after_commands_witness :
  exists bc0 d0 bc d,
    NewBitcask conf_1024 empty_dir = Ok (bc0, d0) /\
    run_cmds cmds_example bc0 d0 = Ok (bc, d) /\
    forall k pos, (k, pos) ∈ memTable bc ->
      exists w f rec,
        targetWal bc pos = Ok w /\ wal_files d !! w_fileId w = Some f /\
        0 <= Offset pos /\ Offset pos + Length pos <= len f /\
        ReadPos w d pos = Ok rec /\ Key rec = k /\
        (RecordType_ rec = RecordTypeDelete -> put_nil cmds_example k).
Proof.
  apply (X13_index_entries_decode_after_commands conf_1024 cmds_example).
  - exact conf_1024_ok.
  - repeat constructor; try discriminate; try (intros H; discriminate H).
  - reflexivity.
Defined.

Example cmds_example_run :
  ('(bc, d) ← run_cmds cmds_example (fresh_engine conf_1024) fresh_dir;
   Ok (memTable bc)) = Ok [(["b"]%byte, mkPos 0 41 19)].
Proof. vm_compute. reflexivity. Qed.

(** * A transaction within one segment *)

Lemma DecodeTxnId_EncodeTxnId t k :
  0 <= t < 2 ^ 32 -> DecodeTxnId (EncodeTxnId t k) = Ok (t, k).
Proof.
  intros Ht. unfold DecodeTxnId, EncodeTxnId.
  pose proof (len_nonneg k).
  rewrite len_app, len_put_u32be.
  rewrite (proj2 (Z.ltb_ge (4 + len k) 4)) by lia.
  assert (Hl : 4%nat = length (put_u32be t)) by reflexivity.
  rewrite (take_app_length' _ _ 4 Hl), (drop_app_length' _ _ 4 Hl).
  rewrite <- (app_nil_r (put_u32be t)), get_put_u32be_small by exact Ht.
  reflexivity.
Qed.

Lemma drop_EncodeTxnId t k : drop 4 (EncodeTxnId t k) = k.
Proof.
  unfold EncodeTxnId.
  assert (Hl : 4%nat = length (put_u32be t)) by reflexivity.
  exact (drop_app_length' _ _ 4 Hl).
Qed.

Lemma updatedFunc_txn_op st r pos t :
  0 <= t < 2 ^ 32 -> txnFlag st = true -> curTxnId st = t -> txn_op t r ->
  updatedFunc st r pos =
    Ok (mkReplay
          (<[t := default [] (batchData st !! t)
                    ++ [mkTxnData (mkRecord (RecordType_ r) (drop 4 (Key r)) (Value r)) pos]]>
             (batchData st))
          true t (r_memTable st) (dbTxnId st)).
Proof.
  intros Ht Hf Hc [Hty [k Hk]].
  assert (Hb : buffer_txn st r pos =
    Ok (mkReplay
          (<[t := default [] (batchData st !! t)
                    ++ [mkTxnData (mkRecord (RecordType_ r) (drop 4 (Key r)) (Value r)) pos]]>
             (batchData st))
          true t (r_memTable st) (dbTxnId st))).
  { unfold buffer_txn. rewrite Hk, (DecodeTxnId_EncodeTxnId t k Ht).
    cbn [mbind outcome_bind bind]. rewrite Hc, Z.eqb_refl. cbn [negb].
    rewrite drop_EncodeTxnId, Hf. reflexivity. }
  unfold updatedFunc. rewrite Hf.
  unfold is_txn_op in Hty.
  destruct (bool_decide_reflect (RecordType_ r = RecordTypeBegin)) as [E|_].
  { rewrite E in Hty. discriminate Hty. }
  destruct (bool_decide (RecordType_ r = RecordTypeTxnPut)); [exact Hb|].
  destruct (bool_decide (RecordType_ r = RecordTypeTxnDelete)); [exact Hb|].
  discriminate Hty.
Qed.

(** The operations of an open transaction are buffered; the index and the
    transaction id of the store are not touched. *)
Lemma apply_records_txn_ops fid t ops : forall off st,
  0 <= t < 2 ^ 32 -> txnFlag st = true -> curTxnId st = t -> Forall (txn_op t) ops ->
  exists off' st',
    apply_records fid off ops st = Ok (off', st') /\
    txnFlag st' = true /\ curTxnId st' = t /\
    r_memTable st' = r_memTable st /\ dbTxnId st' = dbTxnId st /\
    default [] (batchData st' !! t) =
      default [] (batchData st !! t) ++ buffer_of fid off ops.
Proof.
  induction ops as [|r ops IH]; intros off st Ht Hf Hc Hops.
  - exists off, st. cbn [apply_records buffer_of]. rewrite app_nil_r.
    repeat split; assumption.
  - pose proof (Forall_inv Hops) as Hr. pose proof (Forall_inv_tail Hops) as Hops'.
    cbn [apply_records].
    rewrite (updatedFunc_txn_op st r _ t Ht Hf Hc Hr).
    cbn [mbind outcome_bind bind].
    match goal with
    | |- context [apply_records _ ?o _ ?s] =>
        destruct (IH o s Ht eq_refl eq_refl Hops') as
          (off' & st' & Hrun & Hf' & Hc' & Hm' & Hd' & Hb')
    end.
    exists off', st'. split; [exact Hrun|].
    cbn [txnFlag curTxnId r_memTable dbTxnId batchData] in *.
    repeat (split; [assumption|]).
    rewrite Hb', lookup_insert_eq. cbn [default id buffer_of].
    rewrite <- app_assoc. reflexivity.
Qed.

Lemma apply_records_app fid rs1 : forall off rs2 st,
  apply_records fid off (rs1 ++ rs2) st =
    '(off', st') ← apply_records fid off rs1 st; apply_records fid off' rs2 st'.
Proof.
  induction rs1 as [|r rs1 IH]; intros off rs2 st; [reflexivity|].
  cbn [app apply_records].
  destruct (updatedFunc st r _) as [st1| |]; cbn [mbind outcome_bind bind]; [|reflexivity..].
  apply IH.
Qed.

(** Replay of a transaction that has no commit record: whatever the state
    before its begin record, none of its operations reaches the index. *)
Lemma replay_unfinished_txn fid off st t kb ops :
  0 <= t < 2 ^ 32 -> Forall (txn_op t) ops ->
  exists off' st',
    apply_records fid off (NewTxnBegin (EncodeTxnId t kb) :: ops) st = Ok (off', st') /\
    r_memTable st' = r_memTable st /\ dbTxnId st' = dbTxnId st.
Proof.
  intros Ht Hops. cbn [apply_records].
  unfold updatedFunc at 1. cbn [NewTxnBegin newRecord RecordType_ Key Value of_slice].
  rewrite bool_decide_eq_true_2 by reflexivity.
  rewrite (DecodeTxnId_EncodeTxnId t kb Ht). cbn [mbind outcome_bind bind].
  match goal with
  | |- context [apply_records _ ?o _ ?s] =>
      destruct (apply_records_txn_ops fid t ops o s Ht eq_refl eq_refl Hops) as
        (off' & st' & Hrun & _ & _ & Hm & Hd & _)
  end.
  exists off', st'. split; [exact Hrun|]. split; assumption.
Qed.


(** [ReadAll] on a segment of whole records followed by bytes at which the
    parsing loop stops: [updatedFunc] runs on every record in order; the CRC
    trailers are not looked at. *)
Lemma ReadAll_frames w d memTable txnId rcs tail :
  wal_files d !! w_fileId w = Some (frames rcs ++ tail) ->
  Forall (fun rc => within_caps rc.1) rcs ->
  len (frames rcs ++ tail) + MaxRecordLength <= 2 ^ 32 ->
  tail_stops tail ->
  ReadAll w d memTable txnId =
    '(offset, st) ← apply_records (w_fileId w) 0 (map fst rcs) (replay_init memTable txnId);
    Ok (mkWal (w_fileId w) offset, r_memTable st, dbTxnId st).
Proof.
  intros Hf Hc Hlen Hstop. unfold ReadAll, file_of. rewrite Hf.
  cbn [mbind outcome_bind bind].
  pose proof (ReadAll_loop_frames (w_fileId w) tail rcs
                (length (frames rcs ++ tail)) [] (replay_init memTable txnId)
                Hc Hlen Hstop) as Hloop.
  cbn [app] in Hloop. rewrite len_nil in Hloop. rewrite Hloop; [reflexivity|].
  pose proof (length_frames_ge rcs). rewrite length_app.
  destruct tail as [|b tail]; [right; split; [reflexivity | simpl; lia]|].
  left. simpl. lia.
Qed.

(** X11: when the records of a segment end with a transaction that has a
    begin record and operations but no commit record, as after a crash
    during [Commit], and the bytes after them cannot be a record, [ReadAll]
    applies none of the operations of the transaction: it gives the index and
    the transaction id that the records before the transaction give. *)
Theorem X11_replay_ignores_a_transaction_without_commit
    w d memTable txnId rcs tail pre t kb ops off1 st1 :
  wal_files d !! w_fileId w = Some (frames rcs ++ tail) ->
  Forall (fun rc => within_caps rc.1) rcs ->
  len (frames rcs ++ tail) + MaxRecordLength <= 2 ^ 32 ->
  tail_stops tail ->
  map fst rcs = pre ++ NewTxnBegin (EncodeTxnId t kb) :: ops ->
  apply_records (w_fileId w) 0 pre (replay_init memTable txnId) = Ok (off1, st1) ->
  0 <= t < 2 ^ 32 -> Forall (txn_op t) ops ->
  exists off,
    ReadAll w d memTable txnId = Ok (mkWal (w_fileId w) off, r_memTable st1, dbTxnId st1).
Proof.
  intros Hf Hcaps Hlen Hstop Hrcs Hpre Ht Hops.
  rewrite (ReadAll_frames w d memTable txnId rcs tail Hf Hcaps Hlen Hstop).
  rewrite Hrcs, apply_records_app, Hpre. cbn [mbind outcome_bind bind].
  destruct (replay_unfinished_txn (w_fileId w) off1 st1 t kb ops Ht Hops)
    as (off' & st' & Hrun & Hm & Hd).
  rewrite Hrun. cbn [mbind outcome_bind bind]. rewrite Hm, Hd. eexists. reflexivity.
Qed.


Example commit_then_reopen :
  (exists b' bc,
     Commit (batch_ab (fresh_engine conf_1024)) (fresh_engine conf_1024) fresh_dir
       = Ok (b', bc, mkDisk {[ 0 := seg_batch_ab ]} None false)) /\
  (exists bc', NewBitcask conf_1024 (mkDisk {[ 0 := seg_batch_ab ]} None false)
                 = Ok (bc', mkDisk {[ 0 := seg_batch_ab ]} None false) /\
               memTable bc' = [ (["a"]%byte, mkPos 0 26 19); (["b"]%byte, mkPos 0 45 19) ]).
Proof.
  split.
  - eexists _, _. vm_compute. reflexivity.
  - eexists. split; [vm_compute; reflexivity|]. reflexivity.
Qed.

Example crash_before_commit_record :
  exists bc', NewBitcask conf_1024 (mkDisk {[ 0 := seg_batch_ab_cut ]} None false)
                = Ok (bc', mkDisk {[ 0 := seg_batch_ab_cut ]} None false) /\
              memTable bc' = [].
Proof. eexists. split; [vm_compute; reflexivity|]. reflexivity. Qed.

Lemma txn_ab_ops_ok : Forall (txn_op 0) txn_ab_ops.
Proof.
  repeat constructor; eexists; reflexivity.
Qed.

Lemma with_crc_caps (rs : list Record_) :
  Forall within_caps rs -> Forall (fun rc : Record_ * Z => within_caps rc.1) (map with_crc rs).
Proof.
  intros H. induction H as [|r rs Hr _ IH]; constructor; assumption.
Qed.

Lemma X11_replay_ignores_a_transaction_without_commit_witness :
  exists off,
    ReadAll (mkWal 0 0) (mkDisk {[ 0 := seg_batch_ab_torn ]} None false) [] 0
      = Ok (mkWal 0 off, [], 0).
Proof.
  apply (X11_replay_ignores_a_transaction_without_commit
           (mkWal 0 0) (mkDisk {[ 0 := seg_batch_ab_torn ]} None false) [] 0
           (map with_crc (NewTxnBegin (EncodeTxnId 0 txn_begin_key) :: txn_ab_ops))
           (take 5 (Encode (NewTxnCommit (EncodeTxnId 0 txn_commit_key))))
           [] 0 txn_begin_key txn_ab_ops 0 (replay_init [] 0)).
  - vm_compute. reflexivity.
  - apply with_crc_caps. repeat constructor; simpl; intros H; discriminate H.
  - vm_compute. intros H. discriminate H.
  - left. reflexivity.
  - reflexivity.
  - reflexivity.
  - split; [intros H; discriminate H | reflexivity].
  - exact txn_ab_ops_ok.
Defined.


(** * The key comparator *)

Lemma Compare_values a b :
  KeyComparator.Compare a b = -1 \/ KeyComparator.Compare a b = 0 \/
  KeyComparator.Compare a b = 1.
Proof.
  unfold KeyComparator.Compare.
  destruct (len a =? len b); cbn [negb]; [apply bytes_Compare_values|].
  destruct (len a <? len b); auto.
Qed.

Lemma Compare_Less a b :
  KeyComparator.Compare a b = -1 <-> KeyComparator.Less a b = true.
Proof.
  unfold KeyComparator.Compare, KeyComparator.Less.
  destruct (len a =? len b); cbn [negb].
  - rewrite Z.ltb_lt. destruct (bytes_Compare_values a b) as [E|[E|E]]; rewrite E; lia.
  - destruct (len a <? len b); split; intros H; try reflexivity; discriminate.
Qed.

Lemma Compare_Greater a b :
  KeyComparator.Compare a b = 1 <-> KeyComparator.Greater a b = true.
Proof.
  unfold KeyComparator.Compare, KeyComparator.Greater.
  destruct (len a =? len b) eqn:E0; cbn [negb].
  - rewrite Z.gtb_ltb, Z.ltb_lt.
    destruct (bytes_Compare_values a b) as [E|[E|E]]; rewrite E; lia.
  - apply Z.eqb_neq in E0. rewrite Z.gtb_ltb.
    destruct (len a <? len b) eqn:E1; destruct (len b <? len a) eqn:E2;
      rewrite ?Z.ltb_lt, ?Z.ltb_ge in *; split; intros H; try reflexivity;
      try discriminate; lia.
Qed.

Lemma Compare_eq a b : KeyComparator.Compare a b = 0 <-> a = b.
Proof.
  unfold KeyComparator.Compare. split.
  - destruct (len a =? len b); cbn [negb]; [apply bytes_Compare_eq|].
    destruct (len a <? len b); discriminate.
  - intros ->. rewrite Z.eqb_refl. cbn [negb]. apply bytes_Compare_refl.
Qed.

Lemma Compare_antisym a b : KeyComparator.Compare b a = - KeyComparator.Compare a b.
Proof.
  unfold KeyComparator.Compare. rewrite (Z.eqb_sym (len b) (len a)).
  destruct (len a =? len b) eqn:E0; cbn [negb]; [apply bytes_Compare_antisym|].
  apply Z.eqb_neq in E0.
  destruct (len a <? len b) eqn:E1; destruct (len b <? len a) eqn:E2;
    rewrite ?Z.ltb_lt, ?Z.ltb_ge in *; try reflexivity; lia.
Qed.

(** X1: [Compare] returns -1, 0 or 1; it returns -1 exactly when [Less]
    holds, 1 exactly when [Greater] holds and 0 exactly when the two keys are
    the same bytes, which is also when [Equal] holds; swapping the arguments
    negates the result. *)
Theorem X1_Compare_agrees_with_Less_Equal_Greater a b :
  (KeyComparator.Compare a b = -1 \/ KeyComparator.Compare a b = 0 \/
   KeyComparator.Compare a b = 1) /\
  (KeyComparator.Compare a b = -1 <-> KeyComparator.Less a b = true) /\
  (KeyComparator.Compare a b = 1 <-> KeyComparator.Greater a b = true) /\
  (KeyComparator.Compare a b = 0 <-> a = b) /\
  (KeyComparator.Equal a b = true <-> a = b) /\
  KeyComparator.Compare b a = - KeyComparator.Compare a b.
Proof.
  split; [apply Compare_values|]. split; [apply Compare_Less|].
  split; [apply Compare_Greater|]. split; [apply Compare_eq|].
  split; [|apply Compare_antisym].
  rewrite KC_Equal. apply bool_decide_eq_true.
Qed.

(** X2: [Less] is a strict total order on keys in which a shorter key is
    less than a longer one: it is irreflexive and transitive, two keys
    neither of which is less than the other are the same bytes, and
    [Greater a b] is [Less b a]. *)
Theorem X2_Less_is_a_strict_total_order a b c :
  KeyComparator.Less a a = false /\
  (KeyComparator.Less a b = true -> KeyComparator.Less b c = true ->
   KeyComparator.Less a c = true) /\
  (KeyComparator.Less a b = false -> KeyComparator.Less b a = false -> a = b) /\
  (len a < len b -> KeyComparator.Less a b = true) /\
  KeyComparator.Greater a b = KeyComparator.Less b a.
Proof.
  rewrite !KC_Less, KC_Greater.
  split; [apply Less_irrefl|]. split; [apply Less_trans|]. split; [apply Less_total|].
  split; [|reflexivity]. intros H. apply Less_spec. left. exact H.
Qed.

(** X3: [InRange key start end] holds exactly when [key] is not less than
    [start] and [end] is not less than [key]; the bounds are inclusive, and
    no key is in a range whose end is less than its start. [LessOrEqual] and
    [GreaterOrEqual] are the negations of [Greater] and [Less]. *)
Theorem X3_InRange_is_the_closed_interval key start end_ :
  (KeyComparator.InRange key start end_ = true <->
     KeyComparator.Less key start = false /\ KeyComparator.Less end_ key = false) /\
  KeyComparator.InRange key key key = true /\
  (KeyComparator.Less end_ start = true -> KeyComparator.InRange key start end_ = false) /\
  KeyComparator.LessOrEqual key end_ = negb (KeyComparator.Greater key end_) /\
  KeyComparator.GreaterOrEqual key start = negb (KeyComparator.Less key start).
Proof.
  rewrite !KC_Less.
  split; [apply KC_InRange|].
  split; [apply KC_InRange; rewrite Less_irrefl; auto|].
  split.
  - intros H. rewrite KC_Less in H.
    apply not_true_iff_false. rewrite KC_InRange. intros [H1 H2].
    destruct (Less_cases key start) as [[H3| ->]|H3]; [congruence| |].
    + congruence.
    + pose proof (Less_trans _ _ _ H H3) as H4. congruence.
  - unfold KeyComparator.LessOrEqual, KeyComparator.GreaterOrEqual.
    rewrite !KC_Less, !KC_Greater, !KC_Equal. split.
    + destruct (Less_cases key end_) as [[H| ->]|H].
      * rewrite H, (Less_asym _ _ H). reflexivity.
      * rewrite Less_irrefl, bool_decide_eq_true_2 by reflexivity. reflexivity.
      * rewrite H, (Less_asym _ _ H). cbn [orb negb].
        apply bool_decide_eq_false. intros ->. rewrite Less_irrefl in H. discriminate.
    + destruct (Less_cases key start) as [[H| ->]|H].
      * rewrite H, (Less_asym _ _ H). cbn [orb negb].
        apply bool_decide_eq_false. intros ->. rewrite Less_irrefl in H. discriminate.
      * rewrite Less_irrefl, bool_decide_eq_true_2 by reflexivity. reflexivity.
      * rewrite H, (Less_asym _ _ H). reflexivity.
Qed.

(** * The transaction-id prefix *)

Lemma DecodeTxnId_EncodeTxnId_wrap t k :
  DecodeTxnId (EncodeTxnId t k) = Ok (wrap32 t, k).
Proof.
  unfold DecodeTxnId, EncodeTxnId.
  pose proof (len_nonneg k).
  rewrite len_app, len_put_u32be.
  rewrite (proj2 (Z.ltb_ge (4 + len k) 4)) by lia.
  assert (Hl : 4%nat = length (put_u32be t)) by reflexivity.
  rewrite (take_app_length' _ _ 4 Hl), (drop_app_length' _ _ 4 Hl).
  rewrite get_put_u32be_nil. reflexivity.
Qed.

(** X4: [DecodeTxnId] undoes [EncodeTxnId]: it returns the transaction id (a
    [uint32]) and the key that were encoded; the encoding is four bytes
    longer than the key, and decoding fewer than four bytes panics. *)
Theorem X4_txn_id_round_trip t k :
  DecodeTxnId (EncodeTxnId t k) = Ok (wrap32 t, k) /\
  len (EncodeTxnId t k) = 4 + len k /\
  (forall data, len data < 4 -> DecodeTxnId data = Panic).
Proof.
  split; [apply DecodeTxnId_EncodeTxnId_wrap|]. split.
  - unfold EncodeTxnId. rewrite len_app, len_put_u32be. reflexivity.
  - intros data H. unfold DecodeTxnId. rewrite (proj2 (Z.ltb_lt _ _) H). reflexivity.
Qed.

(** * The decoder on damaged input *)

(** X5: when the four bytes after the body of a record are not the CRC-32 of
    the body, [DecodeRecord] reports a CRC mismatch, whatever follows. *)
Theorem X5_DecodeRecord_rejects_a_wrong_crc r c post :
  within_caps r -> len (frame r c ++ post) < 2 ^ 32 ->
  wrap32 c <> ChecksumIEEE (encode_body r) ->
  DecodeRecord (frame r c ++ post) = Err ErrCrcMismatch.
Proof.
  intros Hc Hlen Hne. rewrite (DecodeRecord_frame r c post Hc Hlen).
  destruct (c mod 2 ^ 32 =? ChecksumIEEE (encode_body r)) eqn:E; [|reflexivity].
  apply Z.eqb_eq in E. contradiction.
Qed.

Lemma X5_DecodeRecord_rejects_a_wrong_crc_witness :
  DecodeRecord (frame (NewRecord ["a"]%byte (Some ["1"]%byte)) 0 ++ ["z"]%byte)
    = Err ErrCrcMismatch.
Proof.
  apply (X5_DecodeRecord_rejects_a_wrong_crc
           (NewRecord ["a"]%byte (Some ["1"]%byte)) 0 ["z"]%byte).
  - split; simpl; intros H; discriminate H.
  - reflexivity.
  - vm_compute. intros H. discriminate H.
Defined.

Lemma take_Encode_header r n :
  9 <= n ->
  take (Z.to_nat n) (Encode r) =
    [RecordType_ r] ++ put_u32be (wrap32 (len (Key r)))
      ++ put_u32be (wrap32 (len (Value r)))
      ++ take (Z.to_nat (n - 9))
           (Key r ++ Value r ++ put_u32be (ChecksumIEEE (encode_body r))).
Proof.
  intros Hn.
  assert (E : Encode r =
    ([RecordType_ r] ++ put_u32be (wrap32 (len (Key r)))
       ++ put_u32be (wrap32 (len (Value r))))
      ++ Key r ++ Value r ++ put_u32be (ChecksumIEEE (encode_body r))).
  { unfold Encode, encode_body. simpl. rewrite <- !app_assoc. reflexivity. }
  rewrite E, take_app_ge by (simpl; lia).
  rewrite <- !app_assoc. do 3 f_equal. f_equal. simpl. lia.
Qed.

(** X6: no proper prefix of an encoded record decodes: with fewer than nine
    bytes [DecodeRecord] reports that the data is too short, and with nine
    bytes or more that the record is incomplete. *)
Theorem X6_DecodeRecord_rejects_a_truncated_record r n :
  within_caps r -> 0 <= n < len (Encode r) ->
  DecodeRecord (take (Z.to_nat n) (Encode r)) =
    Err (if n <? 9 then ErrTooShort else ErrIncomplete).
Proof.
  intros Hc Hn. pose proof (len_Encode r) as Hl.
  assert (Hlen : len (take (Z.to_nat n) (Encode r)) = n).
  { unfold len in *. rewrite length_take. lia. }
  unfold DecodeRecord. rewrite Hlen.
  destruct (n <? 9) eqn:E9; [reflexivity|]. apply Z.ltb_ge in E9.
  rewrite (take_Encode_header r n E9).
  set (tl := take (Z.to_nat (n - 9)) _).
  caps.
  assert (Hk : slice ([RecordType_ r] ++ put_u32be (wrap32 (len (Key r)))
                        ++ put_u32be (wrap32 (len (Value r))) ++ tl) 1 5
               = Ok (put_u32be (wrap32 (len (Key r)))))
    by (apply slice_app_mid'; rewrite ?len_put_u32be; reflexivity).
  assert (Hv : slice ([RecordType_ r] ++ put_u32be (wrap32 (len (Key r)))
                        ++ put_u32be (wrap32 (len (Value r))) ++ tl) 5 9
               = Ok (put_u32be (wrap32 (len (Value r))))).
  { rewrite (app_assoc [RecordType_ r]).
    apply slice_app_mid'; rewrite ?len_app, ?len_put_u32be; reflexivity. }
  rewrite Hk, Hv. cbn [mbind outcome_bind bind].
  rewrite !get_put_u32be_nil.
  pose proof (len_nonneg (Key r)). pose proof (len_nonneg (Value r)).
  rewrite !(wrap32_small' (len (Key r))), !(wrap32_small' (len (Value r))) by lia.
  replace ((len (Key r) >? MaxKeyLength) || (len (Value r) >? MaxValueLength)) with false
    by (symmetry; rewrite orb_false_iff, !Z.gtb_ltb, !Z.ltb_ge; lia).
  rewrite (wrap32_small' n), (wrap32_small' (9 + len (Key r) + len (Value r) + 4)) by lia.
  rewrite (proj2 (Z.ltb_lt n _)) by lia. reflexivity.
Qed.

Lemma X6_DecodeRecord_rejects_a_truncated_record_witness :
  DecodeRecord (take 14 (Encode (NewRecord ["a"]%byte (Some ["1"]%byte))))
    = Err ErrIncomplete.
Proof.
  apply (X6_DecodeRecord_rejects_a_truncated_record
           (NewRecord ["a"]%byte (Some ["1"]%byte)) 14).
  - split; simpl; intros H; discriminate H.
  - split; [intros H; discriminate H | reflexivity].
Defined.

(** X7: [DecodeRecord] reads one record from the front of its input: bytes
    that follow the CRC of the record do not change what it returns. *)
Theorem X7_DecodeRecord_ignores_what_follows_the_record r post :
  within_caps r -> len (Encode r ++ post) < 2 ^ 32 ->
  DecodeRecord (Encode r ++ post) = DecodeRecord (Encode r).
Proof.
  intros Hc Hlen. rewrite (DecodeRecord_Encode r Hc), Encode_frame.
  rewrite Encode_frame in Hlen.
  rewrite (DecodeRecord_frame r _ post Hc Hlen).
  pose proof (ChecksumIEEE_range (encode_body r)) as Hr.
  rewrite Z.mod_small, Z.eqb_refl by exact Hr. reflexivity.
Qed.

Lemma X7_DecodeRecord_ignores_what_follows_the_record_witness :
  DecodeRecord (Encode (NewRecord ["a"]%byte (Some ["1"]%byte)) ++ ["z"; "z"]%byte)
    = DecodeRecord (Encode (NewRecord ["a"]%byte (Some ["1"]%byte))).
Proof.
  apply (X7_DecodeRecord_ignores_what_follows_the_record
           (NewRecord ["a"]%byte (Some ["1"]%byte)) ["z"; "z"]%byte).
  - split; simpl; intros H; discriminate H.
  - reflexivity.
Defined.

(** * The index under any sequence of its operations *)

Lemma sorted_index_step tr o : sorted tr -> sorted (index_step tr o).
Proof. destruct o; [apply sorted_Put | apply sorted_Delete]. Qed.

Lemma sorted_fold_index_step ops : forall tr,
  sorted tr -> sorted (fold_left index_step ops tr).
Proof.
  induction ops as [|o ops IH]; intros tr Hs; [exact Hs|].
  apply IH, sorted_index_step, Hs.
Qed.

Lemma sorted_index_run ops : sorted (index_run ops).
Proof. apply sorted_fold_index_step. exact I. Qed.

Lemma Get_fold_index_step ops k : forall tr,
  sorted tr ->
  BTreeIndex.Get k (fold_left index_step ops tr) = index_last ops k (BTreeIndex.Get k tr).
Proof.
  induction ops as [|o ops IH]; intros tr Hs; [reflexivity|].
  cbn [fold_left index_last]. rewrite (IH _ (sorted_index_step tr o Hs)).
  destruct o as [key pos|key]; cbn [index_step];
    destruct (bool_decide_reflect (key = k)) as [->|Hne].
  - rewrite Get_Put_eq. reflexivity.
  - rewrite Get_Put_ne by assumption. reflexivity.
  - rewrite Get_Delete_eq by assumption. reflexivity.
  - rewrite Get_Delete_ne by assumption. reflexivity.
Qed.

Lemma filter_true {A} (l : list A) : List.filter (fun _ => true) l = l.
Proof. induction l as [|e l IH]; [reflexivity|]. cbn [List.filter]. rewrite IH. reflexivity. Qed.

Lemma Get_index_run ops k : BTreeIndex.Get k (index_run ops) = index_last ops k None.
Proof. exact (Get_fold_index_step ops k [] I). Qed.

(** X8: after any sequence of [Put] and [Delete] on a new index, [Get k]
    returns the position of the last [Put] of [k], or nil when there is none
    or a [Delete] of [k] follows it; the index holds one entry per such key
    and no other, and a key is found only under exactly the same bytes. *)
Theorem X8_index_Get_returns_the_last_Put ops k :
  BTreeIndex.Get k (index_run ops) = index_last ops k None /\
  (forall p, (k, p) ∈ index_run ops <-> index_last ops k None = Some p) /\
  NoDup (map fst (index_run ops)).
Proof.
  pose proof (sorted_index_run ops) as Hs.
  pose proof (Get_index_run ops k) as HG.
  split; [exact HG|]. split.
  - intros p. rewrite <- HG. symmetry. apply Get_Some_elem, Hs.
  - apply ascending_NoDup.
    pose proof (ascending_filter (fun _ => true) (index_run ops) Hs) as Ha.
    rewrite filter_true in Ha. exact Ha.
Qed.

Lemma Foreach_app {S} (fn : S -> bytes -> Pos -> S * outcome unit) pre : forall st post,
  BTreeIndex.Foreach fn st (pre ++ post) =
    match BTreeIndex.Foreach fn st pre with
    | (st', Ok _) => BTreeIndex.Foreach fn st' post
    | r => r
    end.
Proof.
  induction pre as [|[k p] pre IH]; intros st post; [reflexivity|].
  cbn [app BTreeIndex.Foreach].
  destruct (fn st k p) as [st' [u|e|]]; [apply IH | reflexivity..].
Qed.

Lemma Foreach_total {S} (f : S -> bytes -> Pos -> S) tr : forall st,
  BTreeIndex.Foreach (fun st k p => (f st k p, Ok tt)) st tr =
    (fold_left (fun st e => f st e.1 e.2) tr st, Ok tt).
Proof.
  induction tr as [|[k p] tr IH]; intros st; [reflexivity|].
  cbn [BTreeIndex.Foreach fold_left]. apply IH.
Qed.

Lemma fold_collect_keys tr : forall (acc : list bytes),
  fold_left (fun st (e : bytes * Pos) => st ++ [e.1]) tr acc = acc ++ map fst tr.
Proof.
  induction tr as [|e tr IH]; intros acc; cbn [fold_left map].
  - rewrite app_nil_r. reflexivity.
  - rewrite IH, <- app_assoc. reflexivity.
Qed.

(** X9: [Foreach] calls the function on the entries in strictly ascending
    key order, once per key of the index; when a call returns an error the
    traversal stops there and returns that error, with no call on the
    entries that follow. *)
Theorem X9_Foreach_is_ascending_and_stops_at_the_first_error ops :
  (exists visited,
     BTreeIndex.Foreach (fun st k _ => (st ++ [k], Ok tt)) [] (index_run ops)
       = (visited, Ok tt) /\
     ascending visited /\
     forall k, k ∈ visited <-> index_last ops k None <> None) /\
  (forall (S : Type) (fn : S -> bytes -> Pos -> S * outcome unit) st pre k p post st1 st2 e,
     index_run ops = pre ++ (k, p) :: post ->
     BTreeIndex.Foreach fn st pre = (st1, Ok tt) ->
     fn st1 k p = (st2, Err e) ->
     BTreeIndex.Foreach fn st (index_run ops) = (st2, Err e)).
Proof.
  pose proof (sorted_index_run ops) as Hs. split.
  - exists (map fst (index_run ops)). split; [|split].
    + rewrite (Foreach_total (fun st k _ => st ++ [k])).
      rewrite fold_collect_keys. reflexivity.
    + pose proof (ascending_filter (fun _ => true) (index_run ops) Hs) as Ha.
      rewrite filter_true in Ha. exact Ha.
    + intros k. rewrite <- (Get_index_run ops k).
      rewrite list_elem_of_fmap. split.
      * intros ([k' p] & -> & Hin). apply (Get_Some_elem _ _ _ Hs) in Hin.
        cbn [fst]. rewrite Hin. discriminate.
      * intros Hne. destruct (BTreeIndex.Get k (index_run ops)) as [p|] eqn:E;
          [|contradiction].
        exists (k, p). split; [reflexivity|]. apply (Get_Some_elem _ _ _ Hs), E.
  - intros S fn st pre k p post st1 st2 e Hsplit Hpre Hfail.
    rewrite Hsplit, Foreach_app, Hpre. cbn [BTreeIndex.Foreach]. rewrite Hfail. reflexivity.
Qed.

Lemma Scan_all_greater startKey endKey tr k :
  klt endKey k -> Forall (fun e' => klt k e'.1) tr ->
  map (fun e => mkData e.1 e.2) (List.filter (in_range startKey endKey) tr) = [].
Proof.
  intros Hk HF. induction tr as [|[k1 p1] tr IH]; [reflexivity|].
  inversion_clear HF as [|? ? H1 H2]. cbn [List.filter fst] in *.
  unfold in_range at 1. cbn [fst].
  replace (KeyComparator.InRange k1 startKey endKey) with false; [apply IH, H2|].
  symmetry. apply not_true_iff_false. rewrite KC_InRange. intros [_ H].
  pose proof (Less_trans _ _ _ Hk H1) as H3. congruence.
Qed.

Lemma BTreeIndex_Scan_filter startKey endKey tr :
  sorted tr ->
  BTreeIndex_Scan startKey endKey tr =
    map (fun e => mkData e.1 e.2) (List.filter (in_range startKey endKey) tr).
Proof.
  induction tr as [|[k p] tr IH]; intros Hs; [reflexivity|].
  destruct Hs as [HF Hs]. cbn [BTreeIndex_Scan List.filter].
  unfold in_range at 1. cbn [fst]. rewrite KC_Greater.
  destruct (KeyComparator.InRange k startKey endKey) eqn:Ein.
  - apply KC_InRange in Ein. destruct Ein as [_ E2]. rewrite E2.
    cbn [map app fst snd]. rewrite (IH Hs). reflexivity.
  - destruct (BTreeIndex.Less endKey k) eqn:E2.
    + symmetry. apply (Scan_all_greater startKey endKey tr k E2). exact HF.
    + cbn [app]. apply IH, Hs.
Qed.

(** X10: on an index built by any sequence of [Put] and [Delete],
    [BTreeIndex.Scan] returns exactly the entries whose key lies between
    [startKey] and [endKey], bounds included, in ascending key order;
    stopping at the first key beyond [endKey] loses nothing. *)
Theorem X10_index_Scan_returns_the_entries_in_range ops startKey endKey :
  BTreeIndex_Scan startKey endKey (index_run ops) =
    map (fun e => mkData e.1 e.2)
        (List.filter (in_range startKey endKey) (index_run ops)) /\
  ascending (map d_Key (BTreeIndex_Scan startKey endKey (index_run ops))) /\
  (forall k p, mkData k p ∈ BTreeIndex_Scan startKey endKey (index_run ops) <->
     KeyComparator.InRange k startKey endKey = true /\ index_last ops k None = Some p).
Proof.
  pose proof (sorted_index_run ops) as Hs.
  pose proof (BTreeIndex_Scan_filter startKey endKey _ Hs) as HS.
  split; [exact HS|]. rewrite HS. split.
  - rewrite map_map. cbn [d_Key].
    apply (ascending_filter (in_range startKey endKey) _ Hs).
  - intros k p. rewrite <- (Get_index_run ops k).
    rewrite (Get_Some_elem _ _ _ Hs), list_elem_of_In, in_map_iff. split.
    + intros ([k' p'] & Heq & Hin). cbn [fst snd] in Heq. injection Heq as -> ->.
      apply filter_In in Hin. destruct Hin as [Hin Hr].
      split; [exact Hr | apply list_elem_of_In, Hin].
    + intros [Hr Hin]. exists (k, p). split; [reflexivity|].
      apply filter_In. split; [apply list_elem_of_In, Hin | exact Hr].
Qed.

(** * The hint snapshot *)

Lemma LoadHint_loop_entry fuel e rest m fid :
  entry_u32 e ->
  LoadHint_loop (S fuel) (hint_entry e ++ rest) m fid =
    LoadHint_loop fuel rest (BTreeIndex.Put e.1 e.2 m)
      (if FileId e.2 >=? fid then wrap32 (FileId e.2 + 1) else fid).
Proof.
  intros (Hk & Hf & Ho & Hl). destruct e as [k [f o l]]. cbn [fst snd FileId Offset Length] in *.
  pose proof (len_nonneg k) as Hk0. pose proof (len_nonneg rest) as Hr0.
  unfold hint_entry. cbn [fst snd FileId Offset Length].
  rewrite <- !app_assoc.
  set (all := put_u32be (wrap32 (len k)) ++ put_u32be f ++ put_u32be o ++ put_u32be l
                ++ k ++ rest).
  assert (Hlen : len all = 16 + len k + len rest).
  { unfold all. rewrite !len_app, !len_put_u32be. lia. }
  assert (H4 : forall v, 4%nat = length (put_u32be v)) by reflexivity.
  assert (T0 : take 4 all = put_u32be (wrap32 (len k)))
    by exact (take_app_length' _ _ 4 (H4 _)).
  assert (D4 : drop 4 all = put_u32be f ++ put_u32be o ++ put_u32be l ++ k ++ rest)
    by exact (drop_app_length' _ _ 4 (H4 _)).
  assert (D8 : drop 8 all = put_u32be o ++ put_u32be l ++ k ++ rest).
  { change 8%nat with (4 + 4)%nat. rewrite <- drop_drop, D4.
    exact (drop_app_length' _ _ 4 (H4 _)). }
  assert (D12 : drop 12 all = put_u32be l ++ k ++ rest).
  { change 12%nat with (8 + 4)%nat. rewrite <- drop_drop, D8.
    exact (drop_app_length' _ _ 4 (H4 _)). }
  assert (D16 : drop 16 all = k ++ rest).
  { change 16%nat with (12 + 4)%nat. rewrite <- drop_drop, D12.
    exact (drop_app_length' _ _ 4 (H4 _)). }
  assert (Hne : exists b all', all = b :: all').
  { unfold all, put_u32be at 1. cbn [app]. eauto. }
  destruct Hne as (b & all' & Hall).
  cbn [LoadHint_loop]. rewrite Hall. cbn match. rewrite <- Hall.
  rewrite (proj2 (Z.ltb_ge (len all) 16)) by lia.
  rewrite T0, D4, D8, D12, D16.
  rewrite (take_app_length' _ _ 4 (H4 f)), (take_app_length' _ _ 4 (H4 o)),
    (take_app_length' _ _ 4 (H4 l)).
  rewrite !get_put_u32be_nil.
  rewrite (wrap32_small (wrap32 (len k))) by apply wrap32_range.
  rewrite (wrap32_small (len k)), (wrap32_small f), (wrap32_small o), (wrap32_small l) by lia.
  rewrite (proj2 (Z.ltb_ge (len (k ++ rest)) (len k))) by (rewrite len_app; lia).
  assert (Hkn : Z.to_nat (len k) = length k) by (unfold len; lia).
  rewrite Hkn, take_app_length, drop_app_length. reflexivity.
Qed.

Lemma LoadHint_loop_entries es : forall fuel m fid,
  Forall entry_u32 es -> (length es <= fuel)%nat ->
  LoadHint_loop fuel (concat (map hint_entry es)) m fid =
    Ok (fold_left (fun m e => BTreeIndex.Put e.1 e.2 m) es m, hint_fileId es fid).
Proof.
  induction es as [|e es IH]; intros fuel m fid HF Hfuel.
  - destruct fuel; reflexivity.
  - inversion_clear HF as [|? ? He HF']. cbn [length] in Hfuel.
    destruct fuel as [|fuel]; [lia|].
    cbn [map concat]. rewrite (LoadHint_loop_entry fuel e _ m fid He).
    rewrite IH by (auto; lia). reflexivity.
Qed.

Lemma Put_last k p tr :
  Forall (fun e' => klt e'.1 k) tr -> BTreeIndex.Put k p tr = tr ++ [(k, p)].
Proof.
  induction tr as [|[k1 p1] tr IH]; intros HF; [reflexivity|].
  inversion_clear HF as [|? ? H1 H2]. cbn [fst] in H1.
  cbn [BTreeIndex.Put app]. rewrite (Less_asym _ _ H1), H1, (IH H2). reflexivity.
Qed.

Lemma sorted_snoc tr e :
  sorted (tr ++ [e]) -> sorted tr /\ Forall (fun e' => klt e'.1 e.1) tr.
Proof.
  induction tr as [|e1 tr IH]; cbn [app sorted]; intros H; [split; [exact I|constructor]|].
  destruct H as [HF Hs]. destruct (IH Hs) as [Hs' HF'].
  apply Forall_app in HF. destruct HF as [HF1 HF2].
  split; [split; assumption|]. constructor; [|exact HF'].
  inversion_clear HF2 as [|? ? H1 _]. exact H1.
Qed.

(** Putting the entries of an ascending index into a new index, in their
    order, rebuilds it. *)
Lemma fold_Put_sorted tr :
  sorted tr -> fold_left (fun m e => BTreeIndex.Put e.1 e.2 m) tr [] = tr.
Proof.
  induction tr as [|e tr IH] using rev_ind; intros Hs; [reflexivity|].
  destruct (sorted_snoc _ _ Hs) as [Hs' HF].
  rewrite fold_left_app. cbn [fold_left]. rewrite (IH Hs').
  destruct e as [k p]. apply Put_last, HF.
Qed.

Lemma length_concat_hint es : (length es <= length (concat (map hint_entry es)))%nat.
Proof.
  induction es as [|e es IH]; [cbn; lia|].
  cbn [map concat length]. rewrite length_app. unfold hint_entry at 1.
  rewrite length_app, length_put_u32be. lia.
Qed.

(** [LoadHint] on a hint file that holds the transaction id [t] and the
    entries [es]. *)
Lemma LoadHint_entries bc0 d t es :
  hint_file d = Some (put_u32be t ++ concat (map hint_entry es)) ->
  Forall entry_u32 es -> 0 <= t < 2 ^ 32 ->
  LoadHint_ bc0 d =
    Ok (mkBitcask (conf bc0) (activeWal bc0) (oldWal bc0)
          (fold_left (fun m e => BTreeIndex.Put e.1 e.2 m) es (memTable bc0))
          (hint_fileId es (fileId bc0)) (fileIds bc0) t (flock bc0)).
Proof.
  intros Hh HF Ht. unfold LoadHint_. rewrite Hh.
  set (body := concat (map hint_entry es)).
  assert (H4 : 4%nat = length (put_u32be t)) by reflexivity.
  pose proof (len_nonneg body).
  rewrite (proj2 (Z.ltb_ge (len (put_u32be t ++ body)) 4))
    by (rewrite len_app, len_put_u32be; lia).
  rewrite (take_app_length' _ _ 4 H4), (drop_app_length' _ _ 4 H4).
  rewrite get_put_u32be_nil, (wrap32_small t) by exact Ht.
  unfold body. rewrite LoadHint_loop_entries; [reflexivity | exact HF |].
  rewrite length_app, length_put_u32be. pose proof (length_concat_hint es). lia.
Qed.

(** X14: the hint file that [Hint] writes restores the index: [LoadHint] on
    an engine with an empty index reads back the transaction id and exactly
    the entries of the index that was written, in the same order, and leaves
    every other field but the file id as it was. *)
Theorem X14_LoadHint_restores_what_Hint_wrote bc d bc0 :
  sorted (memTable bc) -> Forall entry_u32 (memTable bc) ->
  0 <= txnId bc < 2 ^ 32 -> memTable bc0 = [] ->
  LoadHint_ bc0 (Hint bc d) =
    Ok (mkBitcask (conf bc0) (activeWal bc0) (oldWal bc0) (memTable bc)
          (hint_fileId (memTable bc) (fileId bc0)) (fileIds bc0) (txnId bc) (flock bc0)).
Proof.
  intros Hs HF Ht Hm0.
  rewrite (LoadHint_entries bc0 (Hint bc d) (txnId bc) (memTable bc)); [| reflexivity | exact HF | exact Ht].
  rewrite Hm0, (fold_Put_sorted _ Hs). reflexivity.
Qed.

Lemma X14_LoadHint_restores_what_Hint_wrote_witness :
  LoadHint_ (mkBitcask conf_1024 None ∅ [] 0 [] 0 flock_New) (Hint engine_two_entries fresh_dir)
    = Ok (mkBitcask conf_1024 None ∅
            [ (["a"]%byte, mkPos 0 0 15); (["b"; "c"]%byte, mkPos 1 0 15) ] 2 [] 7 flock_New).
Proof.
  apply (X14_LoadHint_restores_what_Hint_wrote engine_two_entries fresh_dir
           (mkBitcask conf_1024 None ∅ [] 0 [] 0 flock_New)).
  - cbn. repeat split; repeat constructor.
  - repeat constructor; cbn; try (intros H; discriminate H); reflexivity.
  - split; [intros H; discriminate H | reflexivity].
  - reflexivity.
Defined.

(** * Replay of segments of Put and Delete records *)

(** ** The order in which the segments are read *)

Lemma sort_insert_Permutation (x : Z) l : sort_insert Z.ltb x l ≡ₚ x :: l.
Proof.
  induction l as [|y l IH]; [reflexivity|]. cbn [sort_insert].
  destruct (y <? x); [|reflexivity]. rewrite IH. apply Permutation_swap.
Qed.

Lemma sort_Slice_Permutation (l : list Z) : sort_Slice Z.ltb l ≡ₚ l.
Proof.
  induction l as [|x l IH]; [reflexivity|]. unfold sort_Slice in *. cbn [foldr].
  rewrite sort_insert_Permutation, IH. reflexivity.
Qed.

Lemma sort_insert_ids_ascending (x : Z) l :
  ids_ascending l -> ids_ascending (sort_insert Z.ltb x l).
Proof.
  induction l as [|y l IH]; intros Hs; cbn [sort_insert].
  - split; [constructor | exact I].
  - destruct Hs as [HF Hs].
    destruct (y <? x) eqn:E.
    + apply Z.ltb_lt in E. split; [|apply IH, Hs].
      rewrite sort_insert_Permutation. constructor; [lia | exact HF].
    + apply Z.ltb_ge in E. split; [|split; assumption].
      constructor; [exact E|]. eapply Forall_impl; [exact HF|]. intros z Hz. cbn in *. lia.
Qed.

Lemma sort_Slice_ids_ascending (l : list Z) : ids_ascending (sort_Slice Z.ltb l).
Proof.
  induction l as [|x l IH]; [exact I|]. unfold sort_Slice in *. cbn [foldr].
  apply sort_insert_ids_ascending, IH.
Qed.

Lemma seqZ_ids_ascending m (n : nat) : ids_ascending (seqZ m (Z.of_nat n)).
Proof.
  revert m. induction n as [|n IH]; intros m; [exact I|].
  rewrite seqZ_cons by lia. split.
  - apply Forall_seqZ. intros z Hz. lia.
  - replace (Z.pred (Z.of_nat (S n))) with (Z.of_nat n) by lia. apply IH.
Qed.

(** Two ascending lists of ids with the same elements are the same list. *)
Lemma ids_ascending_unique l1 : forall l2,
  ids_ascending l1 -> ids_ascending l2 -> l1 ≡ₚ l2 -> l1 = l2.
Proof.
  induction l1 as [|x l1 IH]; intros l2 H1 H2 HP.
  - apply Permutation_nil_l in HP. congruence.
  - destruct l2 as [|y l2]; [apply Permutation_nil_r in HP; discriminate|].
    destruct H1 as [HF1 H1], H2 as [HF2 H2].
    assert (Hxy : x = y).
    { assert (Hx : x ∈ y :: l2) by (rewrite <- HP; left).
      assert (Hy : y ∈ x :: l1) by (rewrite HP; left).
      apply elem_of_cons in Hx. apply elem_of_cons in Hy.
      destruct Hx as [Hx|Hx]; [exact Hx|]. destruct Hy as [Hy|Hy]; [symmetry; exact Hy|].
      rewrite Forall_forall in HF1, HF2.
      pose proof (HF1 _ Hy). pose proof (HF2 _ Hx). lia. }
    subst y. f_equal. apply IH; [exact H1 | exact H2 |].
    apply (Permutation_cons_inv HP).
Qed.

(** Sorting the ids of the segments [0 .. n - 1], listed in any order. *)
Lemma sort_Slice_ids (l : list Z) (n : nat) :
  NoDup l -> (forall id, id ∈ l <-> 0 <= id < Z.of_nat n) ->
  sort_Slice Z.ltb l = seqZ 0 (Z.of_nat n).
Proof.
  intros Hnd Hel.
  apply ids_ascending_unique;
    [apply sort_Slice_ids_ascending | apply seqZ_ids_ascending |].
  rewrite sort_Slice_Permutation.
  apply NoDup_Permutation; [exact Hnd | apply NoDup_seqZ |].
  intros id. rewrite Hel, elem_of_seqZ. lia.
Qed.

(** ** One segment *)

Lemma frames_with_crc rs : frames (map with_crc rs) = seg_bytes rs.
Proof.
  unfold frames, seg_bytes. induction rs as [|r rs IH]; [reflexivity|].
  cbn [map concat]. rewrite IH, Encode_frame. reflexivity.
Qed.

Lemma updatedFunc_plain st r pos :
  plain r -> txnFlag st = false ->
  updatedFunc st r pos =
    Ok (mkReplay (batchData st) false (curTxnId st)
          (if bool_decide (RecordType_ r = RecordTypeDelete)
           then BTreeIndex.Delete (Key r) (r_memTable st)
           else BTreeIndex.Put (Key r) pos (r_memTable st))
          (dbTxnId st)).
Proof.
  intros [_ Hty] Hf. unfold updatedFunc. rewrite Hf.
  destruct Hty as [E|E]; rewrite E.
  - rewrite (bool_decide_eq_false_2 (RecordTypePut = RecordTypeBegin)) by discriminate.
    rewrite (bool_decide_eq_false_2 (RecordTypePut = RecordTypeDelete)) by discriminate.
    rewrite bool_decide_eq_true_2 by reflexivity. reflexivity.
  - rewrite (bool_decide_eq_false_2 (RecordTypeDelete = RecordTypeBegin)) by discriminate.
    rewrite bool_decide_eq_true_2 by reflexivity. reflexivity.
Qed.

Lemma apply_records_plain fid rs : forall off st,
  Forall plain rs -> txnFlag st = false ->
  exists off',
    apply_records fid off rs st =
      Ok (off', mkReplay (batchData st) false (curTxnId st)
                  (replay_seg fid off rs (r_memTable st)) (dbTxnId st)).
Proof.
  induction rs as [|r rs IH]; intros off st HF Hf.
  - exists off. cbn [apply_records replay_seg]. rewrite <- Hf. destruct st; reflexivity.
  - inversion_clear HF as [|? ? Hr HF']. cbn [apply_records replay_seg].
    rewrite (updatedFunc_plain st r _ Hr Hf). cbn [mbind outcome_bind bind].
    match goal with
    | |- context [apply_records _ ?o _ ?s] => destruct (IH o s HF' eq_refl) as [off' Hrun]
    end.
    exists off'. rewrite Hrun. reflexivity.
Qed.

(** [ReadAll] on a segment of Put and Delete records. *)
Lemma ReadAll_plain w d m t rs :
  wal_files d !! w_fileId w = Some (seg_bytes rs) ->
  Forall plain rs -> len (seg_bytes rs) + MaxRecordLength <= 2 ^ 32 ->
  exists off,
    ReadAll w d m t = Ok (mkWal (w_fileId w) off, replay_seg (w_fileId w) 0 rs m, t).
Proof.
  intros Hf HF Hlen.
  assert (Hcaps : Forall (fun rc : Record_ * Z => within_caps rc.1) (map with_crc rs)).
  { apply with_crc_caps. eapply Forall_impl; [exact HF|]. intros r [Hr _]. exact Hr. }
  rewrite (ReadAll_frames w d m t (map with_crc rs) []).
  - rewrite map_map. cbn [with_crc fst]. rewrite map_id.
    destruct (apply_records_plain (w_fileId w) rs 0 (replay_init m t) HF eq_refl)
      as [off Hrun].
    rewrite Hrun. cbn [mbind outcome_bind bind]. exists off. reflexivity.
  - rewrite app_nil_r, frames_with_crc. exact Hf.
  - exact Hcaps.
  - rewrite app_nil_r, frames_with_crc. exact Hlen.
  - apply tail_stops_nil.
Qed.

(** ** All the segments *)

Lemma segs_at_tail d base rs segs :
  segs_at d base (rs :: segs) -> segs_at d (base + 1) segs.
Proof.
  intros H i rs' Hi. specialize (H (S i) rs' Hi).
  replace (base + 1 + Z.of_nat i) with (base + Z.of_nat (S i)) by lia. exact H.
Qed.

Lemma loadWalFiles_loop_step bc d fid rs rest :
  LoadHint (conf bc) = true ->
  wal_files d !! fid = Some (seg_bytes rs) -> Forall plain rs -> seg_fits rs ->
  loadWalFiles_loop (fid :: rest) bc d =
    let curWal := mkWal fid (len (seg_bytes rs)) in
    let m := replay_seg fid 0 rs (memTable bc) in
    loadWalFiles_loop rest
      match rest with
      | [] => mkBitcask (conf bc) (Some curWal) (oldWal bc) m fid (fileIds bc)
                (txnId bc) (flock bc)
      | _ => mkBitcask (conf bc) (activeWal bc) (<[fid := curWal]> (oldWal bc)) m
                (fileId bc) (fileIds bc) (txnId bc) (flock bc)
      end d.
Proof.
  intros Hh Hf HF Hfit. cbn [loadWalFiles_loop]. unfold NewWal. rewrite Hf, Hh.
  destruct (ReadAll_plain (mkWal fid 0) d (memTable bc) (txnId bc) rs Hf HF Hfit)
    as [off Hread].
  cbn [w_fileId] in Hread. rewrite Hread. cbn [mbind outcome_bind bind].
  unfold UpdateOffset. cbn [w_fileId]. rewrite Hf.
  rewrite (wrap32_small (len (seg_bytes rs))).
  - reflexivity.
  - pose proof (len_nonneg (seg_bytes rs)). pose proof MaxRecordLength_value.
    unfold seg_fits in Hfit. lia.
Qed.

Lemma loadWalFiles_loop_plain segs : forall base bc d,
  segs <> [] -> LoadHint (conf bc) = true ->
  segs_at d base segs -> Forall (Forall plain) segs -> Forall seg_fits segs ->
  exists bc',
    loadWalFiles_loop (seqZ base (Z.of_nat (length segs))) bc d = Ok (bc', d) /\
    memTable bc' = replay_segs base segs (memTable bc) /\
    txnId bc' = txnId bc /\ conf bc' = conf bc /\ fileIds bc' = fileIds bc /\
    flock bc' = flock bc /\
    fileId bc' = base + Z.of_nat (length segs) - 1 /\
    (exists rs, last segs = Some rs /\
                activeWal bc' = Some (mkWal (fileId bc') (len (seg_bytes rs)))) /\
    (forall j, base <= j < base + Z.of_nat (length segs) - 1 ->
       exists w, oldWal bc' !! j = Some w /\ w_fileId w = j) /\
    (forall j, ~ (base <= j < base + Z.of_nat (length segs) - 1) ->
       oldWal bc' !! j = oldWal bc !! j).
Proof.
  induction segs as [|rs segs IH]; intros base bc d Hne Hh Hat HP Hfit; [contradiction|].
  inversion_clear HP as [|? ? HPrs HP']. inversion_clear Hfit as [|? ? Hfrs Hfit'].
  assert (Hf : wal_files d !! base = Some (seg_bytes rs)).
  { specialize (Hat 0%nat rs eq_refl). rewrite Z.add_0_r in Hat. exact Hat. }
  rewrite seqZ_cons by (cbn [length]; lia).
  replace (Z.pred (Z.of_nat (length (rs :: segs)))) with (Z.of_nat (length segs))
    by (cbn [length]; lia).
  rewrite (loadWalFiles_loop_step bc d base rs _ Hh Hf HPrs Hfrs). cbv zeta.
  destruct segs as [|rs2 segs].
  - cbn [length Z.of_nat seqZ]. rewrite seqZ_nil by lia. cbn [loadWalFiles_loop].
    eexists. split; [reflexivity|].
    cbn [memTable txnId conf fileIds flock fileId activeWal oldWal replay_segs length last].
    split; [reflexivity|]. split; [reflexivity|]. split; [reflexivity|].
    split; [reflexivity|]. split; [reflexivity|]. split; [lia|].
    split; [exists rs; split; reflexivity|].
    split; [intros j Hj; lia | reflexivity].
  - set (bc1 := mkBitcask (conf bc) (activeWal bc)
                  (<[base := mkWal base (len (seg_bytes rs))]> (oldWal bc))
                  (replay_seg base 0 rs (memTable bc)) (fileId bc) (fileIds bc)
                  (txnId bc) (flock bc)).
    assert (Hrest : seqZ (Z.succ base) (Z.of_nat (length (rs2 :: segs)))
                    = Z.succ base :: seqZ (Z.succ (Z.succ base)) (Z.of_nat (length segs))).
    { rewrite seqZ_cons by (cbn [length]; lia). f_equal. f_equal. cbn [length]. lia. }
    rewrite Hrest. fold bc1. rewrite <- Hrest.
    destruct (IH (Z.succ base) bc1 d ltac:(discriminate) Hh
                (segs_at_tail _ _ _ _ Hat) HP' Hfit')
      as (bc' & Hrun & Hm & Ht & Hc & Hids & Hfl & Hfid & (rsl & Hlast & Ha) & Hold & Hother).
    exists bc'. split; [exact Hrun|].
    cbn [memTable txnId conf fileIds flock bc1] in *.
    split; [exact Hm|]. split; [exact Ht|]. split; [exact Hc|]. split; [exact Hids|].
    split; [exact Hfl|].
    split; [rewrite Hfid; cbn [length]; lia|].
    split; [exists rsl; split; [exact Hlast | exact Ha]|].
    split.
    + intros j Hj. destruct (decide (j = base)) as [->|Hjb].
      * rewrite Hother by lia. cbn [oldWal bc1]. rewrite lookup_insert_eq.
        eexists. split; reflexivity.
      * apply Hold. cbn [length] in *. lia.
    + intros j Hj. rewrite Hother by (cbn [length] in *; lia).
      cbn [oldWal bc1]. apply lookup_insert_ne. cbn [length] in *. lia.
Qed.

(** ** Open *)

Lemma elem_of_ReadDir d id : id ∈ ReadDir d <-> is_Some (wal_files d !! id).
Proof.
  unfold ReadDir. rewrite list_elem_of_fmap. split.
  - intros ([id' f] & -> & Hin). apply elem_of_map_to_list in Hin. cbn [fst]. eauto.
  - intros [f Hf]. exists (id, f). split; [reflexivity|]. apply elem_of_map_to_list, Hf.
Qed.

Lemma ReadDir_sorted d (n : nat) :
  (forall id, is_Some (wal_files d !! id) <-> 0 <= id < Z.of_nat n) ->
  sort_Slice Z.ltb (ReadDir d) = seqZ 0 (Z.of_nat n).
Proof.
  intros H. apply sort_Slice_ids.
  - apply NoDup_fst_map_to_list.
  - intros id. rewrite elem_of_ReadDir. apply H.
Qed.

(** [NewBitcask] on a directory whose segments hold Put and Delete records,
    after a hint phase that gave [bc0]. *)
Lemma open_plain c d segs bc0 :
  LoadHint c = true -> segs <> [] ->
  (forall id, is_Some (wal_files d !! id) <-> 0 <= id < Z.of_nat (length segs)) ->
  segs_at d 0 segs -> Forall (Forall plain) segs -> Forall seg_fits segs ->
  LoadHint_ (mkBitcask c None ∅ [] 0 [] 0 flock_New) d = Ok bc0 ->
  conf bc0 = c -> oldWal bc0 = ∅ -> fileIds bc0 = [] ->
  exists bc',
    NewBitcask c d = Ok (bc', d) /\
    memTable bc' = replay_segs 0 segs (memTable bc0) /\
    conf bc' = c /\
    txnId bc' = (if txnId bc0 =? 0 then txnId bc0 else wrap32 (txnId bc0 + 1)) /\
    fileId bc' = Z.of_nat (length segs) - 1 /\
    (exists rs, last segs = Some rs /\
                activeWal bc' = Some (mkWal (fileId bc') (len (seg_bytes rs)))) /\
    (forall j, 0 <= j < Z.of_nat (length segs) - 1 ->
       exists w, oldWal bc' !! j = Some w /\ w_fileId w = j) /\
    (forall j w, oldWal bc' !! j = Some w ->
       0 <= j < Z.of_nat (length segs) - 1 /\ w_fileId w = j).
Proof.
  intros Hh Hne Hfiles Hat HP Hfit Hhint Hc0 Hold0 Hids0.
  unfold NewBitcask. rewrite Hhint. cbn [mbind outcome_bind bind].
  unfold loadWalFiles. rewrite Hids0. cbn [app].
  pose proof (ReadDir_sorted d (length segs) Hfiles) as Hsort.
  destruct (ReadDir d) as [|id0 ids] eqn:Ed.
  { exfalso. assert (H0 : 0 ∈ ReadDir d).
    { apply elem_of_ReadDir, Hfiles. destruct segs; [contradiction|]. cbn [length]. lia. }
    rewrite Ed in H0. inversion H0. }
  rewrite Hsort.
  set (bc1 := mkBitcask (conf bc0) (activeWal bc0) (oldWal bc0) (memTable bc0) (fileId bc0)
                (seqZ 0 (Z.of_nat (length segs))) (txnId bc0) (flock bc0)).
  destruct (loadWalFiles_loop_plain segs 0 bc1 d Hne) as
    (bc' & Hrun & Hm & Ht & Hc & Hids & Hfl & Hfid & (rsl & Hlast & Ha) & Hold & Hother);
    [cbn [conf bc1]; rewrite Hc0; exact Hh | exact Hat | exact HP | exact Hfit |].
  rewrite Hrun. cbn [mbind outcome_bind bind]. rewrite Ha.
  cbn [memTable conf txnId oldWal bc1] in *.
  eexists. split; [reflexivity|].
  destruct (txnId bc' =? 0) eqn:Et; cbn [negb];
    cbn [memTable conf txnId fileId activeWal oldWal set_txnId].
  - rewrite <- Ht, Et.
    split; [exact Hm|]. split; [congruence|]. split; [reflexivity|].
    split; [rewrite Hfid; lia|]. split; [exists rsl; split; [exact Hlast | exact Ha]|].
    split.
    + intros j Hj. apply Hold. lia.
    + intros j w Hw. destruct (decide (0 <= j < 0 + Z.of_nat (length segs) - 1)) as [Hj|Hj].
      * split; [lia|]. destruct (Hold j Hj) as (w' & Hw' & Hid). congruence.
      * rewrite (Hother j Hj), Hold0, lookup_empty in Hw. discriminate.
  - rewrite <- Ht, Et.
    split; [exact Hm|]. split; [congruence|]. split; [rewrite Ht; reflexivity|].
    split; [rewrite Hfid; lia|]. split; [exists rsl; split; [exact Hlast | exact Ha]|].
    split.
    + intros j Hj. apply Hold. lia.
    + intros j w Hw. destruct (decide (0 <= j < 0 + Z.of_nat (length segs) - 1)) as [Hj|Hj].
      * split; [lia|]. destruct (Hold j Hj) as (w' & Hw' & Hid). congruence.
      * rewrite (Hother j Hj), Hold0, lookup_empty in Hw. discriminate.
Qed.

(** * What the segments replay to, through the operations of the engine *)

Lemma replays_put R T M L k pos v :
  replays R T M L -> sorted M ->
  replays (fun m0 => BTreeIndex.Put k pos (R m0)) (fun x => T x \/ x = k)
    (BTreeIndex.Put k pos M) (<[k := Some v]> L).
Proof.
  intros [H1 H2 H3 H4] Hs. constructor.
  - intros m0 Hm0. apply sorted_Put, H1, Hm0.
  - intros m0 k0 Hm0 Hk0. unfold live. destruct (decide (k = k0)) as [<-|Hne].
    + rewrite lookup_insert_eq, !Get_Put_eq. reflexivity.
    + rewrite lookup_insert_ne, !Get_Put_ne by auto.
      destruct Hk0 as [Hk0|Hk0]; [|congruence]. apply H2; assumption.
  - intros m0 k0 Hm0 Hk0. destruct (decide (k = k0)) as [<-|Hne].
    + exfalso. apply Hk0. right. reflexivity.
    + rewrite Get_Put_ne by auto. apply H3; [exact Hm0|]. intros Hc. apply Hk0. left. exact Hc.
  - intros k0 Hk0. destruct (decide (k = k0)) as [<-|Hne]; [right; reflexivity|].
    rewrite lookup_insert_ne in Hk0 by exact Hne. left. apply H4, Hk0.
Qed.

Lemma replays_put_nil R T M L k pos :
  replays R T M L -> sorted M ->
  replays (fun m0 => BTreeIndex.Delete k (R m0)) (fun x => T x \/ x = k)
    (BTreeIndex.Put k pos M) (<[k := None]> L).
Proof.
  intros [H1 H2 H3 H4] Hs. constructor.
  - intros m0 Hm0. apply sorted_Delete, H1, Hm0.
  - intros m0 k0 Hm0 Hk0. unfold live. destruct (decide (k = k0)) as [<-|Hne].
    + rewrite lookup_insert_eq, Get_Delete_eq by (apply H1, Hm0). reflexivity.
    + rewrite lookup_insert_ne, Get_Delete_ne, Get_Put_ne by auto.
      destruct Hk0 as [Hk0|Hk0]; [|congruence]. apply H2; assumption.
  - intros m0 k0 Hm0 Hk0. destruct (decide (k = k0)) as [<-|Hne].
    + exfalso. apply Hk0. right. reflexivity.
    + rewrite Get_Delete_ne by auto. apply H3; [exact Hm0|]. intros Hc. apply Hk0.
      left. exact Hc.
  - intros k0 Hk0. destruct (decide (k = k0)) as [<-|Hne]; [right; reflexivity|].
    rewrite lookup_insert_ne in Hk0 by exact Hne. left. apply H4, Hk0.
Qed.

Lemma replays_delete R T M L k :
  replays R T M L -> sorted M ->
  replays (fun m0 => BTreeIndex.Delete k (R m0)) (fun x => T x \/ x = k)
    (BTreeIndex.Delete k M) (delete k L).
Proof.
  intros [H1 H2 H3 H4] Hs. constructor.
  - intros m0 Hm0. apply sorted_Delete, H1, Hm0.
  - intros m0 k0 Hm0 Hk0. unfold live. destruct (decide (k = k0)) as [<-|Hne].
    + rewrite lookup_delete_eq, Get_Delete_eq by (apply H1, Hm0). reflexivity.
    + rewrite lookup_delete_ne, !Get_Delete_ne by auto.
      destruct Hk0 as [Hk0|Hk0]; [|congruence]. apply H2; assumption.
  - intros m0 k0 Hm0 Hk0. destruct (decide (k = k0)) as [<-|Hne].
    + exfalso. apply Hk0. right. reflexivity.
    + rewrite Get_Delete_ne by auto. apply H3; [exact Hm0|]. intros Hc. apply Hk0.
      left. exact Hc.
  - intros k0 Hk0. destruct (decide (k = k0)) as [<-|Hne]; [right; reflexivity|].
    rewrite lookup_delete_ne in Hk0 by exact Hne. left. apply H4, Hk0.
Qed.

Lemma replays_delete_absent R T M L k :
  replays R T M L -> BTreeIndex.Get k M = None -> replays R T M (delete k L).
Proof.
  intros [H1 H2 H3 H4] Hnone. constructor.
  - exact H1.
  - intros m0 k0 Hm0 Hk0. rewrite (H2 m0 k0 Hm0 Hk0). unfold live.
    destruct (decide (k = k0)) as [<-|Hne].
    + rewrite lookup_delete_eq, Hnone. destruct (L !! k) as [[v|]|]; reflexivity.
    + rewrite lookup_delete_ne by exact Hne. reflexivity.
  - exact H3.
  - intros k0 Hk0. destruct (decide (k = k0)) as [<-|Hne].
    + rewrite lookup_delete_eq in Hk0. contradiction.
    + rewrite lookup_delete_ne in Hk0 by exact Hne. apply H4, Hk0.
Qed.

Lemma replays_ext R R' T T' M L :
  replays R T M L -> (forall m0, R' m0 = R m0) -> (forall k, T' k <-> T k) ->
  replays R' T' M L.
Proof.
  intros [H1 H2 H3 H4] HR HT. constructor.
  - intros m0 Hm0. rewrite HR. apply H1, Hm0.
  - intros m0 k Hm0 Hk. rewrite HR. apply H2; [exact Hm0 | apply HT, Hk].
  - intros m0 k Hm0 Hk. rewrite HR. apply H3; [exact Hm0|]. intros Hc. apply Hk, HT, Hc.
  - intros k Hk. apply HT, H4, Hk.
Qed.

(** ** Appending to the segments *)

Lemma seg_bytes_snoc rs r : seg_bytes (rs ++ [r]) = seg_bytes rs ++ Encode r.
Proof.
  unfold seg_bytes. rewrite map_app, concat_app. cbn [map concat].
  rewrite app_nil_r. reflexivity.
Qed.

Lemma replay_seg_snoc fid rs r : forall off m,
  replay_seg fid off (rs ++ [r]) m =
    plain_step fid (off + len (seg_bytes rs)) r (replay_seg fid off rs m).
Proof.
  induction rs as [|r1 rs IH]; intros off m.
  - cbn [app replay_seg seg_bytes map concat]. rewrite len_nil, Z.add_0_r. reflexivity.
  - cbn [app replay_seg]. rewrite IH. f_equal.
    unfold seg_bytes. cbn [map concat]. rewrite len_app, len_Encode. lia.
Qed.

Lemma replay_segs_snoc segs cur : forall base m,
  replay_segs base (segs ++ [cur]) m =
    replay_seg (base + Z.of_nat (length segs)) 0 cur (replay_segs base segs m).
Proof.
  induction segs as [|rs segs IH]; intros base m.
  - cbn [app replay_segs length Z.of_nat]. rewrite Z.add_0_r. reflexivity.
  - cbn [app replay_segs]. rewrite IH. f_equal. cbn [length]. lia.
Qed.

(** The segments after a record went to the active one. *)
Lemma replay_append old cur r m0 :
  replay_segs 0 (old ++ [cur ++ [r]]) m0 =
    plain_step (Z.of_nat (length old)) (len (seg_bytes cur)) r
      (replay_segs 0 (old ++ [cur]) m0).
Proof.
  rewrite !replay_segs_snoc, replay_seg_snoc, !Z.add_0_l. reflexivity.
Qed.

(** The segments after a rotation and a record in the new segment. *)
Lemma replay_rotate old cur r m0 :
  replay_segs 0 ((old ++ [cur]) ++ [[r]]) m0 =
    plain_step (Z.of_nat (length old) + 1) 0 r (replay_segs 0 (old ++ [cur]) m0).
Proof.
  rewrite (replay_segs_snoc (old ++ [cur])). cbn [replay_seg].
  rewrite length_app. cbn [length]. f_equal. lia.
Qed.

(** ** The segments on disk *)

Lemma touched_snoc segs r k :
  touched (segs ++ [[r]]) k <-> touched segs k \/ k = Key r.
Proof.
  unfold touched. rewrite concat_app, map_app. cbn [concat map app].
  rewrite elem_of_app, list_elem_of_singleton. reflexivity.
Qed.

Lemma touched_append old cur r k :
  touched (old ++ [cur ++ [r]]) k <-> touched (old ++ [cur]) k \/ k = Key r.
Proof.
  unfold touched. rewrite !concat_app. cbn [concat]. rewrite !app_nil_r, !map_app.
  cbn [map]. rewrite !elem_of_app, list_elem_of_singleton. tauto.
Qed.

Lemma plain_len r : plain r -> len (Encode r) <= MaxRecordLength /\ 0 <= len (Encode r).
Proof.
  intros [[Hk Hv] _]. rewrite len_Encode. unfold MaxRecordLength.
  pose proof (len_nonneg (Key r)). pose proof (len_nonneg (Value r)). lia.
Qed.

Lemma append_stored c old cur bc d n rec :
  wf bc d n -> stored c old cur bc d -> conf bc = c -> conf_ok c -> n + 1 < 2 ^ 32 ->
  plain rec ->
  exists bc1 d1 aw aw' d2 pos old' cur',
    tryRotate bc d = Ok (bc1, d1) /\ activeWal bc1 = Some aw /\
    write aw d1 rec = Ok (aw', d2, pos) /\ memTable bc1 = memTable bc /\
    (forall m, stored c old' cur' (set_memTable m (set_activeWal aw' bc1)) d2) /\
    (forall m0, replay_segs 0 (old' ++ [cur']) m0 =
       if bool_decide (RecordType_ rec = RecordTypeDelete)
       then BTreeIndex.Delete (Key rec) (replay_segs 0 (old ++ [cur]) m0)
       else BTreeIndex.Put (Key rec) pos (replay_segs 0 (old ++ [cur]) m0)) /\
    (forall k, touched (old' ++ [cur']) k <-> touched (old ++ [cur]) k \/ k = Key rec).
Proof.
  intros Hwf [Hlen Hfiles Hplain Hsize Htxn Hhint] Hc [Hc0 Hc1] Hn Hrec.
  pose proof Hwf as [(aw & f & Ha & Hid & Hf & Hoff) Hfid Hwfiles Hold _].
  destruct (plain_len rec Hrec) as [Hrl Hrl0].
  pose proof MaxRecordLength_value as HM.
  assert (Hcur : wal_files d !! fileId bc = Some (seg_bytes cur)).
  { rewrite <- Hlen. rewrite <- (Z.add_0_l (Z.of_nat (length old))).
    apply Hfiles. apply list_lookup_middle. reflexivity. }
  rewrite Hf in Hcur. injection Hcur as ->.
  assert (Hsz : len (seg_bytes cur) <= MaxFileSize c + MaxRecordLength).
  { rewrite Forall_app in Hsize. destruct Hsize as [_ Hs].
    inversion_clear Hs as [|? ? Hs1 _]. exact Hs1. }
  pose proof (len_nonneg (seg_bytes cur)) as Hn0.
  unfold tryRotate. rewrite Ha. cbn [deref mbind outcome_bind bind]. unfold Size.
  rewrite Hoff, Hc.
  destruct (len (seg_bytes cur) <? MaxFileSize c) eqn:E.
  - (* the record goes to the active segment *)
    apply Z.ltb_lt in E.
    exists bc, d, aw. unfold write, file_of. rewrite Hid, Hf.
    cbn [mbind outcome_bind bind]. rewrite Hoff.
    rewrite (wrap32_small' (len (Encode rec))) by lia.
    rewrite (wrap32_small' (len (seg_bytes cur) + len (Encode rec))) by lia.
    eexists _, _, _, old, (cur ++ [rec]).
    split; [reflexivity|]. split; [exact Ha|]. split; [reflexivity|].
    split; [reflexivity|]. split; [|split].
    + intros m. constructor;
        cbn [fileId txnId set_memTable set_activeWal wal_files hint_file set_wal_files].
      * exact Hlen.
      * intros i rs Hi. unfold segs_at in Hfiles. cbn [wal_files set_wal_files].
        destruct (decide (i = length old)) as [->|Hne].
        -- rewrite list_lookup_middle in Hi by reflexivity. injection Hi as <-.
           rewrite Z.add_0_l, Hlen, lookup_insert_eq, seg_bytes_snoc. reflexivity.
        -- assert (Hi' : (old ++ [cur]) !! i = Some rs).
           { destruct (decide (i < length old)%nat) as [Hlt|Hge].
             - rewrite lookup_app_l in Hi |- * by exact Hlt. exact Hi.
             - rewrite lookup_app_r in Hi by lia.
               destruct (i - length old)%nat as [|j] eqn:Ej; [lia|].
               cbn in Hi. rewrite ?lookup_nil in Hi. discriminate Hi. }
           rewrite lookup_insert_ne by lia. apply Hfiles, Hi'.
      * rewrite Forall_app in *. destruct Hplain as [Hp1 Hp2].
        split; [exact Hp1|]. inversion_clear Hp2 as [|? ? Hp3 _].
        constructor; [|constructor]. rewrite Forall_app. split; [exact Hp3|].
        constructor; [exact Hrec | constructor].
      * rewrite Forall_app in *. destruct Hsize as [Hs1 _].
        split; [exact Hs1|]. constructor; [|constructor].
        rewrite seg_bytes_snoc, len_app. lia.
      * exact Htxn.
      * exact Hhint.
    + intros m0. rewrite replay_append. unfold plain_step.
      rewrite <- Hlen, <- len_Encode. reflexivity.
    + intros k. apply touched_append.
  - (* rotation: the record opens a new segment *)
    apply Z.ltb_ge in E.
    unfold mustRotate. rewrite Ha. cbn [deref mbind outcome_bind bind].
    assert (Hw : wrap32 (fileId bc + 1) = fileId bc + 1) by (apply wrap32_small; lia).
    rewrite Hw.
    assert (Hnone : wal_files d !! (fileId bc + 1) = None).
    { destruct (wal_files d !! (fileId bc + 1)) eqn:E1; [|reflexivity].
      assert (Hs : is_Some (wal_files d !! (fileId bc + 1))) by (rewrite E1; eauto).
      apply Hwfiles in Hs. lia. }
    unfold NewWal. rewrite Hnone.
    eexists _, _, (mkWal (fileId bc + 1) 0), _, _, _, (old ++ [cur]), [rec].
    split; [reflexivity|]. split; [reflexivity|].
    split.
    { unfold write, file_of. cbn [w_fileId w_offset wal_files set_wal_files].
      rewrite lookup_insert_eq. cbn [mbind outcome_bind bind app].
      rewrite (wrap32_small' (len (Encode rec))) by lia.
      rewrite Z.add_0_l, (wrap32_small' (len (Encode rec))) by lia.
      reflexivity. }
    split; [reflexivity|]. split; [|split].
    + intros m. constructor;
        cbn [fileId txnId set_memTable set_activeWal wal_files hint_file set_wal_files].
      * rewrite length_app. cbn [length]. lia.
      * intros i rs Hi. cbn [wal_files set_wal_files].
        destruct (decide (i = length (old ++ [cur]))) as [->|Hne].
        -- rewrite list_lookup_middle in Hi by reflexivity. injection Hi as <-.
           rewrite length_app. cbn [length].
           replace (0 + Z.of_nat (length old + 1)) with (fileId bc + 1) by lia.
           rewrite lookup_insert_eq. unfold seg_bytes. cbn [map concat].
           rewrite app_nil_r. reflexivity.
        -- assert (Hi' : (old ++ [cur]) !! i = Some rs).
           { destruct (decide (i < length (old ++ [cur]))%nat) as [Hlt|Hge].
             - rewrite lookup_app_l in Hi by exact Hlt. exact Hi.
             - rewrite lookup_app_r in Hi by lia.
               destruct (i - length (old ++ [cur]))%nat as [|j] eqn:Ej; [lia|].
               cbn in Hi. rewrite ?lookup_nil in Hi. discriminate Hi. }
           pose proof (lookup_lt_Some _ _ _ Hi') as Hlt.
           rewrite length_app in Hlt. cbn [length] in Hlt.
           rewrite !lookup_insert_ne by lia. apply Hfiles, Hi'.
      * rewrite Forall_app. split; [exact Hplain|].
        constructor; [|constructor]. constructor; [exact Hrec | constructor].
      * rewrite Forall_app. split; [exact Hsize|]. constructor; [|constructor].
        unfold seg_bytes. cbn [map concat]. rewrite app_nil_r. lia.
      * exact Htxn.
      * exact Hhint.
    + intros m0. rewrite replay_rotate. unfold plain_step.
      rewrite <- Hlen, <- len_Encode. reflexivity.
    + intros k. apply touched_snoc.
Qed.

(** * Reopening a store *)

Lemma conf_replay_ok_conf_ok c : conf_replay_ok c -> conf_ok c.
Proof. intros [H1 H2]. pose proof MaxRecordLength_value. split; lia. Qed.

Lemma plain_NewRecord k v :
  len k <= MaxKeyLength -> len (of_slice v) <= MaxValueLength -> plain (NewRecord k v).
Proof.
  intros Hk Hv. split; [apply within_caps_NewRecord; assumption|].
  destruct v; [left | right]; reflexivity.
Qed.

Lemma Put_durable c bc d n L k v bc' d' :
  wf bc d n -> durable c bc d L -> conf bc = c -> conf_ok c -> n + 1 < 2 ^ 32 ->
  len k <= MaxKeyLength -> len (of_slice v) <= MaxValueLength ->
  Put bc d (Some k) v = Ok (bc', d') -> durable c bc' d' (<[k := v]> L).
Proof.
  intros Hwf (old & cur & Hst & Hrp) Hc Hok Hn Hk Hv HP.
  destruct (append_stored c old cur bc d n (NewRecord k v) Hwf Hst Hc Hok Hn
              (plain_NewRecord k v Hk Hv))
    as (bc1 & d1 & aw & aw' & d2 & pos & old' & cur' & Ht & Ha & Hw & Hmt & Hst' & HR & HT).
  unfold Put in HP. rewrite Ht in HP. cbn [mbind outcome_bind bind] in HP.
  rewrite Ha in HP. cbn [deref mbind outcome_bind bind] in HP.
  unfold Write in HP. rewrite Hw in HP. cbn [mbind outcome_bind bind] in HP.
  injection HP as <- <-.
  exists old', cur'. split; [apply Hst'|].
  cbn [memTable set_memTable]. rewrite Hmt.
  pose proof (wf_sorted _ _ _ Hwf) as Hs.
  destruct v as [x|].
  - eapply replays_ext; [exact (replays_put _ _ _ _ k pos x Hrp Hs) | | ].
    + intros m0. rewrite HR. reflexivity.
    + intros k0. rewrite HT. reflexivity.
  - eapply replays_ext; [exact (replays_put_nil _ _ _ _ k pos Hrp Hs) | | ].
    + intros m0. rewrite HR. reflexivity.
    + intros k0. rewrite HT. reflexivity.
Qed.

Lemma Delete_durable c bc d n L key bc' d' :
  wf bc d n -> models bc d L -> durable c bc d L -> conf bc = c -> conf_ok c ->
  n + 1 < 2 ^ 32 ->
  Delete bc d key = Ok (bc', d') -> durable c bc' d' (delete (of_slice key) L).
Proof.
  intros Hwf Hm (old & cur & Hst & Hrp) Hc Hok Hn HD.
  set (k := of_slice key) in *. unfold Delete in HD. fold k in HD.
  pose proof (Hm k) as Hmk.
  destruct (BTreeIndex.Get k (memTable bc)) as [pos0|] eqn:EG.
  - destruct (L !! k) as [ov|] eqn:EL; [|discriminate].
    destruct Hmk as (Hk & _ & _).
    assert (Hp : plain (NewRecord k None)).
    { apply plain_NewRecord; [exact Hk|]. cbv. discriminate. }
    destruct (append_stored c old cur bc d n (NewRecord k None) Hwf Hst Hc Hok Hn Hp)
      as (bc1 & d1 & aw & aw' & d2 & pos & old' & cur' & Ht & Ha & Hw & Hmt & Hst' & HR & HT).
    rewrite Ht in HD. cbn [mbind outcome_bind bind] in HD.
    rewrite Ha in HD. cbn [deref mbind outcome_bind bind] in HD.
    unfold Write in HD. rewrite Hw in HD. cbn [mbind outcome_bind bind] in HD.
    injection HD as <- <-.
    exists old', cur'. split; [apply Hst'|].
    cbn [memTable set_memTable]. rewrite Hmt.
    eapply replays_ext;
      [exact (replays_delete _ _ _ _ k Hrp (wf_sorted _ _ _ Hwf)) | | ].
    + intros m0. rewrite HR. reflexivity.
    + intros k0. rewrite HT. reflexivity.
  - injection HD as <- <-. exists old, cur. split; [exact Hst|].
    apply replays_delete_absent; assumption.
Qed.

Lemma exec_durable c bc d n L o bc' d' :
  wf bc d n -> models bc d L -> durable c bc d L -> conf bc = c -> conf_ok c ->
  n + 1 < 2 ^ 32 -> valid_op o ->
  exec o bc d = Ok (bc', d') -> durable c bc' d' (model_step L o).
Proof.
  intros Hwf Hm Hd Hc Hok Hn Hv He. destruct o as [key value|key]; cbn [exec model_step] in *.
  - destruct Hv as (Hk & Hkl & Hvl). destruct key as [k|]; [|contradiction].
    eapply Put_durable; eassumption.
  - eapply Delete_durable; eassumption.
Qed.

Lemma run_durable ops : forall bc d n L,
  wf bc d n -> models bc d L -> durable (conf bc) bc d L -> conf_ok (conf bc) ->
  n + len ops < 2 ^ 32 -> Forall valid_op ops ->
  exists bc' d',
    run ops bc d = Ok (bc', d') /\ wf bc' d' (n + len ops) /\
    models bc' d' (fold_left model_step ops L) /\ conf bc' = conf bc /\
    durable (conf bc) bc' d' (fold_left model_step ops L).
Proof.
  induction ops as [|o ops IH]; intros bc d n L Hwf Hm Hd Hc Hn Hv.
  - exists bc, d. rewrite len_nil, Z.add_0_r. cbn [run fold_left]. auto.
  - rewrite len_cons in *. pose proof (len_nonneg ops).
    inversion_clear Hv as [|? ? Hv1 Hv2].
    destruct (exec_step bc d n L o Hwf Hm Hc ltac:(lia) Hv1)
      as (bc1 & d1 & He & Hwf1 & Hm1 & Hc1).
    pose proof (exec_durable (conf bc) bc d n L o bc1 d1 Hwf Hm Hd eq_refl Hc
                  ltac:(lia) Hv1 He) as Hd1.
    rewrite <- Hc1 in Hc, Hd1.
    destruct (IH bc1 d1 (n + 1) (model_step L o) Hwf1 Hm1 Hd1 Hc ltac:(lia) Hv2)
      as (bc2 & d2 & Hr & Hwf2 & Hm2 & Hc2 & Hd2).
    exists bc2, d2. cbn [run fold_left]. rewrite He. cbn [mbind outcome_bind bind].
    split; [exact Hr|]. split; [|split; [exact Hm2 | split; [congruence|]]].
    + replace (n + (1 + len ops)) with (n + 1 + len ops) by lia. exact Hwf2.
    + rewrite <- Hc1. exact Hd2.
Qed.

Lemma fresh_durable c : conf_ok c -> durable c (fresh_engine c) fresh_dir ∅.
Proof.
  intros [Hc0 Hc1]. exists [], []. split.
  - constructor; cbn [app length fresh_engine fresh_dir fileId txnId hint_file].
    + reflexivity.
    + intros i rs Hi. destruct i as [|i]; [|cbn in Hi; rewrite ?lookup_nil in Hi; discriminate Hi].
      injection Hi as <-. change (0 + Z.of_nat 0) with 0.
      unfold fresh_dir. cbn [wal_files]. rewrite lookup_insert_eq. reflexivity.
    + repeat constructor.
    + constructor; [|constructor]. unfold seg_bytes. cbn [map concat]. rewrite len_nil.
      pose proof MaxRecordLength_value. lia.
    + reflexivity.
    + reflexivity.
  - constructor.
    + intros m0 H. exact H.
    + intros m0 k _ Hk. unfold touched in Hk. cbn in Hk. inversion Hk.
    + reflexivity.
    + intros k Hk. rewrite lookup_empty in Hk. contradiction.
Qed.

Lemma ReadPos_ext w w' d d' pos :
  w_fileId w = w_fileId w' -> wal_files d = wal_files d' ->
  ReadPos w d pos = ReadPos w' d' pos.
Proof. intros H1 H2. unfold ReadPos, file_of. rewrite H1, H2. reflexivity. Qed.

Lemma targetWal_fileId bc d n pos w :
  wf bc d n -> targetWal bc pos = Ok w ->
  w_fileId w = FileId pos /\ 0 <= FileId pos <= fileId bc.
Proof.
  intros [(aw & f & Ha & Hid & Hf & Hoff) Hfid Hfiles Hold _] Ht. unfold targetWal in Ht.
  destruct (FileId pos =? fileId bc) eqn:E.
  - apply Z.eqb_eq in E. rewrite Ha in Ht. injection Ht as <-. lia.
  - destruct (oldWal bc !! FileId pos) as [w'|] eqn:El; [|discriminate].
    injection Ht as <-. destruct (Hold _ _ El) as (H1 & H2 & H3).
    apply Hfiles in H3. lia.
Qed.

(** An engine whose index agrees with the live part of the running one and
    whose writers cover the same segments reads the same values. *)
Lemma Get_reopened bc d n L bc' d' k :
  wf bc d n -> models bc d L -> wal_files d' = wal_files d ->
  (forall k, BTreeIndex.Get k (memTable bc') = live L (memTable bc) k) ->
  fileId bc' = fileId bc ->
  (exists aw, activeWal bc' = Some aw /\ w_fileId aw = fileId bc') ->
  (forall j, 0 <= j < fileId bc -> exists w, oldWal bc' !! j = Some w /\ w_fileId w = j) ->
  Get bc' d' (Some k) = Get bc d (Some k).
Proof.
  intros Hwf Hm Hfiles Hidx Hfid (aw' & Ha' & Hid') Hold'.
  rewrite (Get_models bc d L k Hm). unfold Get, get. rewrite Hidx. unfold live.
  specialize (Hm k). destruct (L !! k) as [[v|]|]; [|reflexivity..].
  destruct Hm as (_ & _ & pos & HG & w & Ht & Hr). rewrite HG.
  destruct (targetWal_fileId bc d n pos w Hwf Ht) as [Hw Hrange].
  assert (Ht' : exists w', targetWal bc' pos = Ok w' /\ w_fileId w' = FileId pos).
  { unfold targetWal. rewrite Hfid. destruct (FileId pos =? fileId bc) eqn:E.
    - apply Z.eqb_eq in E. rewrite Ha'. exists aw'. split; [reflexivity|]. congruence.
    - apply Z.eqb_neq in E. destruct (Hold' (FileId pos)) as (w' & Hw' & Hwid); [lia|].
      rewrite Hw'. exists w'. split; [reflexivity | exact Hwid]. }
  destruct Ht' as (w' & Ht' & Hw'). rewrite Ht'. cbn [mbind outcome_bind bind].
  rewrite (ReadPos_ext w' w d' d pos) by congruence. rewrite Hr. reflexivity.
Qed.

Lemma stored_files c old cur bc d n :
  wf bc d n -> stored c old cur bc d ->
  forall id, is_Some (wal_files d !! id) <-> 0 <= id < Z.of_nat (length (old ++ [cur])).
Proof.
  intros Hwf Hst id. rewrite length_app. cbn [length]. split.
  - intros H. apply (wf_files _ _ _ Hwf) in H. rewrite <- (sd_len _ _ _ _ _ Hst) in H. lia.
  - intros H.
    destruct (lookup_lt_is_Some_2 (old ++ [cur]) (Z.to_nat id)) as [rs Hrs].
    { rewrite length_app. cbn [length]. lia. }
    pose proof (sd_files _ _ _ _ _ Hst _ _ Hrs) as Hf.
    replace (0 + Z.of_nat (Z.to_nat id)) with id in Hf by lia. rewrite Hf. eauto.
Qed.

Lemma stored_fits c old cur bc d :
  conf_replay_ok c -> stored c old cur bc d -> Forall seg_fits (old ++ [cur]).
Proof.
  intros [_ Hc] Hst. eapply Forall_impl; [exact (sd_size _ _ _ _ _ Hst)|].
  intros rs Hrs. unfold seg_fits. cbn in *. lia.
Qed.

(** [NewBitcask] on the directory of a running engine, possibly with a hint
    file added: what [Get] returns is what it returned before. *)
Lemma reopen c bc d n L d' bc0 :
  wf bc d n -> models bc d L -> durable c bc d L -> conf bc = c ->
  conf_replay_ok c -> LoadHint c = true ->
  wal_files d' = wal_files d ->
  LoadHint_ (mkBitcask c None ∅ [] 0 [] 0 flock_New) d' = Ok bc0 ->
  conf bc0 = c -> oldWal bc0 = ∅ -> fileIds bc0 = [] -> sorted (memTable bc0) ->
  (forall k, L !! k = None -> BTreeIndex.Get k (memTable bc0) = None) ->
  exists bc',
    NewBitcask c d' = Ok (bc', d') /\
    forall k, Get bc' d' (Some k) = Get bc d (Some k).
Proof.
  intros Hwf Hm (old & cur & Hst & Hrp) Hc Hok Hh Hfiles Hhint Hc0 Hold0 Hids0 Hs0 Hnone.
  destruct (open_plain c d' (old ++ [cur]) bc0 Hh) as
    (bc' & Hopen & Hmt & Hc' & _ & Hfid & (rsl & _ & Ha) & Hold & _); try assumption.
  - intros H. apply app_eq_nil in H. destruct H as [_ H]. discriminate H.
  - intros id. rewrite Hfiles. apply (stored_files c old cur bc d n Hwf Hst).
  - intros i rs Hi. rewrite Hfiles. apply (sd_files _ _ _ _ _ Hst), Hi.
  - apply (sd_plain _ _ _ _ _ Hst).
  - apply (stored_fits c old cur bc d Hok Hst).
  - exists bc'. split; [exact Hopen|]. intros k.
    assert (Hfid' : fileId bc' = fileId bc).
    { rewrite Hfid, length_app, <- (sd_len _ _ _ _ _ Hst). cbn [length]. lia. }
    apply (Get_reopened bc d n L bc' d' k Hwf Hm Hfiles).
    + intros k0. rewrite Hmt.
      destruct (decide (k0 ∈ map Key (concat (old ++ [cur])))) as [Ht|Ht];
        fold (touched (old ++ [cur]) k0) in Ht.
      * apply (rp_touched _ _ _ _ Hrp); assumption.
      * rewrite (rp_other _ _ _ _ Hrp) by assumption.
        assert (HL : L !! k0 = None).
        { destruct (L !! k0) eqn:E; [|reflexivity]. exfalso. apply Ht.
          apply (rp_keys _ _ _ _ Hrp). rewrite E. discriminate. }
        rewrite (Hnone _ HL). unfold live. rewrite HL. reflexivity.
    + exact Hfid'.
    + eexists. split; [exact Ha | reflexivity].
    + intros j Hj. apply Hold. pose proof (sd_len _ _ _ _ _ Hst) as Hl.
      rewrite length_app. cbn [length]. lia.
Qed.

Lemma stored_file_size c old cur bc d n id f :
  wf bc d n -> stored c old cur bc d -> wal_files d !! id = Some f ->
  len f <= MaxFileSize c + MaxRecordLength.
Proof.
  intros Hwf Hst Hf.
  assert (Hs : is_Some (wal_files d !! id)) by (rewrite Hf; eauto).
  apply (stored_files c old cur bc d n Hwf Hst) in Hs.
  destruct (lookup_lt_is_Some_2 (old ++ [cur]) (Z.to_nat id)) as [rs Hrs]; [lia|].
  pose proof (sd_files _ _ _ _ _ Hst _ _ Hrs) as Hf'.
  replace (0 + Z.of_nat (Z.to_nat id)) with id in Hf' by lia.
  rewrite Hf in Hf'. injection Hf' as ->.
  pose proof (sd_size _ _ _ _ _ Hst) as Hsz. rewrite Forall_forall in Hsz.
  apply Hsz. apply list_elem_of_lookup. eauto.
Qed.

(** The entries of the index fit the fields of the hint file. *)
Lemma entries_u32 c old cur bc d n L :
  wf bc d n -> models bc d L -> stored c old cur bc d -> conf_replay_ok c ->
  n < 2 ^ 32 -> Forall entry_u32 (memTable bc).
Proof.
  intros Hwf Hm Hst [Hc0 Hc1] Hn. rewrite Forall_forall. intros [k pos] Hin.
  apply (Get_Some_elem _ _ _ (wf_sorted _ _ _ Hwf)) in Hin.
  specialize (Hm k). destruct (L !! k) as [ov|]; [|congruence].
  destruct Hm as (Hk & _ & pos' & HG & w & Ht & Hr).
  assert (pos' = pos) as -> by congruence.
  destruct (targetWal_fileId bc d n pos w Hwf Ht) as [Hw Hrange].
  destruct (ReadPos_Ok_file _ _ _ _ Hr) as (f & Hf & Hrd).
  pose proof (stored_file_size c old cur bc d n _ f Hwf Hst Hf) as Hsz.
  unfold read_in in Hrd.
  destruct ((Offset pos >=? len f) || (Offset pos + Length pos >? len f)) eqn:E;
    [discriminate|].
  apply orb_false_iff in E. destruct E as [E1 E2].
  rewrite Z.geb_leb, Z.leb_gt in E1. rewrite Z.gtb_ltb, Z.ltb_ge in E2.
  destruct (slice f (Offset pos) (Offset pos + Length pos)) as [buf| |] eqn:Es;
    try discriminate.
  apply slice_Ok_inv in Es. destruct Es as (H0 & H1 & _).
  pose proof (wf_fileId _ _ _ Hwf). pose proof MaxRecordLength_value.
  pose proof caps_values as [HK _].
  unfold entry_u32. cbn [fst snd]. repeat split; try lia.
Qed.

Lemma Close_disk bc d aw :
  activeWal bc = Some aw ->
  exists d1, Close bc d = Ok d1 /\ wal_files d1 = wal_files d /\
             hint_file d1 = Some (put_u32be (txnId bc)
                                    ++ concat (map hint_entry (memTable bc))).
Proof.
  intros Ha. unfold Close. rewrite Ha. cbn [deref mbind outcome_bind bind].
  unfold flock_Unlock. destruct (fl_locked (flock bc)); eexists; repeat split.
Qed.

(** X15: a store built from an empty directory by puts and deletes and
    opened again without [Close] (the option [LoadHint] set) answers [Get]
    as the running engine did: the replay of the segments rebuilds what the
    index held for every key whose last write put a value. *)
Theorem X15_reopen_without_Close_preserves_Get c ops :
  conf_replay_ok c -> LoadHint c = true -> Forall valid_op ops -> len ops < 2 ^ 32 ->
  exists bc0 d0 bc d bc',
    NewBitcask c empty_dir = Ok (bc0, d0) /\
    run ops bc0 d0 = Ok (bc, d) /\
    NewBitcask c d = Ok (bc', d) /\
    forall k, Get bc' d (Some k) = Get bc d (Some k) /\
              Get bc d (Some k) = Ok (nil_deletes_get ops k).
Proof.
  intros Hok Hh Hv Hn. pose proof (conf_replay_ok_conf_ok c Hok) as Hok'.
  destruct (run_durable ops (fresh_engine c) fresh_dir 0 ∅ (fresh_wf c) (fresh_models c)
              (fresh_durable c Hok') Hok' ltac:(lia) Hv)
    as (bc & d & Hr & Hwf & Hm & Hc & Hd).
  cbn [conf fresh_engine] in Hc, Hd.
  assert (Hhint : hint_file d = None).
  { destruct Hd as (old & cur & Hst & _). apply (sd_hint _ _ _ _ _ Hst). }
  destruct (reopen c bc d _ _ d (mkBitcask c None ∅ [] 0 [] 0 flock_New)
              Hwf Hm Hd Hc Hok Hh eq_refl) as (bc' & Hopen & HG); try reflexivity.
  - unfold LoadHint_. rewrite Hhint. reflexivity.
  - exists (fresh_engine c), fresh_dir, bc, d, bc'.
    split; [apply NewBitcask_empty_dir|]. split; [exact Hr|]. split; [exact Hopen|].
    intros k. split; [apply HG|].
    rewrite (Get_models _ _ _ _ Hm), fold_model_step, lookup_empty.
    unfold nil_deletes_get. destruct (last_write ops k None) as [[v|]|]; reflexivity.
Qed.

Lemma conf_1024_replay_ok : conf_replay_ok conf_1024.
Proof. split; [discriminate|]. intros H. discriminate H. Qed.

Lemma X15_reopen_without_Close_preserves_Get_witness :
  exists bc0 d0 bc d bc',
    NewBitcask conf_1024 empty_dir = Ok (bc0, d0) /\
    run scan_ops bc0 d0 = Ok (bc, d) /\
    NewBitcask conf_1024 d = Ok (bc', d) /\
    forall k, Get bc' d (Some k) = Get bc d (Some k) /\
              Get bc d (Some k) = Ok (nil_deletes_get scan_ops k).
Proof.
  apply (X15_reopen_without_Close_preserves_Get conf_1024 scan_ops).
  - exact conf_1024_replay_ok.
  - reflexivity.
  - exact scan_ops_valid.
  - reflexivity.
Defined.

(** X16: a store built from an empty directory by puts and deletes, closed
    (which writes the hint file) and opened again with the option [LoadHint]
    set answers [Get] as the engine did before [Close]: the hint file is
    loaded, the segments are replayed on top of it, and the two agree. *)
Theorem X16_Close_then_reopen_preserves_Get c ops :
  conf_replay_ok c -> LoadHint c = true -> Forall valid_op ops -> len ops < 2 ^ 32 ->
  exists bc0 d0 bc d d1 bc',
    NewBitcask c empty_dir = Ok (bc0, d0) /\
    run ops bc0 d0 = Ok (bc, d) /\
    Close bc d = Ok d1 /\ is_Some (hint_file d1) /\
    NewBitcask c d1 = Ok (bc', d1) /\
    forall k, Get bc' d1 (Some k) = Get bc d (Some k).
Proof.
  intros Hok Hh Hv Hn. pose proof (conf_replay_ok_conf_ok c Hok) as Hok'.
  destruct (run_durable ops (fresh_engine c) fresh_dir 0 ∅ (fresh_wf c) (fresh_models c)
              (fresh_durable c Hok') Hok' ltac:(lia) Hv)
    as (bc & d & Hr & Hwf & Hm & Hc & Hd).
  cbn [conf fresh_engine] in Hc, Hd.
  pose proof Hwf as [(aw & f & Ha & _) _ _ _ Hsorted].
  destruct (Close_disk bc d aw Ha) as (d1 & Hclose & Hfiles & Hhint).
  pose proof Hd as (old & cur & Hst & Hrp).
  assert (Hu32 : Forall entry_u32 (memTable bc)).
  { apply (entries_u32 c old cur bc d _ _ Hwf Hm Hst Hok). lia. }
  pose proof (LoadHint_entries (mkBitcask c None ∅ [] 0 [] 0 flock_New) d1 (txnId bc)
                (memTable bc) Hhint Hu32) as Hload.
  rewrite (sd_txn _ _ _ _ _ Hst) in Hload. specialize (Hload ltac:(lia)).
  cbn [conf activeWal oldWal memTable fileId fileIds flock] in Hload.
  rewrite (fold_Put_sorted _ Hsorted) in Hload.
  destruct (reopen c bc d _ _ d1 _ Hwf Hm Hd Hc Hok Hh Hfiles Hload)
    as (bc' & Hopen & HG); try reflexivity.
  - exact Hsorted.
  - intros k HL. specialize (Hm k). rewrite HL in Hm. exact Hm.
  - exists (fresh_engine c), fresh_dir, bc, d, d1, bc'.
    split; [apply NewBitcask_empty_dir|]. split; [exact Hr|]. split; [exact Hclose|].
    split; [rewrite Hhint; eauto|]. split; [exact Hopen | exact HG].
Qed.

Lemma X16_Close_then_reopen_preserves_Get_witness :
  exists bc0 d0 bc d d1 bc',
    NewBitcask conf_1024 empty_dir = Ok (bc0, d0) /\
    run scan_ops bc0 d0 = Ok (bc, d) /\
    Close bc d = Ok d1 /\ is_Some (hint_file d1) /\
    NewBitcask conf_1024 d1 = Ok (bc', d1) /\
    forall k, Get bc' d1 (Some k) = Get bc d (Some k).
Proof.
  apply (X16_Close_then_reopen_preserves_Get conf_1024 scan_ops).
  - exact conf_1024_replay_ok.
  - reflexivity.
  - exact scan_ops_valid.
  - reflexivity.
Defined.

(** * What [Get] returns after a batch is committed *)

Lemma reads_set_memTable m bc d p r : reads (set_memTable m bc) d p r <-> reads bc d p r.
Proof. reflexivity. Qed.

(** [Get] depends on the entry of the key and on the record at its
    position only. *)
Lemma Get_same Q bc d bc' d' k :
  entries_inv Q bc d ->
  (forall p r, reads bc d p r -> reads bc' d' p r) ->
  BTreeIndex.Get k (memTable bc') = BTreeIndex.Get k (memTable bc) ->
  Get bc' d' (Some k) = Get bc d (Some k).
Proof.
  intros Hinv Hr HG. unfold Get, get. rewrite HG.
  destruct (BTreeIndex.Get k (memTable bc)) as [pos|] eqn:E; [|reflexivity].
  destruct (Hinv _ _ E) as (_ & rec & Hrd & _).
  destruct (Hr _ _ Hrd) as (w' & Ht' & Hr'). destruct Hrd as (w & Ht & Hrw).
  rewrite Ht, Ht'. cbn [mbind outcome_bind bind]. rewrite Hrw, Hr'. reflexivity.
Qed.

Lemma putTxn_view Q c bc d n k v t bc' d' :
  good Q c bc d n -> conf_ok c -> n + 1 < 2 ^ 32 ->
  len k + 4 <= MaxKeyLength -> len v <= MaxValueLength ->
  putTxn bc d (Some k) (Some v) t = Ok (bc', d') ->
  Get bc' d' (Some k) = Ok (Some v, true) /\
  forall k', k' <> k -> Get bc' d' (Some k') = Get bc d (Some k').
Proof.
  intros (Hwf & Hinv & Hcf) Hc Hn Hk Hv HP. rewrite <- Hcf in Hc.
  set (rec := NewTxnRecord (EncodeTxnId t k) (Some v)).
  assert (Hcaps : within_caps rec).
  { split; cbn [rec NewTxnRecord newRecord Key Value of_slice default]; [|exact Hv].
    unfold EncodeTxnId. rewrite len_app, len_put_u32be. lia. }
  assert (Hrl : len (Encode rec) <= MaxRecordLength).
  { rewrite len_Encode. unfold MaxRecordLength. destruct Hcaps. lia. }
  destruct (append_core bc d n rec Hwf Hc Hn Hrl)
    as (bc1 & d1 & aw & aw' & d2 & pos & Ht & Ha & Hw & Hwf2 & Hmt & Hcf1 & Hr & Hnew).
  unfold putTxn in HP. rewrite Ht in HP. cbn [mbind outcome_bind bind] in HP.
  rewrite Ha in HP. cbn [deref mbind outcome_bind bind] in HP.
  unfold WriteTxn in HP. fold rec in HP. rewrite Hw in HP.
  cbn [mbind outcome_bind bind] in HP. injection HP as <- <-.
  specialize (Hnew _ Hcaps (strip_txn_TxnPut t k v)). split.
  - unfold Get, get. cbn [memTable set_memTable]. rewrite Get_Put_eq.
    destruct Hnew as (w & Htw & Hrw). rewrite targetWal_set_memTable, Htw.
    cbn [mbind outcome_bind bind]. rewrite Hrw. reflexivity.
  - intros k' Hne. apply (Get_same Q bc d); [exact Hinv | exact Hr |].
    cbn [memTable set_memTable]. rewrite Hmt.
    apply Get_Put_ne; [apply (wf_sorted _ _ _ Hwf) | congruence].
Qed.

Lemma deleteTxn_view Q c bc d n key t bc' d' :
  good Q c bc d n -> conf_ok c -> n + 1 < 2 ^ 32 ->
  deleteTxn bc d key t = Ok (bc', d') ->
  Get bc' d' (Some (of_slice key)) = Ok (None, false) /\
  forall k', k' <> of_slice key -> Get bc' d' (Some k') = Get bc d (Some k').
Proof.
  intros (Hwf & Hinv & Hcf) Hc Hn HD. rewrite <- Hcf in Hc. unfold deleteTxn in HD.
  set (k := of_slice key) in *.
  destruct (BTreeIndex.Get k (memTable bc)) as [pos0|] eqn:EG.
  - destruct (Hinv _ _ EG) as (Hk & _).
    set (rec := NewTxnRecord (EncodeTxnId t k) None) in *.
    assert (Hrl : len (Encode rec) <= MaxRecordLength).
    { rewrite len_Encode. cbn [rec NewTxnRecord newRecord Key Value of_slice default].
      unfold EncodeTxnId. rewrite len_app, len_put_u32be, len_nil.
      unfold MaxRecordLength, MaxValueLength. lia. }
    destruct (append_core bc d n rec Hwf Hc Hn Hrl)
      as (bc1 & d1 & aw & aw' & d2 & pos & Ht & Ha & Hw & Hwf2 & Hmt & Hcf1 & Hr & _).
    rewrite Ht in HD. cbn [mbind outcome_bind bind] in HD.
    rewrite Ha in HD. cbn [deref mbind outcome_bind bind] in HD.
    unfold WriteTxn in HD. fold rec in HD. rewrite Hw in HD.
    cbn [mbind outcome_bind bind] in HD. injection HD as <- <-. split.
    + unfold Get, get. cbn [memTable set_memTable]. rewrite Hmt.
      rewrite Get_Delete_eq by apply (wf_sorted _ _ _ Hwf). reflexivity.
    + intros k' Hne. apply (Get_same Q bc d); [exact Hinv | exact Hr |].
      cbn [memTable set_memTable]. rewrite Hmt.
      apply Get_Delete_ne; [apply (wf_sorted _ _ _ Hwf) | congruence].
  - injection HD as <- <-. split; [|reflexivity].
    unfold Get, get. rewrite EG. reflexivity.
Qed.

(** A begin or commit record changes nothing that [Get] returns. *)
Lemma marker_view Q bc d n rec bc1 d1 aw aw' d2 pos k :
  wf bc d n -> entries_inv Q bc d -> conf_ok (conf bc) -> n + 1 < 2 ^ 32 ->
  len (Encode rec) <= MaxRecordLength ->
  tryRotate bc d = Ok (bc1, d1) -> activeWal bc1 = Some aw ->
  write aw d1 rec = Ok (aw', d2, pos) ->
  Get (set_activeWal aw' bc1) d2 (Some k) = Get bc d (Some k).
Proof.
  intros Hwf Hinv Hc Hn Hrl Ht Ha Hw.
  destruct (append_core bc d n rec Hwf Hc Hn Hrl)
    as (bc1' & d1' & aw0 & aw0' & d2' & pos' & Ht' & Ha' & Hw' & _ & Hmt & _ & Hr & _).
  rewrite Ht in Ht'. injection Ht' as <- <-.
  rewrite Ha in Ha'. injection Ha' as <-.
  rewrite Hw in Hw'. injection Hw' as <- <- <-.
  apply (Get_same Q bc d); [exact Hinv | exact Hr |].
  cbn [memTable set_activeWal]. rewrite Hmt. reflexivity.
Qed.

Lemma putTxnBegin_view Q c bc d n t bc' d' k :
  good Q c bc d n -> conf_ok c -> n + 1 < 2 ^ 32 ->
  putTxnBegin bc d (Some txn_begin_key) t = Ok (bc', d') ->
  Get bc' d' (Some k) = Get bc d (Some k).
Proof.
  intros (Hwf & Hinv & Hcf) Hc Hn HP. rewrite <- Hcf in Hc. unfold putTxnBegin in HP.
  destruct (tryRotate bc d) as [[bc1 d1]| |] eqn:Ht; cbn [mbind outcome_bind bind] in HP;
    try discriminate.
  destruct (activeWal bc1) as [aw|] eqn:Ha; cbn [deref mbind outcome_bind bind] in HP;
    try discriminate.
  unfold WriteTxnBegin in HP.
  destruct (write aw d1 (NewTxnBegin (EncodeTxnId t txn_begin_key))) as [[[aw' d2] pos]| |]
    eqn:Hw; cbn [mbind outcome_bind bind] in HP; try discriminate.
  injection HP as <- <-.
  eapply (marker_view Q bc d n); try eassumption.
  apply marker_length. cbv. discriminate.
Qed.

Lemma putTxnCommit_view Q c bc d n t bc' d' k :
  good Q c bc d n -> conf_ok c -> n + 1 < 2 ^ 32 ->
  putTxnCommit bc d (Some txn_commit_key) t = Ok (bc', d') ->
  Get bc' d' (Some k) = Get bc d (Some k).
Proof.
  intros (Hwf & Hinv & Hcf) Hc Hn HP. rewrite <- Hcf in Hc. unfold putTxnCommit in HP.
  destruct (tryRotate bc d) as [[bc1 d1]| |] eqn:Ht; cbn [mbind outcome_bind bind] in HP;
    try discriminate.
  destruct (activeWal bc1) as [aw|] eqn:Ha; cbn [deref mbind outcome_bind bind] in HP;
    try discriminate.
  unfold WriteTxnCommit in HP.
  destruct (write aw d1 (NewTxnCommit (EncodeTxnId t txn_commit_key))) as [[[aw' d2] pos]| |]
    eqn:Hw; cbn [mbind outcome_bind bind] in HP; try discriminate.
  injection HP as <- <-.
  eapply (marker_view Q bc d n); try eassumption.
  apply marker_length. cbv. discriminate.
Qed.

Lemma loop_view_cons_other m k1 ks g k :
  k <> k1 -> loop_view m (Some k1 :: ks) g k = loop_view m ks g k.
Proof.
  intros Hne. unfold loop_view.
  destruct (bool_decide_reflect (Some k ∈ Some k1 :: ks)) as [H|H];
    destruct (bool_decide_reflect (Some k ∈ ks)) as [H'|H']; try reflexivity.
  - apply elem_of_cons in H. destruct H as [H|H]; [congruence | contradiction].
  - exfalso. apply H. right. exact H'.
Qed.

Lemma Commit_loop_view Q c m t ks : forall bc d n,
  good Q c bc d n -> conf_ok c -> n + len ks < 2 ^ 32 ->
  (forall k v, m !! k = Some (Some v) ->
     len k + 4 <= MaxKeyLength /\ len v <= MaxValueLength) ->
  Forall (fun key => key <> None) ks ->
  exists bc' d',
    Commit_loop m t ks bc d = Ok (bc', d') /\ good Q c bc' d' (n + len ks) /\
    forall k, Get bc' d' (Some k) = loop_view m ks (Get bc d (Some k)) k.
Proof.
  induction ks as [|key ks IH]; intros bc d n Hg Hc Hn Hm Hks.
  - exists bc, d. rewrite len_nil, Z.add_0_r. split; [reflexivity|]. split; [exact Hg|].
    intros k. unfold loop_view. rewrite bool_decide_eq_false_2; [reflexivity|].
    intros H. inversion H.
  - rewrite len_cons in *. pose proof (len_nonneg ks).
    inversion_clear Hks as [|? ? Hk1 Hk2].
    destruct key as [k1|]; [|contradiction]. cbn [Commit_loop].
    change (of_slice (Some k1)) with k1.
    assert (Hstep : exists bc1 d1,
              match m !! k1 with
              | Some None => deleteTxn bc d (Some k1) t
              | Some (Some value) => putTxn bc d (Some k1) (Some value) t
              | None => Ok (bc, d)
              end = Ok (bc1, d1) /\ good Q c bc1 d1 (n + 1) /\
              Get bc1 d1 (Some k1) =
                match m !! k1 with
                | Some (Some v) => Ok (Some v, true)
                | Some None => Ok (None, false)
                | None => Get bc d (Some k1)
                end /\
              forall k, k <> k1 -> Get bc1 d1 (Some k) = Get bc d (Some k)).
    { destruct (m !! k1) as [[v|]|] eqn:Em.
      - destruct (Hm _ _ Em) as [Hkl Hvl].
        destruct (putTxn_good Q c bc d n k1 v t Hg Hc ltac:(lia) Hkl Hvl)
          as (bc1 & d1 & HP & Hg1).
        destruct (putTxn_view Q c bc d n k1 v t bc1 d1 Hg Hc ltac:(lia) Hkl Hvl HP)
          as [Hv1 Hv2].
        exists bc1, d1. auto.
      - destruct (deleteTxn_good Q c bc d n (Some k1) t Hg Hc ltac:(lia))
          as (bc1 & d1 & HD & Hg1).
        destruct (deleteTxn_view Q c bc d n (Some k1) t bc1 d1 Hg Hc ltac:(lia) HD)
          as [Hv1 Hv2].
        exists bc1, d1. auto.
      - exists bc, d. split; [reflexivity|].
        split; [apply (good_mono Q c bc d n); [exact Hg | lia]|]. auto. }
    destruct Hstep as (bc1 & d1 & Hs & Hg1 & Hv1 & Hv2).
    rewrite Hs. cbn [mbind outcome_bind bind].
    destruct (IH bc1 d1 (n + 1) Hg1 Hc ltac:(lia) Hm Hk2) as (bc2 & d2 & Hl & Hg2 & Hv).
    exists bc2, d2. split; [exact Hl|]. split.
    { replace (n + (1 + len ks)) with (n + 1 + len ks) by lia. exact Hg2. }
    intros k. rewrite Hv. destruct (decide (k = k1)) as [->|Hne].
    + rewrite Hv1. unfold loop_view.
      rewrite (bool_decide_eq_true_2 (Some k1 ∈ Some k1 :: ks)) by (left; reflexivity).
      destruct (bool_decide (Some k1 ∈ ks)); destruct (m !! k1) as [[v|]|]; reflexivity.
    + rewrite (Hv2 k Hne), (loop_view_cons_other m k1 ks _ k Hne). reflexivity.
Qed.

Lemma Commit_view Q c b bc d n :
  good Q c bc d n -> conf_ok c -> n + 2 + len (keys b) < 2 ^ 32 ->
  batch_ok b -> map_len (mp b) < BatchSize c -> map_len (mp b) <> 0 ->
  exists b' bc' d',
    Commit b bc d = Ok (b', bc', d') /\ good Q c bc' d' (n + 2 + len (keys b)) /\
    forall k, Get bc' d' (Some k) = batch_view b (Get bc d (Some k)) k.
Proof.
  intros Hg Hc Hn (m & Hmp & Hm & Hks) Hsz Hne.
  pose proof Hg as (_ & _ & Hcf). pose proof (len_nonneg (keys b)).
  unfold Commit. rewrite Hcf, Z.geb_leb.
  rewrite (proj2 (Z.leb_gt (BatchSize c) (map_len (mp b)))) by lia.
  rewrite (proj2 (Z.eqb_neq _ _) Hne).
  destruct (putTxnBegin_good Q c bc d n (b_txnId b) Hg Hc ltac:(lia))
    as (bc1 & d1 & Hb & Hg1).
  rewrite Hb. cbn [mbind outcome_bind bind]. unfold batch_view. rewrite Hmp.
  change (default ∅ (Some m)) with m.
  destruct (Commit_loop_view Q c m (b_txnId b) (keys b) bc1 d1 (n + 1) Hg1 Hc
              ltac:(lia) Hm Hks) as (bc2 & d2 & Hl & Hg2 & Hv).
  rewrite Hl. cbn [mbind outcome_bind bind].
  destruct (putTxnCommit_good Q c bc2 d2 (n + 1 + len (keys b)) (b_txnId b) Hg2 Hc
              ltac:(lia)) as (bc3 & d3 & Hcm & Hg3).
  rewrite Hcm. cbn [mbind outcome_bind bind].
  eexists _, _, _. split; [reflexivity|]. split.
  { apply good_set_txnId.
    replace (n + 2 + len (keys b)) with (n + 1 + len (keys b) + 1) by lia. exact Hg3. }
  intros k.
  change (Get (set_txnId (wrap32 (txnId bc3 + 1)) bc3) d3 (Some k))
    with (Get bc3 d3 (Some k)).
  rewrite (putTxnCommit_view Q c bc2 d2 _ _ bc3 d3 k Hg2 Hc ltac:(lia) Hcm).
  rewrite Hv.
  rewrite (putTxnBegin_view Q c bc d n _ bc1 d1 k Hg Hc ltac:(lia) Hb). reflexivity.
Qed.

(** X17: starting from an empty store, after any sequence of puts, deletes
    and batch commits, a batch built by [Put] and [Delete] on the batch is
    committed and all of it is visible: for every key of the batch's key
    list [Get] returns the value that the batch's map holds for it, with
    [true], or not found when the map holds nil for it; for every other key
    [Get] returns what it returned before the commit. *)
Theorem X17_Commit_makes_the_batch_visible c cmds acts :
  conf_ok c -> Forall (valid_cmd c) cmds -> Forall valid_bop acts ->
  len acts < BatchSize c -> writes cmds + 2 + len acts < 2 ^ 32 ->
  exists bc0 d0 bc d b b' bc' d',
    NewBitcask c empty_dir = Ok (bc0, d0) /\
    run_cmds cmds bc0 d0 = Ok (bc, d) /\
    build_batch bc d (NewBatch bc) acts = Ok b /\
    Commit b bc d = Ok (b', bc', d') /\
    forall k, Get bc' d' (Some k) = batch_view b (Get bc d (Some k)) k.
Proof.
  intros Hc Hv Hva Hsz Hn. pose proof (len_nonneg acts).
  destruct (run_cmds_good (fun _ => True) c cmds (fresh_engine c) fresh_dir 0
              (fresh_good _ c) Hc ltac:(lia) Hv) as (bc & d & Hr & Hg); [auto|].
  pose proof Hg as (_ & Hinv & _).
  destruct (build_batch_good _ bc d acts (NewBatch bc) Hinv Hva (NewBatch_ok bc))
    as (b & Hb & Hok & Hm & Hk).
  cbn [NewBatch mp keys map_len] in Hm, Hk. rewrite map_size_empty in Hm.
  rewrite len_nil in Hk. pose proof (len_nonneg (keys b)).
  exists (fresh_engine c), fresh_dir, bc, d, b.
  destruct (decide (map_len (mp b) = 0)) as [Hz|Hnz].
  - exists b, bc, d.
    split; [apply NewBitcask_empty_dir|]. split; [exact Hr|]. split; [exact Hb|].
    assert (Hmp : default ∅ (mp b) = ∅).
    { destruct Hok as (m & Hmp & _). rewrite Hmp in *. cbn [map_len] in *.
      change (default ∅ (Some m)) with m. apply map_size_empty_inv. lia. }
    split.
    + unfold Commit. destruct Hg as (_ & _ & ->). rewrite Z.geb_leb.
      rewrite (proj2 (Z.leb_gt (BatchSize c) (map_len (mp b)))) by lia.
      rewrite Hz. reflexivity.
    + intros k. unfold batch_view, loop_view. rewrite Hmp, lookup_empty.
      destruct (bool_decide (Some k ∈ keys b)); reflexivity.
  - destruct (Commit_view _ c b bc d (0 + writes cmds) Hg Hc ltac:(lia) Hok ltac:(lia) Hnz)
      as (b' & bc' & d' & HC & _ & Hview).
    exists b', bc', d'.
    split; [apply NewBitcask_empty_dir|]. split; [exact Hr|]. split; [exact Hb|].
    split; [exact HC | exact Hview].
Qed.

Lemma X17_Commit_makes_the_batch_visible_witness :
  exists bc0 d0 bc d b b' bc' d',
    NewBitcask conf_1024 empty_dir = Ok (bc0, d0) /\
    run_cmds cmds_example bc0 d0 = Ok (bc, d) /\
    build_batch bc d (NewBatch bc) acts_example = Ok b /\
    Commit b bc d = Ok (b', bc', d') /\
    forall k, Get bc' d' (Some k) = batch_view b (Get bc d (Some k)) k.
Proof.
  apply (X17_Commit_makes_the_batch_visible conf_1024 cmds_example acts_example).
  - exact conf_1024_ok.
  - repeat constructor; try discriminate; try (intros H; discriminate H).
  - repeat constructor; try discriminate; try (intros H; discriminate H).
  - reflexivity.
  - reflexivity.
Defined.

(** * Deleting twice, and the shape of the segments *)

(** X18: starting from an empty store, after any sequence of puts and
    deletes, [Delete key] succeeds, after it [Get key] reports not found,
    and a second [Delete key] changes nothing: it appends no record and
    leaves the engine and the directory as they are. *)
Theorem X18_Delete_twice_is_Delete_once c ops key :
  conf_ok c -> Forall valid_op ops -> len ops + 1 < 2 ^ 32 ->
  exists bc0 d0 bc d bc1 d1,
    NewBitcask c empty_dir = Ok (bc0, d0) /\
    run ops bc0 d0 = Ok (bc, d) /\
    Delete bc d key = Ok (bc1, d1) /\
    Get bc1 d1 key = Ok (None, false) /\
    Delete bc1 d1 key = Ok (bc1, d1).
Proof.
  intros Hc Hv Hn. pose proof (len_nonneg ops).
  destruct (run_steps ops (fresh_engine c) fresh_dir 0 ∅ (fresh_wf c) (fresh_models c)
              Hc ltac:(lia) Hv) as (bc & d & Hr & Hwf & Hm & Hcf).
  cbn [conf fresh_engine] in Hcf. rewrite <- Hcf in Hc.
  destruct (Delete_step bc d _ _ key Hwf Hm Hc ltac:(lia)) as (bc1 & d1 & HD & Hwf1 & Hm1 & _).
  exists (fresh_engine c), fresh_dir, bc, d, bc1, d1.
  split; [apply NewBitcask_empty_dir|]. split; [exact Hr|]. split; [exact HD|].
  split.
  - destruct key as [k|]; [|apply Get_nil].
    rewrite (Get_models _ _ _ _ Hm1). cbn [of_slice]. rewrite lookup_delete_eq. reflexivity.
  - unfold Delete. specialize (Hm1 (of_slice key)). rewrite lookup_delete_eq in Hm1.
    rewrite Hm1. reflexivity.
Qed.

Lemma X18_Delete_twice_is_Delete_once_witness :
  exists bc0 d0 bc d bc1 d1,
    NewBitcask conf_1024 empty_dir = Ok (bc0, d0) /\
    run scan_ops bc0 d0 = Ok (bc, d) /\
    Delete bc d (Some ["a"]%byte) = Ok (bc1, d1) /\
    Get bc1 d1 (Some ["a"]%byte) = Ok (None, false) /\
    Delete bc1 d1 (Some ["a"]%byte) = Ok (bc1, d1).
Proof.
  apply (X18_Delete_twice_is_Delete_once conf_1024 scan_ops (Some ["a"]%byte)).
  - exact conf_1024_ok.
  - exact scan_ops_valid.
  - reflexivity.
Defined.

(** X19: starting from an empty store, after any sequence of puts and
    deletes, the directory holds exactly the segments [0 .. fileId] and no
    hint file; every segment is a sequence of whole encoded records, so no
    record is split between two segments, and no segment is longer than
    [MaxFileSize] plus the length of one record. *)
Theorem X19_segments_hold_whole_records c ops :
  conf_ok c -> Forall valid_op ops -> len ops < 2 ^ 32 ->
  exists bc0 d0 bc d,
    NewBitcask c empty_dir = Ok (bc0, d0) /\
    run ops bc0 d0 = Ok (bc, d) /\
    hint_file d = None /\
    (forall id, is_Some (wal_files d !! id) <-> 0 <= id <= fileId bc) /\
    (forall id f, wal_files d !! id = Some f ->
       (exists rs, f = concat (map Encode rs)) /\
       len f <= MaxFileSize c + MaxRecordLength).
Proof.
  intros Hc Hv Hn.
  destruct (run_durable ops (fresh_engine c) fresh_dir 0 ∅ (fresh_wf c) (fresh_models c)
              (fresh_durable c Hc) Hc ltac:(lia) Hv)
    as (bc & d & Hr & Hwf & Hm & Hcf & (old & cur & Hst & _)).
  exists (fresh_engine c), fresh_dir, bc, d.
  split; [apply NewBitcask_empty_dir|]. split; [exact Hr|].
  split; [apply (sd_hint _ _ _ _ _ Hst)|]. split.
  - intros id. rewrite (stored_files _ old cur bc d _ Hwf Hst id), length_app.
    pose proof (sd_len _ _ _ _ _ Hst). cbn [length]. lia.
  - intros id f Hf. split; [|apply (stored_file_size _ old cur bc d _ id f Hwf Hst Hf)].
    assert (Hs : is_Some (wal_files d !! id)) by (rewrite Hf; eauto).
    apply (stored_files _ old cur bc d _ Hwf Hst) in Hs.
    destruct (lookup_lt_is_Some_2 (old ++ [cur]) (Z.to_nat id)) as [rs Hrs]; [lia|].
    pose proof (sd_files _ _ _ _ _ Hst _ _ Hrs) as Hf'.
    replace (0 + Z.of_nat (Z.to_nat id)) with id in Hf' by lia.
    exists rs. unfold seg_bytes in Hf'. rewrite Hf in Hf'. injection Hf' as ->. reflexivity.
Qed.

Lemma X19_segments_hold_whole_records_witness :
  exists bc0 d0 bc d,
    NewBitcask conf_64 empty_dir = Ok (bc0, d0) /\
    run scan_ops bc0 d0 = Ok (bc, d) /\
    hint_file d = None /\
    (forall id, is_Some (wal_files d !! id) <-> 0 <= id <= fileId bc) /\
    (forall id f, wal_files d !! id = Some f ->
       (exists rs, f = concat (map Encode rs)) /\
       len f <= MaxFileSize conf_64 + MaxRecordLength).
Proof.
  apply (X19_segments_hold_whole_records conf_64 scan_ops).
  - split; [discriminate|]. intros H. discriminate H.
  - exact scan_ops_valid.
  - reflexivity.
Defined.

(** * A batch that puts a key and deletes it again *)

(** X20: when a key is not found in the store, [Put] of it on a new batch
    followed by [Delete] of it on the batch leaves the batch's map empty,
    and [Commit] of that batch succeeds without writing anything: the
    engine and the directory stay as they are. *)
Theorem X20_batch_Put_then_Delete_of_an_absent_key_cancels bc d k v r :
  Get bc d (Some k) = Ok (r, false) ->
  exists b,
    (b1 ← Batch_Put (NewBatch bc) (Some k) v; Batch_Delete b1 bc d (Some k)) = Ok b /\
    mp b = Some ∅ /\
    (0 < BatchSize (conf bc) -> Commit b bc d = Ok (b, bc, d)).
Proof.
  intros HG. unfold Batch_Put, NewBatch. cbn [mp keys b_txnId mbind outcome_bind bind].
  unfold Batch_Delete. rewrite HG. cbn [mbind outcome_bind bind negb mp of_slice].
  rewrite lookup_insert_eq. eexists. split; [reflexivity|].
  cbn [mp keys b_txnId]. rewrite delete_insert_eq, delete_empty.
  split; [reflexivity|].
  intros Hsz. unfold Commit. cbn [mp map_len]. rewrite map_size_empty.
  rewrite Z.geb_leb, (proj2 (Z.leb_gt (BatchSize (conf bc)) (Z.of_nat 0))) by exact Hsz.
  reflexivity.
Qed.

Lemma X20_batch_Put_then_Delete_of_an_absent_key_cancels_witness :
  exists b,
    (b1 ← Batch_Put (NewBatch (fresh_engine conf_1024)) (Some ["a"]%byte) (Some ["1"]%byte);
     Batch_Delete b1 (fresh_engine conf_1024) fresh_dir (Some ["a"]%byte)) = Ok b /\
    mp b = Some ∅ /\
    (0 < BatchSize (conf (fresh_engine conf_1024)) ->
     Commit b (fresh_engine conf_1024) fresh_dir = Ok (b, fresh_engine conf_1024, fresh_dir)).
Proof.
  apply (X20_batch_Put_then_Delete_of_an_absent_key_cancels
           (fresh_engine conf_1024) fresh_dir ["a"]%byte (Some ["1"]%byte) None).
  reflexivity.
Defined.

(** * What a range scan returns *)

(** X21: starting from an empty store, after any sequence of puts and deletes
    (sizes within the codec's limits), [ScanRangeOptimized k1 k2 0] returns
    no error and, in ascending comparator order, exactly the keys [k] with
    [k1 <= k <= k2] whose latest write is a put, with a nil value or not,
    each with the value of that put (the empty value for nil). With a
    positive limit of at most [2 ^ 45] it returns the first [limit] of
    them; with a negative limit or one above [2 ^ 45] it panics. The
    sentinel errors never reach the caller. *)
Theorem X21_ScanRange_returns_the_keys_last_written_by_a_put c ops k1 k2 :
  conf_ok c -> Forall valid_op ops -> len ops < 2 ^ 32 ->
  exists bc0 d0 bc d all,
    NewBitcask c empty_dir = Ok (bc0, d0) /\
    run ops bc0 d0 = Ok (bc, d) /\
    ScanRangeOptimized bc d k1 k2 0 = Ok all /\
    ascending (map sr_Key all) /\
    (forall k v, mkScanRangeResult k v ∈ all <->
       KeyComparator.InRange k k1 k2 = true /\
       exists value, last_write ops k None = Some value /\ v = of_slice value) /\
    (forall limit, 0 < limit <= 2 ^ 45 ->
       ScanRangeOptimized bc d k1 k2 limit = Ok (take (Z.to_nat limit) all)) /\
    (forall limit, limit < 0 \/ 2 ^ 45 < limit ->
       ScanRangeOptimized bc d k1 k2 limit = Panic).
Proof.
  intros Hc Hv Hn.
  destruct (run_from_fresh c ops Hc Hv Hn) as (bc & d & Hr & Hwf & Hm).
  pose proof (wf_sorted _ _ _ Hwf) as Hs.
  set (val := fun k => of_slice (default None (last_write ops k None))).
  assert (Hrd : forall k pos, (k, pos) ∈ memTable bc ->
            exists rec, reads bc d pos rec /\ Key rec = k /\ Value rec = val k).
  { intros k pos Hin. apply (Get_Some_elem _ _ _ Hs) in Hin.
    specialize (Hm k). rewrite fold_model_step, lookup_empty in Hm. unfold val.
    destruct (last_write ops k None) as [value|]; [|congruence].
    destruct Hm as (_ & _ & pos' & HG & HR).
    assert (pos' = pos) as -> by congruence.
    exists (NewRecord k value). split; [exact HR|]. destruct value; auto. }
  assert (Hcap : forall limit, 0 <= limit <= 2 ^ 45 -> make_cap_ok limit = true).
  { intros limit Hl. unfold make_cap_ok, maxAlloc.
    apply andb_true_iff. rewrite !Z.leb_le. change (2 ^ 48) with (8 * 2 ^ 45). lia. }
  exists (fresh_engine c), fresh_dir, bc, d.
  eexists. split; [apply NewBitcask_empty_dir|]. split; [exact Hr|].
  split; [apply (ScanRangeOptimized_spec _ _ _ _ 0 val Hs Hrd); reflexivity|].
  unfold take_limit. cbn [Z.gtb Z.compare].
  split; [apply ascending_map_keys, ascending_filter, Hs|].
  split; [|split].
  - intros k v. rewrite list_elem_of_In, in_map_iff. split.
    + intros ([k' pos] & Heq & Hin). cbn [fst] in Heq. injection Heq as Hk Hval.
      subst k' v. apply filter_In in Hin. destruct Hin as [Hin Hrg]. split; [exact Hrg|].
      apply list_elem_of_In, (Get_Some_elem _ _ _ Hs) in Hin.
      specialize (Hm k). rewrite fold_model_step, lookup_empty in Hm. unfold val.
      destruct (last_write ops k None) as [value|]; [|congruence].
      exists value. auto.
    + intros (Hrg & value & Hlw & ->).
      specialize (Hm k). rewrite fold_model_step, lookup_empty, Hlw in Hm.
      destruct Hm as (_ & _ & pos & HG & _).
      exists (k, pos). split.
      * cbn [fst]. unfold val. rewrite Hlw. reflexivity.
      * apply filter_In. split; [|exact Hrg].
        apply list_elem_of_In, (Get_Some_elem _ _ _ Hs), HG.
  - intros limit Hl.
    rewrite (ScanRangeOptimized_spec _ _ _ _ limit val Hs Hrd) by (apply Hcap; lia).
    unfold take_limit. rewrite (proj2 (Z.gtb_lt limit 0)) by lia. reflexivity.
  - intros limit Hl. unfold ScanRangeOptimized.
    replace (make_cap_ok limit) with false; [reflexivity|].
    symmetry. unfold make_cap_ok, maxAlloc. apply andb_false_iff.
    rewrite !Z.leb_gt. change (2 ^ 48) with (8 * 2 ^ 45). lia.
Qed.

Lemma X21_ScanRange_returns_the_keys_last_written_by_a_put_witness :
  exists bc0 d0 bc d all,
    NewBitcask conf_1024 empty_dir = Ok (bc0, d0) /\
    run tomb_ops bc0 d0 = Ok (bc, d) /\
    ScanRangeOptimized bc d ["a"]%byte ["c"]%byte 0 = Ok all /\
    ascending (map sr_Key all) /\
    (forall k v, mkScanRangeResult k v ∈ all <->
       KeyComparator.InRange k ["a"]%byte ["c"]%byte = true /\
       exists value, last_write tomb_ops k None = Some value /\ v = of_slice value) /\
    (forall limit, 0 < limit <= 2 ^ 45 ->
       ScanRangeOptimized bc d ["a"]%byte ["c"]%byte limit = Ok (take (Z.to_nat limit) all)) /\
    (forall limit, limit < 0 \/ 2 ^ 45 < limit ->
       ScanRangeOptimized bc d ["a"]%byte ["c"]%byte limit = Panic).
Proof.
  apply (X21_ScanRange_returns_the_keys_last_written_by_a_put
           conf_1024 tomb_ops ["a"]%byte ["c"]%byte).
  - exact conf_1024_ok.
  - repeat constructor; try discriminate; intros H; discriminate H.
  - reflexivity.
Defined.

(** * Replay of the segments that the engine writes *)

(** ** The control state of replay

    [None] outside a transaction, [Some t] between the begin record of the
    transaction [t] and its commit record: the variables [txnFlag] and
    [curTxnId] of [ReadAll]. [ctl_step] follows the branches of
    [updatedFunc]; it gives [None] where [updatedFunc] fails. *)

(** ** Index entries that point into the directory *)

Lemma points_mono d (Q Q' : bytes -> Prop) e :
  (forall k, Q k -> Q' k) -> points d Q e -> points d Q' e.
Proof.
  intros HQ (Hk & Hf & f & rec & Hl & Hr & Hkey & Hq).
  split; [exact Hk|]. split; [exact Hf|]. exists f, rec.
  split; [exact Hl|]. split; [exact Hr|]. split; [exact Hkey|]. auto.
Qed.

Lemma elem_of_Put k p tr e :
  e ∈ BTreeIndex.Put k p tr -> e = (k, p) \/ e ∈ tr.
Proof.
  induction tr as [|[k1 p1] tr IH]; cbn [BTreeIndex.Put].
  - rewrite list_elem_of_singleton. auto.
  - destruct (BTreeIndex.Less k k1); [rewrite elem_of_cons; auto|].
    destruct (BTreeIndex.Less k1 k).
    + rewrite !elem_of_cons. intros [H|H]; [auto|]. destruct (IH H); auto.
    + rewrite !elem_of_cons. intros [H|H]; auto.
Qed.

Lemma elem_of_Delete k tr e : e ∈ BTreeIndex.Delete k tr -> e ∈ tr.
Proof.
  induction tr as [|[k1 p1] tr IH]; cbn [BTreeIndex.Delete]; [auto|].
  destruct (BTreeIndex.Less k k1); [auto|].
  destruct (BTreeIndex.Less k1 k).
  - rewrite !elem_of_cons. intros [H|H]; auto.
  - rewrite elem_of_cons. auto.
Qed.

Lemma Forall_Put (P : bytes * Pos -> Prop) k p tr :
  P (k, p) -> Forall P tr -> Forall P (BTreeIndex.Put k p tr).
Proof.
  intros Hp HF. rewrite Forall_forall in *. intros e He.
  destruct (elem_of_Put _ _ _ _ He) as [->|H]; auto.
Qed.

Lemma Forall_Delete (P : bytes * Pos -> Prop) k tr :
  Forall P tr -> Forall P (BTreeIndex.Delete k tr).
Proof.
  intros HF. rewrite Forall_forall in *. intros e He.
  apply HF, (elem_of_Delete _ _ _ He).
Qed.

(** ** Reading a record of a segment at its offset *)

Lemma seg_bytes_app rs1 rs2 : seg_bytes (rs1 ++ rs2) = seg_bytes rs1 ++ seg_bytes rs2.
Proof. unfold seg_bytes. rewrite map_app, concat_app. reflexivity. Qed.

Lemma seg_bytes_cons r rs : seg_bytes (r :: rs) = Encode r ++ seg_bytes rs.
Proof. reflexivity. Qed.

Lemma read_in_FileId f fid fid' off l :
  read_in f (mkPos fid off l) = read_in f (mkPos fid' off l).
Proof. reflexivity. Qed.

Lemma read_in_seg pre r post fid rec :
  within_caps r -> strip_txn r = Ok rec ->
  read_in (seg_bytes (pre ++ r :: post))
    (mkPos fid (len (seg_bytes pre)) (13 + len (Key r) + len (Value r))) = Ok rec.
Proof.
  intros Hc Hs. rewrite seg_bytes_app, seg_bytes_cons, app_assoc.
  apply read_in_app. rewrite <- len_Encode.
  rewrite (read_in_FileId _ fid 0).
  rewrite (read_in_new (seg_bytes pre) r Hc), Hs. reflexivity.
Qed.

Lemma len_seg_bytes_snoc pre r :
  len (seg_bytes (pre ++ [r])) = len (seg_bytes pre) + (13 + len (Key r) + len (Value r)).
Proof.
  rewrite seg_bytes_app, len_app, seg_bytes_cons. unfold seg_bytes at 3.
  cbn [map concat]. rewrite app_nil_r, len_Encode. reflexivity.
Qed.

(** ** One record of replay *)

Lemma strip_txn_op r :
  is_txn_op (RecordType_ r) = true -> (len (Key r) <? 4) = false ->
  strip_txn r = Ok (mkRecord (RecordType_ r) (drop 4 (Key r)) (Value r)).
Proof.
  intros Ht H4. unfold strip_txn, DecodeTxnId. rewrite Ht, H4. reflexivity.
Qed.

Lemma strip_txn_other r : is_txn_op (RecordType_ r) = false -> strip_txn r = Ok r.
Proof. intros Ht. unfold strip_txn. rewrite Ht. reflexivity. Qed.

Lemma len_drop_le {A} n (l : list A) : len (drop n l) <= len l.
Proof. unfold len. rewrite length_drop. lia. Qed.

Lemma rinv_items_lookup d Q st t :
  rinv d Q st -> Forall (item_ok d) (default [] (batchData st !! t)).
Proof.
  intros Hinv. destruct (batchData st !! t) as [l|] eqn:E; cbn [default].
  - exact (ri_items _ _ _ Hinv _ _ E).
  - constructor.
Qed.

(** A TxnPut or TxnDelete record inside its transaction is buffered. *)
Lemma buffer_txn_rinv d Q fid f r pos st :
  wal_files d !! fid = Some f -> 0 <= fid -> FileId pos = fid -> within_caps r ->
  (forall rec, strip_txn r = Ok rec -> read_in f pos = Ok rec) ->
  rinv d Q st -> is_txn_op (RecordType_ r) = true ->
  (len (Key r) <? 4) = false -> (get_u32be (take 4 (Key r)) =? curTxnId st) = true ->
  exists st',
    buffer_txn st r pos = Ok st' /\ rinv d Q st' /\
    txnFlag st' = txnFlag st /\ curTxnId st' = curTxnId st.
Proof.
  intros Hf Hfid Hpos [Hck Hcv] Hread Hinv Hty H4 Hid.
  unfold buffer_txn, DecodeTxnId. rewrite H4. cbn [mbind outcome_bind bind].
  rewrite Hid. cbn [negb]. eexists. split; [reflexivity|].
  split; [|split; reflexivity].
  destruct Hinv as [Hs Hp Hit Hdb Hcur].
  constructor; cbn [r_memTable batchData dbTxnId curTxnId]; try assumption.
  intros t l Hl.
  destruct (decide (get_u32be (take 4 (Key r)) = t)) as [<-|Hne].
  - rewrite lookup_insert_eq in Hl. injection Hl as <-.
    apply Forall_app. split.
    + destruct (batchData st !! get_u32be (take 4 (Key r))) as [l0|] eqn:E; cbn [default].
      * exact (Hit _ _ E).
      * constructor.
    + constructor; [|constructor]. intros Hput. cbn [td_rec td_pos Key RecordType_] in *.
      split; cbn [fst snd].
      * pose proof (len_drop_le 4 (Key r)). lia.
      * split; [lia|]. exists f, (mkRecord (RecordType_ r) (drop 4 (Key r)) (Value r)).
        split; [rewrite Hpos; exact Hf|].
        split; [apply Hread, strip_txn_op; assumption|].
        split; [reflexivity|]. cbn [RecordType_]. rewrite Hput. discriminate.
  - rewrite lookup_insert_ne in Hl by exact Hne. exact (Hit _ _ Hl).
Qed.

Lemma apply_txnData_inv d Q l : forall m,
  Forall (item_ok d) l -> sorted m -> Forall (points d Q) m ->
  sorted (fold_left apply_txnData l m) /\ Forall (points d Q) (fold_left apply_txnData l m).
Proof.
  induction l as [|x l IH]; intros m Hl Hs Hp; [auto|].
  inversion_clear Hl as [|? ? Hx Hl']. cbn [fold_left]. apply IH; [exact Hl'| |].
  - unfold apply_txnData.
    destruct (bool_decide (RecordType_ (td_rec x) = RecordTypeTxnPut));
      [apply sorted_Put, Hs|].
    destruct (bool_decide (RecordType_ (td_rec x) = RecordTypeTxnDelete));
      [apply sorted_Delete, Hs | exact Hs].
  - unfold apply_txnData.
    destruct (bool_decide_reflect (RecordType_ (td_rec x) = RecordTypeTxnPut)) as [E|_].
    + apply Forall_Put; [|exact Hp].
      apply (points_mono d (fun _ => False)); [contradiction | exact (Hx E)].
    + destruct (bool_decide (RecordType_ (td_rec x) = RecordTypeTxnDelete));
        [apply Forall_Delete, Hp | exact Hp].
Qed.

Lemma updatedFunc_rinv d Q fid f r pos st s' :
  wal_files d !! fid = Some f -> 0 <= fid -> FileId pos = fid -> within_caps r ->
  (forall rec, strip_txn r = Ok rec -> read_in f pos = Ok rec) ->
  rinv d Q st -> ctl_step (ctl_of st) r = Some s' ->
  exists st', updatedFunc st r pos = Ok st' /\ rinv d Q st' /\ ctl_of st' = s'.
Proof.
  intros Hf Hfid Hpos Hcaps Hread Hinv Hctl.
  unfold ctl_step in Hctl. unfold updatedFunc.
  destruct (bool_decide_reflect (RecordType_ r = RecordTypeBegin)) as [EB|NB].
  - (* a begin record *)
    unfold DecodeTxnId. destruct (len (Key r) <? 4) eqn:E4; [discriminate|].
    injection Hctl as <-. cbn [mbind outcome_bind bind]. eexists. split; [reflexivity|].
    split; [|reflexivity].
    destruct Hinv as [Hs Hp Hit Hdb Hcur].
    constructor; cbn [r_memTable batchData dbTxnId curTxnId]; try assumption.
    apply get_u32be_range.
  - unfold ctl_of in Hctl. destruct (txnFlag st) eqn:Efl.
    + (* inside a transaction *)
      unfold is_txn_rec in Hctl.
      destruct (bool_decide_reflect (RecordType_ r = RecordTypeTxnPut)) as [EP|NP].
      { cbn [orb] in Hctl.
        destruct (len (Key r) <? 4) eqn:E4; [discriminate|].
        destruct (get_u32be (take 4 (Key r)) =? curTxnId st) eqn:Eid;
          cbn [negb] in Hctl; [|discriminate].
        rewrite bool_decide_eq_false_2 in Hctl by (rewrite EP; discriminate).
        injection Hctl as <-.
        destruct (buffer_txn_rinv d Q fid f r pos st Hf Hfid Hpos Hcaps Hread Hinv)
          as (st' & Hb & Hinv' & Hfl' & Hcur'); try assumption.
        { unfold is_txn_op. rewrite EP. reflexivity. }
        exists st'. split; [exact Hb|]. split; [exact Hinv'|].
        unfold ctl_of. rewrite Hfl', Efl, Hcur'. reflexivity. }
      destruct (bool_decide_reflect (RecordType_ r = RecordTypeTxnDelete)) as [ED|ND].
      { cbn [orb] in Hctl.
        destruct (len (Key r) <? 4) eqn:E4; [discriminate|].
        destruct (get_u32be (take 4 (Key r)) =? curTxnId st) eqn:Eid;
          cbn [negb] in Hctl; [|discriminate].
        rewrite bool_decide_eq_false_2 in Hctl by (rewrite ED; discriminate).
        injection Hctl as <-.
        destruct (buffer_txn_rinv d Q fid f r pos st Hf Hfid Hpos Hcaps Hread Hinv)
          as (st' & Hb & Hinv' & Hfl' & Hcur'); try assumption.
        { unfold is_txn_op. rewrite ED. apply orb_true_r. }
        exists st'. split; [exact Hb|]. split; [exact Hinv'|].
        unfold ctl_of. rewrite Hfl', Efl, Hcur'. reflexivity. }
      destruct (bool_decide_reflect (RecordType_ r = RecordTypeTxnCommit)) as [EC|NC].
      { cbn [orb] in Hctl.
        destruct (len (Key r) <? 4) eqn:E4; [discriminate|].
        destruct (get_u32be (take 4 (Key r)) =? curTxnId st) eqn:Eid;
          cbn [negb] in Hctl; [|discriminate].
        injection Hctl as <-.
        unfold DecodeTxnId. rewrite E4. cbn [mbind outcome_bind bind].
        rewrite Eid. cbn [negb]. eexists. split; [reflexivity|].
        split; [|reflexivity].
        pose proof (rinv_items_lookup d Q st (get_u32be (take 4 (Key r))) Hinv) as Hl.
        destruct Hinv as [Hs Hp Hit Hdb Hcur].
        destruct (apply_txnData_inv d Q _ (r_memTable st) Hl Hs Hp) as [Hs' Hp'].
        constructor; cbn [r_memTable batchData dbTxnId curTxnId]; try assumption.
        - intros t l Hlk. apply lookup_delete_Some in Hlk. destruct Hlk as [_ Hlk].
          exact (Hit _ _ Hlk).
        - lia. }
      cbn [orb] in Hctl. injection Hctl as <-.
      exists st. split; [reflexivity|]. split; [exact Hinv|].
      unfold ctl_of. rewrite Efl. reflexivity.
    + (* outside a transaction *)
      injection Hctl as <-.
      destruct (bool_decide_reflect (RecordType_ r = RecordTypeDelete)) as [ED|ND].
      { eexists. split; [reflexivity|]. split; [|reflexivity].
        destruct Hinv as [Hs Hp Hit Hdb Hcur].
        constructor; cbn [r_memTable batchData dbTxnId curTxnId]; try assumption.
        - apply sorted_Delete, Hs.
        - apply Forall_Delete, Hp. }
      destruct (bool_decide_reflect (RecordType_ r = RecordTypePut)) as [EP|NP].
      { eexists. split; [reflexivity|]. split; [|reflexivity].
        destruct Hinv as [Hs Hp Hit Hdb Hcur]. destruct Hcaps as [Hck Hcv].
        constructor; cbn [r_memTable batchData dbTxnId curTxnId]; try assumption.
        - apply sorted_Put, Hs.
        - apply Forall_Put; [|exact Hp]. split; cbn [fst snd]; [exact Hck|].
          split; [lia|]. exists f, r. split; [rewrite Hpos; exact Hf|].
          split; [apply Hread, strip_txn_other; unfold is_txn_op; rewrite EP; reflexivity|].
          split; [reflexivity|]. rewrite EP. discriminate. }
      exists st. split; [reflexivity|]. split; [exact Hinv|].
      unfold ctl_of. rewrite Efl. reflexivity.
Qed.

(** ** One segment *)

Lemma apply_records_rinv d Q fid rs : forall pre st s',
  wal_files d !! fid = Some (seg_bytes (pre ++ rs)) -> 0 <= fid ->
  Forall within_caps rs ->
  rinv d Q st -> ctl_run (ctl_of st) rs = Some s' ->
  exists off' st',
    apply_records fid (len (seg_bytes pre)) rs st = Ok (off', st') /\
    rinv d Q st' /\ ctl_of st' = s'.
Proof.
  induction rs as [|r rs IH]; intros pre st s' Hf Hfid Hcaps Hinv Hctl.
  - cbn [ctl_run] in Hctl. injection Hctl as <-.
    exists (len (seg_bytes pre)), st. auto.
  - inversion_clear Hcaps as [|? ? Hr Hcaps']. cbn [ctl_run] in Hctl.
    destruct (ctl_step (ctl_of st) r) as [s1|] eqn:Es; [|discriminate].
    cbn [apply_records].
    destruct (updatedFunc_rinv d Q fid (seg_bytes (pre ++ r :: rs)) r
                (mkPos fid (len (seg_bytes pre)) (13 + len (Key r) + len (Value r)))
                st s1 Hf Hfid eq_refl Hr) as (st1 & Hu & Hinv1 & Hc1).
    + intros rec Hs. apply read_in_seg; assumption.
    + exact Hinv.
    + exact Es.
    + rewrite Hu. cbn [mbind outcome_bind bind].
      rewrite <- len_seg_bytes_snoc.
      apply (IH (pre ++ [r]) st1 s').
      * rewrite <- app_assoc. exact Hf.
      * exact Hfid.
      * exact Hcaps'.
      * exact Hinv1.
      * rewrite Hc1. exact Hctl.
Qed.

Lemma rinv_init d Q m t :
  sorted m -> Forall (points d Q) m -> 0 <= t < 2 ^ 32 -> rinv d Q (replay_init m t).
Proof.
  intros Hs Hp Ht. constructor; cbn [replay_init r_memTable batchData dbTxnId curTxnId];
    try assumption; [|lia].
  intros t0 l H. rewrite lookup_empty in H. discriminate.
Qed.

(** [ReadAll] on a segment whose records the control state accepts: it
    succeeds, and the index it gives is ascending and points into the
    directory. *)
Lemma ReadAll_rinv d Q fid rs m t :
  wal_files d !! fid = Some (seg_bytes rs) -> 0 <= fid ->
  Forall within_caps rs -> seg_fits rs -> is_Some (ctl_run None rs) ->
  sorted m -> Forall (points d Q) m -> 0 <= t < 2 ^ 32 ->
  exists off m' t',
    ReadAll (mkWal fid 0) d m t = Ok (mkWal fid off, m', t') /\
    sorted m' /\ Forall (points d Q) m' /\ 0 <= t' < 2 ^ 32.
Proof.
  intros Hf Hfid Hcaps Hfit [s' Hctl] Hs Hp Ht.
  rewrite (ReadAll_frames (mkWal fid 0) d m t (map with_crc rs) []).
  - rewrite map_map. cbn [with_crc fst]. rewrite map_id. cbn [w_fileId].
    destruct (apply_records_rinv d Q fid rs [] (replay_init m t) s') as
      (off & st & Hrun & Hinv & _); try assumption.
    + apply rinv_init; assumption.
    + change (len (seg_bytes [])) with 0 in Hrun. rewrite Hrun.
      cbn [mbind outcome_bind bind]. exists off, (r_memTable st), (dbTxnId st).
      split; [reflexivity|]. destruct Hinv as [H1 H2 _ H4 _]. auto.
  - rewrite app_nil_r, frames_with_crc. exact Hf.
  - apply with_crc_caps, Hcaps.
  - rewrite app_nil_r, frames_with_crc. exact Hfit.
  - apply tail_stops_nil.
Qed.

(** ** All the segments *)

Lemma loadWalFiles_loop_rinv d Q segs : forall base bc,
  segs <> [] -> LoadHint (conf bc) = true -> 0 <= base ->
  segs_at d base segs -> Forall (Forall within_caps) segs -> Forall seg_fits segs ->
  Forall (fun rs => is_Some (ctl_run None rs)) segs ->
  sorted (memTable bc) -> Forall (points d Q) (memTable bc) -> 0 <= txnId bc < 2 ^ 32 ->
  exists bc',
    loadWalFiles_loop (seqZ base (Z.of_nat (length segs))) bc d = Ok (bc', d) /\
    sorted (memTable bc') /\ Forall (points d Q) (memTable bc') /\
    0 <= txnId bc' < 2 ^ 32 /\
    conf bc' = conf bc /\ flock bc' = flock bc /\
    fileId bc' = base + Z.of_nat (length segs) - 1 /\
    (exists rs, last segs = Some rs /\
                activeWal bc' = Some (mkWal (fileId bc') (len (seg_bytes rs)))) /\
    (forall j, base <= j < base + Z.of_nat (length segs) - 1 ->
       exists w, oldWal bc' !! j = Some w /\ w_fileId w = j) /\
    (forall j, ~ (base <= j < base + Z.of_nat (length segs) - 1) ->
       oldWal bc' !! j = oldWal bc !! j).
Proof.
  induction segs as [|rs segs IH]; intros base bc Hne Hh Hb Hat HC Hfit HS Hs Hp Ht;
    [contradiction|].
  inversion_clear HC as [|? ? HCrs HC']. inversion_clear Hfit as [|? ? Hfrs Hfit'].
  inversion_clear HS as [|? ? HSrs HS'].
  assert (Hf : wal_files d !! base = Some (seg_bytes rs)).
  { specialize (Hat 0%nat rs eq_refl). rewrite Z.add_0_r in Hat. exact Hat. }
  rewrite seqZ_cons by (cbn [length]; lia).
  replace (Z.pred (Z.of_nat (length (rs :: segs)))) with (Z.of_nat (length segs))
    by (cbn [length]; lia).
  destruct (ReadAll_rinv d Q base rs (memTable bc) (txnId bc) Hf Hb HCrs Hfrs HSrs Hs Hp Ht)
    as (off & m1 & t1 & Hread & Hs1 & Hp1 & Ht1).
  assert (Hstep : forall rest,
    loadWalFiles_loop (base :: rest) bc d =
      loadWalFiles_loop rest
        match rest with
        | [] => mkBitcask (conf bc) (Some (mkWal base (len (seg_bytes rs)))) (oldWal bc) m1
                  base (fileIds bc) t1 (flock bc)
        | _ => mkBitcask (conf bc) (activeWal bc)
                 (<[base := mkWal base (len (seg_bytes rs))]> (oldWal bc)) m1
                 (fileId bc) (fileIds bc) t1 (flock bc)
        end d).
  { intros rest. cbn [loadWalFiles_loop]. unfold NewWal. rewrite Hf, Hh.
    rewrite Hread. cbn [mbind outcome_bind bind].
    unfold UpdateOffset. cbn [w_fileId]. rewrite Hf.
    rewrite (wrap32_small (len (seg_bytes rs))); [reflexivity|].
    pose proof (len_nonneg (seg_bytes rs)). pose proof MaxRecordLength_value.
    unfold seg_fits in Hfrs. lia. }
  rewrite Hstep.
  destruct segs as [|rs2 segs].
  - cbn [length Z.of_nat seqZ]. rewrite seqZ_nil by lia. cbn [loadWalFiles_loop].
    eexists. split; [reflexivity|].
    cbn [memTable txnId conf flock fileId activeWal oldWal length last].
    split; [exact Hs1|]. split; [exact Hp1|]. split; [exact Ht1|].
    split; [reflexivity|]. split; [reflexivity|]. split; [lia|].
    split; [exists rs; split; reflexivity|].
    split; [intros j Hj; lia | reflexivity].
  - set (bc1 := mkBitcask (conf bc) (activeWal bc)
                  (<[base := mkWal base (len (seg_bytes rs))]> (oldWal bc))
                  m1 (fileId bc) (fileIds bc) t1 (flock bc)).
    assert (Hrest : seqZ (Z.succ base) (Z.of_nat (length (rs2 :: segs)))
                    = Z.succ base :: seqZ (Z.succ (Z.succ base)) (Z.of_nat (length segs))).
    { rewrite seqZ_cons by (cbn [length]; lia). f_equal. f_equal. cbn [length]. lia. }
    rewrite Hrest. fold bc1. rewrite <- Hrest.
    destruct (IH (Z.succ base) bc1 ltac:(discriminate) Hh ltac:(lia)
                (segs_at_tail _ _ _ _ Hat) HC' Hfit' HS' Hs1 Hp1 Ht1)
      as (bc' & Hrun & Hs' & Hp' & Ht' & Hc & Hfl & Hfid & (rsl & Hlast & Ha) & Hold & Hother).
    exists bc'. split; [exact Hrun|].
    cbn [memTable txnId conf flock bc1] in *.
    split; [exact Hs'|]. split; [exact Hp'|]. split; [exact Ht'|].
    split; [exact Hc|]. split; [exact Hfl|].
    split; [rewrite Hfid; cbn [length]; lia|].
    split; [exists rsl; split; [exact Hlast | exact Ha]|].
    split.
    + intros j Hj. destruct (decide (j = base)) as [->|Hjb].
      * rewrite Hother by lia. cbn [oldWal bc1]. rewrite lookup_insert_eq.
        eexists. split; reflexivity.
      * apply Hold. cbn [length] in *. lia.
    + intros j Hj. rewrite Hother by (cbn [length] in *; lia).
      cbn [oldWal bc1]. apply lookup_insert_ne. cbn [length] in *. lia.
Qed.

(** * Opening a directory that the engine wrote *)

Lemma points_reads bc d n Q k pos :
  wf bc d n -> covers bc -> points d Q (k, pos) ->
  len k <= MaxKeyLength /\
  exists rec, reads bc d pos rec /\ Key rec = k /\ (RecordType_ rec = RecordTypeDelete -> Q k).
Proof.
  intros Hwf Hcov (Hk & Hfid & f & rec & Hf & Hr & Hkey & Hq). cbn [fst snd] in *.
  split; [exact Hk|]. exists rec. split; [|auto].
  pose proof Hwf as [(aw & fa & Ha & Hid & Hfa & Hoff) _ Hfiles _ _].
  assert (Hrange : 0 <= FileId pos <= fileId bc) by (apply Hfiles; rewrite Hf; eauto).
  unfold reads, targetWal. destruct (FileId pos =? fileId bc) eqn:E.
  - apply Z.eqb_eq in E. rewrite Ha. exists aw. split; [reflexivity|].
    rewrite (ReadPos_read_in _ _ _ f); [exact Hr|]. rewrite Hid, <- E. exact Hf.
  - apply Z.eqb_neq in E. destruct (Hcov (FileId pos) ltac:(lia)) as (w & Hw & Hwid).
    rewrite Hw. exists w. split; [reflexivity|].
    rewrite (ReadPos_read_in _ _ _ f); [exact Hr|]. rewrite Hwid. exact Hf.
Qed.

Lemma reads_points bc d n (Q : bytes -> Prop) k pos rec :
  wf bc d n -> len k <= MaxKeyLength -> reads bc d pos rec -> Key rec = k ->
  (RecordType_ rec = RecordTypeDelete -> Q k) -> points d Q (k, pos).
Proof.
  intros Hwf Hk (w & Ht & Hr) Hkey Hq.
  destruct (targetWal_fileId bc d n pos w Hwf Ht) as [Hw Hrange].
  destruct (ReadPos_Ok_file _ _ _ _ Hr) as (f & Hf & Hrd).
  split; [exact Hk|]. split; [cbn [snd]; lia|]. exists f, rec. cbn [fst snd].
  rewrite <- Hw. auto.
Qed.

Lemma entries_inv_points bc d n Q :
  wf bc d n -> entries_inv Q bc d -> Forall (points d Q) (memTable bc).
Proof.
  intros Hwf Hinv. rewrite Forall_forall. intros [k pos] Hin.
  apply (Get_Some_elem _ _ _ (wf_sorted _ _ _ Hwf)) in Hin.
  destruct (Hinv _ _ Hin) as (Hk & rec & Hrd & Hkey & Hq).
  exact (reads_points bc d n Q k pos rec Hwf Hk Hrd Hkey Hq).
Qed.

Lemma points_entries_inv bc d n Q :
  wf bc d n -> covers bc -> Forall (points d Q) (memTable bc) -> entries_inv Q bc d.
Proof.
  intros Hwf Hcov HF k pos HG.
  apply (Get_Some_elem _ _ _ (wf_sorted _ _ _ Hwf)) in HG.
  rewrite Forall_forall in HF. exact (points_reads bc d n Q k pos Hwf Hcov (HF _ HG)).
Qed.

(** The hint phase of [NewBitcask]. *)
Lemma LoadHint_ok c Q d :
  hint_ok d Q ->
  exists m t fid,
    LoadHint_ (mkBitcask c None ∅ [] 0 [] 0 flock_New) d =
      Ok (mkBitcask c None ∅ m fid [] t flock_New) /\
    sorted m /\ Forall (points d Q) m /\ 0 <= t < 2 ^ 32.
Proof.
  unfold hint_ok. intros Hh. destruct (hint_file d) as [h|] eqn:Eh.
  - destruct Hh as (t & es & -> & Ht & Hs & Hu & Hp).
    rewrite (LoadHint_entries _ d t es Eh Hu Ht). cbn [conf activeWal oldWal memTable fileId fileIds flock].
    rewrite (fold_Put_sorted _ Hs). eexists _, _, _. split; [reflexivity|]. auto.
  - exists [], 0, 0. unfold LoadHint_. rewrite Eh. split; [reflexivity|].
    split; [exact I|]. split; [constructor | lia].
Qed.

Lemma last_lookup_length {A} (l : list A) x :
  last l = Some x -> l !! (length l - 1)%nat = Some x.
Proof. rewrite last_lookup. replace (pred (length l)) with (length l - 1)%nat by lia. auto. Qed.

(** [NewBitcask] on such a directory, with the option [LoadHint] set:
    it succeeds, changes nothing on disk, and every index entry can be
    read. *)
Lemma open_dir c Q d segs n :
  conf_replay_ok c -> LoadHint c = true -> dir_ok c Q d segs ->
  Z.of_nat (length segs) - 1 <= n ->
  exists bc',
    NewBitcask c d = Ok (bc', d) /\ good Q c bc' d n /\ covers bc' /\
    fileId bc' = Z.of_nat (length segs) - 1 /\ 0 <= txnId bc' < 2 ^ 32.
Proof.
  intros [Hc0 Hc1] Hh [Hne Hdom Hat Hcaps Hsize Hctl Hhint] Hn.
  destruct (LoadHint_ok c Q d Hhint) as (m0 & t0 & fid0 & Hload & Hs0 & Hp0 & Ht0).
  unfold NewBitcask. rewrite Hload. cbn [mbind outcome_bind bind].
  unfold loadWalFiles. cbn [fileIds app].
  pose proof (ReadDir_sorted d (length segs) Hdom) as Hsort.
  destruct (ReadDir d) as [|id0 ids] eqn:Ed.
  { exfalso. assert (H0 : 0 ∈ ReadDir d).
    { apply elem_of_ReadDir, Hdom. destruct segs; [contradiction|]. cbn [length]. lia. }
    rewrite Ed in H0. inversion H0. }
  rewrite Hsort. cbn [conf activeWal oldWal memTable fileId txnId flock].
  set (bc1 := mkBitcask c None ∅ m0 fid0 (seqZ 0 (Z.of_nat (length segs))) t0 flock_New).
  assert (Hfit : Forall seg_fits segs).
  { eapply Forall_impl; [exact Hsize|]. intros rs Hrs. unfold seg_fits. cbv beta in Hrs. lia. }
  destruct (loadWalFiles_loop_rinv d Q segs 0 bc1 Hne Hh ltac:(lia) Hat Hcaps Hfit Hctl
              Hs0 Hp0 Ht0)
    as (bc' & Hrun & Hs' & Hp' & Ht' & Hc & Hfl & Hfid & (rsl & Hlast & Ha) & Hold & Hother).
  rewrite Hrun. cbn [mbind outcome_bind bind]. rewrite Ha.
  cbn [conf bc1 oldWal] in Hc, Hother.
  assert (Hlen : (0 < length segs)%nat) by (destruct segs; [contradiction | cbn [length]; lia]).
  assert (Hfile : wal_files d !! fileId bc' = Some (seg_bytes rsl)).
  { pose proof (Hat _ _ (last_lookup_length _ _ Hlast)) as H.
    replace (0 + Z.of_nat (length segs - 1)) with (fileId bc') in H by lia. exact H. }
  assert (Hwf : forall t, wf (set_txnId t bc') d n).
  { intros t. constructor; cbn [set_txnId activeWal fileId oldWal memTable].
    - exists (mkWal (fileId bc') (len (seg_bytes rsl))), (seg_bytes rsl).
      split; [exact Ha|]. split; [reflexivity|]. split; [exact Hfile | reflexivity].
    - lia.
    - intros id Hid. apply Hdom in Hid. lia.
    - intros id w Hw.
      destruct (decide (0 <= id < 0 + Z.of_nat (length segs) - 1)) as [Hj|Hj].
      + destruct (Hold id Hj) as (w' & Hw' & Hid). rewrite Hw in Hw'. injection Hw' as <-.
        split; [exact Hid|]. split; [lia|]. apply Hdom. lia.
      + rewrite (Hother id Hj), lookup_empty in Hw. discriminate.
    - exact Hs'. }
  assert (Hcov : forall t, covers (set_txnId t bc')).
  { intros t j Hj. cbn [set_txnId fileId oldWal] in *. apply Hold. lia. }
  assert (Hset : set_txnId (txnId bc') bc' = bc') by (destruct bc'; reflexivity).
  set (bc2 := if negb (txnId bc' =? 0) then set_txnId (wrap32 (txnId bc' + 1)) bc' else bc').
  assert (Hbc2 : exists t, bc2 = set_txnId t bc' /\ 0 <= t < 2 ^ 32).
  { unfold bc2. destruct (txnId bc' =? 0); cbn [negb].
    - exists (txnId bc'). rewrite Hset. auto.
    - eexists. split; [reflexivity | apply wrap32_range]. }
  destruct Hbc2 as (t & -> & Htr).
  exists (set_txnId t bc'). split; [reflexivity|].
  split; [|split; [apply Hcov | split; [exact Hfid | exact Htr]]].
  split; [apply Hwf|]. split; [|exact Hc].
  apply (points_entries_inv _ d n Q (Hwf t) (Hcov t)). exact Hp'.
Qed.

(** * The segments while the engine runs *)

Lemma points_ext d d' Q e :
  (forall id f, wal_files d !! id = Some f -> exists x, wal_files d' !! id = Some (f ++ x)) ->
  points d Q e -> points d' Q e.
Proof.
  intros Hext (Hk & Hfid & f & rec & Hf & Hr & Hkey & Hq).
  destruct (Hext _ _ Hf) as [x Hx].
  split; [exact Hk|]. split; [exact Hfid|]. exists (f ++ x), rec.
  split; [exact Hx|]. split; [apply read_in_app, Hr|]. auto.
Qed.

Lemma hint_ok_ext d d' Q :
  hint_file d' = hint_file d ->
  (forall id f, wal_files d !! id = Some f -> exists x, wal_files d' !! id = Some (f ++ x)) ->
  hint_ok d Q -> hint_ok d' Q.
Proof.
  unfold hint_ok. intros Hh Hext H. rewrite Hh. destruct (hint_file d) as [h|]; [|exact I].
  destruct H as (t & es & Heq & Ht & Hs & Hu & Hp). exists t, es.
  repeat (split; [assumption|]).
  eapply Forall_impl; [exact Hp|]. intros e He. exact (points_ext d d' Q e Hext He).
Qed.

Lemma ctl_run_snoc s cur r :
  ctl_run s (cur ++ [r]) =
    match ctl_run s cur with
    | Some s1 => ctl_step s1 r
    | None => None
    end.
Proof.
  revert s. induction cur as [|x cur IH]; intros s; cbn [app ctl_run].
  - destruct (ctl_step s r); reflexivity.
  - destruct (ctl_step s x); [apply IH | reflexivity].
Qed.

Lemma lookup_snoc_inv {A} (l : list A) x i y :
  (l ++ [x]) !! i = Some y -> i <> length l -> l !! i = Some y.
Proof.
  intros Hi Hne. destruct (decide (i < length l)%nat) as [Hlt|Hge].
  - rewrite lookup_app_l in Hi by exact Hlt. exact Hi.
  - rewrite lookup_app_r in Hi by lia.
    destruct (i - length l)%nat as [|j] eqn:Ej; [lia|].
    cbn in Hi. rewrite ?lookup_nil in Hi. discriminate Hi.
Qed.

(** An append, with the rotation that may come before it. *)
Lemma append_laid c Q bc d n old cur s rec s1 s2 :
  wf bc d n -> laid c Q bc d old cur s -> conf bc = c -> conf_ok c -> n + 1 < 2 ^ 32 ->
  within_caps rec -> ctl_step s rec = Some s1 -> ctl_step None rec = Some s2 ->
  exists bc1 d1 aw aw' d2 pos old' cur' s',
    tryRotate bc d = Ok (bc1, d1) /\ activeWal bc1 = Some aw /\
    write aw d1 rec = Ok (aw', d2, pos) /\ (s' = s1 \/ s' = s2) /\
    (forall m, laid c Q (set_memTable m (set_activeWal aw' bc1)) d2 old' cur' s').
Proof.
  intros Hwf [Hlen Hfiles Hcaps Hsize Hctl Hcur Hcov Hhint Htxn] Hc [Hc0 Hc1] Hn Hrec Hs1 Hs2.
  pose proof Hwf as [(aw & f & Ha & Hid & Hf & Hoff) Hfid Hwfiles Hold _].
  assert (Hrl : 0 <= len (Encode rec) <= MaxRecordLength).
  { destruct Hrec as [Hk Hv]. rewrite len_Encode. unfold MaxRecordLength.
    pose proof (len_nonneg (Key rec)). pose proof (len_nonneg (Value rec)). lia. }
  pose proof MaxRecordLength_value as HM.
  assert (Hfc : wal_files d !! fileId bc = Some (seg_bytes cur)).
  { rewrite <- Hlen. rewrite <- (Z.add_0_l (Z.of_nat (length old))).
    apply Hfiles. apply list_lookup_middle. reflexivity. }
  rewrite Hf in Hfc. injection Hfc as ->.
  assert (Hsz : len (seg_bytes cur) <= MaxFileSize c + MaxRecordLength).
  { rewrite Forall_app in Hsize. destruct Hsize as [_ Hs].
    inversion_clear Hs as [|? ? Hs' _]. exact Hs'. }
  pose proof (len_nonneg (seg_bytes cur)) as Hn0.
  unfold tryRotate. rewrite Ha. cbn [deref mbind outcome_bind bind]. unfold Size.
  rewrite Hoff, Hc.
  destruct (len (seg_bytes cur) <? MaxFileSize c) eqn:E.
  - (* the record goes to the active segment *)
    apply Z.ltb_lt in E.
    exists bc, d, aw. unfold write, file_of. rewrite Hid, Hf.
    cbn [mbind outcome_bind bind]. rewrite Hoff.
    rewrite (wrap32_small' (len (Encode rec))) by lia.
    rewrite (wrap32_small' (len (seg_bytes cur) + len (Encode rec))) by lia.
    eexists _, _, _, old, (cur ++ [rec]), s1.
    split; [reflexivity|]. split; [exact Ha|]. split; [reflexivity|].
    split; [left; reflexivity|].
    intros m. constructor;
      cbn [fileId txnId oldWal set_memTable set_activeWal wal_files hint_file set_wal_files].
    + exact Hlen.
    + intros i rs Hi. cbn [wal_files set_wal_files].
      destruct (decide (i = length old)) as [->|Hne].
      * rewrite list_lookup_middle in Hi by reflexivity. injection Hi as <-.
        rewrite Z.add_0_l, Hlen, lookup_insert_eq, seg_bytes_snoc. reflexivity.
      * rewrite lookup_insert_ne by lia. apply Hfiles.
        destruct (decide (i < length old)%nat) as [Hlt|Hge].
        -- rewrite lookup_app_l in Hi |- * by exact Hlt. exact Hi.
        -- rewrite lookup_app_r in Hi by lia.
           destruct (i - length old)%nat as [|j] eqn:Ej; [lia|].
           cbn in Hi. rewrite ?lookup_nil in Hi. discriminate Hi.
    + rewrite Forall_app in *. destruct Hcaps as [Hp1 Hp2].
      split; [exact Hp1|]. inversion_clear Hp2 as [|? ? Hp3 _].
      constructor; [|constructor]. rewrite Forall_app. split; [exact Hp3|].
      constructor; [exact Hrec | constructor].
    + rewrite Forall_app in *. destruct Hsize as [Hz1 _].
      split; [exact Hz1|]. constructor; [|constructor].
      rewrite seg_bytes_snoc, len_app. lia.
    + exact Hctl.
    + rewrite ctl_run_snoc, Hcur. exact Hs1.
    + exact Hcov.
    + apply (hint_ok_ext d); [reflexivity | | exact Hhint].
      intros id0 f0 Hf0. cbn [wal_files set_wal_files].
      destruct (decide (id0 = fileId bc)) as [->|Hne].
      * rewrite Hf in Hf0. injection Hf0 as <-. rewrite lookup_insert_eq. eauto.
      * rewrite lookup_insert_ne by congruence. exists []. rewrite app_nil_r. exact Hf0.
    + exact Htxn.
  - (* rotation: the record opens a new segment *)
    apply Z.ltb_ge in E.
    unfold mustRotate. rewrite Ha. cbn [deref mbind outcome_bind bind].
    assert (Hw : wrap32 (fileId bc + 1) = fileId bc + 1) by (apply wrap32_small; lia).
    rewrite Hw.
    assert (Hnone : wal_files d !! (fileId bc + 1) = None).
    { destruct (wal_files d !! (fileId bc + 1)) eqn:E1; [|reflexivity].
      assert (Hs : is_Some (wal_files d !! (fileId bc + 1))) by (rewrite E1; eauto).
      apply Hwfiles in Hs. lia. }
    unfold NewWal. rewrite Hnone.
    eexists _, _, (mkWal (fileId bc + 1) 0), _, _, _, (old ++ [cur]), [rec], s2.
    split; [reflexivity|]. split; [reflexivity|].
    split.
    { unfold write, file_of. cbn [w_fileId w_offset wal_files set_wal_files].
      rewrite lookup_insert_eq. cbn [mbind outcome_bind bind app].
      rewrite (wrap32_small' (len (Encode rec))) by lia.
      rewrite Z.add_0_l, (wrap32_small' (len (Encode rec))) by lia.
      reflexivity. }
    split; [right; reflexivity|].
    intros m. constructor;
      cbn [fileId txnId oldWal set_memTable set_activeWal wal_files hint_file set_wal_files].
    + rewrite length_app. cbn [length]. lia.
    + intros i rs Hi. cbn [wal_files set_wal_files].
      destruct (decide (i = length (old ++ [cur]))) as [->|Hne].
      * rewrite list_lookup_middle in Hi by reflexivity. injection Hi as <-.
        rewrite length_app. cbn [length].
        replace (0 + Z.of_nat (length old + 1)) with (fileId bc + 1) by lia.
        rewrite lookup_insert_eq. unfold seg_bytes. cbn [map concat].
        rewrite app_nil_r. reflexivity.
      * pose proof (lookup_snoc_inv _ _ _ _ Hi Hne) as Hi'.
        pose proof (lookup_lt_Some _ _ _ Hi') as Hlt.
        rewrite length_app in Hlt. cbn [length] in Hlt.
        rewrite !lookup_insert_ne by lia. apply Hfiles, Hi'.
    + rewrite Forall_app. split; [exact Hcaps|].
      constructor; [|constructor]. constructor; [exact Hrec | constructor].
    + rewrite Forall_app. split; [exact Hsize|]. constructor; [|constructor].
      unfold seg_bytes. cbn [map concat]. rewrite app_nil_r. lia.
    + rewrite Forall_app. split; [exact Hctl|]. constructor; [|constructor].
      rewrite Hcur. eauto.
    + cbn [ctl_run]. rewrite Hs2. reflexivity.
    + intros j Hj. cbn [fileId oldWal set_memTable set_activeWal] in *.
      destruct (decide (j = fileId bc)) as [->|Hne].
      * rewrite lookup_insert_eq. exists aw. auto.
      * rewrite lookup_insert_ne by congruence. apply Hcov. lia.
    + apply (hint_ok_ext d); [reflexivity | | exact Hhint].
      intros id0 f0 Hf0. cbn [wal_files set_wal_files].
      assert (Hs : is_Some (wal_files d !! id0)) by (rewrite Hf0; eauto).
      apply Hwfiles in Hs.
      rewrite !lookup_insert_ne by lia. exists []. rewrite app_nil_r. exact Hf0.
    + exact Htxn.
Qed.

Lemma laid_same c Q bc bc' d old cur s :
  fileId bc' = fileId bc -> oldWal bc' = oldWal bc -> txnId bc' = txnId bc ->
  laid c Q bc d old cur s -> laid c Q bc' d old cur s.
Proof.
  intros H1 H2 H3 [Hlen Hfiles Hcaps Hsize Hctl Hcur Hcov Hhint Htxn].
  constructor; try assumption.
  - congruence.
  - intros j Hj. rewrite H1 in Hj. rewrite H2. apply Hcov, Hj.
  - congruence.
Qed.

Lemma laid_set_txnId c Q bc d old cur s t :
  0 <= t < 2 ^ 32 -> laid c Q bc d old cur s -> laid c Q (set_txnId t bc) d old cur s.
Proof.
  intros Ht [Hlen Hfiles Hcaps Hsize Hctl Hcur Hcov Hhint Htxn].
  constructor; try assumption.
Qed.

(** What the operations that append one record have in common: rotation if
    the active segment is full, the write, and an update [G] of the engine
    that leaves the segments alone. *)
Lemma append_op_laid c Q bc d n old cur s rec s1 s2 (G : Bitcask -> Pos -> Bitcask) bc' d' :
  wf bc d n -> laid c Q bc d old cur s -> conf bc = c -> conf_ok c -> n + 1 < 2 ^ 32 ->
  within_caps rec -> ctl_step s rec = Some s1 -> ctl_step None rec = Some s2 ->
  (forall b p, fileId (G b p) = fileId b /\ oldWal (G b p) = oldWal b /\
               txnId (G b p) = txnId b) ->
  ('(bc1, d1) ← tryRotate bc d;
   aw ← deref (activeWal bc1);
   '(aw', d2, pos) ← write aw d1 rec;
   Ok (G (set_activeWal aw' bc1) pos, d2)) = Ok (bc', d') ->
  exists old' cur' s', (s' = s1 \/ s' = s2) /\ laid c Q bc' d' old' cur' s'.
Proof.
  intros Hwf Hl Hc Hok Hn Hrec Hs1 Hs2 HG Hrun.
  destruct (append_laid c Q bc d n old cur s rec s1 s2 Hwf Hl Hc Hok Hn Hrec Hs1 Hs2)
    as (bc1 & d1 & aw & aw' & d2 & pos & old' & cur' & s' & Ht & Ha & Hw & Hs' & Hl').
  rewrite Ht in Hrun. cbn [mbind outcome_bind bind] in Hrun. rewrite Ha in Hrun.
  cbn [deref mbind outcome_bind bind] in Hrun. rewrite Hw in Hrun.
  cbn [mbind outcome_bind bind] in Hrun. injection Hrun as <- <-.
  exists old', cur', s'. split; [exact Hs'|].
  destruct (HG (set_activeWal aw' bc1) pos) as (H1 & H2 & H3).
  apply (laid_same c Q (set_memTable (memTable bc1) (set_activeWal aw' bc1)));
    [exact H1 | exact H2 | exact H3 | apply Hl'].
Qed.

(** ** The control state and the records that the engine writes *)

Lemma ctl_step_NewRecord s k v : ctl_step s (NewRecord k v) = Some s.
Proof. destruct s, v; reflexivity. Qed.

Lemma take_EncodeTxnId t k : get_u32be (take 4 (EncodeTxnId t k)) = wrap32 t.
Proof.
  unfold EncodeTxnId.
  assert (Hl : 4%nat = length (put_u32be t)) by reflexivity.
  rewrite (take_app_length' _ _ 4 Hl). apply get_put_u32be_nil.
Qed.

Lemma len_EncodeTxnId t k : len (EncodeTxnId t k) = 4 + len k.
Proof. unfold EncodeTxnId. rewrite len_app, len_put_u32be. reflexivity. Qed.

Lemma EncodeTxnId_long t k : (len (EncodeTxnId t k) <? 4) = false.
Proof. rewrite len_EncodeTxnId. pose proof (len_nonneg k). apply Z.ltb_ge. lia. Qed.

Lemma ctl_step_Begin s t k :
  ctl_step s (NewTxnBegin (EncodeTxnId t k)) = Some (Some (wrap32 t)).
Proof.
  unfold ctl_step. cbn [NewTxnBegin newRecord RecordType_ Key].
  rewrite bool_decide_eq_true_2 by reflexivity.
  rewrite EncodeTxnId_long, take_EncodeTxnId. reflexivity.
Qed.

Lemma ctl_step_TxnRecord s t k v :
  in_txn t s -> ctl_step s (NewTxnRecord (EncodeTxnId t k) v) = Some s.
Proof.
  intros [-> | ->]; [destruct v; reflexivity|].
  unfold ctl_step.
  assert (Hty : RecordType_ (NewTxnRecord (EncodeTxnId t k) v) = RecordTypeTxnPut \/
                RecordType_ (NewTxnRecord (EncodeTxnId t k) v) = RecordTypeTxnDelete)
    by (destruct v; auto).
  assert (Hkey : Key (NewTxnRecord (EncodeTxnId t k) v) = EncodeTxnId t k)
    by (destruct v; reflexivity).
  rewrite Hkey, EncodeTxnId_long, take_EncodeTxnId, Z.eqb_refl.
  destruct Hty as [E|E]; rewrite E; reflexivity.
Qed.

Lemma ctl_step_Commit s t k :
  in_txn t s -> ctl_step s (NewTxnCommit (EncodeTxnId t k)) = Some None.
Proof.
  intros [-> | ->]; [reflexivity|].
  unfold ctl_step. cbn [NewTxnCommit newRecord RecordType_ Key].
  rewrite EncodeTxnId_long, take_EncodeTxnId, Z.eqb_refl. reflexivity.
Qed.

(** ** The operations *)

Lemma Put_laid c Q bc d n old cur k v bc' d' :
  wf bc d n -> laid c Q bc d old cur None -> conf bc = c -> conf_ok c -> n + 1 < 2 ^ 32 ->
  len k <= MaxKeyLength -> len (of_slice v) <= MaxValueLength ->
  Put bc d (Some k) v = Ok (bc', d') ->
  exists old' cur', laid c Q bc' d' old' cur' None.
Proof.
  intros Hwf Hl Hc Hok Hn Hk Hv HP.
  destruct (append_op_laid c Q bc d n old cur None (NewRecord k v) None None
              (fun b p => set_memTable (BTreeIndex.Put k p (memTable b)) b) bc' d'
              Hwf Hl Hc Hok Hn) as (old' & cur' & s' & Hs' & Hl').
  - apply within_caps_NewRecord; assumption.
  - apply ctl_step_NewRecord.
  - apply ctl_step_NewRecord.
  - intros b p. auto.
  - exact HP.
  - exists old', cur'. destruct Hs' as [-> | ->]; exact Hl'.
Qed.

Lemma Delete_laid c Q bc d n old cur key bc' d' :
  wf bc d n -> entries_inv Q bc d -> laid c Q bc d old cur None -> conf bc = c ->
  conf_ok c -> n + 1 < 2 ^ 32 ->
  Delete bc d key = Ok (bc', d') ->
  exists old' cur', laid c Q bc' d' old' cur' None.
Proof.
  intros Hwf Hinv Hl Hc Hok Hn HD. unfold Delete in HD.
  destruct (BTreeIndex.Get (of_slice key) (memTable bc)) as [pos0|] eqn:EG.
  - destruct (Hinv _ _ EG) as (Hk & _).
    destruct (append_op_laid c Q bc d n old cur None (NewRecord (of_slice key) None) None None
                (fun b p => set_memTable (BTreeIndex.Delete (of_slice key) (memTable b)) b)
                bc' d' Hwf Hl Hc Hok Hn) as (old' & cur' & s' & Hs' & Hl').
    + apply within_caps_NewRecord; [exact Hk|]. cbn [of_slice default]. rewrite len_nil.
      unfold MaxValueLength. lia.
    + apply ctl_step_NewRecord.
    + apply ctl_step_NewRecord.
    + intros b p. auto.
    + exact HD.
    + exists old', cur'. destruct Hs' as [-> | ->]; exact Hl'.
  - injection HD as <- <-. exists old, cur. exact Hl.
Qed.

Lemma putTxnBegin_laid c Q bc d n old cur t bc' d' :
  wf bc d n -> laid c Q bc d old cur None -> conf bc = c -> conf_ok c -> n + 1 < 2 ^ 32 ->
  putTxnBegin bc d (Some txn_begin_key) t = Ok (bc', d') ->
  exists old' cur', laid c Q bc' d' old' cur' (Some (wrap32 t)).
Proof.
  intros Hwf Hl Hc Hok Hn HP.
  destruct (append_op_laid c Q bc d n old cur None
              (NewTxnBegin (EncodeTxnId t txn_begin_key))
              (Some (wrap32 t)) (Some (wrap32 t)) (fun b p => b) bc' d'
              Hwf Hl Hc Hok Hn) as (old' & cur' & s' & Hs' & Hl').
  - split; cbn [NewTxnBegin newRecord Key Value of_slice default].
    + rewrite len_EncodeTxnId. change (len txn_begin_key) with 9. unfold MaxKeyLength. lia.
    + rewrite len_nil. unfold MaxValueLength. lia.
  - apply ctl_step_Begin.
  - apply ctl_step_Begin.
  - intros b p. auto.
  - exact HP.
  - exists old', cur'. destruct Hs' as [-> | ->]; exact Hl'.
Qed.

Lemma putTxnCommit_laid c Q bc d n old cur s t bc' d' :
  wf bc d n -> laid c Q bc d old cur s -> in_txn t s -> conf bc = c -> conf_ok c ->
  n + 1 < 2 ^ 32 ->
  putTxnCommit bc d (Some txn_commit_key) t = Ok (bc', d') ->
  exists old' cur', laid c Q bc' d' old' cur' None.
Proof.
  intros Hwf Hl Hs Hc Hok Hn HP.
  destruct (append_op_laid c Q bc d n old cur s
              (NewTxnCommit (EncodeTxnId t txn_commit_key))
              None None (fun b p => b) bc' d'
              Hwf Hl Hc Hok Hn) as (old' & cur' & s' & Hs' & Hl').
  - split; cbn [NewTxnCommit newRecord Key Value of_slice default].
    + rewrite len_EncodeTxnId. change (len txn_commit_key) with 10. unfold MaxKeyLength. lia.
    + rewrite len_nil. unfold MaxValueLength. lia.
  - apply ctl_step_Commit, Hs.
  - apply ctl_step_Commit. left. reflexivity.
  - intros b p. auto.
  - exact HP.
  - exists old', cur'. destruct Hs' as [-> | ->]; exact Hl'.
Qed.

Lemma putTxn_laid c Q bc d n old cur s k v t bc' d' :
  wf bc d n -> laid c Q bc d old cur s -> in_txn t s -> conf bc = c -> conf_ok c ->
  n + 1 < 2 ^ 32 -> len k + 4 <= MaxKeyLength -> len v <= MaxValueLength ->
  putTxn bc d (Some k) (Some v) t = Ok (bc', d') ->
  exists old' cur' s', in_txn t s' /\ laid c Q bc' d' old' cur' s'.
Proof.
  intros Hwf Hl Hs Hc Hok Hn Hk Hv HP.
  destruct (append_op_laid c Q bc d n old cur s
              (NewTxnRecord (EncodeTxnId t k) (Some v)) s None
              (fun b p => set_memTable (BTreeIndex.Put k p (memTable b)) b) bc' d'
              Hwf Hl Hc Hok Hn) as (old' & cur' & s' & Hs' & Hl').
  - split; cbn [NewTxnRecord newRecord Key Value of_slice default]; [|exact Hv].
    rewrite len_EncodeTxnId. lia.
  - apply ctl_step_TxnRecord, Hs.
  - apply ctl_step_TxnRecord. left. reflexivity.
  - intros b p. auto.
  - exact HP.
  - exists old', cur', s'. split; [|exact Hl'].
    destruct Hs' as [-> | ->]; [exact Hs | left; reflexivity].
Qed.

Lemma deleteTxn_laid c Q bc d n old cur s key t bc' d' :
  wf bc d n -> laid c Q bc d old cur s -> in_txn t s -> conf bc = c -> conf_ok c ->
  n + 1 < 2 ^ 32 -> len (of_slice key) + 4 <= MaxKeyLength ->
  deleteTxn bc d key t = Ok (bc', d') ->
  exists old' cur' s', in_txn t s' /\ laid c Q bc' d' old' cur' s'.
Proof.
  intros Hwf Hl Hs Hc Hok Hn Hk HD. unfold deleteTxn in HD.
  destruct (BTreeIndex.Get (of_slice key) (memTable bc)) as [pos0|] eqn:EG.
  - destruct (append_op_laid c Q bc d n old cur s
                (NewTxnRecord (EncodeTxnId t (of_slice key)) None) s None
                (fun b p => set_memTable (BTreeIndex.Delete (of_slice key) (memTable b)) b)
                bc' d' Hwf Hl Hc Hok Hn) as (old' & cur' & s' & Hs' & Hl').
    + split; cbn [NewTxnRecord newRecord Key Value of_slice default].
      * rewrite len_EncodeTxnId. lia.
      * rewrite len_nil. unfold MaxValueLength. lia.
    + apply ctl_step_TxnRecord, Hs.
    + apply ctl_step_TxnRecord. left. reflexivity.
    + intros b p. auto.
    + exact HD.
    + exists old', cur', s'. split; [|exact Hl'].
      destruct Hs' as [-> | ->]; [exact Hs | left; reflexivity].
  - injection HD as <- <-. exists old, cur, s. auto.
Qed.

(** * Sessions: commands, and opening the directory again *)

(** ** Merge *)

(** ** Sequences of operations *)

(** ** Batches *)

Lemma Commit_loop_sess c Q m t ks : forall bc d n old cur s,
  good Q c bc d n -> laid c Q bc d old cur s -> in_txn t s -> conf_ok c ->
  n + len ks < 2 ^ 32 ->
  (forall k v, m !! k = Some (Some v) ->
     len k + 4 <= MaxKeyLength /\ len v <= MaxValueLength) ->
  Forall (fun key => key <> None /\ short_key key) ks ->
  exists bc' d' old' cur' s',
    Commit_loop m t ks bc d = Ok (bc', d') /\ good Q c bc' d' (n + len ks) /\
    in_txn t s' /\ laid c Q bc' d' old' cur' s'.
Proof.
  induction ks as [|key ks IH]; intros bc d n old cur s Hg Hl Hs Hc Hn Hm Hks.
  - exists bc, d, old, cur, s. rewrite len_nil, Z.add_0_r. auto.
  - rewrite len_cons in *. pose proof (len_nonneg ks).
    inversion_clear Hks as [|? ? [Hk1 Hsh] Hk2].
    destruct key as [k|]; [|contradiction]. cbn [Commit_loop].
    change (of_slice (Some k)) with k. unfold short_key in Hsh. cbn [of_slice default] in Hsh.
    pose proof Hg as (Hwf & Hinv & Hcf).
    assert (Hstep : exists bc1 d1 old1 cur1 s1,
              match m !! k with
              | Some None => deleteTxn bc d (Some k) t
              | Some (Some value) => putTxn bc d (Some k) (Some value) t
              | None => Ok (bc, d)
              end = Ok (bc1, d1) /\ good Q c bc1 d1 (n + 1) /\
              in_txn t s1 /\ laid c Q bc1 d1 old1 cur1 s1).
    { destruct (m !! k) as [[v|]|] eqn:Em.
      - destruct (Hm _ _ Em) as [Hkl Hvl].
        destruct (putTxn_good Q c bc d n k v t Hg Hc ltac:(lia) Hkl Hvl)
          as (bc1 & d1 & Hp & Hg1).
        destruct (putTxn_laid c Q bc d n old cur s k v t bc1 d1 Hwf Hl Hs Hcf Hc
                    ltac:(lia) Hkl Hvl Hp) as (old1 & cur1 & s1 & Hs1 & Hl1).
        exists bc1, d1, old1, cur1, s1. auto.
      - destruct (deleteTxn_good Q c bc d n (Some k) t Hg Hc ltac:(lia))
          as (bc1 & d1 & Hp & Hg1).
        destruct (deleteTxn_laid c Q bc d n old cur s (Some k) t bc1 d1 Hwf Hl Hs Hcf Hc
                    ltac:(lia) Hsh Hp) as (old1 & cur1 & s1 & Hs1 & Hl1).
        exists bc1, d1, old1, cur1, s1. auto.
      - exists bc, d, old, cur, s. split; [reflexivity|].
        split; [apply (good_mono Q c bc d n); [exact Hg | lia]|]. auto. }
    destruct Hstep as (bc1 & d1 & old1 & cur1 & s1 & Hst & Hg1 & Hs1 & Hl1).
    rewrite Hst. cbn [mbind outcome_bind bind].
    destruct (IH bc1 d1 (n + 1) old1 cur1 s1 Hg1 Hl1 Hs1 Hc ltac:(lia) Hm Hk2)
      as (bc2 & d2 & old2 & cur2 & s2 & Hrun & Hg2 & Hs2 & Hl2).
    exists bc2, d2, old2, cur2, s2. split; [exact Hrun|].
    replace (n + (1 + len ks)) with (n + 1 + len ks) by lia. auto.
Qed.

Lemma Commit_sess c Q b bc d n old cur :
  good Q c bc d n -> laid c Q bc d old cur None -> conf_ok c ->
  n + 2 + len (keys b) < 2 ^ 32 ->
  batch_ok b -> Forall short_key (keys b) -> map_len (mp b) < BatchSize c ->
  exists b' bc' d' old' cur',
    Commit b bc d = Ok (b', bc', d') /\ good Q c bc' d' (n + 2 + len (keys b)) /\
    laid c Q bc' d' old' cur' None.
Proof.
  intros Hg Hl Hc Hn (m & Hmp & Hm & Hks) Hsh Hsz.
  pose proof Hg as (Hwf & _ & Hcf). pose proof (len_nonneg (keys b)).
  unfold Commit. rewrite Hcf, Z.geb_leb.
  rewrite (proj2 (Z.leb_gt (BatchSize c) (map_len (mp b)))) by lia.
  destruct (map_len (mp b) =? 0).
  - exists b, bc, d, old, cur. split; [reflexivity|].
    split; [apply (good_mono Q c bc d n); [exact Hg | lia] | exact Hl].
  - destruct (putTxnBegin_good Q c bc d n (b_txnId b) Hg Hc ltac:(lia))
      as (bc1 & d1 & Hb & Hg1).
    destruct (putTxnBegin_laid c Q bc d n old cur (b_txnId b) bc1 d1 Hwf Hl Hcf Hc
                ltac:(lia) Hb) as (old1 & cur1 & Hl1).
    rewrite Hb. cbn [mbind outcome_bind bind]. rewrite Hmp.
    change (default ∅ (Some m)) with m.
    destruct (Commit_loop_sess c Q m (b_txnId b) (keys b) bc1 d1 (n + 1) old1 cur1
                (Some (wrap32 (b_txnId b))) Hg1 Hl1 ltac:(right; reflexivity) Hc
                ltac:(lia) Hm)
      as (bc2 & d2 & old2 & cur2 & s2 & Hrun & Hg2 & Hs2 & Hl2).
    { rewrite Forall_forall in *. intros key Hin. split; [apply Hks, Hin | apply Hsh, Hin]. }
    rewrite Hrun. cbn [mbind outcome_bind bind].
    destruct (putTxnCommit_good Q c bc2 d2 (n + 1 + len (keys b)) (b_txnId b) Hg2 Hc
                ltac:(lia)) as (bc3 & d3 & Hcm & Hg3).
    pose proof Hg2 as (Hwf2 & _ & Hcf2).
    destruct (putTxnCommit_laid c Q bc2 d2 (n + 1 + len (keys b)) old2 cur2 s2 (b_txnId b)
                bc3 d3 Hwf2 Hl2 Hs2 Hcf2 Hc ltac:(lia) Hcm) as (old3 & cur3 & Hl3).
    rewrite Hcm. cbn [mbind outcome_bind bind].
    eexists _, _, _, old3, cur3. split; [reflexivity|]. split.
    + apply good_set_txnId.
      replace (n + 2 + len (keys b)) with (n + 1 + len (keys b) + 1) by lia. exact Hg3.
    + apply laid_set_txnId; [apply wrap32_range | exact Hl3].
Qed.

Lemma batch_step_short db d b a b' :
  valid_bop a -> short_bop a -> Forall short_key (keys b) ->
  batch_step db d b a = Ok b' -> Forall short_key (keys b').
Proof.
  intros Hv Hs Hk. destruct a as [key value|key]; cbn [batch_step].
  - unfold Batch_Put. destruct (mp b); [|discriminate]. intros H. injection H as <-.
    cbn [keys]. apply Forall_app. split; [exact Hk|]. constructor; [|constructor].
    destruct Hv as (_ & Hkl & _). exact Hkl.
  - unfold Batch_Delete. destruct (Get db d key) as [[gv ok]| |]; try discriminate.
    cbn [mbind outcome_bind bind]. destruct ok; cbn [negb].
    + destruct (mp b); [|discriminate]. intros H. injection H as <-.
      cbn [keys]. apply Forall_app. split; [exact Hk|]. constructor; [exact Hs | constructor].
    + destruct (mp b) as [m|]; [|intros H; injection H as <-; exact Hk].
      destruct (m !! of_slice key); intros H; injection H as <-; exact Hk.
Qed.

Lemma build_batch_short db d l : forall b b',
  Forall valid_bop l -> Forall short_bop l -> Forall short_key (keys b) ->
  build_batch db d b l = Ok b' -> Forall short_key (keys b').
Proof.
  induction l as [|a l IH]; intros b b' Hv Hs Hk Hb; cbn [build_batch] in Hb.
  - injection Hb as <-. exact Hk.
  - inversion_clear Hv as [|? ? Hv1 Hv2]. inversion_clear Hs as [|? ? Hs1 Hs2].
    destruct (batch_step db d b a) as [b1| |] eqn:E; try discriminate.
    cbn [mbind outcome_bind bind] in Hb.
    apply (IH b1 b' Hv2 Hs2); [|exact Hb].
    exact (batch_step_short db d b a b1 Hv1 Hs1 Hk E).
Qed.

(** ** The invariant of a session *)

Lemma exec_cmd_sess c Q x bc d n :
  sess c Q bc d n -> conf_ok c -> n + cmd_writes x < 2 ^ 32 -> valid_act c (Do x) ->
  (forall k, x = Single (OpPut (Some k) None) -> Q k) ->
  exists bc' d', exec_cmd x bc d = Ok (bc', d') /\ sess c Q bc' d' (n + cmd_writes x).
Proof.
  intros (Hg & old & cur & Hl) Hc Hn Hv HQ. pose proof Hg as (Hwf & Hinv & Hcf).
  destruct x as [o|l]; cbn [exec_cmd cmd_writes valid_act] in *.
  - destruct o as [key value|key]; cbn [exec].
    + destruct Hv as (Hk & Hkl & Hvl). destruct key as [k|]; [|contradiction].
      cbn [of_slice default] in Hkl.
      destruct (Put_good Q c bc d n k value Hg Hc Hn Hkl Hvl) as (bc' & d' & HP & Hg').
      { intros ->. apply HQ. reflexivity. }
      destruct (Put_laid c Q bc d n old cur k value bc' d' Hwf Hl Hcf Hc Hn Hkl Hvl HP)
        as (old' & cur' & Hl').
      exists bc', d'. split; [exact HP|]. split; [exact Hg'|]. eauto.
    + destruct (Delete_good Q c bc d n key Hg Hc Hn) as (bc' & d' & HD & Hg').
      destruct (Delete_laid c Q bc d n old cur key bc' d' Hwf Hinv Hl Hcf Hc Hn HD)
        as (old' & cur' & Hl').
      exists bc', d'. split; [exact HD|]. split; [exact Hg'|]. eauto.
  - destruct Hv as (Hv & Hsh & Hsz).
    destruct (build_batch_good Q bc d l (NewBatch bc) Hinv Hv (NewBatch_ok bc))
      as (b & Hb & Hok & Hm & Hk).
    cbn [NewBatch mp keys map_len] in Hm, Hk. rewrite map_size_empty in Hm.
    rewrite len_nil in Hk. pose proof (len_nonneg (keys b)).
    assert (Hshort : Forall short_key (keys b)).
    { apply (build_batch_short bc d l (NewBatch bc) b Hv Hsh); [constructor | exact Hb]. }
    destruct (Commit_sess c Q b bc d n old cur Hg Hl Hc ltac:(lia) Hok Hshort ltac:(lia))
      as (b' & bc' & d' & old' & cur' & HC & Hg' & Hl').
    rewrite Hb. cbn [mbind outcome_bind bind]. rewrite HC. cbn [mbind outcome_bind bind].
    exists bc', d'. split; [reflexivity|]. split; [|eauto].
    apply (good_mono Q c bc' d' (n + 2 + len (keys b))); [exact Hg' | lia].
Qed.

(** ** Opening the directory again *)

Lemma laid_dir_ok c Q bc d n old cur s :
  wf bc d n -> laid c Q bc d old cur s -> dir_ok c Q d (old ++ [cur]).
Proof.
  intros Hwf [Hlen Hfiles Hcaps Hsize Hctl Hcur Hcov Hhint Htxn].
  constructor; try assumption.
  - intros H. apply app_eq_nil in H. destruct H as [_ H]. discriminate H.
  - intros id. rewrite length_app. cbn [length]. split.
    + intros H. apply (wf_files _ _ _ Hwf) in H. lia.
    + intros H.
      destruct (lookup_lt_is_Some_2 (old ++ [cur]) (Z.to_nat id)) as [rs Hrs].
      { rewrite length_app. cbn [length]. lia. }
      pose proof (Hfiles _ _ Hrs) as Hf.
      replace (0 + Z.of_nat (Z.to_nat id)) with id in Hf by lia. rewrite Hf. eauto.
  - apply Forall_app. split; [exact Hctl|]. constructor; [|constructor].
    rewrite Hcur. eauto.
Qed.

Lemma dir_ok_file_size c Q d segs id f :
  dir_ok c Q d segs -> wal_files d !! id = Some f ->
  len f <= MaxFileSize c + MaxRecordLength.
Proof.
  intros [Hne Hdom Hat Hcaps Hsize Hctl Hhint] Hf.
  assert (Hs : is_Some (wal_files d !! id)) by (rewrite Hf; eauto).
  apply Hdom in Hs.
  destruct (lookup_lt_is_Some_2 segs (Z.to_nat id)) as [rs Hrs]; [lia|].
  pose proof (Hat _ _ Hrs) as Hf'.
  replace (0 + Z.of_nat (Z.to_nat id)) with id in Hf' by lia.
  rewrite Hf in Hf'. injection Hf' as ->.
  rewrite Forall_forall in Hsize. apply Hsize. apply list_elem_of_lookup. eauto.
Qed.

(** The entries of the index fit the fields of the hint file. *)
Lemma points_entry_u32 c Q d segs e :
  conf_replay_ok c -> dir_ok c Q d segs -> Z.of_nat (length segs) <= 2 ^ 32 ->
  points d Q e -> entry_u32 e.
Proof.
  intros [Hc0 Hc1] Hdir Hlen (Hk & Hfid & f & rec & Hf & Hrd & _).
  pose proof (dir_ok_file_size c Q d segs _ f Hdir Hf) as Hsz.
  assert (Hs : is_Some (wal_files d !! FileId e.2)) by (rewrite Hf; eauto).
  apply (do_dom _ _ _ _ Hdir) in Hs.
  unfold read_in in Hrd.
  destruct ((Offset e.2 >=? len f) || (Offset e.2 + Length e.2 >? len f)) eqn:E;
    [discriminate|].
  apply orb_false_iff in E. destruct E as [E1 E2].
  rewrite Z.geb_leb, Z.leb_gt in E1. rewrite Z.gtb_ltb, Z.ltb_ge in E2.
  destruct (slice f (Offset e.2) (Offset e.2 + Length e.2)) as [buf| |] eqn:Es;
    try discriminate.
  apply slice_Ok_inv in Es. destruct Es as (H0 & H1 & _).
  pose proof MaxRecordLength_value. pose proof caps_values as [HK _].
  pose proof (len_nonneg e.1).
  unfold entry_u32. repeat split; try lia.
Qed.

Lemma points_same_files d d' Q e :
  wal_files d' = wal_files d -> points d Q e -> points d' Q e.
Proof.
  intros Hw. apply points_ext. intros id f Hf. exists []. rewrite app_nil_r, Hw. exact Hf.
Qed.

Lemma dir_ok_same_files c Q d d' segs :
  wal_files d' = wal_files d -> hint_ok d' Q -> dir_ok c Q d segs -> dir_ok c Q d' segs.
Proof.
  intros Hw Hh [Hne Hdom Hat Hcaps Hsize Hctl _].
  constructor; try assumption.
  - intros id. rewrite Hw. apply Hdom.
  - intros i rs Hi. rewrite Hw. apply Hat, Hi.
Qed.

(** [Close] writes a hint file whose entries point into the directory. *)
Lemma Close_sess c Q bc d n old cur :
  good Q c bc d n -> laid c Q bc d old cur None -> conf_replay_ok c -> n < 2 ^ 32 ->
  exists d1, Close bc d = Ok d1 /\ dir_ok c Q d1 (old ++ [cur]).
Proof.
  intros (Hwf & Hinv & Hcf) Hl Hc Hn.
  pose proof Hwf as [(aw & f & Ha & _) _ _ _ _].
  destruct (Close_disk bc d aw Ha) as (d1 & HC & Hw & Hh).
  exists d1. split; [exact HC|].
  pose proof (laid_dir_ok c Q bc d n old cur None Hwf Hl) as Hdir.
  pose proof (entries_inv_points bc d n Q Hwf Hinv) as Hp.
  apply (dir_ok_same_files c Q d d1 _ Hw); [|exact Hdir].
  unfold hint_ok. rewrite Hh. exists (txnId bc), (memTable bc).
  split; [reflexivity|]. split; [exact (ld_txn _ _ _ _ _ _ _ Hl)|].
  split; [exact (wf_sorted _ _ _ Hwf)|]. split.
  - eapply Forall_impl; [exact Hp|]. intros e He.
    apply (points_entry_u32 c Q d (old ++ [cur]) e Hc Hdir); [|exact He].
    rewrite length_app. cbn [length]. pose proof (ld_len _ _ _ _ _ _ _ Hl).
    pose proof (wf_fileId _ _ _ Hwf). lia.
  - eapply Forall_impl; [exact Hp|]. intros e He. exact (points_same_files d d1 Q e Hw He).
Qed.

Lemma open_sess c Q d old cur n :
  conf_replay_ok c -> LoadHint c = true -> dir_ok c Q d (old ++ [cur]) ->
  ctl_run None cur = Some None -> Z.of_nat (length old) <= n ->
  exists bc', NewBitcask c d = Ok (bc', d) /\ sess c Q bc' d n.
Proof.
  intros Hc Hh Hdir Hcur Hn.
  destruct (open_dir c Q d (old ++ [cur]) n Hc Hh Hdir) as (bc' & Ho & Hg & Hcov & Hfid & Ht).
  { rewrite length_app. cbn [length]. lia. }
  exists bc'. split; [exact Ho|]. split; [exact Hg|]. exists old, cur.
  destruct Hdir as [Hne Hdom Hat Hcaps Hsize Hctl Hhint].
  constructor; try assumption.
  - rewrite Hfid, length_app. cbn [length]. lia.
  - apply Forall_app in Hctl. apply Hctl.
Qed.

Lemma reopen_sess c Q bc d n close :
  sess c Q bc d n -> conf_replay_ok c -> LoadHint c = true -> n < 2 ^ 32 ->
  exists bc' d', exec_act (Reopen close) bc d = Ok (bc', d') /\ sess c Q bc' d' n.
Proof.
  intros (Hg & old & cur & Hl) Hc Hh Hn. pose proof Hg as (Hwf & Hinv & Hcf).
  assert (Hlen : Z.of_nat (length old) <= n).
  { rewrite (ld_len _ _ _ _ _ _ _ Hl). apply (wf_fileId _ _ _ Hwf). }
  destruct close; cbn [exec_act]; rewrite Hcf.
  - destruct (Close_sess c Q bc d n old cur Hg Hl Hc Hn) as (d1 & HC & Hdir).
    rewrite HC. cbn [mbind outcome_bind bind].
    destruct (open_sess c Q d1 old cur n Hc Hh Hdir (ld_cur _ _ _ _ _ _ _ Hl) Hlen)
      as (bc' & Ho & Hs).
    exists bc', d1. auto.
  - pose proof (laid_dir_ok c Q bc d n old cur None Hwf Hl) as Hdir.
    destruct (open_sess c Q d old cur n Hc Hh Hdir (ld_cur _ _ _ _ _ _ _ Hl) Hlen)
      as (bc' & Ho & Hs).
    exists bc', d. auto.
Qed.

Lemma act_writes_nonneg a : 0 <= act_writes a.
Proof. destruct a as [x| |b]; cbn [act_writes]; [pose proof (cmd_writes_pos x)| |]; lia. Qed.

Lemma acts_writes_nonneg l : 0 <= acts_writes l.
Proof.
  induction l as [|a l IH]; cbn [acts_writes fold_right]; [lia|].
  fold (acts_writes l). pose proof (act_writes_nonneg a). lia.
Qed.

Lemma run_acts_sess c Q l : forall bc d n,
  sess c Q bc d n -> conf_replay_ok c -> LoadHint c = true ->
  n + acts_writes l < 2 ^ 32 -> Forall (valid_act c) l ->
  (forall k, puts_nil l k -> Q k) ->
  exists bc' d', run_acts l bc d = Ok (bc', d') /\ sess c Q bc' d' (n + acts_writes l).
Proof.
  induction l as [|a l IH]; intros bc d n Hs Hc Hh Hn Hv HQ.
  - exists bc, d. cbn [acts_writes fold_right]. rewrite Z.add_0_r. auto.
  - cbn [acts_writes fold_right] in *. fold (acts_writes l) in *.
    inversion_clear Hv as [|? ? Hv1 Hv2].
    pose proof (acts_writes_nonneg l). pose proof (act_writes_nonneg a).
    assert (Hstep : exists bc1 d1,
              exec_act a bc d = Ok (bc1, d1) /\ sess c Q bc1 d1 (n + act_writes a)).
    { destruct a as [x| |close].
      - cbn [exec_act act_writes]. apply exec_cmd_sess; auto.
        + apply conf_replay_ok_conf_ok, Hc.
        + cbn [act_writes] in *. lia.
        + intros k ->. apply HQ. left. reflexivity.
      - contradiction.
      - cbn [act_writes]. rewrite Z.add_0_r. apply reopen_sess; auto. lia. }
    destruct Hstep as (bc1 & d1 & He & Hs1).
    destruct (IH bc1 d1 (n + act_writes a) Hs1 Hc Hh ltac:(lia) Hv2) as (bc2 & d2 & Hr & Hs2).
    { intros k Hin. apply HQ. right. exact Hin. }
    exists bc2, d2. cbn [run_acts]. rewrite He. cbn [mbind outcome_bind bind].
    split; [exact Hr|].
    replace (n + (act_writes a + acts_writes l)) with (n + act_writes a + acts_writes l)
      by lia.
    exact Hs2.
Qed.

Lemma fresh_sess c Q : conf_ok c -> sess c Q (fresh_engine c) fresh_dir 0.
Proof.
  intros [Hc0 Hc1]. split; [apply fresh_good|]. exists [], [].
  constructor; cbn [fresh_engine fileId txnId oldWal app length].
  - reflexivity.
  - intros i rs Hi. destruct i as [|i]; [|cbn in Hi; rewrite ?lookup_nil in Hi; discriminate Hi].
    injection Hi as <-. reflexivity.
  - repeat constructor.
  - constructor; [|constructor]. change (len (seg_bytes [])) with 0.
    pose proof MaxRecordLength_value. lia.
  - constructor.
  - reflexivity.
  - intros j Hj. cbn [fresh_engine fileId] in Hj. lia.
  - exact I.
  - lia.
Qed.

(** * The index entries after every operation *)

(** C4 (as amended): with the option [LoadHint] set, starting from an empty
    directory, after any sequence of puts (non-nil key, sizes within the
    limits of the codec), deletes, batch commits (batches below the
    configured size, their keys four bytes shorter than the key limit) and
    openings of the directory, after [Close] or without it, every operation
    succeeds and every entry of the index references a location that lies
    within an existing segment and decodes to a record whose key equals the
    index key; the record is not a tombstone unless the key was put with a
    nil value. As the sequence is arbitrary, this holds after each of its
    operations. Merge is not among them. *)
Theorem C4_index_entries_after_operations_and_opens c acts :
  conf_replay_ok c -> LoadHint c = true ->
  Forall (valid_act c) acts -> acts_writes acts < 2 ^ 32 ->
  exists bc0 d0 bc d,
    NewBitcask c empty_dir = Ok (bc0, d0) /\
    run_acts acts bc0 d0 = Ok (bc, d) /\
    forall k pos, (k, pos) ∈ memTable bc ->
      exists w f rec,
        targetWal bc pos = Ok w /\ wal_files d !! w_fileId w = Some f /\
        0 <= Offset pos /\ Offset pos + Length pos <= len f /\
        ReadPos w d pos = Ok rec /\ Key rec = k /\
        (RecordType_ rec = RecordTypeDelete -> puts_nil acts k).
Proof.
  intros Hc Hh Hv Hn.
  destruct (run_acts_sess c (puts_nil acts) acts (fresh_engine c) fresh_dir 0
              (fresh_sess c _ (conf_replay_ok_conf_ok c Hc)) Hc Hh ltac:(lia) Hv)
    as (bc & d & Hr & (Hwf & Hinv & _) & _).
  { auto. }
  exists (fresh_engine c), fresh_dir, bc, d.
  split; [apply NewBitcask_empty_dir|]. split; [exact Hr|].
  intros k pos Hin.
  apply (Get_Some_elem _ _ _ (wf_sorted _ _ _ Hwf)) in Hin.
  destruct (Hinv _ _ Hin) as (_ & rec & (w & Ht & HR) & Hk & Hq).
  destruct (ReadPos_Ok_bounds _ _ _ _ HR) as (f & Hf & Hb1 & Hb2).
  exists w, f, rec. repeat split; assumption.
Qed.

Lemma C4_index_entries_after_operations_and_opens_witness :
  exists bc0 d0 bc d,
    NewBitcask conf_1024 empty_dir = Ok (bc0, d0) /\
    run_acts session_example bc0 d0 = Ok (bc, d) /\
    forall k pos, (k, pos) ∈ memTable bc ->
      exists w f rec,
        targetWal bc pos = Ok w /\ wal_files d !! w_fileId w = Some f /\
        0 <= Offset pos /\ Offset pos + Length pos <= len f /\
        ReadPos w d pos = Ok rec /\ Key rec = k /\
        (RecordType_ rec = RecordTypeDelete -> puts_nil session_example k).
Proof.
  apply (C4_index_entries_after_operations_and_opens conf_1024 session_example).
  - exact conf_1024_replay_ok.
  - reflexivity.
  - repeat constructor; try discriminate; try (intros H; discriminate H).
  - reflexivity.
Defined.

Example session_example_run :
  ('(bc, d) ← run_acts session_example (fresh_engine conf_1024) fresh_dir;
   Ok (memTable bc)) = Ok [(["d"]%byte, mkPos 0 119 15)].
Proof. vm_compute. reflexivity. Qed.

(** C4 as stated fails in three ways. After [Put key nil] the entry of the
    key references a Delete record. After a merge that removed the segment
    of a deleted key, opening the directory without [Close] in between
    loads the entry of that key from the older hint file: it references a
    segment that is no longer there. With the option [LoadHint] unset, a put
    after opening a directory that holds records gets the offset 0 in its
    entry, where the record of another key lies. *)
Lemma C4_tombstone_merge_and_offset_counterexample :
  (exists bc d,
     run [OpPut (Some key_k) None] (fresh_engine conf_1024) fresh_dir = Ok (bc, d) /\
     ~ index_invariant bc d) /\
  (exists bc d,
     run_acts acts_merge (fresh_engine conf_1024) fresh_dir = Ok (bc, d) /\
     memTable bc = [(["a"]%byte, mkPos 0 0 15)] /\ wal_files d !! 0 = None /\
     ~ index_invariant bc d) /\
  (exists bc d,
     run_acts acts_put_reopen_put (fresh_engine conf_no_replay) fresh_dir = Ok (bc, d) /\
     ~ index_invariant bc d).
Proof.
  split; [|split].
  - eexists _, _. split; [vm_compute; reflexivity|].
    intros Hinv.
    destruct (Hinv key_k (mkPos 0 0 14)) as (w & f & rec & Ht & _ & _ & _ & Hr & Hty & _).
    { apply list_elem_of_In. left. reflexivity. }
    vm_compute in Ht. injection Ht as <-.
    vm_compute in Hr. injection Hr as <-.
    apply Hty. reflexivity.
  - eexists _, _. split; [vm_compute; reflexivity|].
    split; [reflexivity|]. split; [reflexivity|].
    intros Hinv.
    destruct (Hinv ["a"]%byte (mkPos 0 0 15)) as (w & f & rec & Ht & _).
    { apply list_elem_of_In. left. reflexivity. }
    vm_compute in Ht. discriminate Ht.
  - eexists _, _. split; [vm_compute; reflexivity|].
    intros Hinv.
    destruct (Hinv ["b"]%byte (mkPos 0 0 15)) as (w & f & rec & Ht & _ & _ & _ & Hr & _ & Hk).
    { apply list_elem_of_In. left. reflexivity. }
    vm_compute in Ht. injection Ht as <-.
    vm_compute in Hr. injection Hr as <-.
    discriminate Hk.
Qed.
